(** * sysgomon: the sampling-to-visualisation pipeline of [main.go]

    A shallow embedding of the rate computation, the sliding history
    buffers, the adaptive scale, the gauge animation, the process ranking
    and the resize/tick handlers of the event loop, followed by the
    properties established about them.

    Conventions.
    - [float64] is Rocq's primitive binary64 float; every operation is the
      IEEE 754 one, rounded after each step (no fused multiply-add, as on
      amd64 with the default GOAMD64 level).
    - [uint64] and [int] values are integers in [Z]; [uint64] subtraction
      wraps modulo 2^64.
    - A slice is a list; an index or slice expression out of range is a
      run-time panic, rendered as [None] in the [result] monad. *)

From Stdlib Require Import ZArith Lia Floats Ascii String.
From stdpp Require Import base option list strings pretty gmap.

#[local] Set Warnings "-inexact-float".
#[local] Open Scope Z_scope.

(** ** Run-time panics *)

Definition result (A : Type) : Type := option A.
Definition panic {A : Type} : result A := None.
Definition ok {A : Type} (a : A) : result A := Some a.

(** ** Numeric types *)

Abbreviation float64 := PrimFloat.float.

Definition uint64_modulus : Z := 2 ^ 64.

(** [a - b] on [uint64]. *)
Definition sub64 (a b : Z) : Z := (a - b) mod uint64_modulus.

(** [float64(n)] for an integer [n]: round to nearest, ties to even. *)
Definition float64_of_Z (n : Z) : float64 :=
  SF2Prim (binary_normalize prec emax n 0 false).

(** ** Slices *)

Section Slices.
Context {A : Type}.

Definition len (s : list A) : Z := Z.of_nat (length s).

(** [s[i]] *)
Definition index (s : list A) (i : Z) : result A :=
if decide (0 <= i < len s) then s !! Z.to_nat i else panic.

(** [s[i] = v] *)
Definition assign (s : list A) (i : Z) (v : A) : result (list A) :=
if decide (0 <= i < len s) then ok (<[Z.to_nat i := v]> s) else panic.

(** [s[lo:]] *)
Definition slice_from (s : list A) (lo : Z) : result (list A) :=
if decide (0 <= lo <= len s) then ok (drop (Z.to_nat lo) s) else panic.

(** [s[:hi]] *)
Definition slice_to (s : list A) (hi : Z) : result (list A) :=
if decide (0 <= hi <= len s) then ok (take (Z.to_nat hi) s) else panic.

(** [copy(dst[off:], src)] seen from [dst]: the first
[min(len(dst)-off, len(src))] elements of [src] overwrite [dst]
from [off] on. *)
Definition copy_at (dst : list A) (off : Z) (src : list A) : result (list A) :=
tail_ ← slice_from dst off;
let n := Nat.min (length tail_) (length src) in
ok (take (Z.to_nat off) dst ++ take n src ++ drop n tail_).
End Slices.

(** [make([]float64, n)] *)
Definition make_float64 (n : Z) : result (list float64) :=
  if decide (0 <= n) then ok (replicate (Z.to_nat n) 0%float) else panic.

(** ** Helper functions (main.go, 698-725) *)

Definition maxInSlice (values : list float64) : float64 :=
  match values with
  | [] => 0%float
  | v0 :: _ => fold_left (fun mx v => if (mx <? v)%float then v else mx) values v0
  end.

Definition max (a b : float64) : float64 :=
  if (b <? a)%float then a else b.

Definition abs (x : float64) : float64 :=
  if (x <? 0)%float then (- x)%float else x.

(** ** History buffers and adaptive scale of the network graph
       (main.go, 157-162 and 600-630) *)

Record NetworkData := mkNetworkData {
  RxData : list float64;
  TxData : list float64;
  MaxValue : float64
}.

(** The body of the loop of [shiftNetworkData] (and of [shiftDiskData],
    the same loop over the disk series), run [n] times from index [i]. *)
Fixpoint shift_loop (n : nat) (i : Z) (a b : list float64)
  : result (list float64 * list float64) :=
  match n with
  | O => ok (a, b)
  | S n' =>
      x ← index a (i + 1);
      a' ← assign a i x;
      y ← index b (i + 1);
      b' ← assign b i y;
      shift_loop n' (i + 1) a' b'
  end.

Definition shiftNetworkData (netData : NetworkData) : result NetworkData :=
  '(rx, tx) ← shift_loop (Z.to_nat (len (RxData netData) - 1)) 0
                 (RxData netData) (TxData netData);
  ok (mkNetworkData rx tx (MaxValue netData)).

Definition addNetworkData (netData : NetworkData) (rxMbps txMbps : float64)
  : result NetworkData :=
  rx ← assign (RxData netData) (len (RxData netData) - 1) rxMbps;
  tx ← assign (TxData netData) (len (TxData netData) - 1) txMbps;
  ok (mkNetworkData rx tx (MaxValue netData)).

Definition updateNetworkMaxValue (netData : NetworkData) : NetworkData :=
  let currentMax := max (maxInSlice (RxData netData)) (maxInSlice (TxData netData)) in
  let mv := MaxValue netData in
  let mv :=
    if (mv <? currentMax)%float then
      (mv + (currentMax - mv) * 0.3)%float
    else if ((currentMax <? mv * 0.5) && (1.0 <? mv))%float then
      (mv - (mv - currentMax) * 0.05)%float
    else mv in
  let mv := if (mv <? 0.1)%float then 0.1%float else mv in
  mkNetworkData (RxData netData) (TxData netData) mv.

(** ** History buffers and adaptive scale of the disk graph
       (main.go, 164-169 and 649-679) *)

Module Disk.
Record DiskData := mkDiskData {
ReadData : list float64;
WriteData : list float64;
MaxValue : float64
}.
End Disk.
Abbreviation DiskData := Disk.DiskData.
Abbreviation mkDiskData := Disk.mkDiskData.
Abbreviation ReadData := Disk.ReadData.
Abbreviation WriteData := Disk.WriteData.

Definition shiftDiskData (diskData : DiskData) : result DiskData :=
  '(rd, wr) ← shift_loop (Z.to_nat (len (ReadData diskData) - 1)) 0
                 (ReadData diskData) (WriteData diskData);
  ok (mkDiskData rd wr (Disk.MaxValue diskData)).

Definition addDiskData (diskData : DiskData) (readMBps writeMBps : float64)
  : result DiskData :=
  rd ← assign (ReadData diskData) (len (ReadData diskData) - 1) readMBps;
  wr ← assign (WriteData diskData) (len (WriteData diskData) - 1) writeMBps;
  ok (mkDiskData rd wr (Disk.MaxValue diskData)).

Definition updateDiskMaxValue (diskData : DiskData) : DiskData :=
  let currentMax := max (maxInSlice (ReadData diskData)) (maxInSlice (WriteData diskData)) in
  let mv := Disk.MaxValue diskData in
  let mv :=
    if (mv <? currentMax)%float then
      (mv + (currentMax - mv) * 0.3)%float
    else if ((currentMax <? mv * 0.5) && (1.0 <? mv))%float then
      (mv - (mv - currentMax) * 0.05)%float
    else mv in
  let mv := if (mv <? 0.1)%float then 0.1%float else mv in
  mkDiskData (ReadData diskData) (WriteData diskData) mv.

(** ** Conversions between [int] and [float64] *)

Definition int64_min : Z := - 2 ^ 63.
Definition int64_max : Z := 2 ^ 63 - 1.

(** [int(f)]: truncation toward zero.  For a NaN, an infinity or a value
    outside [int64] the Go specification leaves the result to the
    implementation; amd64 yields the smallest [int64]. *)
Definition int_of_float64 (f : float64) : Z :=
  match Prim2SF f with
  | S754_zero _ => 0
  | S754_finite s m e =>
      let z := cond_Zopp s (Z.shiftl (Z.pos m) e) in
      if decide (int64_min <= z <= int64_max) then z else int64_min
  | _ => int64_min
  end.

(** ** Widgets of the rendering surface: the fields the program writes *)

Inductive Color :=
  | ColorClear | ColorRed | ColorGreen | ColorYellow
  | ColorBlue | ColorCyan | ColorWhite.

Record Rectangle := mkRect { MinX : Z; MinY : Z; MaxX : Z; MaxY : Z }.

(** [image.Rect], called by [SetRect]: the corners are put in order. *)
Definition Rect (x0 y0 x1 y1 : Z) : Rectangle :=
  mkRect (Z.min x0 x1) (Z.min y0 y1) (Z.max x0 x1) (Z.max y0 y1).

Definition Dx (r : Rectangle) : Z := MaxX r - MinX r.

Record Gauge := mkGauge {
  Title : string;
  GaugeRect : Rectangle;
  Percent : Z;
  BarColor : Color
}.

Record Paragraph := mkParagraph { Text : string; ParagraphRect : Rectangle }.

(** [widgets.NewGauge()], [widgets.NewParagraph()] *)
Definition NewGauge : Gauge := mkGauge "" (mkRect 0 0 0 0) 0 ColorClear.
Definition NewParagraph : Paragraph := mkParagraph "" (mkRect 0 0 0 0).

(** ** CPU gauges (main.go, 150-155 and 467-598) *)

Record CPUGauge := mkCPUGauge {
  gauge : Gauge;
  CurrentPercent : float64;
  TargetPercent : float64
}.

(** An answer of the metrics provider: the value and whether [err != nil]. *)
Record Resp (A : Type) := mkResp { val : A; failed : bool }.
Arguments mkResp {A} _ _.
Arguments val {A} _.
Arguments failed {A} _.

(** [fmt.Sprintf] with a [%d] verb. *)
Definition sprintf_d (n : Z) : string := pretty n.

(** The body of the loop over the cores in [createCPUGauges]. *)
Definition core_gauge (width cpuCount i : Z) : CPUGauge :=
  let columnWidth := width `quot` 2 in
  let isLeftColumn := bool_decide (i < cpuCount `quot` 2) in
  let xStart := if isLeftColumn then 0 else columnWidth in
  let yOffset := if isLeftColumn then i else i - cpuCount `quot` 2 in
  let xEnd := if isLeftColumn then xStart + columnWidth else width in
  mkCPUGauge
    (mkGauge ("CPU " +:+ sprintf_d (i + 1))
       (Rect xStart (7 + yOffset * 3) xEnd (10 + yOffset * 3)) 0 ColorGreen)
    0 0.

Fixpoint core_gauges_loop (n : nat) (width cpuCount i : Z) (gauges : list CPUGauge)
  : result (list CPUGauge) :=
  match n with
  | O => ok gauges
  | S n' =>
      gauges' ← assign gauges (i + 1) (core_gauge width cpuCount i);
      core_gauges_loop n' width cpuCount (i + 1) gauges'
  end.

Definition createCPUGauges (cpu_Counts : Resp Z) (width : Z)
  : result (Paragraph * list CPUGauge * Z) :=
  let cpuCount := if failed cpu_Counts then 1 else val cpu_Counts in
  let cpuTitle :=
    mkParagraph ("[CPU Utilization (" +:+ sprintf_d cpuCount +:+ " cores)](fg:white,mod:bold)")
                (Rect 0 3 width 4) in
  gauges ← (if decide (0 <= cpuCount + 1)
            then ok (replicate (Z.to_nat (cpuCount + 1)) (mkCPUGauge NewGauge 0 0))
            else panic);
  gauges ← assign gauges 0
             (mkCPUGauge (mkGauge "Avg CPU" (Rect 0 4 width 7) 0 ColorGreen) 0 0);
  gauges ← core_gauges_loop (Z.to_nat cpuCount) width cpuCount 0 gauges;
  let rowsPerColumn := (cpuCount + 1) `quot` 2 in
  let totalHeight := 7 + rowsPerColumn * 3 in
  ok (cpuTitle, gauges, totalHeight).

Definition set_target (g : CPUGauge) (t : float64) : CPUGauge :=
  mkCPUGauge (gauge g) (CurrentPercent g) t.

(** The second loop of [updateCPUTargets], over [percentages] from index [i]. *)
Fixpoint targets_loop (percentages : list float64) (i : Z) (gauges : list CPUGauge)
  : list CPUGauge :=
  match percentages with
  | [] => gauges
  | percent :: rest =>
      let gauges' :=
        if decide (i + 1 < len gauges)
        then alter (fun g => set_target g percent) (Z.to_nat (i + 1)) gauges
        else gauges in
      targets_loop rest (i + 1) gauges'
  end.

Definition updateCPUTargets (cpu_Percent : Resp (list float64)) (gauges : list CPUGauge)
  : result (list CPUGauge) :=
  if failed cpu_Percent then ok gauges
  else
    let percentages := val cpu_Percent in
    let totalPercent := fold_left (fun acc p => (acc + p)%float) percentages 0%float in
    let avgPercent := (totalPercent / float64_of_Z (len percentages))%float in
    g0 ← index gauges 0;
    gauges ← assign gauges 0 (set_target g0 avgPercent);
    ok (targets_loop percentages 0 gauges).

(** The body of the loop of [animateCPUGauges], for one gauge.  The call
    [ui.Render] that ends it draws the gauge and writes none of these
    fields; the drawing belongs to the widget library and is not
    modelled. *)
Definition animate (speed : float64) (g : CPUGauge) : CPUGauge :=
  let diff := (TargetPercent g - CurrentPercent g)%float in
  let current :=
    if (abs diff <? 0.5)%float then TargetPercent g
    else (CurrentPercent g + diff * speed)%float in
  let intPercent := int_of_float64 current in
  let color :=
    if decide (80 <= intPercent) then ColorRed
    else if decide (50 <= intPercent) then ColorYellow
    else ColorGreen in
  mkCPUGauge (mkGauge (Title (gauge g)) (GaugeRect (gauge g)) intPercent color)
             current (TargetPercent g).

Definition animateCPUGauges (gauges : list CPUGauge) (speed : float64) : list CPUGauge :=
  animate speed <$> gauges.

(** ** [sort.Slice] of the Go standard library

    [sortProcesses] hands the process table to [sort.Slice], which is the
    pattern-defeating quicksort of package [sort] (Go 1.19 and later; the
    release workflow builds with Go 1.21).  The functions below follow
    [zsortfunc.go] one for one.  [data.Less(i, j)] is the caller's closure
    applied to the current content of the slice, [data.Swap(i, j)]
    exchanges two elements. *)

Module sort.
Section Pdqsort.
Context {A : Type} `{Inhabited A}.
Variable less : A -> A -> bool.

#[local] Open Scope nat_scope.

Definition Less (data : list A) (i j : nat) : bool :=
less (data !!! i) (data !!! j).

Definition Swap (data : list A) (i j : nat) : list A :=
<[i := data !!! j]> (<[j := data !!! i]> data).

(** for j := i; j > a && data.Less(j, j-1); j-- { data.Swap(j, j-1) } *)
Fixpoint insert_loop (data : list A) (a j : nat) : list A :=
match j with
| O => data
| S j' =>
  if (a <? j) && Less data j j' then insert_loop (Swap data j j') a j'
  else data
end.

(** for i := ...; i < b; i++ { ... }, with [n] iterations left *)
Fixpoint insertion_loop (n : nat) (data : list A) (a i : nat) : list A :=
match n with
| O => data
| S n' => insertion_loop n' (insert_loop data a i) a (S i)
end.

Definition insertionSort_func (data : list A) (a b : nat) : list A :=
insertion_loop (b - (a + 1)) data a (a + 1).

Fixpoint siftDown_loop (fuel : nat) (data : list A) (root hi first : nat) : list A :=
match fuel with
| O => data
| S fuel' =>
  let child := 2 * root + 1 in
  if hi <=? child then data
  else
    let child :=
      if (child + 1 <? hi) && Less data (first + child) (first + child + 1)
      then child + 1 else child in
    if negb (Less data (first + root) (first + child)) then data
    else siftDown_loop fuel' (Swap data (first + root) (first + child)) child hi first
end.

Definition siftDown_func (data : list A) (lo hi first : nat) : list A :=
siftDown_loop hi data lo hi first.

(** for i := (hi - 1) / 2; i >= 0; i-- { siftDown(data, i, hi, first) },
with [n] = i + 1 iterations left *)
Fixpoint heapify_loop (n : nat) (data : list A) (hi first : nat) : list A :=
match n with
| O => data
| S i => heapify_loop i (siftDown_func data i hi first) hi first
end.

(** for i := hi - 1; i >= 0; i-- { Swap(first, first+i); siftDown(data, lo, i, first) } *)
Fixpoint popheap_loop (n : nat) (data : list A) (first : nat) : list A :=
match n with
| O => data
| S i => popheap_loop i (siftDown_func (Swap data first (first + i)) 0 i first) first
end.

Definition heapSort_func (data : list A) (a b : nat) : list A :=
let first := a in
let hi := b - a in
let data := heapify_loop ((hi - 1) / 2 + 1) data hi first in
popheap_loop hi data first.

(** for i <= j && data.Less(i, a) { i++ } *)
Fixpoint scan_up (fuel : nat) (data : list A) (a i j : nat) : nat :=
match fuel with
| O => i
| S fuel' =>
  if (i <=? j) && Less data i a then scan_up fuel' data a (S i) j else i
end.

(** for i <= j && !data.Less(j, a) { j-- } *)
Fixpoint scan_down (fuel : nat) (data : list A) (a i j : nat) : nat :=
match fuel with
| O => j
| S fuel' =>
  if (i <=? j) && negb (Less data j a) then scan_down fuel' data a i (j - 1) else j
end.

Fixpoint partition_loop (fuel : nat) (data : list A) (a i j : nat) : list A * nat :=
match fuel with
| O => (data, j)
| S fuel' =>
  let i := scan_up (S j - i) data a i j in
  let j := scan_down (S j - i) data a i j in
  if j <? i then (data, j)
  else partition_loop fuel' (Swap data i j) a (S i) (j - 1)
end.

Definition partition_func (data : list A) (a b pivot : nat) : list A * nat * bool :=
let data := Swap data a pivot in
let i := a + 1 in
let j := b - 1 in
let i := scan_up (S j - i) data a i j in
let j := scan_down (S j - i) data a i j in
if j <? i then (Swap data j a, j, true)
else
let data := Swap data i j in
let '(data, j) := partition_loop (b - a) data a (S i) (j - 1) in
(Swap data j a, j, false).

(** for i <= j && !data.Less(a, i) { i++ } *)
Fixpoint scan_up_eq (fuel : nat) (data : list A) (a i j : nat) : nat :=
match fuel with
| O => i
| S fuel' =>
  if (i <=? j) && negb (Less data a i) then scan_up_eq fuel' data a (S i) j else i
end.

(** for i <= j && data.Less(a, j) { j-- } *)
Fixpoint scan_down_eq (fuel : nat) (data : list A) (a i j : nat) : nat :=
match fuel with
| O => j
| S fuel' =>
  if (i <=? j) && Less data a j then scan_down_eq fuel' data a i (j - 1) else j
end.

Fixpoint partitionEqual_loop (fuel : nat) (data : list A) (a i j : nat) : list A * nat :=
match fuel with
| O => (data, i)
| S fuel' =>
  let i := scan_up_eq (S j - i) data a i j in
  let j := scan_down_eq (S j - i) data a i j in
  if j <? i then (data, i)
  else partitionEqual_loop fuel' (Swap data i j) a (S i) (j - 1)
end.

Definition partitionEqual_func (data : list A) (a b pivot : nat) : list A * nat :=
let data := Swap data a pivot in
partitionEqual_loop (b - a) data a (a + 1) (b - 1).

(** for i < b && !data.Less(i, i-1) { i++ } *)
Fixpoint skip_sorted (fuel : nat) (data : list A) (i b : nat) : nat :=
match fuel with
| O => i
| S fuel' =>
  if (i <? b) && negb (Less data i (i - 1)) then skip_sorted fuel' data (S i) b else i
end.

(** for j := i - 1; j >= 1; j-- { if !data.Less(j, j-1) { break }; data.Swap(j, j-1) } *)
Fixpoint shift_left (data : list A) (j : nat) : list A :=
match j with
| O => data
| S j' => if negb (Less data j j') then data else shift_left (Swap data j j') j'
end.

(** for j := i + 1; j < b; j++ { if !data.Less(j, j-1) { break }; data.Swap(j, j-1) } *)
Fixpoint shift_right (fuel : nat) (data : list A) (j b : nat) : list A :=
match fuel with
| O => data
| S fuel' =>
  if b <=? j then data
  else if negb (Less data j (j - 1)) then data
  else shift_right fuel' (Swap data j (j - 1)) (S j) b
end.

Definition maxSteps : nat := 5.
Definition shortestShifting : nat := 50.

(** The loop over [j < maxSteps] of [partialInsertionSort_func]. *)
Fixpoint partialInsertion_loop (steps : nat) (data : list A) (a b i : nat)
: list A * bool :=
match steps with
| O => (data, false)
| S steps' =>
  let i := skip_sorted (b - i) data i b in
  if i =? b then (data, true)
  else if b - a <? shortestShifting then (data, false)
  else
    let data := Swap data i (i - 1) in
    let data := if 2 <=? i - a then shift_left data (i - 1) else data in
    let data := if 2 <=? b - i then shift_right (b - i) data (i + 1) b else data in
    partialInsertion_loop steps' data a b i
end.

Definition partialInsertionSort_func (data : list A) (a b : nat) : list A * bool :=
partialInsertion_loop maxSteps data a b (a + 1).

(** [xorshift.Next] on a 64-bit state. *)
Definition xorshift_Next (r : Z) : Z :=
let r := Z.lxor r (Z.shiftl r 13 mod 2 ^ 64) in
let r := Z.lxor r (Z.shiftr r 17) in
Z.lxor r (Z.shiftl r 5 mod 2 ^ 64).

(** [bits.Len(uint(n))] *)
Definition bits_Len (n : nat) : nat :=
match n with
| O => 0
| _ => S (Nat.log2 n)
end.

Definition nextPowerOfTwo (length : nat) : nat := 2 ^ bits_Len length.

(** for i := 0; i < 3; i++ { ... }, with [n] iterations left *)
Fixpoint breakPatterns_loop (n : nat) (data : list A) (a length idx i : nat)
(random : Z) : list A :=
match n with
| O => data
| S n' =>
  let random := xorshift_Next random in
  let other := Z.to_nat (Z.land random (Z.of_nat (nextPowerOfTwo length) - 1)) in
  let other := if length <=? other then other - length else other in
  breakPatterns_loop n' (Swap data (idx - 1 + i) (a + other)) a length idx (S i) random
end.

Definition breakPatterns_func (data : list A) (a b : nat) : list A :=
let length := b - a in
if 8 <=? length then
let idx := a + (length / 4) * 2 - 1 in
breakPatterns_loop 3 data a length idx 0 (Z.of_nat length)
else data.

Inductive sortedHint := unknownHint | increasingHint | decreasingHint.

(** [order2_func]: the two indices in order, and the swap counter. *)
Definition order2_func (data : list A) (a b swaps : nat) : nat * nat * nat :=
if Less data b a then (b, a, S swaps) else (a, b, swaps).

Definition median_func (data : list A) (a b c swaps : nat) : nat * nat :=
let '(a, b, swaps) := order2_func data a b swaps in
let '(b, c, swaps) := order2_func data b c swaps in
let '(a, b, swaps) := order2_func data a b swaps in
(b, swaps).

Definition medianAdjacent_func (data : list A) (a swaps : nat) : nat * nat :=
median_func data (a - 1) a (a + 1) swaps.

Definition shortestNinther : nat := 50.
Definition maxSwaps : nat := 4 * 3.

Definition choosePivot_func (data : list A) (a b : nat) : nat * sortedHint :=
let l := b - a in
let swaps := 0 in
let i := a + l / 4 * 1 in
let j := a + l / 4 * 2 in
let k := a + l / 4 * 3 in
let '(j, swaps) :=
if 8 <=? l then
  let '(i, j, k, swaps) :=
    if shortestNinther <=? l then
      let '(i, swaps) := medianAdjacent_func data i swaps in
      let '(j, swaps) := medianAdjacent_func data j swaps in
      let '(k, swaps) := medianAdjacent_func data k swaps in
      (i, j, k, swaps)
    else (i, j, k, swaps) in
  median_func data i j k swaps
else (j, swaps) in
if swaps =? 0 then (j, increasingHint)
else if swaps =? maxSwaps then (j, decreasingHint)
else (j, unknownHint).

(** for i < j { data.Swap(i, j); i++; j-- } *)
Fixpoint reverse_loop (fuel : nat) (data : list A) (i j : nat) : list A :=
match fuel with
| O => data
| S fuel' =>
  if i <? j then reverse_loop fuel' (Swap data i j) (S i) (j - 1) else data
end.

Definition reverseRange_func (data : list A) (a b : nat) : list A :=
reverse_loop (b - a) data a (b - 1).

Definition maxInsertion : nat := 12.

Definition hint_eqb (h1 h2 : sortedHint) : bool :=
match h1, h2 with
| unknownHint, unknownHint | increasingHint, increasingHint
| decreasingHint, decreasingHint => true
| _, _ => false
end.

(** [pdqsort_func]: one unit of [fuel] is spent by every turn of its
loop, and the recursive call receives what is left. *)
Fixpoint pdqsort_func (fuel : nat) (data : list A) (a b limit : nat)
(wasBalanced wasPartitioned : bool) : list A :=
match fuel with
| O => data
| S fuel' =>
  let length := b - a in
  if length <=? maxInsertion then insertionSort_func data a b
  else if limit =? 0 then heapSort_func data a b
  else
    let '(data, limit) :=
      if negb wasBalanced then (breakPatterns_func data a b, limit - 1)
      else (data, limit) in
    let '(pivot, hint) := choosePivot_func data a b in
    let '(data, pivot, hint) :=
      if hint_eqb hint decreasingHint then
        (reverseRange_func data a b, (b - 1) - (pivot - a), increasingHint)
      else (data, pivot, hint) in
    let '(data, done) :=
      if wasBalanced && wasPartitioned && hint_eqb hint increasingHint
      then partialInsertionSort_func data a b
      else (data, false) in
    if done then data
    else if (0 <? a) && negb (Less data (a - 1) pivot) then
      let '(data, mid) := partitionEqual_func data a b pivot in
      pdqsort_func fuel' data mid b limit wasBalanced wasPartitioned
    else
      let '(data, mid, alreadyPartitioned) := partition_func data a b pivot in
      let wasPartitioned := alreadyPartitioned in
      let leftLen := mid - a in
      let rightLen := b - mid in
      let balanceThreshold := length / 8 in
      if leftLen <? rightLen then
        let wasBalanced := balanceThreshold <=? leftLen in
        let data := pdqsort_func fuel' data a mid limit true true in
        pdqsort_func fuel' data (mid + 1) b limit wasBalanced wasPartitioned
      else
        let wasBalanced := balanceThreshold <=? rightLen in
        let data := pdqsort_func fuel' data (mid + 1) b limit true true in
        pdqsort_func fuel' data a mid limit wasBalanced wasPartitioned
end.

(** [sort.Slice(x, less)] *)
Definition Slice (x : list A) : list A :=
let length := length x in
let limit := bits_Len length in
pdqsort_func (S length) x 0 length limit true true.
End Pdqsort.
End sort.

(** ** Text formatting

    The floating-point verbs of [fmt.Sprintf] are left to an interface;
    the rest of each format string is spelled out where it is used. *)

Class Formatter := {
  sprintf_1f : float64 -> string;   (* %.1f *)
  sprintf_2f : float64 -> string;   (* %.2f *)
  sprintf_8_2f : float64 -> string  (* %8.2f *)
}.

(** for n := bytes / unit; n >= unit; n /= unit { div *= unit; exp++ } *)
Fixpoint formatBytes_loop (fuel : nat) (n div_ exp : Z) : Z * Z :=
  match fuel with
  | O => (div_, exp)
  | S fuel' =>
      if decide (1024 <= n) then formatBytes_loop fuel' (n `quot` 1024) (div_ * 1024) (exp + 1)
      else (div_, exp)
  end.

Definition formatBytes `{Formatter} (bytes : Z) : result string :=
  if decide (bytes < 1024) then ok (sprintf_d bytes +:+ " B")
  else
    let '(div_, exp) := formatBytes_loop 7 (bytes `quot` 1024) 1024 0 in
    c ← index (String.list_ascii_of_string "KMGTPE") exp;
    ok (sprintf_1f (float64_of_Z bytes / float64_of_Z div_)%float
          +:+ " " +:+ String c EmptyString +:+ "B").

(** ** Process list (main.go, 19-148) *)

Record ProcessInfo := mkProcessInfo {
  PID : Z;
  Name : string;
  CPU : float64;
  Memory : float64;
  Command : string
}.

#[export] Instance ProcessInfo_inhabited : Inhabited ProcessInfo :=
  populate (mkProcessInfo 0 "" 0 0 "").

Record ProcessList := mkProcessList {
  ProcessListRect : Rectangle;
  ColumnWidths : list Z;
  Rows : list (list string);
  Processes : list ProcessInfo
}.

(** A process handle of the metrics provider with the answers of its
    four queries. *)
Record Process := mkProcess {
  Pid : Z;
  p_Name : Resp string;
  p_CPUPercent : Resp float64;
  p_MemoryPercent : Resp float64;
  p_Cmdline : Resp string
}.

Definition updateColumnWidths (pl : ProcessList) (width : Z) : ProcessList :=
  mkProcessList (ProcessListRect pl)
    [ int_of_float64 (float64_of_Z width * 0.2);
      int_of_float64 (float64_of_Z width * 0.1);
      int_of_float64 (float64_of_Z width * 0.1);
      int_of_float64 (float64_of_Z width * 0.6) ]
    (Rows pl) (Processes pl).

Definition createProcessList (x y width height : Z) : ProcessList :=
  updateColumnWidths
    (mkProcessList (Rect x y width height) [] [["Name"; "CPU%"; "Mem%"; "Command"]] [])
    width.

(** [None] stands for the error return. *)
Definition getProcessInfo (p : Process) : option ProcessInfo :=
  if failed (p_Name p) then None
  else if failed (p_CPUPercent p) then None
  else if failed (p_MemoryPercent p) then None
  else
    let name := val (p_Name p) in
    let cmd := if failed (p_Cmdline p) then name else val (p_Cmdline p) in
    Some (mkProcessInfo (Pid p) name (val (p_CPUPercent p)) (val (p_MemoryPercent p)) cmd).

(** [None] stands for the error return, which leaves [pl] as it was. *)
Definition collectProcessInfo (process_Processes : Resp (list Process)) (pl : ProcessList)
  : option ProcessList :=
  if failed process_Processes then None
  else
    Some (mkProcessList (ProcessListRect pl) (ColumnWidths pl) (Rows pl)
            (omap getProcessInfo (val process_Processes))).

Definition sortProcesses (pl : ProcessList) : ProcessList :=
  mkProcessList (ProcessListRect pl) (ColumnWidths pl) (Rows pl)
    (sort.Slice (fun pi pj => (CPU pj <? CPU pi)%float) (Processes pl)).

Definition strlen (s : string) : Z := Z.of_nat (String.length s).

Definition formatCommand (cmd : string) (width : Z) : result string :=
  if decide (strlen cmd > width) then
    if decide (0 <= width - 3 <= strlen cmd)
    then ok (String.substring 0 (Z.to_nat (width - 3)) cmd +:+ "...")
    else panic
  else ok cmd.

Definition process_row `{Formatter} (commandWidth : Z) (p : ProcessInfo)
  : result (list string) :=
  cmd ← formatCommand (Command p) commandWidth;
  ok [Name p; sprintf_1f (CPU p); sprintf_1f (Memory p); cmd].

Definition ProcessList_update `{Formatter} (process_Processes : Resp (list Process))
    (pl : ProcessList) : result ProcessList :=
  let pl := updateColumnWidths pl (Dx (ProcessListRect pl)) in
  match collectProcessInfo process_Processes pl with
  | None =>
      ok (mkProcessList (ProcessListRect pl) (ColumnWidths pl)
            [["Error getting processes"]] (Processes pl))
  | Some pl =>
      let pl := sortProcesses pl in
      let availableWidth := Dx (ProcessListRect pl) - 2 in
      let commandWidth := int_of_float64 (float64_of_Z availableWidth * 0.6) in
      rows ← mapM (process_row commandWidth) (Processes pl);
      ok (mkProcessList (ProcessListRect pl) (ColumnWidths pl)
            (["Name"; "CPU%"; "Mem%"; "Command"] :: rows) (Processes pl))
  end.

(** ** The event loop (main.go, 171-465) *)

Record Plot := mkPlot {
  PlotTitle : string;
  DataLabels : list string;
  PlotRect : Rectangle
}.
(** [Plot.Data[0]] and [Plot.Data[1]] are the two history slices
    themselves (they are assigned, not copied), so a plot shows the
    buffers of its [NetworkData] or [DiskData]. *)

Record IOCountersStat := mkNetIO { BytesRecv : Z; BytesSent : Z }.

Record DiskIOCountersStat := mkDiskIO { ReadBytes : Z; WriteBytes : Z }.

(** [time.Time] as a reading in nanoseconds; [time.Duration] is an
    [int64] count of nanoseconds. *)
Definition Time := Z.

(** [t.Sub(u)], which saturates. *)
Definition Sub (t u : Time) : Z :=
  Z.max int64_min (Z.min int64_max (t - u)).

(** [d.Seconds()] *)
Definition Seconds (d : Z) : float64 :=
  let sec := d `quot` 1000000000 in
  let nsec := d `rem` 1000000000 in
  (float64_of_Z sec + float64_of_Z nsec / 1e9)%float.

Record Loop := mkLoop {
  termWidth : Z;
  termHeight : Z;
  header : Paragraph;
  cpuTitle : Paragraph;
  cpuGauges : list CPUGauge;
  cpuHeight : Z;
  netStats : Paragraph;
  netGraph : Plot;
  netData : NetworkData;
  diskStats : Paragraph;
  diskGraph : Plot;
  diskData : DiskData;
  processList : ProcessList;
  footer : Paragraph;
  prevNetIOStats : IOCountersStat;
  lastNetworkUpdate : Time;
  prevDiskIOStats : gmap string DiskIOCountersStat;
  lastDiskUpdate : Time
}.

Definition animationSpeed : float64 := 0.03%float.

(** What the program reads from its surroundings before the loop. *)
Record InitEnv := mkInitEnv {
  init_TerminalDimensions : Z * Z;
  init_cpu_Counts : Resp Z;
  init_net_IOCounters : Resp (list IOCountersStat);
  init_net_now : Time;
  init_disk_IOCounters : Resp (list (string * DiskIOCountersStat));
  init_disk_now : Time;
  init_headerText : string
}.

(** What the program reads during one tick.  [disk_IOCounters] lists the
    entries of the returned map in the order the [range] loop visits
    them. *)
Record TickEnv := mkTickEnv {
  cpu_Percent : Resp (list float64);
  now : Time;
  net_IOCounters : Resp (list IOCountersStat);
  disk_IOCounters : Resp (list (string * DiskIOCountersStat));
  process_Processes : Resp (list Process)
}.

Definition dataPointCount_of (termWidth : Z) : Z :=
  if decide (termWidth < 100) then 100 else termWidth.

(** main.go, 171-303 (after [ui.Init] has succeeded). *)
Definition init (env : InitEnv) : result Loop :=
  let '(termWidth, termHeight) := init_TerminalDimensions env in
  let header := mkParagraph (init_headerText env) (Rect 0 0 termWidth 3) in
  '(cpuTitle, cpuGauges, cpuHeight) ← createCPUGauges (init_cpu_Counts env) termWidth;
  let netStats := mkParagraph "" (Rect 0 cpuHeight termWidth (cpuHeight + 4)) in
  let netGraph :=
    mkPlot "Network Traffic History (Mbps)" []
      (Rect 0 (MaxY (ParagraphRect netStats)) termWidth (MaxY (ParagraphRect netStats) + 9)) in
  let dataPointCount := dataPointCount_of termWidth in
  rx ← make_float64 dataPointCount;
  tx ← make_float64 dataPointCount;
  let netData := mkNetworkData rx tx 0.1 in
  let diskStats :=
    mkParagraph "" (Rect 0 (MaxY (PlotRect netGraph)) termWidth (MaxY (PlotRect netGraph) + 4)) in
  let diskGraph :=
    mkPlot "Disk I/O History (MB/s)" []
      (Rect 0 (MaxY (ParagraphRect diskStats)) termWidth (MaxY (ParagraphRect diskStats) + 9)) in
  rd ← make_float64 dataPointCount;
  wr ← make_float64 dataPointCount;
  let diskData := mkDiskData rd wr 0.1 in
  let processList :=
    createProcessList 0 (MaxY (PlotRect diskGraph)) termWidth (termHeight - 1) in
  let footer :=
    mkParagraph "[Press q to quit](fg:red)" (Rect 0 (termHeight - 1) termWidth termHeight) in
  (* the error of net.IOCounters is logged, nothing more *)
  prevNetIOStats ← index (val (init_net_IOCounters env)) 0;
  let lastNetworkUpdate := init_net_now env in
  (* the error of disk.IOCounters is logged, nothing more *)
  let prevDiskIOStats :=
    fold_left (fun m '(name, stat) => <[name := stat]> m)
              (val (init_disk_IOCounters env)) (∅ : gmap string DiskIOCountersStat) in
  let lastDiskUpdate := init_disk_now env in
  ok (mkLoop termWidth termHeight header cpuTitle cpuGauges cpuHeight
        netStats netGraph netData diskStats diskGraph diskData processList footer
        prevNetIOStats lastNetworkUpdate prevDiskIOStats lastDiskUpdate).

(** The growth of one pair of history buffers on a resize
    (main.go, 335-348 for the network pair, 351-364 for the disk pair):
    [a] is the series whose length is tested. *)
Definition grow_pair (dataPointCount : Z) (a b : list float64)
  : result (list float64 * list float64) :=
  if decide (dataPointCount > len a) then
    newA ← make_float64 dataPointCount;
    newB ← make_float64 dataPointCount;
    newA ← copy_at newA (dataPointCount - len a) a;
    newB ← copy_at newB (dataPointCount - len b) b;
    ok (newA, newB)
  else ok (a, b).

(** The ["<Resize>"] case (main.go, 316-380). *)
Definition resize (cpu_Counts : Resp Z) (width height : Z) (st : Loop) : result Loop :=
  let termWidth := width in
  let termHeight := height in
  let header := mkParagraph (Text (header st)) (Rect 0 0 termWidth 3) in
  '(cpuTitle, cpuGauges, cpuHeight) ← createCPUGauges cpu_Counts termWidth;
  let netStats :=
    mkParagraph (Text (netStats st)) (Rect 0 cpuHeight termWidth (cpuHeight + 4)) in
  let netGraph :=
    mkPlot (PlotTitle (netGraph st)) (DataLabels (netGraph st))
      (Rect 0 (MaxY (ParagraphRect netStats)) termWidth (MaxY (ParagraphRect netStats) + 9)) in
  let dataPointCount := dataPointCount_of termWidth in
  '(rx, tx) ← grow_pair dataPointCount (RxData (netData st)) (TxData (netData st));
  let netData := mkNetworkData rx tx (MaxValue (netData st)) in
  '(rd, wr) ← grow_pair dataPointCount (ReadData (diskData st)) (WriteData (diskData st));
  let diskData := mkDiskData rd wr (Disk.MaxValue (diskData st)) in
  let diskStats :=
    mkParagraph (Text (diskStats st))
      (Rect 0 (MaxY (PlotRect netGraph)) termWidth (MaxY (PlotRect netGraph) + 4)) in
  let diskGraph :=
    mkPlot (PlotTitle (diskGraph st)) (DataLabels (diskGraph st))
      (Rect 0 (MaxY (ParagraphRect diskStats)) termWidth (MaxY (ParagraphRect diskStats) + 9)) in
  let processList :=
    mkProcessList (Rect 0 (MaxY (PlotRect diskGraph)) termWidth (termHeight - 1))
      (ColumnWidths (processList st)) (Rows (processList st)) (Processes (processList st)) in
  let footer := mkParagraph (Text (footer st)) (Rect 0 (termHeight - 1) termWidth termHeight) in
  ok (mkLoop termWidth termHeight header cpuTitle cpuGauges cpuHeight
        netStats netGraph netData diskStats diskGraph diskData processList footer
        (prevNetIOStats st) (lastNetworkUpdate st) (prevDiskIOStats st) (lastDiskUpdate st)).

Section Tick.
Context `{Formatter}.

Definition updateNetworkGraphDisplay (netData : NetworkData) (rxMbps txMbps : float64)
(graph : Plot) : Plot :=
let timeSpan := len (RxData netData) `quot` 2 in
mkPlot
("Network Traffic History (last ~" +:+ sprintf_d timeSpan +:+ " seconds) - Max: "
   +:+ sprintf_1f (MaxValue netData) +:+ " Mbps")
[ "In (" +:+ sprintf_1f rxMbps +:+ " Mbps)";
  "Out (" +:+ sprintf_1f txMbps +:+ " Mbps)" ]
(PlotRect graph).

Definition updateNetworkGraph (netData : NetworkData) (rxMbps txMbps : float64)
(graph : Plot) : result (NetworkData * Plot) :=
netData ← shiftNetworkData netData;
netData ← addNetworkData netData rxMbps txMbps;
let netData := updateNetworkMaxValue netData in
ok (netData, updateNetworkGraphDisplay netData rxMbps txMbps graph).

Definition updateDiskGraphDisplay (diskData : DiskData) (readMBps writeMBps : float64)
(graph : Plot) : Plot :=
let timeSpan := len (ReadData diskData) `quot` 2 in
mkPlot
("Disk I/O History (last ~" +:+ sprintf_d timeSpan +:+ " seconds) - Max: "
   +:+ sprintf_2f (Disk.MaxValue diskData) +:+ " MB/s")
[ "Read (" +:+ sprintf_2f readMBps +:+ " MB/s)";
  "Write (" +:+ sprintf_2f writeMBps +:+ " MB/s)" ]
(PlotRect graph).

Definition updateDiskGraph (diskData : DiskData) (readMBps writeMBps : float64)
(graph : Plot) : result (DiskData * Plot) :=
diskData ← shiftDiskData diskData;
diskData ← addDiskData diskData readMBps writeMBps;
let diskData := updateDiskMaxValue diskData in
ok (diskData, updateDiskGraphDisplay diskData readMBps writeMBps graph).

(** A run of ticks seen from one graph: the samples are handed to
[updateNetworkGraph] (resp. [updateDiskGraph]) one after the other. *)
Fixpoint feedNetworkGraph (netData : NetworkData) (graph : Plot)
(samples : list (float64 * float64)) : result (NetworkData * Plot) :=
match samples with
| [] => ok (netData, graph)
| (rxMbps, txMbps) :: rest =>
  '(netData, graph) ← updateNetworkGraph netData rxMbps txMbps graph;
  feedNetworkGraph netData graph rest
end.

Fixpoint feedDiskGraph (diskData : DiskData) (graph : Plot)
(samples : list (float64 * float64)) : result (DiskData * Plot) :=
match samples with
| [] => ok (diskData, graph)
| (readMBps, writeMBps) :: rest =>
  '(diskData, graph) ← updateDiskGraph diskData readMBps writeMBps graph;
  feedDiskGraph diskData graph rest
end.

(** float64(curr - prev) / duration, on [uint64] counters
(main.go, 394-395 and 431-432). *)
Definition bytesPerSec (curr prev : Z) (duration : float64) : float64 :=
(float64_of_Z (sub64 curr prev) / duration)%float.

(** main.go, 384-388 *)
Definition tick_cpu (env : TickEnv) (st : Loop) : result Loop :=
gauges ← updateCPUTargets (cpu_Percent env) (cpuGauges st);
let gauges := animateCPUGauges gauges animationSpeed in
ok (mkLoop (termWidth st) (termHeight st) (header st) (cpuTitle st) gauges (cpuHeight st)
    (netStats st) (netGraph st) (netData st) (diskStats st) (diskGraph st) (diskData st)
    (processList st) (footer st)
    (prevNetIOStats st) (lastNetworkUpdate st) (prevDiskIOStats st) (lastDiskUpdate st)).

(** main.go, 391-420 *)
Definition tick_network (env : TickEnv) (st : Loop) : result Loop :=
if failed (net_IOCounters env) then ok st
else
let netIOCounters := val (net_IOCounters env) in
let duration := Seconds (Sub (now env) (lastNetworkUpdate st)) in
c0 ← index netIOCounters 0;
let rxBytesPerSec := bytesPerSec (BytesRecv c0) (BytesRecv (prevNetIOStats st)) duration in
let txBytesPerSec := bytesPerSec (BytesSent c0) (BytesSent (prevNetIOStats st)) duration in
let rxMbps := (rxBytesPerSec * 8 / 1000000)%float in
let txMbps := (txBytesPerSec * 8 / 1000000)%float in
totalIn ← formatBytes (BytesRecv c0);
totalOut ← formatBytes (BytesSent c0);
let newText :=
  "[In:  ](fg:green) " +:+ sprintf_8_2f rxMbps +:+ " Mbps  [Out: ](fg:blue) "
    +:+ sprintf_8_2f txMbps +:+ " Mbps  [Total In: ](fg:cyan) " +:+ totalIn
    +:+ "  [Total Out:](fg:cyan) " +:+ totalOut in
let netStats :=
  if decide (newText ≠ Text (netStats st))
  then mkParagraph newText (ParagraphRect (netStats st))
  else netStats st in
'(netData, netGraph) ← updateNetworkGraph (netData st) rxMbps txMbps (netGraph st);
ok (mkLoop (termWidth st) (termHeight st) (header st) (cpuTitle st) (cpuGauges st)
      (cpuHeight st) netStats netGraph netData
      (diskStats st) (diskGraph st) (diskData st) (processList st) (footer st)
      c0 (now env) (prevDiskIOStats st) (lastDiskUpdate st)).

(** The body of the loop over the disks (main.go, 429-446); the
accumulator holds [diskText], the two totals and [prevDiskIOStats]. *)
Definition disk_step (duration : float64)
(acc : string * float64 * float64 * gmap string DiskIOCountersStat)
(entry : string * DiskIOCountersStat)
: string * float64 * float64 * gmap string DiskIOCountersStat :=
let '(diskText, totalReadMBps, totalWriteMBps, prevDiskIOStats) := acc in
let '(name, stat) := entry in
let '(diskText, totalReadMBps, totalWriteMBps) :=
match prevDiskIOStats !! name with
| Some prev =>
    let readBytesPerSec :=
      (bytesPerSec (ReadBytes stat) (ReadBytes prev) duration / 1024 / 1024)%float in
    let writeBytesPerSec :=
      (bytesPerSec (WriteBytes stat) (WriteBytes prev) duration / 1024 / 1024)%float in
    let diskText :=
      if decide (strlen diskText > 0) then diskText +:+ String "010"%char EmptyString
      else diskText in
    (diskText +:+ "[" +:+ name +:+ "](fg:yellow) Read: [" +:+ sprintf_2f readBytesPerSec
       +:+ " MB/s](fg:green) Write: [" +:+ sprintf_2f writeBytesPerSec +:+ " MB/s](fg:red)",
     (totalReadMBps + readBytesPerSec)%float,
     (totalWriteMBps + writeBytesPerSec)%float)
| None => (diskText, totalReadMBps, totalWriteMBps)
end in
(diskText, totalReadMBps, totalWriteMBps, <[name := stat]> prevDiskIOStats).

(** main.go, 422-458 *)
Definition tick_disk (env : TickEnv) (st : Loop) : result Loop :=
if failed (disk_IOCounters env) then ok st
else
let duration := Seconds (Sub (now env) (lastDiskUpdate st)) in
let '(diskText, totalReadMBps, totalWriteMBps, prevDiskIOStats) :=
  fold_left (disk_step duration) (val (disk_IOCounters env))
            ("", 0%float, 0%float, prevDiskIOStats st) in
let diskStats :=
  if decide (diskText ≠ Text (diskStats st))
  then mkParagraph diskText (ParagraphRect (diskStats st))
  else diskStats st in
'(diskData, diskGraph) ←
  updateDiskGraph (diskData st) totalReadMBps totalWriteMBps (diskGraph st);
ok (mkLoop (termWidth st) (termHeight st) (header st) (cpuTitle st) (cpuGauges st)
      (cpuHeight st) (netStats st) (netGraph st) (netData st)
      diskStats diskGraph diskData (processList st) (footer st)
      (prevNetIOStats st) (lastNetworkUpdate st) prevDiskIOStats (now env)).

(** main.go, 460-462 *)
Definition tick_processes (env : TickEnv) (st : Loop) : result Loop :=
processList ← ProcessList_update (process_Processes env) (processList st);
ok (mkLoop (termWidth st) (termHeight st) (header st) (cpuTitle st) (cpuGauges st)
    (cpuHeight st) (netStats st) (netGraph st) (netData st)
    (diskStats st) (diskGraph st) (diskData st) processList (footer st)
    (prevNetIOStats st) (lastNetworkUpdate st) (prevDiskIOStats st) (lastDiskUpdate st)).

(** The [<-ticker] case (main.go, 383-463). *)
Definition tick (env : TickEnv) (st : Loop) : result Loop :=
st ← tick_cpu env st;
st ← tick_network env st;
st ← tick_disk env st;
tick_processes env st.

(** One turn of the event loop. *)
Inductive Input :=
| KeyQuit                                       (* "q", "<C-c>" *)
| ResizeEvent (cpu_Counts : Resp Z) (Width Height : Z)
| OtherEvent
| TickerFired (env : TickEnv).

(** [ok None]: [main] has returned. *)
Definition loop_step (st : Loop) (i : Input) : result (option Loop) :=
match i with
| KeyQuit => ok None
| ResizeEvent cpu_Counts w h => st' ← resize cpu_Counts w h st; ok (Some st')
| OtherEvent => ok (Some st)
| TickerFired env => st' ← tick env st; ok (Some st')
end.

Fixpoint run (st : Loop) (inputs : list Input) : result (option Loop) :=
match inputs with
| [] => ok (Some st)
| i :: rest =>
  r ← loop_step st i;
  match r with
  | None => ok None
  | Some st' => run st' rest
  end
end.
End Tick.

(** ** Vocabulary of the statements *)

(** A formatter for the examples: a float is printed by its integer part. *)
Definition integer_formatter : Formatter :=
  {| sprintf_1f := fun f => sprintf_d (int_of_float64 f);
     sprintf_2f := fun f => sprintf_d (int_of_float64 f);
     sprintf_8_2f := fun f => sprintf_d (int_of_float64 f) |}.

Definition gauge_at_rest (g : CPUGauge) : Prop :=
  CurrentPercent g = 0%float /\ TargetPercent g = 0%float.

Definition cpuCount_of (cpu_Counts : Resp Z) : Z :=
  if failed cpu_Counts then 1 else val cpu_Counts.

Definition grown (n : Z) (a : list float64) : list float64 :=
  if decide (n > len a) then replicate (Z.to_nat (n - len a)) 0%float ++ a else a.

Definition grows_to (newCapacity : Z) (old new : list float64) : Prop :=
  if decide (newCapacity > len old) then
    len new = newCapacity
    /\ drop (Z.to_nat (newCapacity - len old)) new = old
    /\ take (Z.to_nat (newCapacity - len old)) new
       = replicate (Z.to_nat (newCapacity - len old)) 0%float
  else new = old.

Definition gauge_tick_spec (speed current target : float64) : float64 :=
  let diff := (target - current)%float in
  if (PrimFloat.abs diff <? 0.5)%float then target
  else (current + diff * speed)%float.

Definition ticks (n : nat) (speed : float64) (g : CPUGauge) : CPUGauge :=
  Nat.iter n (animate speed) g.

(** The gauges after [n] calls of [animateCPUGauges], the targets being
    left alone in between. *)
Definition animation_ticks (n : nat) (speed : float64) (gauges : list CPUGauge)
  : list CPUGauge :=
  Nat.iter n (fun gs => animateCPUGauges gs speed) gauges.

Definition network_subsystem (st : Loop)
  : NetworkData * Paragraph * Plot * IOCountersStat * Time :=
  (netData st, netStats st, netGraph st, prevNetIOStats st, lastNetworkUpdate st).

Definition disk_subsystem (st : Loop)
  : DiskData * Paragraph * Plot * gmap string DiskIOCountersStat * Time :=
  (diskData st, diskStats st, diskGraph st, prevDiskIOStats st, lastDiskUpdate st).


(** A loop state for the examples: an 80x24 terminal, one gauge in the
    middle of an animation, and the four history buffers holding [buf]. *)
Definition example_loop (buf : list float64) : Loop :=
  mkLoop 80 24 (mkParagraph "host" (Rect 0 0 80 3))
    (mkParagraph "" (Rect 0 3 80 4))
    [mkCPUGauge (mkGauge "Avg CPU" (Rect 0 4 80 7) 42 ColorGreen) 42 80] 10
    (mkParagraph "" (Rect 0 10 80 14)) (mkPlot "" [] (Rect 0 14 80 23))
    (mkNetworkData buf buf 0.1)
    (mkParagraph "" (Rect 0 23 80 27)) (mkPlot "" [] (Rect 0 27 80 36))
    (mkDiskData buf buf 0.1)
    (createProcessList 0 36 80 23) (mkParagraph "" (Rect 0 23 80 24))
    (mkNetIO 1000 500) 0 ∅ 0.

(** The scale rule of [updateNetworkMaxValue] and [updateDiskMaxValue],
    as a function of the stored maximum [mv] and of the observed peak. *)
Definition scale_step (mv currentMax : float64) : float64 :=
  let mv :=
    if (mv <? currentMax)%float then
      (mv + (currentMax - mv) * 0.3)%float
    else if ((currentMax <? mv * 0.5) && (1.0 <? mv))%float then
      (mv - (mv - currentMax) * 0.05)%float
    else mv in
  if (mv <? 0.1)%float then 0.1%float else mv.

(** The peak a tick observes in its two series. *)
Definition observed_peak (series : list float64 * list float64) : float64 :=
  max (maxInSlice series.1) (maxInSlice series.2).

Definition network_scale_update (mv : float64) (series : list float64 * list float64)
  : float64 :=
  MaxValue (updateNetworkMaxValue (mkNetworkData series.1 series.2 mv)).

Definition disk_scale_update (mv : float64) (series : list float64 * list float64)
  : float64 :=
  Disk.MaxValue (updateDiskMaxValue (mkDiskData series.1 series.2 mv)).

(** The successive values of a scale over a run of ticks, each tick
    coming with the content of the two series at that time. *)
Fixpoint scale_updates (update : float64 -> list float64 * list float64 -> float64)
    (mv : float64) (ticks_ : list (list float64 * list float64)) : list float64 :=
  match ticks_ with
  | [] => []
  | series :: rest => update mv series :: scale_updates update (update mv series) rest
  end.

(** [current] after [n] ticks towards a fixed [target]. *)
Definition gauge_iter (speed target : float64) (n : nat) (current : float64) : float64 :=
  Nat.iter n (fun c => gauge_tick_spec speed c target) current.

(** A percentage: a float from 0 to 100. *)
Definition in_percent (x : float64) : Prop :=
  (0 <=? x)%float = true /\ (x <=? 100)%float = true.

(** ** Binary64 values and rounding, on integers

    The vocabulary of the arithmetic facts: a float is read as an integer
    number of units of [2^-1074], and rounding is done on integers. *)

(** What a record [(m, r, s)] says of the integer [v] after shifting by
    [P = 2^n]: [m] is the quotient, [r] tells whether the remainder
    reaches the half, [s] whether it is neither zero nor the half. *)
Definition shr_inv (v P : Z) (mrs : shr_record) : Prop :=
  0 <= shr_m mrs
  /\ shr_m mrs * P <= v < (shr_m mrs + 1) * P
  /\ (shr_r mrs = true <-> (2 * shr_m mrs + 1) * P <= 2 * v)
  /\ (shr_s mrs = false <-> (v = shr_m mrs * P \/ 2 * v = (2 * shr_m mrs + 1) * P)).

(** Round [m / 2^n] to the nearest integer, ties to even. *)
Definition rne (m n : Z) : Z :=
  let q := m / 2 ^ n in
  match 2 * (m mod 2 ^ n) ?= 2 ^ n with
  | Lt => q
  | Gt => q + 1
  | Eq => if Z.even q then q else q + 1
  end.

(** The float of sign [s] and value [m * 2^e], for a rounded mantissa
    [0 <= m <= 2^53]. *)
Definition mk_float (s : bool) (m e : Z) : spec_float :=
  if m =? 0 then S754_zero s
  else if m =? 2 ^ 53 then
    if e + 1 <=? 971 then S754_finite s (Z.to_pos (2 ^ 52)) (e + 1)
    else S754_infinity s
  else if e <=? 971 then S754_finite s (Z.to_pos m) e
  else S754_infinity s.

Definition fexp64 (e : Z) : Z := Z.max (e - 53) (-1074).

(** The value of a float in units of [2^-1074], the infinities being set
    beyond every finite value. *)
Definition xval (x : spec_float) : Z :=
  match x with
  | S754_zero _ => 0
  | S754_finite s m e => cond_Zopp s (Z.pos m * 2 ^ (e + 1074))
  | S754_infinity s => cond_Zopp s (2 ^ 2100)
  | S754_nan => 0
  end.

Definition is_nan_SF (x : spec_float) : bool :=
  match x with S754_nan => true | _ => false end.

Definition is_finite_SF (x : spec_float) : bool :=
  match x with S754_zero _ | S754_finite _ _ _ => true | _ => false end.

(** The exponent of the last kept bit when [V > 0] is rounded to 53
    bits, never below [lo]. *)
Definition grid (lo V : Z) : Z := Z.max (Z.log2 V - 52) lo.

(** The float of sign [s] nearest to [V * 2^-(1074 + lo)], for [V > 0]. *)
Definition SFround (lo : Z) (s : bool) (V : Z) : spec_float :=
  mk_float s (rne V (grid lo V)) (grid lo V - 1074 - lo).

(** The float nearest to [W * 2^-1074]. *)
Definition SFofZ (W : Z) : spec_float :=
  match W with
  | 0 => S754_zero false
  | Z.pos _ => SFround 0 false W
  | Z.neg p => SFround 0 true (Z.pos p)
  end.

(** [V > 0], in units of [2^-(1074 + lo)], rounded to 53 bits; the
    result is in units of [2^-1074]. *)
Definition round53q (lo V : Z) : Z := rne V (grid lo V) * 2 ^ (grid lo V - lo).

(** Values from [2^2098] on are rounded to the infinity. *)
Definition overflow (R : Z) : Z := if R <? 2 ^ 2098 then R else 2 ^ 2100.

(** The value of [SFofZ W]. *)
Definition R64 (W : Z) : Z :=
  match W with
  | 0 => 0
  | Z.pos _ => overflow (round53q 0 W)
  | Z.neg p => - overflow (round53q 0 (Z.pos p))
  end.

Definition fval (f : float64) : Z := xval (Prim2SF f).
Definition fnan (f : float64) : bool := is_nan_SF (Prim2SF f).

(** Floats that are zero, positive or the positive infinity. *)
Definition nonneg_SF (x : spec_float) : Prop :=
  SpecFloat.valid_binary prec emax x = true
  /\ (x = S754_zero false \/ (exists m e, x = S754_finite false m e)
      \/ x = S754_infinity false).

(** The value of the rounded product of two floats whose values have the
    product [P], in units of [2^-2148]. *)
Definition Rmul (P : Z) : Z :=
  match P with
  | 0 => 0
  | Z.pos _ => overflow (round53q 1074 P)
  | Z.neg p => - overflow (round53q 1074 (Z.pos p))
  end.

Definition ffin (f : float64) : Prop := is_finite_SF (Prim2SF f) = true.

(** One animation step on values: [S], [c] and [t] are the values of the
    speed, of [current] and of [target]. *)
Definition zstep (S c t : Z) : Z :=
  let d := R64 (t - c) in
  if Z.abs d <? 2 ^ 1073 then t else R64 (c + Rmul (d * S)).

(** The gauges show percentages: values from -100 to 100 (in units of
    [2^-1074]) cover a gauge and its mirror image. *)
Definition percent_range (v : Z) : Prop := Z.abs v <= 100 * 2 ^ 1074.

(** The speeds for which the animation is shown to reach its target:
    from [2^-40] to [1 - 2^-40]. *)
Definition speed_range (S : Z) : Prop := 2 ^ 1034 <= S <= 2 ^ 1074 - 2 ^ 1034.

(** The two series of a tick hold finite samples only. *)
Definition finite_series (series : list float64 * list float64) : Prop :=
  Forall ffin series.1 /\ Forall ffin series.2.

(** ** Vocabulary of the further properties *)

(** The cells a widget covers: [image.Rectangle] is half-open. *)
Definition in_rect (r : Rectangle) (x y : Z) : Prop :=
  MinX r <= x < MaxX r /\ MinY r <= y < MaxY r.

Definition disjoint_rects (r1 r2 : Rectangle) : Prop :=
  forall x y, in_rect r1 x y -> in_rect r2 x y -> False.

(** [r] lies in the columns [0 .. width) and the rows [top .. bottom). *)
Definition rect_within (r : Rectangle) (width top bottom : Z) : Prop :=
  0 <= MinX r /\ MaxX r <= width /\ top <= MinY r /\ MaxY r <= bottom.

(** The average that [updateCPUTargets] computes. *)
Definition avgPercent_of (percentages : list float64) : float64 :=
  (fold_left (fun acc p => (acc + p)%float) percentages 0 / float64_of_Z (len percentages))%float.

(** The processes that [getProcessInfo] accepts: name, CPU share and
    memory share can be read. *)
Definition readable (p : Process) : bool :=
  negb (failed (p_Name p)) && negb (failed (p_CPUPercent p))
  && negb (failed (p_MemoryPercent p)).

(** The width of the command column for a table [dx] columns wide. *)
Definition commandWidth_of (dx : Z) : Z :=
  int_of_float64 (float64_of_Z (dx - 2) * 0.6).

(** The state in which the event loop can take any turn: there is a
    gauge for the average, the two series of each graph have one length
    and are not empty, and the process table is at least 7 columns wide. *)
Definition loop_invariant (st : Loop) : Prop :=
  cpuGauges st <> []
  /\ RxData (netData st) <> []
  /\ length (TxData (netData st)) = length (RxData (netData st))
  /\ ReadData (diskData st) <> []
  /\ length (WriteData (diskData st)) = length (ReadData (diskData st))
  /\ 7 <= Dx (ProcessListRect (processList st)) <= 2 ^ 62.

(** A tick whose network query succeeds returns at least one entry (the
    sum over the interfaces), with [uint64] counters. *)
Definition tick_answers (env : TickEnv) : Prop :=
  failed (net_IOCounters env) = false ->
  exists c0 rest,
    val (net_IOCounters env) = c0 :: rest
    /\ 0 <= BytesRecv c0 < 2 ^ 64 /\ 0 <= BytesSent c0 < 2 ^ 64.

(** The inputs under which the loop is shown to go on: ticks answered as
    above, and resizes to at least 7 columns with a core count that is
    not negative. *)
Definition input_answers (i : Input) : Prop :=
  match i with
  | TickerFired env => tick_answers env
  | ResizeEvent cpu_Counts w h => 0 <= cpuCount_of cpu_Counts /\ 7 <= w <= 2 ^ 62
  | _ => True
  end.

(** A gauge at a percentage: [current] and [target] lie from 0 to 100,
    and so does the [Percent] the widget is drawn with. *)
Definition gauge_in_range (g : CPUGauge) : Prop :=
  in_percent (CurrentPercent g) /\ in_percent (TargetPercent g)
  /\ 0 <= Percent (gauge g) <= 100.

(** The loop invariant with every gauge at a percentage.  The drawing
    ([ui.Render]) belongs to the widget library and is not modelled; this
    is the state in which a gauge is drawn with a bar inside its
    rectangle. *)
Definition steady_invariant (st : Loop) : Prop :=
  loop_invariant st /\ Forall gauge_in_range (cpuGauges st).

(** A CPU answer without error holds the percentage of at least one
    processor (an empty answer has the average [0 / 0], a NaN) and of
    fewer than [2^46]. *)
Definition cpu_answers (env : TickEnv) : Prop :=
  failed (cpu_Percent env) = false ->
  val (cpu_Percent env) <> []
  /\ len (val (cpu_Percent env)) < 2 ^ 46
  /\ Forall in_percent (val (cpu_Percent env)).

(** The inputs under which the loop is shown to go on with gauges at
    percentages. *)
Definition input_in_range (i : Input) : Prop :=
  input_answers i
  /\ match i with
     | TickerFired env => cpu_answers env
     | _ => True
     end.

(** ** Vocabulary of the sorting properties *)

Section SortVocabulary.
Context {A : Type} `{Inhabited A}.

(** [swapped a b d d']: [d'] comes from [d] by exchanges of two elements
    at indices from [a] to [b - 1]. *)
Inductive swapped (a b : nat) : list A -> list A -> Prop :=
  | swapped_refl (d : list A) : swapped a b d d
  | swapped_step (d d' : list A) (i j : nat) :
      (a <= i < b)%nat -> (a <= j < b)%nat -> (b <= length d)%nat ->
      swapped a b (sort.Swap d i j) d' -> swapped a b d d'.

(** The elements at the indices from [a] to [b - 1] ascend by [key]. *)
Definition sorted_seg (key : A -> Z) (d : list A) (a b : nat) : Prop :=
  forall i j : nat, (a <= i)%nat -> (i <= j)%nat -> (j < b)%nat ->
                    key (d !!! i) <= key (d !!! j).

(** No element before [a] exceeds an element of [a .. b - 1]. *)
Definition prefix_le (key : A -> Z) (d : list A) (a b : nat) : Prop :=
  forall p q : nat, (p < a)%nat -> (a <= q)%nat -> (q < b)%nat ->
                    key (d !!! p) <= key (d !!! q).

(** [r] keeps the elements of equal [key] in the order they have in [l]. *)
Definition stable_wrt (key : A -> Z) (l r : list A) : Prop :=
  forall c : Z, filter (fun x => key x = c) r = filter (fun x => key x = c) l.
End SortVocabulary.

(** The key by which [sortProcesses] ascends: the CPU share, negated. *)
Definition cpu_key (p : ProcessInfo) : Z := - fval (CPU p).

Definition cpu_known (p : ProcessInfo) : Prop := fnan (CPU p) = false.

(** No process is listed after one of a smaller CPU share. *)
Definition descending (r : list ProcessInfo) : Prop :=
  forall (i j : nat) (pi pj : ProcessInfo),
    (i <= j)%nat -> r !! i = Some pi -> r !! j = Some pj ->
    (CPU pj <=? CPU pi)%float = true.

Section HeapVocabulary.
Context {A : Type} `{Inhabited A}.

(** In the heap that starts at index [first] and has [hi] nodes, no child
    of the node [n] exceeds it. *)
Definition heap_at (key : A -> Z) (d : list A) (first hi n : nat) : Prop :=
  forall c : nat, (c = 2 * n + 1 \/ c = 2 * n + 2)%nat -> (c < hi)%nat ->
                  key (d !!! (first + c)%nat) <= key (d !!! (first + n)%nat).

Definition heap_from (key : A -> Z) (d : list A) (first lo hi : nat) : Prop :=
  forall n : nat, (lo <= n < hi)%nat -> heap_at key d first hi n.
End HeapVocabulary.

(** * Binary64 arithmetic

    The operations of the primitive floats are specified by the
    functions of [SpecFloat]; this part relates those to integer
    arithmetic. *)

(** Linear arithmetic in which the large powers of 2 are unknowns. *)
Ltac hide_pow n :=
  lazymatch eval cbv in (64 <? n) with
  | true => let x := fresh "pw" in set (x := 2 ^ n) in *; clearbody x
  end.
Ltac hide_pows :=
  repeat match goal with
         | |- context [2 ^ ?n] => hide_pow n
         | H : context [2 ^ ?n] |- _ => hide_pow n
         end.
Ltac plia := first [ solve [hide_pows; lia] | lia ].
Ltac pnia := first [ solve [hide_pows; nia] | nia ].


Section Digits.
#[local] Open Scope Z_scope.

Lemma digits2_pos_bounds (p : positive) :
  2 ^ (Z.pos (digits2_pos p) - 1) <= Z.pos p < 2 ^ Z.pos (digits2_pos p).
Proof.
  induction p as [p IH|p IH|]; simpl digits2_pos.
  - rewrite Pos2Z.inj_succ.
    replace (Z.succ (Z.pos (digits2_pos p)) - 1) with (Z.pos (digits2_pos p)) by plia.
    rewrite Z.pow_succ_r by plia.
    assert (E : 2 ^ Z.pos (digits2_pos p) = 2 * 2 ^ (Z.pos (digits2_pos p) - 1)).
    { rewrite <- Z.pow_succ_r by plia. f_equal. plia. }
    plia.
  - rewrite Pos2Z.inj_succ.
    replace (Z.succ (Z.pos (digits2_pos p)) - 1) with (Z.pos (digits2_pos p)) by plia.
    rewrite Z.pow_succ_r by plia.
    assert (E : 2 ^ Z.pos (digits2_pos p) = 2 * 2 ^ (Z.pos (digits2_pos p) - 1)).
    { rewrite <- Z.pow_succ_r by plia. f_equal. plia. }
    plia.
  - simpl. plia.
Qed.

Lemma Zdigits2_log2 (m : Z) : 0 < m -> Zdigits2 m = Z.log2 m + 1.
Proof.
  intros Hm. destruct m as [|p|p]; try plia. simpl Zdigits2.
  pose proof (digits2_pos_bounds p) as [Hlo Hhi].
  assert (Z.log2 (Z.pos p) = Z.pos (digits2_pos p) - 1); [|plia].
  apply Z.log2_unique; [plia|].
  split; [done|].
  by replace (Z.succ (Z.pos (digits2_pos p) - 1)) with (Z.pos (digits2_pos p)) by plia.
Qed.

Lemma log2_bounds (m : Z) : 0 < m -> 2 ^ Z.log2 m <= m < 2 ^ (Z.log2 m + 1).
Proof. intros Hm. pose proof (Z.log2_spec m Hm). rewrite <- Z.add_1_r in H. plia. Qed.

Lemma pow2_pos (n : Z) : 0 <= n -> 0 < 2 ^ n.
Proof. intros. apply Z.pow_pos_nonneg; plia. Qed.

Lemma pow2_le (a b : Z) : 0 <= a <= b -> 2 ^ a <= 2 ^ b.
Proof. intros. apply Z.pow_le_mono_r; plia. Qed.

Lemma pow2_lt (a b : Z) : 0 <= a < b -> 2 ^ a < 2 ^ b.
Proof. intros. apply Z.pow_lt_mono_r; plia. Qed.

Lemma pow2_split (a b : Z) : 0 <= a <= b -> 2 ^ b = 2 ^ a * 2 ^ (b - a).
Proof. intros. rewrite <- Z.pow_add_r by plia. f_equal. plia. Qed.
End Digits.

(** ** Shifting with round and sticky bits *)

Section Shr.
#[local] Open Scope Z_scope.

Lemma shr_1_eq (m : Z) (r s : bool) :
  0 <= m ->
  shr_1 (Build_shr_record m r s) = Build_shr_record (Z.div2 m) (Z.odd m) (r || s).
Proof. intros Hm. destruct m as [|[p|p|]|p]; try plia; done. Qed.

Lemma shr_1_inv (v P : Z) (mrs : shr_record) :
  0 < P -> shr_inv v P mrs -> shr_inv v (2 * P) (shr_1 mrs).
Proof.
  intros HP (Hm & Hv & Hr & Hs).
  destruct mrs as [m r s]. simpl in Hm, Hv, Hr, Hs.
  assert (Hrs : r || s = false <-> v = m * P).
  { split.
    - intros Hor. apply orb_false_iff in Hor as [-> ->].
      destruct Hs as [Hs _]. destruct (Hs eq_refl) as [|E]; [done|].
      destruct Hr as [_ Hr]. assert (false = true) by (apply Hr; plia). done.
    - intros E.
      assert (r = false).
      { destruct r; [|done]. destruct Hr as [Hr _]. specialize (Hr eq_refl). plia. }
      assert (s = false) by (apply Hs; by left).
      by subst. }
  rewrite shr_1_eq by done. unfold shr_inv. simpl.
  pose proof (Z.div2_odd m) as Hd.
  set (q := Z.div2 m) in *. clearbody q.
  destruct (Z.odd m); simpl in Hd.
  - assert (Em : m * P = 2 * (q * P) + P) by (subst m; ring).
    split; [plia|]. split; [plia|]. split; [split; [plia|done]|].
    rewrite Hrs. split; [intros ->; right; plia | intros [|]; plia].
  - assert (Em : m * P = 2 * (q * P)) by (subst m; ring).
    split; [plia|]. split; [plia|]. split; [split; [done|plia]|].
    rewrite Hrs. split; [intros ->; left; plia | intros [|]; plia].
Qed.

Lemma iter_pos_nat {A : Type} (f : A -> A) (p : positive) (x : A) :
  SpecFloat.iter_pos f p x = Nat.iter (Pos.to_nat p) f x.
Proof.
  revert x. induction p as [p IH|p IH|]; intros x.
  - change (SpecFloat.iter_pos f p (SpecFloat.iter_pos f p (f x))
            = Nat.iter (Pos.to_nat p~1) f x).
    rewrite !IH, Pos2Nat.inj_xI.
    replace (S (2 * Pos.to_nat p)) with (Pos.to_nat p + (Pos.to_nat p + 1))%nat by plia.
    by rewrite !Nat.iter_add.
  - change (SpecFloat.iter_pos f p (SpecFloat.iter_pos f p x)
            = Nat.iter (Pos.to_nat p~0) f x).
    rewrite !IH, Pos2Nat.inj_xO.
    replace (2 * Pos.to_nat p)%nat with (Pos.to_nat p + Pos.to_nat p)%nat by plia.
    by rewrite Nat.iter_add.
  - done.
Qed.

Lemma shr_iter_inv (v : Z) (k : nat) :
  0 <= v ->
  shr_inv v (2 ^ Z.of_nat k) (Nat.iter k shr_1 (Build_shr_record v false false)).
Proof.
  intros Hv. induction k as [|k IH].
  - unfold shr_inv. simpl.
    split; [plia|]. split; [plia|]. split; [split; [done | plia]|].
    split; [intros _; left; plia | done].
  - rewrite Nat2Z.inj_succ, Z.pow_succ_r by plia. simpl.
    apply shr_1_inv; [apply pow2_pos; plia | done].
Qed.
End Shr.



Section Rne.
#[local] Open Scope Z_scope.

Lemma shr_inv_rne (v n : Z) (mrs : shr_record) :
  0 <= n -> shr_inv v (2 ^ n) mrs ->
  shr_m mrs = v / 2 ^ n
  /\ round_nearest_even (shr_m mrs) (loc_of_shr_record mrs) = rne v n.
Proof.
  intros Hn (Hm & Hv & Hr & Hs).
  pose proof (pow2_pos n Hn) as HP. set (P := 2 ^ n) in *.
  destruct mrs as [m r s]. simpl in *.
  assert (Hq : v / P = m).
  { symmetry. apply (Z.div_unique_pos v P m (v - m * P)); plia. }
  assert (Hmod : v mod P = v - m * P).
  { rewrite Z.mod_eq by plia. rewrite Hq. plia. }
  split; [done|]. unfold rne. fold P. rewrite Hq, Hmod.
  destruct r, s; simpl.
  - (* more than half *)
    assert (2 * (v - m * P) > P); [|by rewrite (proj2 (Z.compare_gt_iff _ _)) by plia].
    destruct Hr as [Hr _]. specialize (Hr eq_refl).
    assert (2 * v <> (2 * m + 1) * P).
    { intros E. destruct Hs as [_ Hs]. assert (true = false) by (apply Hs; by right). done. }
    plia.
  - (* the half *)
    destruct Hs as [Hs _]. destruct Hr as [Hr _]. specialize (Hr eq_refl).
    destruct (Hs eq_refl) as [E|E]; [plia|].
    by rewrite (proj2 (Z.compare_eq_iff _ _)) by plia.
  - (* less than half, not zero *)
    assert (2 * (v - m * P) < P); [|by rewrite (proj2 (Z.compare_lt_iff _ _)) by plia].
    destruct (Z_lt_le_dec (2 * v) ((2 * m + 1) * P)) as [|Hge]; [plia|].
    destruct Hr as [_ Hr]. specialize (Hr Hge). done.
  - (* zero *)
    destruct Hs as [Hs _]. destruct (Hs eq_refl) as [E|E].
    + by rewrite (proj2 (Z.compare_lt_iff _ _)) by plia.
    + destruct Hr as [_ Hr]. assert (false = true) by (apply Hr; plia). done.
Qed.

Lemma shr_exact_rne (m e n : Z) :
  0 <= m -> 0 <= n ->
  let '(mrs, e') := shr (Build_shr_record m false false) e n in
  e' = e + n
  /\ shr_m mrs = m / 2 ^ n
  /\ round_nearest_even (shr_m mrs) (loc_of_shr_record mrs) = rne m n.
Proof.
  intros Hm Hn. destruct n as [|p|p]; try plia; simpl shr.
  - split; [plia|]. apply (shr_inv_rne m 0); [plia|].
    exact (shr_iter_inv m 0 Hm).
  - split; [done|]. rewrite iter_pos_nat.
    apply (shr_inv_rne m (Z.pos p)); [plia|].
    rewrite <- (positive_nat_Z p) at 1. exact (shr_iter_inv m (Pos.to_nat p) Hm).
Qed.

Lemma rne_bounds (m n : Z) :
  0 <= m -> 0 <= n -> m / 2 ^ n <= rne m n <= m / 2 ^ n + 1.
Proof.
  intros Hm Hn. unfold rne.
  destruct (_ ?= _); [destruct (Z.even _)| |]; plia.
Qed.

(** The rounded value is within half a unit of the exact one. *)
Lemma rne_near (m n : Z) :
  0 <= m -> 0 <= n -> - 2 ^ n <= 2 * (rne m n * 2 ^ n - m) <= 2 ^ n.
Proof.
  intros Hm Hn. unfold rne.
  pose proof (pow2_pos n Hn) as HP. set (P := 2 ^ n) in *.
  pose proof (Z.div_mod m P ltac:(plia)) as Hdm.
  pose proof (Z.mod_pos_bound m P HP) as Hmod.
  destruct (Z.compare_spec (2 * (m mod P)) P) as [E|E|E];
    [destruct (Z.even _)| |]; pnia.
Qed.

Lemma rne_exact (q n : Z) : 0 <= n -> rne (q * 2 ^ n) n = q.
Proof.
  intros Hn. unfold rne. pose proof (pow2_pos n Hn) as HP.
  rewrite Z.div_mul, Z.mod_mul by plia.
  by rewrite (proj2 (Z.compare_lt_iff _ _)) by plia.
Qed.

Lemma rne_mono (m1 m2 n : Z) :
  0 <= m1 <= m2 -> 0 <= n -> rne m1 n <= rne m2 n.
Proof.
  intros Hm Hn.
  pose proof (rne_bounds m1 n ltac:(plia) Hn) as Hb1.
  pose proof (rne_bounds m2 n ltac:(plia) Hn) as Hb2.
  pose proof (pow2_pos n Hn) as HP.
  assert (Hq : m1 / 2 ^ n <= m2 / 2 ^ n) by (apply Z.div_le_mono; plia).
  destruct (Z.eq_dec (m1 / 2 ^ n) (m2 / 2 ^ n)) as [E|E]; [|plia].
  unfold rne. rewrite E.
  assert (Hr : m1 mod 2 ^ n <= m2 mod 2 ^ n).
  { rewrite !Z.mod_eq by plia. rewrite E. plia. }
  destruct (Z.compare_spec (2 * (m1 mod 2 ^ n)) (2 ^ n)),
           (Z.compare_spec (2 * (m2 mod 2 ^ n)) (2 ^ n));
    try destruct (Z.even _); plia.
Qed.

Lemma rne_scale (m n j : Z) :
  0 <= n -> 0 <= j -> rne (m * 2 ^ j) (n + j) = rne m n.
Proof.
  intros Hn Hj. unfold rne.
  pose proof (pow2_pos n Hn) as HP. pose proof (pow2_pos j Hj) as HJ.
  rewrite Z.pow_add_r by plia.
  rewrite Z.div_mul_cancel_r by plia.
  rewrite Z.mul_mod_distr_r by plia.
  replace (2 * (m mod 2 ^ n * 2 ^ j)) with (2 * (m mod 2 ^ n) * 2 ^ j) by ring.
  rewrite <- (Zmult_compare_compat_r _ _ (2 ^ j)) by plia. done.
Qed.
End Rne.



Section RoundAux.
#[local] Open Scope Z_scope.

Lemma fexp_eq (e : Z) : fexp prec emax e = fexp64 e.
Proof. reflexivity. Qed.

Lemma shr_nop (mrs : shr_record) (e n : Z) : n <= 0 -> shr mrs e n = (mrs, e).
Proof. intros Hn. destruct n; try done; plia. Qed.

Lemma div_pow2_lt (m d k : Z) :
  0 <= m < 2 ^ d -> 0 <= d -> 0 <= k -> d - 53 <= k -> m / 2 ^ k < 2 ^ 53.
Proof.
  intros Hm Hd Hk Hdk. pose proof (pow2_pos k Hk).
  apply Z.div_lt_upper_bound; [plia|].
  rewrite <- Z.pow_add_r by plia.
  assert (2 ^ d <= 2 ^ (k + 53)) by (apply pow2_le; plia). plia.
Qed.

(** Rounding an integer mantissa: [binary_round_aux] keeps the 53
    leading bits, rounding to nearest even, provided the exponent it is
    given is not above the one of the result. *)
Lemma binary_round_aux_exact (s : bool) (m : positive) (e : Z) :
  e <= fexp64 (Z.pos (digits2_pos m) + e) ->
  binary_round_aux prec emax s (Z.pos m) e loc_Exact
  = mk_float s (rne (Z.pos m) (fexp64 (Z.pos (digits2_pos m) + e) - e))
               (fexp64 (Z.pos (digits2_pos m) + e)).
Proof.
  intros He. unfold binary_round_aux, shr_fexp. rewrite !fexp_eq.
  change (Zdigits2 (Z.pos m)) with (Z.pos (digits2_pos m)).
  change (shr_record_of_loc (Z.pos m) loc_Exact)
    with (Build_shr_record (Z.pos m) false false).
  set (d := Z.pos (digits2_pos m)) in *.
  set (e1 := fexp64 (d + e)) in *.
  pose proof (shr_exact_rne (Z.pos m) e (e1 - e) ltac:(plia) ltac:(plia)) as Hshr.
  destruct (shr _ e (e1 - e)) as [mrs' e'].
  destruct Hshr as (-> & Hq & Hrne). rewrite Hrne.
  replace (e + (e1 - e)) with e1 by plia.
  pose proof (rne_bounds (Z.pos m) (e1 - e) ltac:(plia) ltac:(plia)) as Hb.
  pose proof (digits2_pos_bounds m) as Hd. fold d in Hd.
  assert (Hk : d - 53 <= e1 - e) by (unfold e1, fexp64; plia).
  assert (Hlt : Z.pos m / 2 ^ (e1 - e) < 2 ^ 53).
  { apply (div_pow2_lt _ d); plia. }
  assert (0 <= Z.pos m / 2 ^ (e1 - e)).
  { apply Z.div_pos; [plia | apply pow2_pos; plia]. }
  set (m2 := rne (Z.pos m) (e1 - e)) in *.
  assert (He1 : -1074 <= e1) by (unfold e1, fexp64; plia).
  change (shr_record_of_loc m2 loc_Exact) with (Build_shr_record m2 false false).
  change (emax - prec) with 971.
  unfold mk_float. clearbody m2 e1 d.
  destruct (Z.eqb_spec m2 0) as [E0|N0].
  - rewrite E0. change (Zdigits2 0) with 0.
    rewrite shr_nop by (rewrite fexp_eq; unfold fexp64; plia). done.
  - destruct (Z.eqb_spec m2 (2 ^ 53)) as [E53|N53].
    + rewrite E53. change (Zdigits2 (2 ^ 53)) with 54.
      rewrite fexp_eq.
      replace (fexp64 (54 + e1) - e1) with 1 by (unfold fexp64; plia).
      done.
    + assert (Hm2 : 0 < m2 < 2 ^ 53) by plia.
      rewrite Zdigits2_log2 by plia.
      assert (Z.log2 m2 < 53) by (apply Z.log2_lt_pow2; plia).
      rewrite shr_nop by (rewrite fexp_eq; unfold fexp64; plia).
      simpl shr_m. destruct m2 as [|p2|p2]; try plia. done.
Qed.
End RoundAux.



Section Values.
#[local] Open Scope Z_scope.

Lemma bounded_inv (m : positive) (e : Z) :
  bounded prec emax m e = true ->
  -1074 <= e <= 971
  /\ Z.pos (digits2_pos m) <= 53
  /\ (-1074 < e -> Z.pos (digits2_pos m) = 53)
  /\ fexp64 (Z.pos (digits2_pos m) + e) = e.
Proof.
  unfold bounded, canonical_mantissa. rewrite fexp_eq.
  change (emax - prec) with 971.
  intros Hb. apply andb_true_iff in Hb as [Hc He].
  apply Z.eqb_eq in Hc. apply Z.leb_le in He.
  unfold fexp64 in *. plia.
Qed.

Lemma bounded_intro (m : positive) (e : Z) :
  -1074 <= e <= 971 ->
  Z.pos m < 2 ^ 53 ->
  (-1074 < e -> 2 ^ 52 <= Z.pos m) ->
  bounded prec emax m e = true.
Proof.
  intros He Hm Hn. unfold bounded, canonical_mantissa. rewrite fexp_eq.
  change (emax - prec) with 971.
  apply andb_true_iff. split; [|apply Z.leb_le; plia].
  apply Z.eqb_eq.
  pose proof (Zdigits2_log2 (Z.pos m) ltac:(plia)) as Hd. simpl Zdigits2 in Hd.
  assert (Hl : Z.log2 (Z.pos m) < 53) by (apply Z.log2_lt_pow2; plia).
  unfold fexp64. destruct (Z.eq_dec e (-1074)) as [->|Hne]; [plia|].
  assert (52 <= Z.log2 (Z.pos m)) by (apply Z.log2_le_pow2; plia).
  plia.
Qed.

Lemma bounded_mantissa (m : positive) (e : Z) :
  bounded prec emax m e = true ->
  Z.pos m < 2 ^ 53 /\ (-1074 < e -> 2 ^ 52 <= Z.pos m).
Proof.
  intros Hb. destruct (bounded_inv m e Hb) as (He & Hd & Hn & _).
  pose proof (digits2_pos_bounds m) as [Hlo Hhi].
  split.
  - assert (2 ^ Z.pos (digits2_pos m) <= 2 ^ 53) by (apply pow2_le; plia). plia.
  - intros Hgt. rewrite (Hn Hgt) in Hlo. exact Hlo.
Qed.

(** Finite values stay below [2^2098]. *)
Lemma finite_xval_bound (s : bool) (m : positive) (e : Z) :
  bounded prec emax m e = true ->
  0 < Z.pos m * 2 ^ (e + 1074) < 2 ^ 2098.
Proof.
  intros Hb. destruct (bounded_inv m e Hb) as (He & _).
  destruct (bounded_mantissa m e Hb) as [Hm _].
  pose proof (pow2_pos (e + 1074) ltac:(plia)) as HP.
  split; [plia|].
  assert (2 ^ (e + 1074) <= 2 ^ 2045) by (apply pow2_le; plia).
  replace (2 ^ 2098) with (2 ^ 53 * 2 ^ 2045) by (rewrite <- Z.pow_add_r by plia; done).
  assert (Z.pos m * 2 ^ (e + 1074) < 2 ^ 53 * 2 ^ (e + 1074))
    by (apply Z.mul_lt_mono_pos_r; plia).
  assert (2 ^ 53 * 2 ^ (e + 1074) <= 2 ^ 53 * 2 ^ 2045)
    by (apply Z.mul_le_mono_nonneg_l; plia).
  plia.
Qed.

(** Among canonical mantissas, the order of the values is the order of
    the exponents, then of the mantissas. *)
Lemma canonical_order (m1 m2 : positive) (e1 e2 : Z) :
  bounded prec emax m1 e1 = true -> bounded prec emax m2 e2 = true ->
  (Z.pos m1 * 2 ^ (e1 + 1074) ?= Z.pos m2 * 2 ^ (e2 + 1074))
  = match e1 ?= e2 with
    | Lt => Lt
    | Gt => Gt
    | Eq => Pos.compare_cont Eq m1 m2
    end.
Proof.
  intros Hb1 Hb2.
  destruct (bounded_inv _ _ Hb1) as (He1 & _), (bounded_inv _ _ Hb2) as (He2 & _).
  destruct (bounded_mantissa _ _ Hb1) as [Hm1 Hn1], (bounded_mantissa _ _ Hb2) as [Hm2 Hn2].
  assert (Hlt : forall ma mb ea eb,
             -1074 <= ea < eb -> 0 < ma < 2 ^ 53 -> 2 ^ 52 <= mb ->
             ma * 2 ^ (ea + 1074) < mb * 2 ^ (eb + 1074)).
  { intros ma mb ea eb Hab Ha Hb.
    rewrite (pow2_split (ea + 1074) (eb + 1074)) by plia.
    pose proof (pow2_pos (ea + 1074) ltac:(plia)) as HP.
    assert (HQ : 2 <= 2 ^ (eb + 1074 - (ea + 1074))).
    { change 2 with (2 ^ 1) at 1. apply pow2_le. plia. }
    set (P := 2 ^ (ea + 1074)) in *. set (Q := 2 ^ (eb + 1074 - (ea + 1074))) in *.
    assert (ma * P < 2 ^ 53 * P) by (apply Z.mul_lt_mono_pos_r; plia).
    assert (2 * P <= P * Q) by pnia.
    assert (2 ^ 52 * (2 * P) <= mb * (P * Q)) by (apply Z.mul_le_mono_nonneg; plia).
    plia. }
  destruct (Z.compare_spec e1 e2) as [E|E|E].
  - subst e2. change (Pos.compare_cont Eq m1 m2) with (Z.pos m1 ?= Z.pos m2).
    pose proof (pow2_pos (e1 + 1074) ltac:(plia)) as HP.
    destruct (Z.compare_spec (Z.pos m1) (Z.pos m2)) as [E|E|E].
    + rewrite E. apply Z.compare_refl.
    + apply Z.compare_lt_iff. pnia.
    + apply Z.compare_gt_iff. pnia.
  - apply Z.compare_lt_iff. apply Hlt; plia.
  - apply Z.compare_gt_iff. apply Hlt; plia.
Qed.

(** The comparison of two floats that are not NaN is the comparison of
    their values. *)
Lemma SFcompare_xval (x y : spec_float) :
  SpecFloat.valid_binary prec emax x = true ->
  SpecFloat.valid_binary prec emax y = true ->
  is_nan_SF x = false -> is_nan_SF y = false ->
  SFcompare x y = Some (xval x ?= xval y).
Proof.
  intros Hx Hy Nx Ny.
  destruct x as [sx|sx| |sx mx ex], y as [sy|sy| |sy my ey];
    try discriminate; simpl in Hx, Hy; simpl SFcompare; simpl xval; f_equal.
  - (* zero, infinity *) by destruct sy.
  - (* zero, finite *)
    pose proof (finite_xval_bound sy _ _ Hy).
    destruct sy; cbn [cond_Zopp]; symmetry; [apply Z.compare_gt_iff | apply Z.compare_lt_iff]; plia.
  - (* infinity, zero *) by destruct sx.
  - (* infinity, infinity *) by destruct sx, sy.
  - (* infinity, finite *)
    pose proof (finite_xval_bound sy _ _ Hy).
    assert (2 ^ 2098 < 2 ^ 2100) by (apply pow2_lt; plia).
    destruct sx, sy; cbn [cond_Zopp]; symmetry;
      try (apply Z.compare_gt_iff; plia); apply Z.compare_lt_iff; plia.
  - (* finite, zero *)
    pose proof (finite_xval_bound sx _ _ Hx).
    destruct sx; cbn [cond_Zopp]; symmetry; [apply Z.compare_lt_iff | apply Z.compare_gt_iff]; plia.
  - (* finite, infinity *)
    pose proof (finite_xval_bound sx _ _ Hx).
    assert (2 ^ 2098 < 2 ^ 2100) by (apply pow2_lt; plia).
    destruct sx, sy; cbn [cond_Zopp]; symmetry;
      try (apply Z.compare_gt_iff; plia); apply Z.compare_lt_iff; plia.
  - (* finite, finite *)
    pose proof (finite_xval_bound sx _ _ Hx). pose proof (finite_xval_bound sy _ _ Hy).
    destruct sx, sy; cbn [cond_Zopp]; symmetry.
    + rewrite Z.compare_opp, (canonical_order _ _ _ _ Hy Hx), (Z.compare_antisym ex ey).
      destruct (ex ?= ey); simpl; try done.
      by rewrite Pos.compare_cont_antisym.
    + apply Z.compare_lt_iff; plia.
    + apply Z.compare_gt_iff; plia.
    + by rewrite <- (canonical_order _ _ _ _ Hx Hy).
Qed.
End Values.



Section Round53.
#[local] Open Scope Z_scope.

Lemma grid_bounds (lo V : Z) :
  0 <= lo -> 0 < V ->
  lo <= grid lo V /\ Z.log2 V - 52 <= grid lo V
  /\ (grid lo V = lo \/ (lo < grid lo V /\ grid lo V = Z.log2 V - 52)).
Proof. intros. unfold grid. plia. Qed.

Lemma rne_grid_bounds (lo V : Z) :
  0 <= lo -> 0 < V ->
  0 <= rne V (grid lo V) <= 2 ^ 53
  /\ (lo < grid lo V -> 2 ^ 52 <= rne V (grid lo V)).
Proof.
  intros Hlo HV.
  destruct (grid_bounds lo V Hlo HV) as (Hg1 & Hg2 & Hg3).
  pose proof (log2_bounds V HV) as [HL1 HL2].
  pose proof (Z.log2_nonneg V) as HL0.
  set (g := grid lo V) in *. clearbody g.
  pose proof (rne_bounds V g ltac:(plia) ltac:(plia)) as Hb.
  pose proof (pow2_pos g ltac:(plia)) as HP.
  assert (0 <= V / 2 ^ g) by (apply Z.div_pos; plia).
  assert (V / 2 ^ g < 2 ^ 53).
  { apply (div_pow2_lt V (Z.log2 V + 1)); plia. }
  split; [plia|]. intros Hgt.
  assert (Eg : g = Z.log2 V - 52) by plia.
  assert (2 ^ 52 <= V / 2 ^ g); [|plia].
  apply Z.div_le_lower_bound; [plia|].
  rewrite Z.mul_comm, <- Z.pow_add_r by plia.
  by replace (52 + g) with (Z.log2 V) by plia.
Qed.

Lemma mk_float_valid (s : bool) (m e : Z) :
  0 <= m <= 2 ^ 53 -> -1074 <= e -> (-1074 < e -> 2 ^ 52 <= m) ->
  SpecFloat.valid_binary prec emax (mk_float s m e) = true.
Proof.
  intros Hm He Hn. unfold mk_float.
  destruct (Z.eqb_spec m 0); [done|].
  destruct (Z.eqb_spec m (2 ^ 53)).
  - destruct (Z.leb_spec (e + 1) 971); [|done].
    apply bounded_intro; [plia | done | done].
  - destruct (Z.leb_spec e 971); [|done].
    apply bounded_intro; rewrite ?Z2Pos.id by plia; plia.
Qed.

(** The value of [mk_float]: finite below [2^2098], infinite from there. *)
Lemma mk_float_xval (s : bool) (m e : Z) :
  0 <= m <= 2 ^ 53 -> -1074 <= e -> (-1074 < e -> 2 ^ 52 <= m) ->
  is_nan_SF (mk_float s m e) = false
  /\ xval (mk_float s m e)
     = cond_Zopp s (if m * 2 ^ (e + 1074) <? 2 ^ 2098 then m * 2 ^ (e + 1074)
                    else 2 ^ 2100)
  /\ is_finite_SF (mk_float s m e) = (m * 2 ^ (e + 1074) <? 2 ^ 2098).
Proof.
  intros Hm He Hn. unfold mk_float.
  pose proof (pow2_pos (e + 1074) ltac:(plia)) as HP.
  assert (Hbig : forall m' e', 971 < e' -> 2 ^ 52 <= m' ->
                 2 ^ 2098 <= m' * 2 ^ (e' + 1074)).
  { intros m' e' Hgt Hm'.
    assert (2 ^ 2046 <= 2 ^ (e' + 1074)) by (apply pow2_le; plia).
    replace (2 ^ 2098) with (2 ^ 52 * 2 ^ 2046) by (rewrite <- Z.pow_add_r by plia; done).
    apply Z.mul_le_mono_nonneg; plia. }
  assert (Hsmall : forall m' e', -1074 <= e' <= 971 -> 0 <= m' < 2 ^ 53 ->
                   m' * 2 ^ (e' + 1074) < 2 ^ 2098).
  { intros m' e' Hle Hlt.
    assert (2 ^ (e' + 1074) <= 2 ^ 2045) by (apply pow2_le; plia).
    replace (2 ^ 2098) with (2 ^ 53 * 2 ^ 2045) by (rewrite <- Z.pow_add_r by plia; done).
    assert (m' * 2 ^ (e' + 1074) <= m' * 2 ^ 2045) by (apply Z.mul_le_mono_nonneg_l; plia).
    assert (m' * 2 ^ 2045 < 2 ^ 53 * 2 ^ 2045) by (apply Z.mul_lt_mono_pos_r; plia).
    plia. }
  destruct (Z.eqb_spec m 0) as [->|N0].
  - rewrite Z.mul_0_l. simpl. by destruct s.
  - destruct (Z.eqb_spec m (2 ^ 53)) as [->|N53].
    + assert (E : 2 ^ 53 * 2 ^ (e + 1074) = 2 ^ 52 * 2 ^ (e + 1 + 1074)).
      { rewrite <- !Z.pow_add_r by plia. f_equal. plia. }
      destruct (Z.leb_spec (e + 1) 971).
      * cbn [xval is_nan_SF is_finite_SF]. rewrite E.
        assert (2 ^ 52 * 2 ^ (e + 1 + 1074) < 2 ^ 2098) by (apply Hsmall; plia).
        rewrite (proj2 (Z.ltb_lt _ _)) by plia. done.
      * cbn [xval is_nan_SF is_finite_SF].
        assert (2 ^ 2098 <= 2 ^ 53 * 2 ^ (e + 1074)).
        { rewrite <- Z.pow_add_r by plia. apply pow2_le. plia. }
        rewrite (proj2 (Z.ltb_ge _ _)) by plia. done.
    + destruct (Z.leb_spec e 971).
      * cbn [xval is_nan_SF is_finite_SF]. rewrite Z2Pos.id by plia.
        rewrite (proj2 (Z.ltb_lt _ _)) by (apply Hsmall; plia). done.
      * cbn [xval is_nan_SF is_finite_SF].
        rewrite (proj2 (Z.ltb_ge _ _)) by (apply Hbig; plia). done.
Qed.
End Round53.



Section Operations.
#[local] Open Scope Z_scope.

Lemma SFround_xval (lo : Z) (s : bool) (V : Z) :
  0 <= lo -> 0 < V ->
  SpecFloat.valid_binary prec emax (SFround lo s V) = true
  /\ is_nan_SF (SFround lo s V) = false
  /\ xval (SFround lo s V) = cond_Zopp s (overflow (round53q lo V))
  /\ is_finite_SF (SFround lo s V) = (round53q lo V <? 2 ^ 2098).
Proof.
  intros Hlo HV. unfold SFround, round53q, overflow.
  destruct (grid_bounds lo V Hlo HV) as (Hg1 & Hg2 & Hg3).
  destruct (rne_grid_bounds lo V Hlo HV) as [Hm Hn].
  assert (Hn' : -1074 < grid lo V - 1074 - lo -> 2 ^ 52 <= rne V (grid lo V))
    by (intros; apply Hn; plia).
  split; [apply mk_float_valid; [done | plia | done]|].
  destruct (mk_float_xval s (rne V (grid lo V)) (grid lo V - 1074 - lo))
    as (Hnan & Hx & Hf); [done | plia | done |].
  replace (grid lo V - 1074 - lo + 1074) with (grid lo V - lo) in Hx, Hf by plia.
  done.
Qed.

Lemma Pos_iter_xO (m d : positive) : Z.pos (Pos.iter xO m d) = Z.pos m * 2 ^ Z.pos d.
Proof.
  induction d as [|d IH] using Pos.peano_ind.
  - simpl. plia.
  - rewrite Pos.iter_succ, Pos2Z.inj_xO, IH, Pos2Z.inj_succ, Z.pow_succ_r by plia. plia.
Qed.

Lemma shl_align_spec (m : positive) (e e' : Z) :
  snd (shl_align m e e') = Z.min e e'
  /\ Z.pos (fst (shl_align m e e')) = Z.pos m * 2 ^ (e - Z.min e e').
Proof.
  unfold shl_align. destruct (e' - e) as [|d|d] eqn:E; simpl.
  - replace (Z.min e e') with e by plia. rewrite Z.sub_diag. simpl. plia.
  - replace (Z.min e e') with e by plia. rewrite Z.sub_diag. simpl. plia.
  - replace (Z.min e e') with e' by plia. split; [done|].
    rewrite Pos_iter_xO. f_equal. f_equal. plia.
Qed.

Lemma digits2_mul_pow2 (m m' : positive) (j : Z) :
  0 <= j -> Z.pos m' = Z.pos m * 2 ^ j ->
  Z.pos (digits2_pos m') = Z.pos (digits2_pos m) + j.
Proof.
  intros Hj E.
  pose proof (Zdigits2_log2 (Z.pos m') ltac:(plia)) as H1.
  pose proof (Zdigits2_log2 (Z.pos m) ltac:(plia)) as H2.
  simpl Zdigits2 in H1, H2. rewrite H1, H2, E.
  rewrite Z.log2_mul_pow2 by plia. plia.
Qed.

Lemma binary_round_aux_SFround (lo : Z) (s : bool) (m : positive) (e : Z) :
  0 <= lo -> 0 <= e + 1074 + lo ->
  e <= fexp64 (Z.pos (digits2_pos m) + e) ->
  binary_round_aux prec emax s (Z.pos m) e loc_Exact
  = SFround lo s (Z.pos m * 2 ^ (e + 1074 + lo)).
Proof.
  intros Hlo Hj He. rewrite binary_round_aux_exact by done.
  unfold SFround, grid.
  rewrite Z.log2_mul_pow2 by plia.
  pose proof (Zdigits2_log2 (Z.pos m) ltac:(plia)) as Hd. simpl Zdigits2 in Hd.
  set (d := Z.pos (digits2_pos m)) in *.
  set (e1 := fexp64 (d + e)) in *.
  assert (Eg : Z.max (e + 1074 + lo + Z.log2 (Z.pos m) - 52) lo = e1 + 1074 + lo).
  { unfold e1, fexp64. plia. }
  rewrite Eg.
  replace (e1 + 1074 + lo) with ((e1 - e) + (e + 1074 + lo)) at 1 by plia.
  rewrite rne_scale by plia. f_equal. plia.
Qed.

Lemma binary_round_SFround (s : bool) (m : positive) (e : Z) :
  -1074 <= e ->
  binary_round prec emax s m e = SFround 0 s (Z.pos m * 2 ^ (e + 1074)).
Proof.
  intros He. unfold binary_round. rewrite fexp_eq.
  set (e1 := fexp64 (Z.pos (digits2_pos m) + e)).
  destruct (shl_align_spec m e e1) as [Hs Hf].
  destruct (shl_align m e e1) as [mz ez]. simpl in Hs, Hf. subst ez.
  assert (He1 : -1074 <= e1) by (unfold e1, fexp64; plia).
  assert (Hd : Z.pos (digits2_pos mz) = Z.pos (digits2_pos m) + (e - Z.min e e1)).
  { apply digits2_mul_pow2; [plia | done]. }
  rewrite (binary_round_aux_SFround 0) by (rewrite ?Hd; unfold e1, fexp64 in *; plia).
  f_equal. rewrite Hf, <- Z.mul_assoc, <- Z.pow_add_r by plia. f_equal. f_equal. plia.
Qed.

Lemma binary_normalize_SFofZ (S e : Z) :
  -1074 <= e ->
  binary_normalize prec emax S e false = SFofZ (S * 2 ^ (e + 1074)).
Proof.
  intros He. pose proof (pow2_pos (e + 1074) ltac:(plia)) as HP.
  destruct S as [|p|p]; simpl binary_normalize.
  - done.
  - rewrite binary_round_SFround by done.
    destruct (Z.pos p * 2 ^ (e + 1074)) as [|q|q] eqn:E; try plia. done.
  - rewrite binary_round_SFround by done.
    destruct (Z.neg p * 2 ^ (e + 1074)) as [|q|q] eqn:E; try plia.
    simpl. f_equal. plia.
Qed.

Lemma cond_Zopp_mul (s : bool) (a c : Z) : cond_Zopp s a * c = cond_Zopp s (a * c).
Proof. destruct s; simpl; plia. Qed.

Lemma align_value (m e ez : Z) :
  -1074 <= ez <= e -> m * 2 ^ (e - ez) * 2 ^ (ez + 1074) = m * 2 ^ (e + 1074).
Proof.
  intros. rewrite <- Z.mul_assoc, <- Z.pow_add_r by plia. do 2 f_equal. plia.
Qed.

(** Addition and subtraction of finite floats: the exact result, rounded. *)
Lemma SFadd_finite (sx sy : bool) (mx my : positive) (ex ey : Z) :
  bounded prec emax mx ex = true -> bounded prec emax my ey = true ->
  SFadd prec emax (S754_finite sx mx ex) (S754_finite sy my ey)
  = SFofZ (xval (S754_finite sx mx ex) + xval (S754_finite sy my ey)).
Proof.
  intros Hx Hy.
  destruct (bounded_inv _ _ Hx) as (Hex & _), (bounded_inv _ _ Hy) as (Hey & _).
  unfold SFadd.
  destruct (shl_align_spec mx ex (Z.min ex ey)) as [_ Hfx].
  destruct (shl_align_spec my ey (Z.min ex ey)) as [_ Hfy].
  rewrite Hfx, Hfy.
  replace (Z.min ex (Z.min ex ey)) with (Z.min ex ey) by plia.
  replace (Z.min ey (Z.min ex ey)) with (Z.min ex ey) by plia.
  rewrite binary_normalize_SFofZ by plia. f_equal.
  cbn [xval]. set (ez := Z.min ex ey).
  rewrite Z.mul_add_distr_r, !cond_Zopp_mul, !align_value by plia. done.
Qed.

Lemma SFsub_finite (sx sy : bool) (mx my : positive) (ex ey : Z) :
  bounded prec emax mx ex = true -> bounded prec emax my ey = true ->
  SFsub prec emax (S754_finite sx mx ex) (S754_finite sy my ey)
  = SFofZ (xval (S754_finite sx mx ex) - xval (S754_finite sy my ey)).
Proof.
  intros Hx Hy.
  destruct (bounded_inv _ _ Hx) as (Hex & _), (bounded_inv _ _ Hy) as (Hey & _).
  unfold SFsub.
  destruct (shl_align_spec mx ex (Z.min ex ey)) as [_ Hfx].
  destruct (shl_align_spec my ey (Z.min ex ey)) as [_ Hfy].
  rewrite Hfx, Hfy.
  replace (Z.min ex (Z.min ex ey)) with (Z.min ex ey) by plia.
  replace (Z.min ey (Z.min ex ey)) with (Z.min ex ey) by plia.
  rewrite binary_normalize_SFofZ by plia. f_equal.
  cbn [xval]. set (ez := Z.min ex ey).
  rewrite Z.mul_sub_distr_r, !cond_Zopp_mul, !align_value by plia. done.
Qed.
End Operations.



Section RoundProps.
#[local] Open Scope Z_scope.

Lemma SFofZ_props (W : Z) :
  SpecFloat.valid_binary prec emax (SFofZ W) = true
  /\ is_nan_SF (SFofZ W) = false
  /\ xval (SFofZ W) = R64 W.
Proof.
  destruct W as [|p|p]; simpl SFofZ; simpl R64.
  - done.
  - destruct (SFround_xval 0 false (Z.pos p)) as (Hv & Hn & Hx & _); try plia. done.
  - destruct (SFround_xval 0 true (Z.pos p)) as (Hv & Hn & Hx & _); try plia. done.
Qed.

Lemma round53q_lower (lo V : Z) :
  0 <= lo -> 0 < V -> lo < grid lo V -> 2 ^ (Z.log2 V - lo) <= round53q lo V.
Proof.
  intros Hlo HV Hg. unfold round53q.
  destruct (rne_grid_bounds lo V Hlo HV) as [_ Hn]. specialize (Hn Hg).
  destruct (grid_bounds lo V Hlo HV) as (_ & _ & [E|[_ E]]); [plia|].
  pose proof (Z.log2_nonneg V).
  replace (Z.log2 V - lo) with (52 + (grid lo V - lo)) by plia.
  rewrite Z.pow_add_r by plia.
  apply Z.mul_le_mono_nonneg_r; [apply Z.lt_le_incl, pow2_pos; plia | done].
Qed.

Lemma round53q_upper (lo V : Z) :
  0 <= lo -> 0 < V -> grid lo V <= Z.log2 V + 1 ->
  round53q lo V <= 2 ^ (Z.log2 V + 1 - lo).
Proof.
  intros Hlo HV Hg. unfold round53q.
  destruct (grid_bounds lo V Hlo HV) as (Hg1 & _).
  pose proof (log2_bounds V HV) as [_ HL]. pose proof (Z.log2_nonneg V).
  set (g := grid lo V) in *. clearbody g.
  assert (rne V g <= 2 ^ (Z.log2 V + 1 - g)).
  { rewrite <- (rne_exact (2 ^ (Z.log2 V + 1 - g)) g) by plia.
    apply rne_mono; [|plia]. rewrite <- Z.pow_add_r by plia.
    replace (Z.log2 V + 1 - g + g) with (Z.log2 V + 1) by plia. plia. }
  replace (Z.log2 V + 1 - lo) with ((Z.log2 V + 1 - g) + (g - lo)) by plia.
  rewrite Z.pow_add_r by plia.
  apply Z.mul_le_mono_nonneg_r; [apply Z.lt_le_incl, pow2_pos; plia | done].
Qed.

Lemma round53q_small (lo V : Z) :
  0 <= lo -> 0 < V -> Z.log2 V + 1 < grid lo V -> round53q lo V = 0.
Proof.
  intros Hlo HV Hg. unfold round53q.
  pose proof (log2_bounds V HV) as [_ HL]. pose proof (Z.log2_nonneg V).
  set (g := grid lo V) in *. clearbody g.
  assert (2 * V < 2 ^ g).
  { assert (2 ^ (Z.log2 V + 2) <= 2 ^ g) by (apply pow2_le; plia).
    replace (Z.log2 V + 2) with (Z.succ (Z.log2 V + 1)) in * by plia.
    rewrite Z.pow_succ_r in * by plia. plia. }
  unfold rne. rewrite Z.div_small, Z.mod_small by plia.
  by rewrite (proj2 (Z.compare_lt_iff _ _)) by plia.
Qed.

Lemma round53q_nonneg (lo V : Z) : 0 <= lo -> 0 < V -> 0 <= round53q lo V.
Proof.
  intros Hlo HV. unfold round53q.
  destruct (rne_grid_bounds lo V Hlo HV) as [Hm _].
  destruct (grid_bounds lo V Hlo HV) as (Hg1 & _).
  apply Z.mul_nonneg_nonneg; [plia | apply Z.lt_le_incl, pow2_pos; plia].
Qed.

Lemma round53q_mono (lo V1 V2 : Z) :
  0 <= lo -> 0 < V1 <= V2 -> round53q lo V1 <= round53q lo V2.
Proof.
  intros Hlo HV.
  assert (HL : Z.log2 V1 <= Z.log2 V2) by (apply Z.log2_le_mono; plia).
  destruct (grid_bounds lo V1 Hlo ltac:(plia)) as (Hg1 & Hg1' & Hg1'').
  destruct (grid_bounds lo V2 Hlo ltac:(plia)) as (Hg2 & Hg2' & Hg2'').
  destruct (Z.eq_dec (grid lo V1) (grid lo V2)) as [E|N].
  - unfold round53q. rewrite E.
    apply Z.mul_le_mono_nonneg_r; [apply Z.lt_le_incl, pow2_pos; plia|].
    apply rne_mono; plia.
  - assert (Hlt : grid lo V1 < grid lo V2) by (unfold grid in *; plia).
    assert (Hg : lo < grid lo V2) by plia.
    pose proof (round53q_lower lo V2 Hlo ltac:(plia) Hg) as Hlow.
    assert (HL' : Z.log2 V1 < Z.log2 V2) by (unfold grid in *; plia).
    pose proof (Z.log2_nonneg V1).
    destruct (Z_le_gt_dec (grid lo V1) (Z.log2 V1 + 1)) as [Hle|Hgt].
    + pose proof (round53q_upper lo V1 Hlo ltac:(plia) Hle) as Hup.
      assert (Z.log2 V1 + 1 - lo <= Z.log2 V2 - lo) by plia.
      destruct (Z_le_gt_dec 0 (Z.log2 V1 + 1 - lo)).
      * assert (2 ^ (Z.log2 V1 + 1 - lo) <= 2 ^ (Z.log2 V2 - lo)) by (apply pow2_le; plia).
        plia.
      * rewrite Z.pow_neg_r in Hup by plia.
        pose proof (round53q_nonneg lo V2 Hlo ltac:(plia)). plia.
    + rewrite round53q_small by plia.
      apply round53q_nonneg; plia.
Qed.

Lemma overflow_mono (R1 R2 : Z) : R1 <= R2 -> overflow R1 <= overflow R2.
Proof.
  intros HR. unfold overflow.
  assert (2 ^ 2098 < 2 ^ 2100) by (apply pow2_lt; plia).
  destruct (Z.ltb_spec R1 (2 ^ 2098)), (Z.ltb_spec R2 (2 ^ 2098)); plia.
Qed.

Lemma overflow_nonneg (R : Z) : 0 <= R -> 0 <= overflow R.
Proof.
  intros HR. unfold overflow.
  pose proof (pow2_pos 2100 ltac:(plia)). destruct (Z.ltb_spec R (2 ^ 2098)); plia.
Qed.

(** Rounding is monotone. *)
Lemma R64_mono (W1 W2 : Z) : W1 <= W2 -> R64 W1 <= R64 W2.
Proof.
  intros HW.
  assert (Hpos : forall p, 0 <= overflow (round53q 0 (Z.pos p))).
  { intros p. apply overflow_nonneg, round53q_nonneg; plia. }
  destruct W1 as [|p1|p1], W2 as [|p2|p2]; simpl; try plia.
  - apply Hpos.
  - apply overflow_mono, round53q_mono; plia.
  - pose proof (Hpos p1). plia.
  - pose proof (Hpos p1). pose proof (Hpos p2). plia.
  - assert (overflow (round53q 0 (Z.pos p2)) <= overflow (round53q 0 (Z.pos p1))); [|plia].
    apply overflow_mono, round53q_mono; plia.
Qed.

(** A float is the rounding of its own value. *)
Lemma SFofZ_finite (s : bool) (m : positive) (e : Z) :
  bounded prec emax m e = true ->
  SFofZ (xval (S754_finite s m e)) = S754_finite s m e.
Proof.
  intros Hb. destruct (bounded_inv _ _ Hb) as (He & Hd & Hn & Hf).
  destruct (bounded_mantissa _ _ Hb) as [Hm Hm'].
  pose proof (finite_xval_bound s m e Hb) as HV.
  pose proof (pow2_pos (e + 1074) ltac:(plia)) as HP.
  assert (E : SFround 0 s (Z.pos m * 2 ^ (e + 1074)) = S754_finite s m e).
  { unfold SFround, grid. rewrite Z.log2_mul_pow2 by plia.
    pose proof (Zdigits2_log2 (Z.pos m) ltac:(plia)) as HL. simpl Zdigits2 in HL.
    assert (Eg : Z.max (e + 1074 + Z.log2 (Z.pos m) - 52) 0 = e + 1074).
    { unfold fexp64 in Hf. plia. }
    rewrite Eg, rne_exact by plia.
    replace (e + 1074 - 1074 - 0) with e by plia.
    unfold mk_float.
    rewrite (proj2 (Z.eqb_neq _ _)) by plia.
    rewrite (proj2 (Z.eqb_neq _ _)) by plia.
    rewrite (proj2 (Z.leb_le _ _)) by plia. done. }
  cbn [xval]. destruct s; cbn [cond_Zopp].
  - destruct (Z.pos m * 2 ^ (e + 1074)) as [|q|q] eqn:Eq; try plia.
    simpl. exact E.
  - destruct (Z.pos m * 2 ^ (e + 1074)) as [|q|q] eqn:Eq; try plia.
    simpl. exact E.
Qed.

Lemma R64_finite (s : bool) (m : positive) (e : Z) :
  bounded prec emax m e = true ->
  R64 (xval (S754_finite s m e)) = xval (S754_finite s m e).
Proof.
  intros Hb. destruct (SFofZ_props (xval (S754_finite s m e))) as (_ & _ & <-).
  by rewrite SFofZ_finite.
Qed.
End RoundProps.



(** ** Primitive floats through their values *)

Section PrimFloats.
#[local] Open Scope Z_scope.

Lemma ltb_val (x y : float64) :
  fnan x = false -> fnan y = false -> (x <? y)%float = (fval x <? fval y).
Proof.
  intros Nx Ny. rewrite ltb_spec. unfold SFltb.
  rewrite (SFcompare_xval _ _ (Prim2SF_valid x) (Prim2SF_valid y) Nx Ny).
  unfold fval, Z.ltb. by destruct (_ ?= _).
Qed.

Lemma leb_val (x y : float64) :
  fnan x = false -> fnan y = false -> (x <=? y)%float = (fval x <=? fval y).
Proof.
  intros Nx Ny. rewrite leb_spec. unfold SFleb.
  rewrite (SFcompare_xval _ _ (Prim2SF_valid x) (Prim2SF_valid y) Nx Ny).
  unfold fval, Z.leb. by destruct (_ ?= _).
Qed.

Lemma ltb_true_nan (x y : float64) :
  (x <? y)%float = true -> fnan x = false /\ fnan y = false.
Proof.
  rewrite ltb_spec. unfold SFltb, fnan.
  destruct (Prim2SF x), (Prim2SF y); simpl; try discriminate; done.
Qed.

Lemma leb_true_nan (x y : float64) :
  (x <=? y)%float = true -> fnan x = false /\ fnan y = false.
Proof.
  rewrite leb_spec. unfold SFleb, fnan.
  destruct (Prim2SF x), (Prim2SF y); simpl; try discriminate; done.
Qed.

Lemma xval_le_max (x : spec_float) :
  SpecFloat.valid_binary prec emax x = true -> - 2 ^ 2100 <= xval x <= 2 ^ 2100.
Proof.
  intros Hv. assert (2 ^ 2098 < 2 ^ 2100) by (apply pow2_lt; plia).
  pose proof (pow2_pos 2100 ltac:(plia)).
  destruct x as [s|s| |s m e]; cbn [xval]; try plia.
  - destruct s; cbn [cond_Zopp]; plia.
  - pose proof (finite_xval_bound s m e Hv). destruct s; cbn [cond_Zopp]; plia.
Qed.

Lemma mk_float_nonneg (m e : Z) :
  0 <= m <= 2 ^ 53 -> -1074 <= e -> (-1074 < e -> 2 ^ 52 <= m) ->
  nonneg_SF (mk_float false m e).
Proof.
  intros Hm He Hn. split; [by apply mk_float_valid|].
  unfold mk_float.
  destruct (m =? 0); [by left|].
  destruct (m =? 2 ^ 53).
  - destruct (e + 1 <=? 971); [right; left; eauto | by right; right].
  - destruct (e <=? 971); [right; left; eauto | by right; right].
Qed.

Lemma SFround_nonneg (lo V : Z) : 0 <= lo -> 0 < V -> nonneg_SF (SFround lo false V).
Proof.
  intros Hlo HV. unfold SFround.
  destruct (grid_bounds lo V Hlo HV) as (Hg1 & _).
  destruct (rne_grid_bounds lo V Hlo HV) as [Hm Hn].
  apply mk_float_nonneg; [done | plia | intros; apply Hn; plia].
Qed.

Lemma SFmul_finite (sx sy : bool) (mx my : positive) (ex ey : Z) :
  bounded prec emax mx ex = true -> bounded prec emax my ey = true ->
  SFmul prec emax (S754_finite sx mx ex) (S754_finite sy my ey)
  = SFround 1074 (xorb sx sy)
      (Z.pos mx * 2 ^ (ex + 1074) * (Z.pos my * 2 ^ (ey + 1074))).
Proof.
  intros Hx Hy.
  destruct (bounded_inv _ _ Hx) as (Hex & Hdx & Hnx & _).
  destruct (bounded_inv _ _ Hy) as (Hey & Hdy & Hny & _).
  unfold SFmul.
  pose proof (Zdigits2_log2 (Z.pos mx) ltac:(plia)) as Lx. simpl Zdigits2 in Lx.
  pose proof (Zdigits2_log2 (Z.pos my) ltac:(plia)) as Ly. simpl Zdigits2 in Ly.
  pose proof (Zdigits2_log2 (Z.pos (mx * my)) ltac:(plia)) as Lxy. simpl Zdigits2 in Lxy.
  pose proof (Z.log2_mul_below (Z.pos mx) (Z.pos my) ltac:(plia) ltac:(plia)) as Hlog.
  rewrite <- Pos2Z.inj_mul in Hlog.
  pose proof (Z.log2_nonneg (Z.pos mx)). pose proof (Z.log2_nonneg (Z.pos my)).
  rewrite (binary_round_aux_SFround 1074) by (unfold fexp64; plia).
  f_equal. rewrite Pos2Z.inj_mul.
  replace (ex + ey + 1074 + 1074) with ((ex + 1074) + (ey + 1074)) by plia.
  rewrite Z.pow_add_r by plia. ring.
Qed.

Lemma SFmul_nonneg (x : spec_float) (m : positive) (e : Z) :
  nonneg_SF x -> bounded prec emax m e = true ->
  nonneg_SF (SFmul prec emax x (S754_finite false m e)).
Proof.
  intros [Hv [->|[(mx & ex & ->)| ->]]] Hb.
  - split; [done | by left].
  - rewrite SFmul_finite by done. apply SFround_nonneg; [plia|].
    pose proof (finite_xval_bound false mx ex Hv).
    pose proof (finite_xval_bound false m e Hb). pnia.
  - split; [done | by right; right].
Qed.

(** Adding something that is not negative does not decrease a finite
    positive float. *)
Lemma SFadd_nonneg (m : positive) (e : Z) (y : spec_float) :
  bounded prec emax m e = true -> nonneg_SF y ->
  is_nan_SF (SFadd prec emax (S754_finite false m e) y) = false
  /\ SpecFloat.valid_binary prec emax (SFadd prec emax (S754_finite false m e) y) = true
  /\ xval (S754_finite false m e) <= xval (SFadd prec emax (S754_finite false m e) y).
Proof.
  intros Hb [Hv [->|[(my & ey & ->)| ->]]].
  - simpl. split; [done|]. split; [done|]. plia.
  - rewrite SFadd_finite by done.
    destruct (SFofZ_props (xval (S754_finite false m e) + xval (S754_finite false my ey)))
      as (Hval & Hnan & ->).
    split; [done|]. split; [done|].
    rewrite <- (R64_finite false m e Hb) at 1.
    apply R64_mono.
    pose proof (finite_xval_bound false my ey Hv). cbn [xval cond_Zopp]. plia.
  - simpl. split; [done|]. split; [done|].
    pose proof (finite_xval_bound false m e Hb).
    assert (2 ^ 2098 < 2 ^ 2100) by (apply pow2_lt; plia). plia.
Qed.
End PrimFloats.



(** ** Adaptive scale *)

Section Scale.
#[local] Open Scope Z_scope.

Lemma Prim2SF_0_3 : Prim2SF 0.3 = S754_finite false 5404319552844595 (-54).
Proof. vm_compute. reflexivity. Qed.

Lemma Prim2SF_0_1 : Prim2SF 0.1 = S754_finite false 7205759403792794 (-56).
Proof. vm_compute. reflexivity. Qed.

Lemma fval_0_1_pos : 0 < fval 0.1.
Proof. unfold fval. rewrite Prim2SF_0_1. vm_compute. reflexivity. Qed.

Lemma network_scale_update_step mv series :
  network_scale_update mv series = scale_step mv (observed_peak series).
Proof. reflexivity. Qed.

Lemma disk_scale_update_step mv series :
  disk_scale_update mv series = scale_step mv (observed_peak series).
Proof. reflexivity. Qed.

(** The upward branch on a positive finite scale. *)
Lemma up_step_ge (mv p : float64) :
  (mv <? p)%float = true -> 0 < fval mv ->
  fnan (mv + (p - mv) * 0.3) = false /\ fval mv <= fval (mv + (p - mv) * 0.3).
Proof.
  intros Hlt Hpos.
  destruct (ltb_true_nan _ _ Hlt) as [Nmv Np].
  rewrite ltb_val in Hlt by done. apply Z.ltb_lt in Hlt.
  unfold fval, fnan in *.
  rewrite add_spec, mul_spec, sub_spec, Prim2SF_0_3.
  unfold SF64add, SF64mul, SF64sub.
  pose proof (Prim2SF_valid mv) as Vmv. pose proof (Prim2SF_valid p) as Vp.
  pose proof (xval_le_max _ Vp) as Hmax.
  assert (H98 : 2 ^ 2098 < 2 ^ 2100) by (apply pow2_lt; plia).
  destruct (Prim2SF mv) as [s|s| |s m e]; try (simpl in *; plia).
  { destruct s; cbn [xval cond_Zopp] in *; plia. }
  assert (s = false) as ->.
  { destruct s; [|done]. pose proof (finite_xval_bound true m e Vmv).
    cbn [xval cond_Zopp] in Hpos. plia. }
  assert (B3 : bounded prec emax 5404319552844595 (-54) = true) by (vm_compute; reflexivity).
  assert (Hy : nonneg_SF (SFmul prec emax (SFsub prec emax (Prim2SF p) (S754_finite false m e))
                                (S754_finite false 5404319552844595 (-54)))).
  { apply SFmul_nonneg; [|done].
    destruct (Prim2SF p) as [sp|sp| |sp mp ep]; try (simpl in *; plia).
    - destruct sp; cbn [xval cond_Zopp] in *; [plia|]. simpl. split; [done | by right; right].
    - rewrite SFsub_finite by done.
      destruct (xval (S754_finite sp mp ep) - xval (S754_finite false m e))
        as [|W|W] eqn:EW; try plia.
      simpl SFofZ. apply SFround_nonneg; plia. }
  destruct (SFadd_nonneg m e _ Vmv Hy) as (Hn & _ & Hle). done.
Qed.

(** On a tick whose peak is above a scale that is not below 0.1, the
    scale does not decrease. *)
Lemma scale_step_up (mv p : float64) :
  (mv <? p)%float = true -> (mv <? 0.1)%float = false ->
  (mv <=? scale_step mv p)%float = true.
Proof.
  intros Hlt Hfloor.
  destruct (ltb_true_nan _ _ Hlt) as [Nmv Np].
  assert (N01 : fnan 0.1 = false) by (vm_compute; reflexivity).
  rewrite ltb_val in Hfloor by done. apply Z.ltb_ge in Hfloor.
  pose proof fval_0_1_pos as H01.
  destruct (up_step_ge mv p Hlt ltac:(plia)) as [Nr Hge].
  unfold scale_step. rewrite Hlt.
  rewrite (ltb_val (mv + (p - mv) * 0.3) 0.1) by done.
  rewrite (proj2 (Z.ltb_ge _ _)) by plia.
  rewrite leb_val by done. apply Z.leb_le. plia.
Qed.

Lemma scale_updates_lookup update mv0 ticks_ (k : nat) prev next series :
  (mv0 :: scale_updates update mv0 ticks_) !! k = Some prev ->
  scale_updates update mv0 ticks_ !! k = Some next ->
  ticks_ !! k = Some series ->
  next = update prev series.
Proof.
  revert mv0 k. induction ticks_ as [|s rest IH]; intros mv0 k Hp Hn Hs; [done|].
  destruct k as [|k]; simpl in *.
  - by simplify_eq.
  - eapply (IH (update mv0 s) k); eauto.
Qed.

End Scale.


(** ** Rounding errors *)

Section Errors.
#[local] Open Scope Z_scope.

Lemma R64_opp (W : Z) : R64 (- W) = - R64 W.
Proof. destruct W; [done| |]; change (- Z.neg p) with (Z.pos p) || change (- Z.pos p) with (Z.neg p); cbn [R64]; plia. Qed.

Lemma Rmul_opp (P : Z) : Rmul (- P) = - Rmul P.
Proof. destruct P; [done| |]; change (- Z.neg p) with (Z.pos p) || change (- Z.pos p) with (Z.neg p); cbn [Rmul]; plia. Qed.

Lemma R64_0 : R64 0 = 0.
Proof. reflexivity. Qed.

(** Rounding a value below [2^n] moves it by at most [2^(n-54)]. *)
Lemma round53q_error (lo V n : Z) :
  0 <= lo -> 0 < V < 2 ^ n -> lo + 53 <= n ->
  - 2 ^ (n - 54) <= round53q lo V * 2 ^ lo - V <= 2 ^ (n - 54)
  /\ 0 <= round53q lo V <= 2 ^ (n - lo).
Proof.
  intros Hlo HV Hn.
  destruct (grid_bounds lo V Hlo ltac:(plia)) as (Hg1 & Hg2 & Hg3).
  pose proof (Z.log2_nonneg V) as HL0.
  assert (HL : Z.log2 V < n) by (apply Z.log2_lt_pow2; plia).
  assert (Hgn : grid lo V <= n - 53) by (unfold grid; plia).
  split.
  - unfold round53q. rewrite <- Z.mul_assoc, <- Z.pow_add_r by plia.
    replace (grid lo V - lo + lo) with (grid lo V) by plia.
    destruct (Z.eq_dec (grid lo V) 0) as [E0|E0].
    + rewrite E0. pose proof (rne_exact V 0 ltac:(plia)) as Hex.
      rewrite Z.pow_0_r, Z.mul_1_r in Hex. rewrite Hex, Z.pow_0_r.
      pose proof (Z.pow_nonneg 2 (n - 54) ltac:(plia)). plia.
    + pose proof (rne_near V (grid lo V) ltac:(plia) ltac:(plia)) as Hnear.
      assert (2 ^ (grid lo V - 1) <= 2 ^ (n - 54)) by (apply pow2_le; plia).
      assert (2 ^ grid lo V = 2 * 2 ^ (grid lo V - 1)).
      { rewrite <- Z.pow_succ_r by plia. f_equal. plia. }
      plia.
  - split; [apply round53q_nonneg; plia|].
    destruct (Z_le_gt_dec (grid lo V) (Z.log2 V + 1)) as [Hle|Hgt].
    + pose proof (round53q_upper lo V Hlo ltac:(plia) Hle).
      assert (2 ^ (Z.log2 V + 1 - lo) <= 2 ^ (n - lo)); [|plia].
      destruct (Z_le_gt_dec 0 (Z.log2 V + 1 - lo)).
      * apply pow2_le; plia.
      * rewrite Z.pow_neg_r by plia. apply Z.lt_le_incl, pow2_pos. plia.
    + rewrite round53q_small by plia. apply Z.lt_le_incl, pow2_pos. plia.
Qed.

Lemma overflow_small (R : Z) : R < 2 ^ 2098 -> overflow R = R.
Proof. intros HR. unfold overflow. by rewrite (proj2 (Z.ltb_lt _ _)) by done. Qed.

Lemma R64_error (W n : Z) :
  Z.abs W < 2 ^ n -> 53 <= n <= 2097 ->
  - 2 ^ (n - 54) <= R64 W - W <= 2 ^ (n - 54) /\ Z.abs (R64 W) <= 2 ^ n.
Proof.
  intros HW Hn.
  assert (H97 : 2 ^ n < 2 ^ 2098) by (apply pow2_lt; plia).
  pose proof (Z.pow_nonneg 2 (n - 54) ltac:(plia)) as HP.
  pose proof (pow2_pos n ltac:(plia)) as HPn.
  destruct W as [|p|p]; cbn [R64].
  - plia.
  - destruct (round53q_error 0 (Z.pos p) n) as [He Hb]; try plia.
    rewrite Z.sub_0_r in Hb. rewrite Z.pow_0_r, Z.mul_1_r in He.
    rewrite overflow_small by plia. plia.
  - destruct (round53q_error 0 (Z.pos p) n) as [He Hb]; try plia.
    rewrite Z.sub_0_r in Hb. rewrite Z.pow_0_r, Z.mul_1_r in He.
    rewrite overflow_small by plia. plia.
Qed.

Lemma Rmul_error (P n : Z) :
  Z.abs P < 2 ^ n -> 1127 <= n <= 3171 ->
  - 2 ^ (n - 54) <= Rmul P * 2 ^ 1074 - P <= 2 ^ (n - 54)
  /\ Z.abs (Rmul P) <= 2 ^ (n - 1074).
Proof.
  intros HP Hn.
  assert (H97 : 2 ^ (n - 1074) < 2 ^ 2098) by (apply pow2_lt; plia).
  pose proof (pow2_pos (n - 54) ltac:(plia)) as HP54.
  pose proof (pow2_pos (n - 1074) ltac:(plia)) as HPn.
  destruct P as [|p|p]; cbn [Rmul].
  - plia.
  - destruct (round53q_error 1074 (Z.pos p) n) as [He Hb]; try plia.
    rewrite overflow_small by plia. plia.
  - destruct (round53q_error 1074 (Z.pos p) n) as [He Hb]; try plia.
    rewrite overflow_small by plia. plia.
Qed.

Lemma R64_nonneg (W : Z) : 0 <= W -> 0 <= R64 W.
Proof. intros HW. rewrite <- R64_0. by apply R64_mono. Qed.

Lemma Rmul_nonneg (P : Z) : 0 <= P -> 0 <= Rmul P.
Proof.
  intros HP. destruct P as [|p|p]; cbn [Rmul]; try plia.
  apply overflow_nonneg, round53q_nonneg; plia.
Qed.
End Errors.

(** ** Values of the operations on finite floats *)

Section FiniteOps.
#[local] Open Scope Z_scope.

Lemma ffin_inv (f : float64) :
  ffin f -> fnan f = false /\ Z.abs (fval f) < 2 ^ 2098.
Proof.
  unfold ffin, fnan, fval. pose proof (Prim2SF_valid f) as Hv.
  pose proof (pow2_pos 2098 ltac:(plia)).
  destruct (Prim2SF f) as [s|s| |s m e]; try discriminate; intros _; split; try done.
  pose proof (finite_xval_bound s m e Hv). destruct s; cbn [xval cond_Zopp]; plia.
Qed.

Lemma ffin_intro (f : float64) :
  fnan f = false -> Z.abs (fval f) < 2 ^ 2098 -> ffin f.
Proof.
  unfold ffin, fnan, fval. intros Hn Hb.
  assert (2 ^ 2098 < 2 ^ 2100) by (apply pow2_lt; plia).
  destruct (Prim2SF f) as [s|s| |s m e]; try done.
  destruct s; cbn [xval cond_Zopp] in Hb; plia.
Qed.

Lemma SFofZ_R64_finite (x : spec_float) :
  SpecFloat.valid_binary prec emax x = true -> is_finite_SF x = true ->
  R64 (xval x) = xval x.
Proof.
  intros Hv Hf. destruct x as [s|s| |s m e]; try discriminate; [done|].
  by apply R64_finite.
Qed.

Lemma add_val (x y : float64) :
  ffin x -> ffin y ->
  fnan (x + y) = false /\ fval (x + y) = R64 (fval x + fval y).
Proof.
  unfold ffin, fnan, fval. rewrite add_spec. unfold SF64add.
  pose proof (Prim2SF_valid x) as Vx. pose proof (Prim2SF_valid y) as Vy.
  destruct (Prim2SF x) as [sx|sx| |sx mx ex], (Prim2SF y) as [sy|sy| |sy my ey];
    try discriminate; intros _ _.
  - by destruct sx, sy.
  - cbn [SFadd is_nan_SF]. split; [done|].
    rewrite Z.add_0_l. by rewrite R64_finite.
  - cbn [SFadd is_nan_SF]. split; [done|].
    change (xval (S754_zero sy)) with 0. rewrite Z.add_0_r. by rewrite R64_finite.
  - rewrite SFadd_finite by done.
    destruct (SFofZ_props (xval (S754_finite sx mx ex) + xval (S754_finite sy my ey)))
      as (_ & Hn & Hx). done.
Qed.

Lemma sub_val (x y : float64) :
  ffin x -> ffin y ->
  fnan (x - y) = false /\ fval (x - y) = R64 (fval x - fval y).
Proof.
  unfold ffin, fnan, fval. rewrite sub_spec. unfold SF64sub.
  pose proof (Prim2SF_valid x) as Vx. pose proof (Prim2SF_valid y) as Vy.
  destruct (Prim2SF x) as [sx|sx| |sx mx ex], (Prim2SF y) as [sy|sy| |sy my ey];
    try discriminate; intros _ _.
  - by destruct sx, sy.
  - cbn [SFsub is_nan_SF]. split; [done|].
    change (xval (S754_zero sx)) with 0. rewrite Z.sub_0_l.
    replace (- xval (S754_finite sy my ey)) with (xval (S754_finite (negb sy) my ey))
      by (destruct sy; cbn [xval cond_Zopp negb]; plia).
    by rewrite R64_finite.
  - cbn [SFsub is_nan_SF]. split; [done|].
    change (xval (S754_zero sy)) with 0. rewrite Z.sub_0_r. by rewrite R64_finite.
  - rewrite SFsub_finite by done.
    destruct (SFofZ_props (xval (S754_finite sx mx ex) - xval (S754_finite sy my ey)))
      as (_ & Hn & Hx). done.
Qed.

Lemma mul_val (x y : float64) :
  ffin x -> ffin y ->
  fnan (x * y) = false /\ fval (x * y) = Rmul (fval x * fval y).
Proof.
  unfold ffin, fnan, fval. rewrite mul_spec. unfold SF64mul.
  pose proof (Prim2SF_valid x) as Vx. pose proof (Prim2SF_valid y) as Vy.
  destruct (Prim2SF x) as [sx|sx| |sx mx ex], (Prim2SF y) as [sy|sy| |sy my ey];
    try discriminate; intros _ _; try (cbn [SFmul xval is_nan_SF]; by rewrite ?Z.mul_0_l, ?Z.mul_0_r).
  rewrite SFmul_finite by done.
  pose proof (finite_xval_bound sx mx ex Vx) as Hx.
  pose proof (finite_xval_bound sy my ey Vy) as Hy.
  set (X := Z.pos mx * 2 ^ (ex + 1074)) in *. set (Y := Z.pos my * 2 ^ (ey + 1074)) in *.
  assert (HXY : 0 < X * Y) by (apply Z.mul_pos_pos; [apply Hx | apply Hy]).
  destruct (SFround_xval 1074 (xorb sx sy) (X * Y) ltac:(plia) HXY) as (_ & Hn & Hv & _).
  split; [done|]. rewrite Hv. cbn [xval]. fold X Y.
  destruct sx, sy; cbn [cond_Zopp xorb].
  - replace (- X * - Y) with (X * Y) by ring.
    destruct (X * Y) as [|q|q] eqn:E; try plia. done.
  - replace (- X * Y) with (- (X * Y)) by ring.
    destruct (X * Y) as [|q|q] eqn:E; try plia. done.
  - replace (X * - Y) with (- (X * Y)) by ring.
    destruct (X * Y) as [|q|q] eqn:E; try plia. done.
  - destruct (X * Y) as [|q|q] eqn:E; try plia. done.
Qed.

Lemma abs_val (x : float64) :
  fnan (PrimFloat.abs x) = fnan x /\ fval (PrimFloat.abs x) = Z.abs (fval x).
Proof.
  unfold fnan, fval. rewrite abs_spec. pose proof (Prim2SF_valid x) as Vx.
  pose proof (pow2_pos 2100 ltac:(plia)).
  destruct (Prim2SF x) as [s|s| |s m e]; cbn [SFabs xval is_nan_SF cond_Zopp]; split; try done.
  - destruct s; cbn [cond_Zopp]; plia.
  - pose proof (finite_xval_bound s m e Vx). destruct s; cbn [cond_Zopp]; plia.
Qed.
End FiniteOps.

(** ** The animation step on values *)

Section GaugeValues.
#[local] Open Scope Z_scope.

Lemma pow2_add (a b c : Z) : 0 <= a -> 0 <= b -> c = a + b -> 2 ^ c = 2 ^ a * 2 ^ b.
Proof. intros Ha Hb ->. by apply Z.pow_add_r. Qed.

Lemma zstep_opp (S c t : Z) : zstep S (- c) (- t) = - zstep S c t.
Proof.
  unfold zstep.
  replace (- t - - c) with (- (t - c)) by lia.
  rewrite R64_opp, Z.abs_opp.
  destruct (_ <? _); [done|].
  replace (- R64 (t - c) * S) with (- (R64 (t - c) * S)) by lia.
  rewrite Rmul_opp.
  replace (- c + - Rmul (R64 (t - c) * S)) with (- (c + Rmul (R64 (t - c) * S))) by lia.
  apply R64_opp.
Qed.

(** The arithmetic of one step, with [e] for [2^1027]: [D] is the
    distance to the target, [d] its rounding, [p] the rounded product
    with the speed [S]. *)
Lemma zstep_arith (e S D d p : Z) :
  0 < e ->
  2 ^ 7 * e <= S <= 2 ^ 47 * e - 2 ^ 7 * e ->
  - (2 * e) <= d - D <= 2 * e ->
  2 ^ 46 * e <= d ->
  - (2 * e * (2 ^ 47 * e)) <= p * (2 ^ 47 * e) - d * S <= 2 * e * (2 ^ 47 * e) ->
  p <= D /\ S - 4 * e <= 2 * p.
Proof.
  intros He HS Hd Hd46 Hp.
  assert (A1 : d * S <= (D + 2 * e) * S) by (apply Z.mul_le_mono_nonneg_r; lia).
  assert (A2 : (D + 2 * e) * S <= (D + 2 * e) * (2 ^ 47 * e - 2 ^ 7 * e))
    by (apply Z.mul_le_mono_nonneg_l; lia).
  assert (A3 : (2 ^ 46 * e - 2 * e) * e <= D * e)
    by (apply Z.mul_le_mono_nonneg_r; lia).
  assert (A4 : 2 ^ 46 * e * S <= d * S) by (apply Z.mul_le_mono_nonneg_r; lia).
  split.
  - apply Z.mul_le_mono_pos_r with (2 ^ 47 * e); [lia|]. nia.
  - apply Z.mul_le_mono_pos_r with (2 ^ 46 * e); [lia|]. nia.
Qed.

(** Below the target a step either snaps or moves up by at least a
    quarter of the speed, and never beyond the target. *)
Lemma zstep_below (S c t : Z) :
  speed_range S -> percent_range c -> percent_range t ->
  R64 c = c -> R64 t = t -> c <= t ->
  (Z.abs (R64 (t - c)) < 2 ^ 1073 /\ zstep S c t = t)
  \/ (2 ^ 1073 <= Z.abs (R64 (t - c))
      /\ S <= 4 * (zstep S c t - c) /\ zstep S c t <= t).
Proof.
  assert (E1028 : 2 ^ 1028 = 2 * 2 ^ 1027) by (apply (pow2_add 1 1027); lia).
  assert (E1034 : 2 ^ 1034 = 2 ^ 7 * 2 ^ 1027) by (apply pow2_add; lia).
  assert (E1073 : 2 ^ 1073 = 2 ^ 46 * 2 ^ 1027) by (apply pow2_add; lia).
  assert (E1074 : 2 ^ 1074 = 2 ^ 47 * 2 ^ 1027) by (apply pow2_add; lia).
  assert (E1081 : 2 ^ 1081 = 2 ^ 54 * 2 ^ 1027) by (apply pow2_add; lia).
  assert (E1082 : 2 ^ 1082 = 2 ^ 55 * 2 ^ 1027) by (apply pow2_add; lia).
  assert (E2102 : 2 ^ 2102 = 2 ^ 1028 * 2 ^ 1074) by (apply pow2_add; lia).
  assert (E2156 : 2 ^ 2156 = 2 ^ 1082 * 2 ^ 1074) by (apply pow2_add; lia).
  assert (He : 0 < 2 ^ 1027) by (apply pow2_pos; lia).
  unfold speed_range, percent_range, zstep.
  rewrite ?E1028, ?E1034, ?E1073, ?E1074, ?E1081, ?E1082 in *.
  set (e := 2 ^ 1027) in *. clearbody e.
  intros HS Hc Ht Rc Rt Hct.
  destruct (Z.ltb_spec (Z.abs (R64 (t - c))) (2 ^ 46 * e)) as [Hd|Hd]; [by left|right].
  split; [done|].
  pose proof (R64_nonneg (t - c) ltac:(lia)) as Hd0.
  rewrite Z.abs_eq in Hd by done.
  destruct (R64_error (t - c) 1082) as [Hde Hdb]; [rewrite E1082; lia | lia |].
  change (1082 - 54) with 1028 in Hde. rewrite E1028 in Hde. rewrite E1082 in Hdb.
  rewrite Z.abs_eq in Hdb by done.
  set (d := R64 (t - c)) in *. clearbody d.
  assert (HP : Z.abs (d * S) < 2 ^ 2156).
  { rewrite E2156. rewrite Z.abs_eq by (apply Z.mul_nonneg_nonneg; lia).
    apply Z.le_lt_trans with (2 ^ 55 * e * S).
    - apply Z.mul_le_mono_nonneg_r; lia.
    - apply Z.mul_lt_mono_pos_l; lia. }
  destruct (Rmul_error (d * S) 2156 HP) as [Hpe _]; [lia|].
  change (2156 - 54) with 2102 in Hpe. rewrite E2102, E1074 in Hpe.
  pose proof (Rmul_nonneg (d * S) ltac:(apply Z.mul_nonneg_nonneg; lia)) as Hp0.
  set (p := Rmul (d * S)) in *. clearbody p. clear HP.
  destruct (zstep_arith e S (t - c) d p He HS ltac:(lia) Hd Hpe) as [Hpt Hpl].
  destruct (R64_error (c + p) 1082) as [Hce _]; [rewrite E1082; lia | lia |].
  change (1082 - 54) with 1028 in Hce. rewrite E1028 in Hce.
  split.
  - lia.
  - apply Z.le_trans with (R64 t); [apply R64_mono; lia | lia].
Qed.

(** Above the target, the mirror image. *)
Lemma zstep_above (S c t : Z) :
  speed_range S -> percent_range c -> percent_range t ->
  R64 c = c -> R64 t = t -> t <= c ->
  (Z.abs (R64 (t - c)) < 2 ^ 1073 /\ zstep S c t = t)
  \/ (2 ^ 1073 <= Z.abs (R64 (t - c))
      /\ S <= 4 * (c - zstep S c t) /\ t <= zstep S c t).
Proof.
  intros HS Hc Ht Rc Rt Hct.
  assert (Habs : Z.abs (R64 (- t - - c)) = Z.abs (R64 (t - c))).
  { replace (- t - - c) with (- (t - c)) by lia. by rewrite R64_opp, Z.abs_opp. }
  destruct (zstep_below S (- c) (- t)) as [[H1 H2]|(H1 & H2 & H3)].
  - done.
  - unfold percent_range in *. by rewrite Z.abs_opp.
  - unfold percent_range in *. by rewrite Z.abs_opp.
  - rewrite R64_opp. by rewrite Rc.
  - rewrite R64_opp. by rewrite Rt.
  - by apply Z.opp_le_mono in Hct.
  - left. rewrite Habs in H1. rewrite zstep_opp in H2. split; [done|].
    by apply Z.opp_inj.
  - right. rewrite Habs in H1. rewrite zstep_opp in H2, H3. split; [done|].
    set (z := zstep S c t) in *. clearbody z. clear H1 Habs Hc Ht. lia.
Qed.
End GaugeValues.

(** ** Rate computation *)

Section Rate.
#[local] Open Scope Z_scope.

Lemma Prim2SF_float64_of_Z (n : Z) :
  Prim2SF (float64_of_Z n) = SFofZ (n * 2 ^ 1074).
Proof.
  unfold float64_of_Z.
  rewrite (binary_normalize_SFofZ n 0) by plia.
  apply Prim2SF_SF2Prim. apply SFofZ_props.
Qed.

(** The conversion of a positive integer below [2^64] is a positive
    finite float. *)
Lemma float64_of_Z_pos (n : Z) :
  0 < n < 2 ^ 64 ->
  exists m e, Prim2SF (float64_of_Z n) = S754_finite false m e.
Proof.
  intros Hn. rewrite Prim2SF_float64_of_Z.
  pose proof (pow2_pos 1074 ltac:(plia)) as HU.
  destruct (n * 2 ^ 1074) as [|V|V] eqn:EV; try plia.
  simpl SFofZ. rewrite <- EV.
  assert (HV : 0 < n * 2 ^ 1074) by plia.
  destruct (SFround_nonneg 0 (n * 2 ^ 1074) ltac:(plia) HV) as [_ Hc].
  destruct (SFround_xval 0 false (n * 2 ^ 1074) ltac:(plia) HV) as (_ & _ & Hx & _).
  assert (HL : Z.log2 (n * 2 ^ 1074) = 1074 + Z.log2 n) by (apply Z.log2_mul_pow2; plia).
  assert (HLn : 0 <= Z.log2 n < 64).
  { split; [apply Z.log2_nonneg | apply Z.log2_lt_pow2; plia]. }
  assert (Hg : 0 < grid 0 (n * 2 ^ 1074)) by (unfold grid; plia).
  pose proof (round53q_lower 0 _ ltac:(plia) HV Hg) as Hlow.
  pose proof (round53q_upper 0 (n * 2 ^ 1074) ltac:(plia) HV ltac:(unfold grid; plia)) as Hup.
  rewrite HL in Hlow, Hup.
  assert (0 < 2 ^ (1074 + Z.log2 n - 0)) by (apply pow2_pos; plia).
  assert (2 ^ (1074 + Z.log2 n + 1 - 0) < 2 ^ 2098) by (apply pow2_lt; plia).
  unfold overflow in Hx. rewrite (proj2 (Z.ltb_lt _ _)) in Hx by plia.
  cbn [cond_Zopp] in Hx.
  destruct Hc as [E|[(m & e & E)|E]]; rewrite E in Hx |- *; cbn [xval cond_Zopp] in Hx.
  - plia.
  - eauto.
  - assert (2 ^ 2098 < 2 ^ 2100) by (apply pow2_lt; plia). plia.
Qed.

End Rate.

(** * Properties *)

(** ** Slices *)

Section SliceFacts.
Context {A : Type}.
Implicit Types (s : list A) (v : A).

Lemma len_nonneg s : 0 <= len s.
Proof. unfold len. lia. Qed.

Lemma index_ok s (i : nat) :
(i < length s)%nat -> index s (Z.of_nat i) = s !! i.
Proof.
intros Hi. unfold index, len.
rewrite decide_True by lia. by rewrite Nat2Z.id.
Qed.

Lemma assign_ok s (i : nat) v :
(i < length s)%nat -> assign s (Z.of_nat i) v = ok (<[i := v]> s).
Proof.
intros Hi. unfold assign, len.
rewrite decide_True by lia. by rewrite Nat2Z.id.
Qed.

Lemma index_0 s : index s 0 = s !! 0%nat.
Proof.
unfold index, len. destruct (decide _) as [Hd|Hd]; [done|].
symmetry. apply lookup_ge_None_2. lia.
Qed.

Lemma assign_0 s v : s <> [] -> assign s 0 v = ok (<[0%nat := v]> s).
Proof. intros Hs. apply (assign_ok s 0%nat v). destruct s; [done | simpl; lia]. Qed.

Lemma copy_at_tail (n : nat) s v :
(length s <= n)%nat ->
copy_at (replicate n v) (Z.of_nat n - len s) s
= ok (replicate (n - length s) v ++ s).
Proof.
intros Hn. unfold copy_at, slice_from, len.
rewrite length_replicate.
rewrite decide_True by lia. simpl.
replace (Z.to_nat (Z.of_nat n - Z.of_nat (length s))) with (n - length s)%nat by lia.
rewrite length_drop, length_replicate.
replace (Nat.min (n - (n - length s)) (length s)) with (length s) by lia.
rewrite take_replicate, drop_replicate, firstn_all, drop_replicate.
replace (n - (n - length s) - length s)%nat with 0%nat by lia.
replace (Nat.min (n - length s) n) with (n - length s)%nat by lia.
simpl. by rewrite app_nil_r.
Qed.

Lemma copy_at_tail_Z (n : Z) s v :
len s <= n ->
copy_at (replicate (Z.to_nat n) v) (n - len s) s
= ok (replicate (Z.to_nat (n - len s)) v ++ s).
Proof.
intros Hn. pose proof (copy_at_tail (Z.to_nat n) s v) as Hc.
unfold len in *. rewrite Z2Nat.id in Hc by lia.
rewrite Hc by lia. do 3 f_equal. lia.
Qed.
End SliceFacts.

(** ** Sliding history buffers *)

(** One pass of the shifting loop: the slots [i .. i+n-1] of both series
    receive their right neighbours, the others keep their value. *)
Lemma shift_loop_lookup (n i : nat) (a b : list float64) :
  (i + n < length a)%nat -> (i + n < length b)%nat ->
  exists a' b',
    shift_loop n (Z.of_nat i) a b = ok (a', b')
    /\ length a' = length a /\ length b' = length b
    /\ (forall k, a' !! k = if decide (i <= k < i + n)%nat then a !! S k else a !! k)
    /\ (forall k, b' !! k = if decide (i <= k < i + n)%nat then b !! S k else b !! k).
Proof.
  revert i a b. induction n as [|n IH]; intros i a b Ha Hb.
  - exists a, b. repeat split; try done; intros k; by rewrite decide_False by lia.
  - destruct (lookup_lt_is_Some_2 a (S i)) as [x Hx]; [lia|].
    destruct (lookup_lt_is_Some_2 b (S i)) as [y Hy]; [lia|].
    destruct (IH (S i) (<[i := x]> a) (<[i := y]> b)) as (a' & b' & Hrun & Hla & Hlb & Hka & Hkb).
    { rewrite length_insert. lia. }
    { rewrite length_insert. lia. }
    exists a', b'. simpl.
    replace (Z.of_nat i + 1) with (Z.of_nat (S i)) by lia.
    rewrite !index_ok by lia. rewrite Hx. simpl.
    rewrite assign_ok by lia. simpl. rewrite Hy. simpl.
    rewrite assign_ok by lia. simpl.
    rewrite length_insert in Hla, Hlb.
    repeat split; try done.
    + intros k. rewrite Hka.
      destruct (decide (k = i)) as [->|Hne].
      * rewrite decide_False by lia. rewrite decide_True by lia.
        rewrite list_lookup_insert_eq by lia. done.
      * destruct (decide (S i <= k < S i + n)%nat).
        -- rewrite decide_True by lia. by rewrite list_lookup_insert_ne by lia.
        -- rewrite decide_False by lia. by rewrite list_lookup_insert_ne by lia.
    + intros k. rewrite Hkb.
      destruct (decide (k = i)) as [->|Hne].
      * rewrite decide_False by lia. rewrite decide_True by lia.
        rewrite list_lookup_insert_eq by lia. done.
      * destruct (decide (S i <= k < S i + n)%nat).
        -- rewrite decide_True by lia. by rewrite list_lookup_insert_ne by lia.
        -- rewrite decide_False by lia. by rewrite list_lookup_insert_ne by lia.
Qed.

(** Shifting a non-empty series and writing [v] in its last slot drops
    the oldest sample and appends [v]. *)
Lemma shift_then_write (a a' : list float64) (v : float64) :
  a <> [] -> length a' = length a ->
  (forall k, a' !! k = if decide (0 <= k < 0 + (length a - 1))%nat then a !! S k else a !! k) ->
  <[(length a' - 1)%nat := v]> a' = drop 1 a ++ [v].
Proof.
  intros Hne Hl Hk.
  assert (0 < length a)%nat by (destruct a; [done | simpl; lia]).
  apply list_eq. intros k.
  destruct (decide (k = length a - 1)%nat) as [->|Hk1].
  - rewrite Hl, list_lookup_insert_eq by lia.
    rewrite lookup_app_r by (rewrite length_drop; lia).
    rewrite length_drop. by replace (length a - 1 - (length a - 1))%nat with 0%nat by lia.
  - rewrite list_lookup_insert_ne by lia. rewrite Hk.
    destruct (decide (k < length a - 1)%nat).
    + rewrite decide_True by lia.
      rewrite lookup_app_l by (rewrite length_drop; lia).
      by rewrite lookup_drop.
    + rewrite decide_False by lia.
      rewrite (lookup_ge_None_2 a) by lia.
      symmetry. apply lookup_ge_None_2. rewrite length_app, length_drop. simpl. lia.
Qed.

(** The two buffer steps of [updateNetworkGraph] on series of one length. *)
Lemma shift_add_network (nd : NetworkData) (rx tx : float64) :
  RxData nd <> [] -> length (TxData nd) = length (RxData nd) ->
  (nd' ← shiftNetworkData nd; addNetworkData nd' rx tx)
  = ok (mkNetworkData (drop 1 (RxData nd) ++ [rx]) (drop 1 (TxData nd) ++ [tx]) (MaxValue nd)).
Proof.
  intros Hne Hlen.
  assert (0 < length (RxData nd))%nat by (destruct (RxData nd); [done | simpl; lia]).
  destruct (shift_loop_lookup (length (RxData nd) - 1) 0 (RxData nd) (TxData nd))
    as (a' & b' & Hrun & Hla & Hlb & Hka & Hkb); [lia | lia |].
  unfold shiftNetworkData.
  replace (Z.to_nat (len (RxData nd) - 1)) with (length (RxData nd) - 1)%nat
    by (unfold len; lia).
  change 0 with (Z.of_nat 0). rewrite Hrun. simpl.
  unfold addNetworkData. simpl.
  replace (len a' - 1) with (Z.of_nat (length a' - 1)) by (unfold len; lia).
  replace (len b' - 1) with (Z.of_nat (length b' - 1)) by (unfold len; lia).
  rewrite !assign_ok by lia. simpl.
  assert (Ea : <[(length a' - 1)%nat := rx]> a' = drop 1 (RxData nd) ++ [rx])
    by (by apply shift_then_write).
  assert (Eb : <[(length b' - 1)%nat := tx]> b' = drop 1 (TxData nd) ++ [tx]).
  { apply shift_then_write; [intros E; rewrite E in Hlen; simpl in Hlen; lia | done |].
    by rewrite Hlen. }
  by rewrite Ea, Eb.
Qed.

Lemma shift_add_disk (dd : DiskData) (rd wr : float64) :
  ReadData dd <> [] -> length (WriteData dd) = length (ReadData dd) ->
  (dd' ← shiftDiskData dd; addDiskData dd' rd wr)
  = ok (mkDiskData (drop 1 (ReadData dd) ++ [rd]) (drop 1 (WriteData dd) ++ [wr])
          (Disk.MaxValue dd)).
Proof.
  intros Hne Hlen.
  assert (0 < length (ReadData dd))%nat by (destruct (ReadData dd); [done | simpl; lia]).
  destruct (shift_loop_lookup (length (ReadData dd) - 1) 0 (ReadData dd) (WriteData dd))
    as (a' & b' & Hrun & Hla & Hlb & Hka & Hkb); [lia | lia |].
  unfold shiftDiskData.
  replace (Z.to_nat (len (ReadData dd) - 1)) with (length (ReadData dd) - 1)%nat
    by (unfold len; lia).
  change 0 with (Z.of_nat 0). rewrite Hrun. simpl.
  unfold addDiskData. simpl.
  replace (len a' - 1) with (Z.of_nat (length a' - 1)) by (unfold len; lia).
  replace (len b' - 1) with (Z.of_nat (length b' - 1)) by (unfold len; lia).
  rewrite !assign_ok by lia. simpl.
  assert (Ea : <[(length a' - 1)%nat := rd]> a' = drop 1 (ReadData dd) ++ [rd])
    by (by apply shift_then_write).
  assert (Eb : <[(length b' - 1)%nat := wr]> b' = drop 1 (WriteData dd) ++ [wr]).
  { apply shift_then_write; [intros E; rewrite E in Hlen; simpl in Hlen; lia | done |].
    by rewrite Hlen. }
  by rewrite Ea, Eb.
Qed.

Section HistoryFacts.
Context `{Formatter}.

Lemma updateNetworkGraph_buffers (nd : NetworkData) (rx tx : float64) (g : Plot) :
RxData nd <> [] -> length (TxData nd) = length (RxData nd) ->
exists nd' g',
updateNetworkGraph nd rx tx g = ok (nd', g')
/\ RxData nd' = drop 1 (RxData nd) ++ [rx]
/\ TxData nd' = drop 1 (TxData nd) ++ [tx].
Proof.
intros Hne Hlen.
pose proof (shift_add_network nd rx tx Hne Hlen) as Hsa.
unfold updateNetworkGraph.
destruct (shiftNetworkData nd) as [nd1|]; [|discriminate]. simpl in *.
rewrite Hsa. simpl. eexists _, _. split; [reflexivity|]. done.
Qed.

Lemma updateDiskGraph_buffers (dd : DiskData) (rd wr : float64) (g : Plot) :
ReadData dd <> [] -> length (WriteData dd) = length (ReadData dd) ->
exists dd' g',
updateDiskGraph dd rd wr g = ok (dd', g')
/\ ReadData dd' = drop 1 (ReadData dd) ++ [rd]
/\ WriteData dd' = drop 1 (WriteData dd) ++ [wr].
Proof.
intros Hne Hlen.
pose proof (shift_add_disk dd rd wr Hne Hlen) as Hsa.
unfold updateDiskGraph.
destruct (shiftDiskData dd) as [dd1|]; [|discriminate]. simpl in *.
rewrite Hsa. simpl. eexists _, _. split; [reflexivity|]. done.
Qed.

Lemma drop_snoc_length (a : list float64) (v : float64) :
a <> [] -> length (drop 1 a ++ [v]) = length a.
Proof. destruct a; [done|]. intros _. rewrite length_app. simpl. rewrite drop_0. lia. Qed.

Lemma feedNetworkGraph_buffers (samples : list (float64 * float64)) :
forall (nd : NetworkData) (g : Plot),
(length samples <= length (RxData nd))%nat ->
length (TxData nd) = length (RxData nd) ->
exists nd' g',
  feedNetworkGraph nd g samples = ok (nd', g')
  /\ RxData nd' = drop (length samples) (RxData nd) ++ samples.*1
  /\ TxData nd' = drop (length samples) (TxData nd) ++ samples.*2.
Proof.
induction samples as [|[rx tx] rest IH]; intros nd g Hn Hlen.
- exists nd, g. simpl. by rewrite !drop_0, !app_nil_r.
- simpl in Hn.
assert (Hne : RxData nd <> []) by (intros E; rewrite E in Hn; simpl in Hn; lia).
assert (Hne' : TxData nd <> []) by (intros E; rewrite E in Hlen; simpl in Hlen; lia).
destruct (updateNetworkGraph_buffers nd rx tx g Hne Hlen) as (nd1 & g1 & Hrun & Hrx & Htx).
destruct (IH nd1 g1) as (nd' & g' & Hrun' & Hrx' & Htx').
{ rewrite Hrx, drop_snoc_length by done. lia. }
{ rewrite Hrx, Htx, !drop_snoc_length by done. done. }
exists nd', g'. simpl. rewrite Hrun. simpl. split; [done|].
rewrite Hrx', Htx', Hrx, Htx. simpl.
rewrite !drop_app_le by (rewrite length_drop; lia).
rewrite !drop_drop, <- !app_assoc. done.
Qed.

Lemma feedDiskGraph_buffers (samples : list (float64 * float64)) :
forall (dd : DiskData) (g : Plot),
(length samples <= length (ReadData dd))%nat ->
length (WriteData dd) = length (ReadData dd) ->
exists dd' g',
  feedDiskGraph dd g samples = ok (dd', g')
  /\ ReadData dd' = drop (length samples) (ReadData dd) ++ samples.*1
  /\ WriteData dd' = drop (length samples) (WriteData dd) ++ samples.*2.
Proof.
induction samples as [|[rd wr] rest IH]; intros dd g Hn Hlen.
- exists dd, g. simpl. by rewrite !drop_0, !app_nil_r.
- simpl in Hn.
assert (Hne : ReadData dd <> []) by (intros E; rewrite E in Hn; simpl in Hn; lia).
destruct (updateDiskGraph_buffers dd rd wr g Hne Hlen) as (dd1 & g1 & Hrun & Hrx & Htx).
assert (Hne' : WriteData dd <> []) by (intros E; rewrite E in Hlen; simpl in Hlen; lia).
destruct (IH dd1 g1) as (dd' & g' & Hrun' & Hrx' & Htx').
{ rewrite Hrx, drop_snoc_length by done. lia. }
{ rewrite Hrx, Htx, !drop_snoc_length by done. done. }
exists dd', g'. simpl. rewrite Hrun. simpl. split; [done|].
rewrite Hrx', Htx', Hrx, Htx. simpl.
rewrite !drop_app_le by (rewrite length_drop; lia).
rewrite !drop_drop, <- !app_assoc. done.
Qed.

Lemma feedNetworkGraph_app (l1 l2 : list (float64 * float64)) :
forall (nd : NetworkData) (g : Plot),
feedNetworkGraph nd g (l1 ++ l2)
= '(nd1, g1) ← feedNetworkGraph nd g l1; feedNetworkGraph nd1 g1 l2.
Proof.
induction l1 as [|[rx tx] l1 IH]; intros nd g; simpl; [done|].
destruct (updateNetworkGraph nd rx tx g) as [[nd1 g1]|]; simpl; [apply IH | done].
Qed.

(** C5.  Feeding [N <= C] samples, one [updateNetworkGraph] each, to a
pair of all-zero history buffers of capacity [C] leaves the samples,
in order, in the last [N] slots and zeros in the slots before them.
Right after the append of sample number [k], the last slot holds
that sample and every other slot holds what its right neighbour
held before, so older samples keep their order of recency. *)
Theorem C5_history_append (C : nat) (samples : list (float64 * float64))
(mv : float64) (g : Plot) :
(length samples <= C)%nat ->
let nd0 := mkNetworkData (replicate C 0%float) (replicate C 0%float) mv in
(exists nd' g',
  feedNetworkGraph nd0 g samples = ok (nd', g')
  /\ RxData nd' = replicate (C - length samples) 0%float ++ samples.*1
  /\ TxData nd' = replicate (C - length samples) 0%float ++ samples.*2)
/\ (forall (k : nat) (rx tx : float64),
    samples !! k = Some (rx, tx) ->
    exists ndk gk ndk' gk',
      feedNetworkGraph nd0 g (take k samples) = ok (ndk, gk)
      /\ feedNetworkGraph nd0 g (take (S k) samples) = ok (ndk', gk')
      /\ len (RxData ndk') = Z.of_nat C /\ len (TxData ndk') = Z.of_nat C
      /\ index (RxData ndk') (Z.of_nat C - 1) = ok rx
      /\ index (TxData ndk') (Z.of_nat C - 1) = ok tx
      /\ (forall j, (S j < C)%nat ->
            RxData ndk' !! j = RxData ndk !! S j
            /\ TxData ndk' !! j = TxData ndk !! S j)).
Proof.
intros HN nd0. split.
- destruct (feedNetworkGraph_buffers samples nd0 g) as (nd' & g' & Hrun & Hrx & Htx).
{ simpl. by rewrite length_replicate. }
{ simpl. by rewrite !length_replicate. }
exists nd', g'. split; [done|]. simpl in Hrx, Htx.
by rewrite Hrx, Htx, !drop_replicate.
- intros k rx tx Hk.
assert (Hlt : (k < length samples)%nat) by (by eapply lookup_lt_Some).
destruct (feedNetworkGraph_buffers (take k samples) nd0 g)
  as (ndk & gk & Hrunk & Hrxk & Htxk).
{ simpl. rewrite length_replicate, length_take. lia. }
{ simpl. by rewrite !length_replicate. }
simpl in Hrxk, Htxk. rewrite length_take, !drop_replicate in Hrxk, Htxk.
replace (k `min` length samples)%nat with k in Hrxk, Htxk by lia.
assert (Hlrx : length (RxData ndk) = C).
{ rewrite Hrxk, length_app, length_replicate, length_fmap, length_take. lia. }
assert (Hltx : length (TxData ndk) = C).
{ rewrite Htxk, length_app, length_replicate, length_fmap, length_take. lia. }
destruct (updateNetworkGraph_buffers ndk rx tx gk) as (ndk' & gk' & Hrun1 & Hrx1 & Htx1).
{ intros E. rewrite E in Hlrx. simpl in Hlrx. lia. }
{ lia. }
assert (Hne : RxData ndk <> []) by (intros E; rewrite E in Hlrx; simpl in Hlrx; lia).
assert (Hne' : TxData ndk <> []) by (intros E; rewrite E in Hltx; simpl in Hltx; lia).
exists ndk, gk, ndk', gk'. split; [done|]. split.
{ rewrite (take_S_r _ _ _ Hk), feedNetworkGraph_app, Hrunk. simpl.
  rewrite Hrun1. done. }
assert (Hl1 : length (RxData ndk') = C) by (by rewrite Hrx1, drop_snoc_length).
assert (Hl2 : length (TxData ndk') = C) by (by rewrite Htx1, drop_snoc_length).
split; [unfold len; lia|]. split; [unfold len; lia|].
replace (Z.of_nat C - 1) with (Z.of_nat (C - 1)) by lia.
rewrite !index_ok by lia. rewrite Hrx1, Htx1.
split; [|split].
+ rewrite lookup_app_r by (rewrite length_drop; lia).
  rewrite length_drop, Hlrx. by replace (C - 1 - (C - 1))%nat with 0%nat by lia.
+ rewrite lookup_app_r by (rewrite length_drop; lia).
  rewrite length_drop, Hltx. by replace (C - 1 - (C - 1))%nat with 0%nat by lia.
+ intros j Hj. rewrite !lookup_app_l by (rewrite length_drop; lia).
  by rewrite !lookup_drop.
Qed.
End HistoryFacts.

Lemma C5_history_append_witness :
  (2 <= 3)%nat
  /\ exists nd' g',
       feedNetworkGraph (H := integer_formatter)
         (mkNetworkData (replicate 3 0%float) (replicate 3 0%float) 0.1)
         (mkPlot "" [] (Rect 0 14 80 23)) [(1, 2); (3, 4)]%float = ok (nd', g')
       /\ RxData nd' = [0; 1; 3]%float
       /\ TxData nd' = [0; 2; 4]%float.
Proof.
  split; [lia|].
  destruct (C5_history_append (H := integer_formatter) 3 [(1, 2); (3, 4)]%float 0.1
              (mkPlot "" [] (Rect 0 14 80 23)))
    as [(nd' & g' & Hrun & Hrx & Htx) _]; [simpl; lia|].
  exists nd', g'. split; [exact Hrun|]. split; [exact Hrx | exact Htx].
Defined.

(** ** Resizing *)

Lemma grow_pair_grows (n : Z) (a b : list float64) :
  length b = length a -> n > len a ->
  grow_pair n a b
  = ok (replicate (Z.to_nat (n - len a)) 0%float ++ a,
        replicate (Z.to_nat (n - len a)) 0%float ++ b).
Proof.
  intros Hlen Hn. unfold grow_pair, make_float64.
  pose proof (len_nonneg a).
  rewrite decide_True by done. rewrite decide_True by lia. simpl.
  rewrite (copy_at_tail_Z n a) by lia. simpl.
  rewrite (copy_at_tail_Z n b) by (unfold len in *; lia). simpl.
  unfold len. by rewrite Hlen.
Qed.

Lemma grow_pair_keeps (n : Z) (a b : list float64) :
  n <= len a -> grow_pair n a b = ok (a, b).
Proof. intros Hn. unfold grow_pair. by rewrite decide_False by lia. Qed.

Lemma core_gauges_loop_ok (n : nat) :
  forall (width cpuCount : Z) (i : nat) (gauges : list CPUGauge),
    (i + n < length gauges)%nat ->
    Forall gauge_at_rest gauges ->
    exists gauges',
      core_gauges_loop n width cpuCount (Z.of_nat i) gauges = ok gauges'
      /\ length gauges' = length gauges
      /\ Forall gauge_at_rest gauges'.
Proof.
  induction n as [|n IH]; intros width cpuCount i gauges Hi Hall.
  - by exists gauges.
  - simpl. replace (Z.of_nat i + 1) with (Z.of_nat (S i)) by lia.
    rewrite assign_ok by lia. simpl.
    destruct (IH width cpuCount (S i)
                (<[S i := core_gauge width cpuCount (Z.of_nat i)]> gauges))
      as (gauges' & Hrun & Hl & Hall').
    + rewrite length_insert. lia.
    + apply Forall_insert; [done | by split].
    + exists gauges'. rewrite length_insert in Hl. done.
Qed.

Lemma createCPUGauges_ok (cpu_Counts : Resp Z) (width : Z) :
  0 <= cpuCount_of cpu_Counts ->
  exists cpuTitle gauges cpuHeight,
    createCPUGauges cpu_Counts width = ok (cpuTitle, gauges, cpuHeight)
    /\ len gauges = cpuCount_of cpu_Counts + 1
    /\ Forall gauge_at_rest gauges.
Proof.
  intros Hc.
  set (g0 := mkCPUGauge (mkGauge "Avg CPU" (Rect 0 4 width 7) 0 ColorGreen) 0 0).
  set (zs := replicate (Z.to_nat (cpuCount_of cpu_Counts + 1)) (mkCPUGauge NewGauge 0 0)).
  destruct (core_gauges_loop_ok (Z.to_nat (cpuCount_of cpu_Counts)) width
              (cpuCount_of cpu_Counts) 0 (<[0%nat := g0]> zs))
    as (gauges' & Hrun & Hl & Hall).
  { unfold zs. rewrite length_insert, length_replicate. lia. }
  { apply Forall_insert; [|by split]. apply Forall_replicate. by split. }
  change (Z.of_nat 0) with 0 in Hrun.
  unfold createCPUGauges. fold (cpuCount_of cpu_Counts).
  rewrite decide_True by lia. fold g0 zs.
  cbn [mbind option_bind ok].
  rewrite assign_0.
  2:{ intros E. apply (f_equal length) in E. unfold zs in E.
      rewrite length_replicate in E. simpl in E. lia. }
  cbn [mbind option_bind ok]. rewrite Hrun. cbn [mbind option_bind ok].
  eexists _, gauges', _. split; [reflexivity|]. split; [|done].
  unfold len, zs in *. rewrite Hl, length_insert, length_replicate. lia.
Qed.

Lemma grow_pair_grown (n : Z) (a b : list float64) :
  length b = length a -> grow_pair n a b = ok (grown n a, grown n b).
Proof.
  intros Hlen. unfold grown.
  replace (len b) with (len a) by (unfold len; lia).
  destruct (decide (n > len a)).
  - by apply grow_pair_grows.
  - apply grow_pair_keeps. lia.
Qed.

Lemma grown_grows_to (n : Z) (a : list float64) : grows_to n a (grown n a).
Proof.
  unfold grows_to, grown. pose proof (len_nonneg a).
  destruct (decide (n > len a)); [|done].
  split; [|split].
  - unfold len in *. rewrite length_app, length_replicate. lia.
  - rewrite drop_app_length'; [done | by rewrite length_replicate].
  - rewrite take_app_length'; [done | by rewrite length_replicate].
Qed.

Lemma grown_suffix (n : Z) (a : list float64) : a `suffix_of` grown n a.
Proof.
  unfold grown. destruct (decide (n > len a)); [|done].
  by apply suffix_app_r.
Qed.

Lemma resize_ok (cpu_Counts : Resp Z) (width height : Z) (st : Loop) :
  0 <= cpuCount_of cpu_Counts ->
  length (TxData (netData st)) = length (RxData (netData st)) ->
  length (WriteData (diskData st)) = length (ReadData (diskData st)) ->
  exists st',
    resize cpu_Counts width height st = ok st'
    /\ len (cpuGauges st') = cpuCount_of cpu_Counts + 1
    /\ Forall gauge_at_rest (cpuGauges st')
    /\ netData st'
       = mkNetworkData (grown (dataPointCount_of width) (RxData (netData st)))
                       (grown (dataPointCount_of width) (TxData (netData st)))
                       (MaxValue (netData st))
    /\ diskData st'
       = mkDiskData (grown (dataPointCount_of width) (ReadData (diskData st)))
                    (grown (dataPointCount_of width) (WriteData (diskData st)))
                    (Disk.MaxValue (diskData st))
    /\ Text (netStats st') = Text (netStats st)
    /\ Text (diskStats st') = Text (diskStats st)
    /\ prevNetIOStats st' = prevNetIOStats st
    /\ prevDiskIOStats st' = prevDiskIOStats st.
Proof.
  intros Hc Hn Hd.
  destruct (createCPUGauges_ok cpu_Counts width Hc) as (t & gs & hh & Hrun & Hl & Hall).
  unfold resize. rewrite Hrun. cbn [mbind option_bind ok].
  rewrite (grow_pair_grown _ _ _ Hn). cbn [mbind option_bind ok].
  rewrite (grow_pair_grown _ _ _ Hd). cbn [mbind option_bind ok].
  eexists. split; [reflexivity|]. simpl. done.
Qed.

(** C4.  On a resize, each of the four history buffers of length [C] is
    replaced, when the required capacity [max(width, 100)] is greater than
    [C], by a buffer of that capacity whose last [C] entries are the old
    content in order and whose first entries are zeros; otherwise it is
    left as it is, so that a capacity never shrinks. *)
Theorem C4_history_grow (cpu_Counts : Resp Z) (width height : Z) (st : Loop) :
  0 <= cpuCount_of cpu_Counts ->
  length (TxData (netData st)) = length (RxData (netData st)) ->
  length (WriteData (diskData st)) = length (ReadData (diskData st)) ->
  exists st',
    resize cpu_Counts width height st = ok st'
    /\ grows_to (dataPointCount_of width) (RxData (netData st)) (RxData (netData st'))
    /\ grows_to (dataPointCount_of width) (TxData (netData st)) (TxData (netData st'))
    /\ grows_to (dataPointCount_of width) (ReadData (diskData st)) (ReadData (diskData st'))
    /\ grows_to (dataPointCount_of width) (WriteData (diskData st)) (WriteData (diskData st')).
Proof.
  intros Hc Hn Hd.
  destruct (resize_ok cpu_Counts width height st Hc Hn Hd)
    as (st' & Hrun & _ & _ & Hnet & Hdisk & _).
  exists st'. split; [done|].
  rewrite Hnet, Hdisk. simpl. repeat split; apply grown_grows_to.
Qed.


Lemma C4_history_grow_witness :
  0 <= cpuCount_of (mkResp 4 false)
  /\ exists st',
       resize (mkResp 4 false) 200 50 (example_loop (replicate 100 5%float)) = ok st'
       /\ RxData (netData st') = replicate 100 0%float ++ replicate 100 5%float
       /\ ReadData (diskData st') = replicate 100 0%float ++ replicate 100 5%float.
Proof.
  split; [vm_compute; discriminate|].
  destruct (C4_history_grow (mkResp 4 false) 200 50 (example_loop (replicate 100 5%float)))
    as (st' & Hrun & Hrx & _ & Hrd & _);
    [vm_compute; discriminate | reflexivity | reflexivity |].
  exists st'. split; [exact Hrun|].
  unfold grows_to in Hrx, Hrd.
  rewrite decide_True in Hrx, Hrd by (vm_compute; reflexivity).
  destruct Hrx as (_ & Hd1 & Ht1), Hrd as (_ & Hd2 & Ht2).
  split.
  - rewrite <- (take_drop 100 (RxData (netData st'))).
    f_equal; [exact Ht1 | exact Hd1].
  - rewrite <- (take_drop 100 (ReadData (diskData st'))).
    f_equal; [exact Ht2 | exact Hd2].
Defined.

(** C10.  A resize event recreates every gauge, the aggregate and one per
    core, with current and target percent 0, whatever they were before,
    while each history buffer is kept as the tail of the buffer that
    follows the resize. *)
Theorem C10_resize_resets_gauges (cpu_Counts : Resp Z) (width height : Z) (st : Loop) :
  0 <= cpuCount_of cpu_Counts ->
  length (TxData (netData st)) = length (RxData (netData st)) ->
  length (WriteData (diskData st)) = length (ReadData (diskData st)) ->
  exists st',
    resize cpu_Counts width height st = ok st'
    /\ len (cpuGauges st') = cpuCount_of cpu_Counts + 1
    /\ (forall g, g ∈ cpuGauges st' ->
          CurrentPercent g = 0%float /\ TargetPercent g = 0%float)
    /\ RxData (netData st) `suffix_of` RxData (netData st')
    /\ TxData (netData st) `suffix_of` TxData (netData st')
    /\ ReadData (diskData st) `suffix_of` ReadData (diskData st')
    /\ WriteData (diskData st) `suffix_of` WriteData (diskData st').
Proof.
  intros Hc Hn Hd.
  destruct (resize_ok cpu_Counts width height st Hc Hn Hd)
    as (st' & Hrun & Hl & Hall & Hnet & Hdisk & _).
  exists st'. split; [done|]. split; [done|]. split.
  - intros g Hg. rewrite Forall_forall in Hall. by apply Hall.
  - rewrite Hnet, Hdisk. simpl. repeat split; apply grown_suffix.
Qed.

Lemma C10_resize_resets_gauges_witness :
  0 <= cpuCount_of (mkResp 4 false)
  /\ exists st',
       resize (mkResp 4 false) 120 40 (example_loop (replicate 100 5%float)) = ok st'
       /\ len (cpuGauges st') = 5
       /\ forall g, g ∈ cpuGauges st' ->
            CurrentPercent g = 0%float /\ TargetPercent g = 0%float.
Proof.
  split; [vm_compute; discriminate|].
  destruct (C10_resize_resets_gauges (mkResp 4 false) 120 40
              (example_loop (replicate 100 5%float)))
    as (st' & Hrun & Hl & Hall & _);
    [vm_compute; discriminate | reflexivity | reflexivity |].
  exists st'. split; [exact Hrun|]. split; [exact Hl | exact Hall].
Defined.

(** ** Command truncation *)

Lemma strlen_chars (s : string) : String.length s = length (String.list_ascii_of_string s).
Proof. induction s as [|c s IH]; simpl; [done | by rewrite IH]. Qed.

Lemma chars_append (s1 s2 : string) :
  String.list_ascii_of_string (s1 +:+ s2)
  = String.list_ascii_of_string s1 ++ String.list_ascii_of_string s2.
Proof. induction s1 as [|c s1 IH]; simpl; [done | by rewrite IH]. Qed.

Lemma chars_substring_0 (n : nat) (s : string) :
  String.list_ascii_of_string (String.substring 0 n s)
  = take n (String.list_ascii_of_string s).
Proof.
  revert s. induction n as [|n IH]; intros [|c s]; simpl; try done.
  by rewrite IH.
Qed.

(** C9.  For a command longer than the column width [w]: if [w >= 3] the
    result is the first [w - 3] characters followed by three dots, of
    length exactly [w]; if [w < 3] the slice [cmd[:w-3]] is out of range
    and the call panics.  A command that fits is returned as it is. *)
Theorem C9_formatCommand (cmd : string) (w : Z) :
  (strlen cmd > w -> 3 <= w ->
     exists r, formatCommand cmd w = ok r
       /\ String.list_ascii_of_string r
          = take (Z.to_nat (w - 3)) (String.list_ascii_of_string cmd)
            ++ String.list_ascii_of_string "..."
       /\ strlen r = w)
  /\ (strlen cmd > w -> w < 3 -> formatCommand cmd w = panic)
  /\ (strlen cmd <= w -> formatCommand cmd w = ok cmd).
Proof.
  unfold formatCommand, strlen. repeat split.
  - intros Hlong Hw. rewrite decide_True by done. rewrite decide_True by lia.
    eexists. split; [reflexivity|]. split.
    + by rewrite chars_append, chars_substring_0.
    + rewrite strlen_chars, chars_append, chars_substring_0, length_app, length_take.
      rewrite <- strlen_chars. simpl. lia.
  - intros Hlong Hw. rewrite decide_True by done. by rewrite decide_False by lia.
  - intros Hfit. by rewrite decide_False by lia.
Qed.

Lemma C9_formatCommand_witness :
  (exists r, formatCommand "/usr/bin/top -d 1" 10 = ok r
     /\ String.list_ascii_of_string r
        = take (Z.to_nat (10 - 3)) (String.list_ascii_of_string "/usr/bin/top -d 1")
          ++ String.list_ascii_of_string "..."
     /\ strlen r = 10)
  /\ formatCommand "/usr/bin/top -d 1" 2 = panic
  /\ formatCommand "top" 10 = ok "top".
Proof.
  split; [|split].
  - apply (C9_formatCommand "/usr/bin/top -d 1" 10); [vm_compute; reflexivity | lia].
  - apply (C9_formatCommand "/usr/bin/top -d 1" 2); [vm_compute; reflexivity | lia].
  - apply (C9_formatCommand "top" 10). vm_compute. discriminate.
Defined.

(** ** Gauge animation *)

(** The hand-written [abs] differs from the IEEE absolute value only on
    the sign of a negative zero, which no comparison sees. *)
Lemma abs_ltb (d x : float64) :
  Prim2SF x <> S754_nan ->
  (abs d <? x)%float = (PrimFloat.abs d <? x)%float.
Proof.
  intros Hx. unfold abs.
  rewrite (ltb_spec d), !(ltb_spec _ x), abs_spec.
  change (Prim2SF 0) with (S754_zero false).
  destruct (Prim2SF d) as [s|s| |s m e] eqn:Hd; simpl.
  - rewrite Hd. by destruct (Prim2SF x) as [?|[]| |[] ? ?].
  - destruct s; simpl; [|by rewrite Hd].
    rewrite opp_spec, Hd. done.
  - by rewrite Hd.
  - destruct s; simpl; [|by rewrite Hd].
    rewrite opp_spec, Hd. done.
Qed.

Lemma animate_current (speed : float64) (g : CPUGauge) :
  CurrentPercent (animate speed g)
  = gauge_tick_spec speed (CurrentPercent g) (TargetPercent g).
Proof.
  unfold animate, gauge_tick_spec. simpl.
  rewrite abs_ltb; [done|]. vm_compute. discriminate.
Qed.

(** [animateCPUGauges] treats every gauge of the slice, each one by
    itself. *)
Lemma animateCPUGauges_lookup (gauges : list CPUGauge) (speed : float64) (i : nat) :
  animateCPUGauges gauges speed !! i = animate speed <$> gauges !! i.
Proof. unfold animateCPUGauges. apply list_lookup_fmap. Qed.

Lemma animation_ticks_lookup (n : nat) (speed : float64) (gauges : list CPUGauge) (i : nat) :
  animation_ticks n speed gauges !! i = ticks n speed <$> gauges !! i.
Proof.
  induction n as [|n IH].
  - cbn. by destruct (gauges !! i).
  - change (animation_ticks (S n) speed gauges)
      with (animateCPUGauges (animation_ticks n speed gauges) speed).
    rewrite animateCPUGauges_lookup, IH.
    by destruct (gauges !! i).
Qed.

Lemma ticks_spec (speed : float64) (k : nat) (g : CPUGauge) :
  CurrentPercent (ticks k speed g)
  = Nat.iter k (fun c => gauge_tick_spec speed c (TargetPercent g)) (CurrentPercent g)
  /\ TargetPercent (ticks k speed g) = TargetPercent g.
Proof.
  induction k as [|k [IHc IHt]]; [done|].
  change (ticks (S k) speed g) with (animate speed (ticks k speed g)).
  rewrite animate_current, IHc, IHt. done.
Qed.

(** C7.  [animateCPUGauges] keeps the number of gauges and sets, for
    every gauge of the slice, [current] to [target] when
    [|target - current| < 0.5] and to [current + diff * speed] otherwise,
    leaving [target] alone.  A gauge with [current = 0] and [target = 80]
    anywhere in the slice has, at speed 0.03, [current = 2.4] after the
    first call; call 168 is the first to find [|diff| < 0.5] and makes
    [current] exactly 80, where it stays. *)
Theorem C7_gauge_tick :
  (forall (speed : float64) (gauges : list CPUGauge),
      length (animateCPUGauges gauges speed) = length gauges
      /\ forall (i : nat) (g : CPUGauge),
           gauges !! i = Some g ->
           exists g',
             animateCPUGauges gauges speed !! i = Some g'
             /\ CurrentPercent g'
                = gauge_tick_spec speed (CurrentPercent g) (TargetPercent g)
             /\ TargetPercent g' = TargetPercent g)
  /\ (forall (gauges : list CPUGauge) (i : nat) (w : Gauge),
        gauges !! i = Some (mkCPUGauge w 0 80) ->
        (exists g1, animation_ticks 1 0.03 gauges !! i = Some g1
                    /\ CurrentPercent g1 = 2.4%float)
        /\ (forall k, (k < 168)%nat ->
              exists gk, animation_ticks k 0.03 gauges !! i = Some gk
                /\ (PrimFloat.abs (TargetPercent gk - CurrentPercent gk) <? 0.5)%float
                   = bool_decide (k = 167%nat))
        /\ (forall k, exists gk,
              animation_ticks (168 + k) 0.03 gauges !! i = Some gk
              /\ CurrentPercent gk = 80%float)).
Proof.
  split.
  - intros speed gauges. split; [apply length_fmap|].
    intros i g Hi. exists (animate speed g).
    rewrite animateCPUGauges_lookup, Hi. split; [done|].
    split; [apply animate_current | done].
  - intros gauges i w Hi.
    set (g0 := mkCPUGauge w 0 80) in *.
    assert (Hrun : forall k, animation_ticks k 0.03 gauges !! i = Some (ticks k 0.03 g0)).
    { intros k. by rewrite animation_ticks_lookup, Hi. }
    split; [|split].
    + exists (ticks 1 0.03 g0). split; [apply Hrun|].
      rewrite (proj1 (ticks_spec 0.03 1 g0)). vm_compute. reflexivity.
    + intros k Hk. exists (ticks k 0.03 g0). split; [apply Hrun|].
      destruct (ticks_spec 0.03 k g0) as [-> ->].
      change (TargetPercent g0) with 80%float. change (CurrentPercent g0) with 0%float.
      do 168 (destruct k as [|k]; [vm_compute; reflexivity|]). lia.
    + intros k. exists (ticks (168 + k) 0.03 g0). split; [apply Hrun|].
      rewrite (proj1 (ticks_spec 0.03 (168 + k) g0)).
      change (TargetPercent g0) with 80%float. change (CurrentPercent g0) with 0%float.
      rewrite Nat.add_comm, Nat.iter_add.
      replace (Nat.iter 168 (fun c => gauge_tick_spec 0.03 c 80) 0%float) with 80%float
        by (vm_compute; reflexivity).
      induction k as [|k IH]; [done|].
      change (Nat.iter (S k) ?f ?x) with (f (Nat.iter k f x)).
      rewrite IH. vm_compute. reflexivity.
Qed.

Lemma C7_gauge_tick_witness :
  let avg := mkCPUGauge (mkGauge "Avg CPU" (Rect 0 4 80 7) 42 ColorGreen) 42 80 in
  let core := mkCPUGauge (mkGauge "CPU0" (Rect 0 7 40 10) 0 ColorGreen) 0 80 in
  (exists g', animateCPUGauges [avg; core] 0.03 !! 0%nat = Some g'
              /\ CurrentPercent g' = gauge_tick_spec 0.03 42 80
              /\ TargetPercent g' = 80%float)
  /\ (exists g1, animation_ticks 1 0.03 [avg; core] !! 1%nat = Some g1
                 /\ CurrentPercent g1 = 2.4%float)
  /\ (exists gk, animation_ticks (168 + 5) 0.03 [avg; core] !! 1%nat = Some gk
                 /\ CurrentPercent gk = 80%float).
Proof.
  intros avg core.
  destruct C7_gauge_tick as [Hstep Hrun].
  split; [|split].
  - apply (proj2 (Hstep 0.03%float [avg; core]) 0%nat avg). reflexivity.
  - apply (Hrun [avg; core] 1%nat (mkGauge "CPU0" (Rect 0 7 40 10) 0 ColorGreen)).
    reflexivity.
  - apply (Hrun [avg; core] 1%nat (mkGauge "CPU0" (Rect 0 7 40 10) 0 ColorGreen)).
    reflexivity.
Defined.

(** ** The animation step on floats *)

Section GaugeFloats.
#[local] Open Scope Z_scope.

Lemma ffin_R64 (f : float64) : ffin f -> R64 (fval f) = fval f.
Proof. intros Hf. apply SFofZ_R64_finite; [apply Prim2SF_valid | done]. Qed.

Lemma fval_half : fval 0.5 = 2 ^ 1073.
Proof. vm_compute. reflexivity. Qed.

Lemma fval_100 : fval 100 = 100 * 2 ^ 1074.
Proof. vm_compute. reflexivity. Qed.

Lemma in_percent_inv (x : float64) :
  in_percent x -> ffin x /\ 0 <= fval x <= 100 * 2 ^ 1074.
Proof.
  intros [H0 H1].
  destruct (leb_true_nan _ _ H0) as [_ Nx].
  rewrite leb_val in H0, H1 by done. rewrite fval_100 in H1.
  change (fval 0) with 0 in H0.
  apply Z.leb_le in H0, H1.
  assert (100 * 2 ^ 1074 < 2 ^ 2098).
  { apply Z.lt_le_trans with (2 ^ 7 * 2 ^ 1074).
    - apply Z.mul_lt_mono_pos_r; [by apply pow2_pos | done].
    - rewrite <- (pow2_add 7 1074 1081) by done. by apply pow2_le. }
  split; [apply ffin_intro; [done|plia] | plia].
Qed.

(** The float step computes [zstep] on the values, and snaps to the very
    float [t]. *)
Lemma tick_val (speed c t : float64) :
  ffin speed -> 0 <= fval speed <= 2 ^ 1074 ->
  ffin c -> ffin t -> percent_range (fval c) -> percent_range (fval t) ->
  ffin (gauge_tick_spec speed c t)
  /\ fval (gauge_tick_spec speed c t) = zstep (fval speed) (fval c) (fval t)
  /\ (Z.abs (R64 (fval t - fval c)) < 2 ^ 1073 -> gauge_tick_spec speed c t = t).
Proof.
  unfold percent_range. intros Fs HS Fc Ft Hc Ht. unfold gauge_tick_spec.
  destruct (sub_val t c Ft Fc) as [Nd Vd].
  destruct (abs_val (t - c)) as [Na Va].
  rewrite ltb_val by (by rewrite ?Na). rewrite Va, Vd, fval_half. unfold zstep.
  destruct (Z.ltb_spec (Z.abs (R64 (fval t - fval c))) (2 ^ 1073)) as [Hd|Hd]; [done|].
  pose proof (pow2_pos 1074 ltac:(done)) as HU.
  assert (E1082 : 2 ^ 1082 = 2 ^ 8 * 2 ^ 1074) by (by apply pow2_add).
  assert (E1083 : 2 ^ 1083 = 2 ^ 9 * 2 ^ 1074) by (by apply pow2_add).
  assert (E1084 : 2 ^ 1084 = 2 ^ 10 * 2 ^ 1074) by (by apply pow2_add).
  assert (E2157 : 2 ^ 2157 = 2 ^ 1083 * 2 ^ 1074) by (by apply pow2_add).
  destruct (R64_error (fval t - fval c) 1082) as [_ Hdb]; [rewrite E1082; plia | done |].
  rewrite <- Vd in Hdb, Hd.
  assert (Fd : ffin (t - c)).
  { apply ffin_intro; [done|].
    apply Z.le_lt_trans with (2 ^ 1082); [done | by apply pow2_lt]. }
  destruct (mul_val (t - c) speed Fd Fs) as [Np Vp].
  assert (HP : Z.abs (fval (t - c) * fval speed) < 2 ^ 2157).
  { rewrite Z.abs_mul, (Z.abs_eq (fval speed)) by apply HS. rewrite E2157.
    apply Z.le_lt_trans with (2 ^ 1082 * 2 ^ 1074).
    - apply Z.mul_le_mono_nonneg; [apply Z.abs_nonneg | done | apply HS | apply HS].
    - apply Z.mul_lt_mono_pos_r; [done | by apply pow2_lt]. }
  destruct (Rmul_error _ 2157 HP) as [_ Hpb]; [done|].
  change (2157 - 1074) with 1083 in Hpb. rewrite <- Vp in Hpb.
  assert (Fp : ffin ((t - c) * speed)).
  { apply ffin_intro; [done|].
    apply Z.le_lt_trans with (2 ^ 1083); [done | by apply pow2_lt]. }
  destruct (add_val c ((t - c) * speed) Fc Fp) as [Nr Vr].
  destruct (R64_error (fval c + fval ((t - c) * speed)) 1084) as [_ Hrb];
    [rewrite E1084; rewrite E1083 in Hpb; plia | done |].
  rewrite <- Vr in Hrb.
  split; [|split].
  - apply ffin_intro; [done|].
    apply Z.le_lt_trans with (2 ^ 1084); [done | by apply pow2_lt].
  - by rewrite Vr, Vp, Vd.
  - intros Hlt. exfalso. revert Hlt. rewrite <- Vd. by apply Z.le_ngt.
Qed.

Lemma tick_rest (speed t : float64) : ffin t -> gauge_tick_spec speed t t = t.
Proof.
  intros Ft. unfold gauge_tick_spec.
  destruct (sub_val t t Ft Ft) as [Nd Vd].
  destruct (abs_val (t - t)) as [Na Va].
  rewrite ltb_val by (by rewrite ?Na). rewrite Va, Vd, fval_half, Z.sub_diag.
  done.
Qed.

Lemma gauge_iter_rest (speed t : float64) (n : nat) :
  ffin t -> gauge_iter speed t n t = t.
Proof.
  intros Ft. induction n as [|n IH]; [done|].
  change (gauge_iter speed t (S n) t)
    with (gauge_tick_spec speed (gauge_iter speed t n t) t).
  rewrite IH. by apply tick_rest.
Qed.

Lemma gauge_iter_S (speed t : float64) (n : nat) (c : float64) :
  gauge_iter speed t (S n) c = gauge_iter speed t n (gauge_tick_spec speed c t).
Proof. unfold gauge_iter. by rewrite Nat.iter_succ_r. Qed.

(** One float step: a snap, or a move of at least a quarter of the speed
    that stays on its side of the target. *)
Lemma tick_progress (speed c t : float64) :
  ffin speed -> speed_range (fval speed) ->
  ffin c -> ffin t -> percent_range (fval c) -> percent_range (fval t) ->
  gauge_tick_spec speed c t = t
  \/ (ffin (gauge_tick_spec speed c t)
      /\ percent_range (fval (gauge_tick_spec speed c t))
      /\ fval c <> fval t
      /\ fval speed <= 4 * (Z.abs (fval t - fval c)
                            - Z.abs (fval t - fval (gauge_tick_spec speed c t)))
      /\ (fval c <= fval t -> fval (gauge_tick_spec speed c t) <= fval t)
      /\ (fval t <= fval c -> fval t <= fval (gauge_tick_spec speed c t))).
Proof.
  intros Fs HS Fc Ft Hc Ht.
  assert (HS01 : 0 <= fval speed <= 2 ^ 1074).
  { pose proof (pow2_pos 1034 ltac:(done)). unfold speed_range in HS. plia. }
  destruct (tick_val speed c t Fs HS01 Fc Ft Hc Ht) as (Fr & Vr & Hsnap).
  assert (Hne : 2 ^ 1073 <= Z.abs (R64 (fval t - fval c)) -> fval c <> fval t).
  { intros Hd E. rewrite E, Z.sub_diag in Hd. change (R64 0) with 0 in Hd.
    pose proof (pow2_pos 1073 ltac:(done)). plia. }
  destruct (Z_le_gt_dec (fval c) (fval t)) as [Hle|Hgt].
  - destruct (zstep_below (fval speed) (fval c) (fval t) HS Hc Ht
                (ffin_R64 c Fc) (ffin_R64 t Ft) Hle) as [[Hd _]|(Hd & Hq & Hb)].
    + left. by apply Hsnap.
    + right. rewrite <- Vr in Hq, Hb. unfold percent_range in *.
      specialize (Hne Hd). clear Hsnap Vr Hd HS.
      set (r := fval (gauge_tick_spec speed c t)) in *. clearbody r.
      repeat split; [done| plia | done | plia | plia | plia].
  - destruct (zstep_above (fval speed) (fval c) (fval t) HS Hc Ht
                (ffin_R64 c Fc) (ffin_R64 t Ft) ltac:(apply Z.lt_le_incl, Z.gt_lt, Hgt))
      as [[Hd _]|(Hd & Hq & Hb)].
    + left. by apply Hsnap.
    + right. rewrite <- Vr in Hq, Hb. unfold percent_range in *.
      specialize (Hne Hd). clear Hsnap Vr Hd HS.
      set (r := fval (gauge_tick_spec speed c t)) in *. clearbody r.
      repeat split; [done| plia | done | plia | plia | plia].
Qed.

(** After [k + 1] ticks, where [k] quarters of the speed cover the
    distance, [current] is the float [target] for good; meanwhile it
    stays on its side of the target. *)
Lemma gauge_iter_converges (speed t : float64) :
  ffin speed -> speed_range (fval speed) -> ffin t -> percent_range (fval t) ->
  forall (k : nat) (c : float64),
    ffin c -> percent_range (fval c) ->
    4 * Z.abs (fval t - fval c) <= Z.of_nat k * fval speed ->
    (forall j, (S k <= j)%nat -> gauge_iter speed t j c = t)
    /\ (forall j, ffin (gauge_iter speed t j c))
    /\ (fval c <= fval t -> forall j, fval (gauge_iter speed t j c) <= fval t)
    /\ (fval t <= fval c -> forall j, fval t <= fval (gauge_iter speed t j c)).
Proof.
  intros Fs HS Ft Ht.
  assert (HS0 : 0 < fval speed).
  { unfold speed_range in HS. pose proof (pow2_pos 1034 ltac:(done)). plia. }
  induction k as [|k IH]; intros c Fc Hc Hk.
  - destruct (tick_progress speed c t Fs HS Fc Ft Hc Ht) as [E|(_ & _ & Hne & _)];
      [|lia].
    split; [|split; [|split]].
    + intros [|j] Hj; [lia|]. rewrite gauge_iter_S, E. by apply gauge_iter_rest.
    + intros [|j]; [done|]. by rewrite gauge_iter_S, E, gauge_iter_rest.
    + intros Hle [|j]; [done|]. rewrite gauge_iter_S, E, gauge_iter_rest by done. lia.
    + intros Hle [|j]; [done|]. rewrite gauge_iter_S, E, gauge_iter_rest by done. lia.
  - destruct (tick_progress speed c t Fs HS Fc Ft Hc Ht)
      as [E|(Fr & Hr & Hne & Hq & Hb1 & Hb2)].
    + split; [|split; [|split]].
      * intros [|j] Hj; [lia|]. rewrite gauge_iter_S, E. by apply gauge_iter_rest.
      * intros [|j]; [done|]. by rewrite gauge_iter_S, E, gauge_iter_rest.
      * intros Hle [|j]; [done|]. rewrite gauge_iter_S, E, gauge_iter_rest by done. lia.
      * intros Hle [|j]; [done|]. rewrite gauge_iter_S, E, gauge_iter_rest by done. lia.
    + destruct (IH (gauge_tick_spec speed c t) Fr Hr ltac:(lia)) as (I1 & I0 & I2 & I3).
      split; [|split; [|split]].
      * intros [|j] Hj; [lia|]. rewrite gauge_iter_S. apply I1. lia.
      * intros [|j]; [done|]. rewrite gauge_iter_S. apply I0.
      * intros Hle [|j]; [done|]. rewrite gauge_iter_S. by apply I2, Hb1.
      * intros Hle [|j]; [done|]. rewrite gauge_iter_S. by apply I3, Hb2.
Qed.

Lemma ticks_current (speed : float64) (k : nat) (g : CPUGauge) :
  CurrentPercent (ticks k speed g)
  = gauge_iter speed (TargetPercent g) k (CurrentPercent g)
  /\ TargetPercent (ticks k speed g) = TargetPercent g.
Proof.
  induction k as [|k [IHc IHt]]; [done|].
  change (ticks (S k) speed g) with (animate speed (ticks k speed g)).
  rewrite animate_current, IHc, IHt. done.
Qed.
End GaugeFloats.

Section GaugeConvergence.
#[local] Open Scope Z_scope.

Lemma fval_1 : fval 1 = 2 ^ 1074.
Proof. vm_compute. reflexivity. Qed.

Lemma speed_range_intro (speed : float64) :
  (1e-12 <=? speed)%float = true -> (speed <=? 0.999999999999)%float = true ->
  ffin speed /\ speed_range (fval speed).
Proof.
  intros H1 H2.
  destruct (leb_true_nan _ _ H1) as [_ Ns].
  rewrite leb_val in H1, H2 by done. apply Z.leb_le in H1, H2.
  assert (L : 2 ^ 1034 <= fval 1e-12) by (apply Z.leb_le; vm_compute; reflexivity).
  assert (R : fval 0.999999999999 <= 2 ^ 1074 - 2 ^ 1034)
    by (apply Z.leb_le; vm_compute; reflexivity).
  pose proof (pow2_pos 1034 ltac:(done)).
  assert (2 ^ 1074 < 2 ^ 2098) by (by apply pow2_lt).
  split; [apply ffin_intro; [done|plia] | unfold speed_range; plia].
Qed.

(** C8, amended.  For a speed from 1e-12 to 0.999999999999 and [current],
    [target] from 0 to 100, ticking with the target fixed makes [current]
    the float [target] after at most [402 / speed] ticks, and it stays
    there; when [current] starts at or below the target it never exceeds
    the target. *)
Theorem C8_gauge_converges (speed : float64) (g : CPUGauge) :
  (1e-12 <=? speed)%float = true -> (speed <=? 0.999999999999)%float = true ->
  in_percent (CurrentPercent g) -> in_percent (TargetPercent g) ->
  (exists n : nat,
      Z.of_nat n * fval speed <= 402 * fval 1
      /\ forall k, (n <= k)%nat -> CurrentPercent (ticks k speed g) = TargetPercent g)
  /\ ((CurrentPercent g <=? TargetPercent g)%float = true ->
      forall k, (CurrentPercent (ticks k speed g) <=? TargetPercent g)%float = true).
Proof.
  intros Hs1 Hs2 Hc Ht.
  destruct (speed_range_intro speed Hs1 Hs2) as [Fs HS].
  destruct (in_percent_inv _ Hc) as [Fc Bc], (in_percent_inv _ Ht) as [Ft Bt].
  set (c := CurrentPercent g) in *. set (t := TargetPercent g) in *.
  assert (HS' := HS). unfold speed_range in HS'.
  pose proof (pow2_pos 1034 ltac:(done)) as H34.
  set (a := 4 * Z.abs (fval t - fval c)).
  assert (Ha : 0 <= a <= 400 * 2 ^ 1074) by (unfold a; plia).
  assert (HS0 : 0 < fval speed) by plia.
  pose proof (Z.div_pos a (fval speed) (proj1 Ha) HS0) as Hq0.
  pose proof (Z.mul_div_le a (fval speed) HS0) as Hq1.
  pose proof (Z.mul_succ_div_gt a (fval speed) HS0) as Hq2.
  set (q := a / fval speed) in *.
  assert (Pc : percent_range (fval c)) by (unfold percent_range; plia).
  assert (Pt : percent_range (fval t)) by (unfold percent_range; plia).
  destruct (gauge_iter_converges speed t Fs HS Ft Pt (Z.to_nat (q + 1)) c Fc Pc)
    as (I1 & I0 & I2 & _).
  { fold a. rewrite Z2Nat.id by lia. clearbody q a. plia. }
  split.
  - exists (S (Z.to_nat (q + 1))). split.
    + rewrite Nat2Z.inj_succ, Z2Nat.id by lia. rewrite fval_1.
      clearbody q a. plia.
    + intros k Hk. rewrite (proj1 (ticks_current speed k g)). by apply I1.
  - intros Hle k. rewrite (proj1 (ticks_current speed k g)). fold c t.
    destruct (ffin_inv _ (I0 k)) as [Nk _], (ffin_inv _ Ft) as [Nt _],
      (ffin_inv _ Fc) as [Nc _].
    rewrite leb_val in Hle |- * by done. apply Z.leb_le in Hle. apply Z.leb_le.
    by apply I2.
Qed.

Lemma C8_gauge_converges_witness :
  let g := mkCPUGauge NewGauge 0 80 in
  (exists n : nat,
      Z.of_nat n * fval 0.03 <= 402 * fval 1
      /\ forall k, (n <= k)%nat -> CurrentPercent (ticks k 0.03 g) = 80%float)
  /\ ((0 <=? 80)%float = true ->
      forall k, (CurrentPercent (ticks k 0.03 g) <=? 80)%float = true).
Proof.
  intros g.
  apply (C8_gauge_converges 0.03 g); try split; vm_compute; reflexivity.
Defined.

(** C8, as the claim words it, fails for a speed close to 0: with speed
    1e-20, [current = 1] and [target = 80] the step [79 * 1e-20] is lost
    in the addition to 1, and [current] is 1 after every tick. *)
Lemma C8_counterexample :
  ~ (forall (speed : float64) (g : CPUGauge),
       (0 <? speed)%float = true -> (speed <? 1)%float = true ->
       in_percent (CurrentPercent g) -> in_percent (TargetPercent g) ->
       (exists n : nat, CurrentPercent (ticks n speed g) = TargetPercent g)
       /\ ((CurrentPercent g <=? TargetPercent g)%float = true ->
           forall k, (CurrentPercent (ticks k speed g) <=? TargetPercent g)%float = true)).
Proof.
  intros Hclaim.
  destruct (Hclaim 1e-20%float (mkCPUGauge NewGauge 1 80)) as [[n Hn] _];
    try split; try (vm_compute; reflexivity).
  rewrite (proj1 (ticks_current _ _ _)) in Hn. cbn [CurrentPercent TargetPercent] in Hn.
  assert (Hfix : forall n, gauge_iter 1e-20 80 n 1 = 1%float).
  { clear. induction n as [|n IH]; [done|].
    change (gauge_iter 1e-20 80 (S n) 1)
      with (gauge_tick_spec 1e-20 (gauge_iter 1e-20 80 n 1) 80).
    rewrite IH. vm_compute. reflexivity. }
  rewrite Hfix in Hn. apply (f_equal Prim2SF) in Hn. vm_compute in Hn. discriminate.
Qed.
End GaugeConvergence.

(** ** Collection failures *)

Section FailureFacts.
Context `{Formatter}.

Lemma tick_cpu_frame (env : TickEnv) (st st' : Loop) :
tick_cpu env st = ok st' ->
network_subsystem st' = network_subsystem st
/\ disk_subsystem st' = disk_subsystem st.
Proof.
unfold tick_cpu, ok. intros Ht.
apply bind_Some in Ht as (gs & _ & Ht). by simplify_eq.
Qed.

Lemma tick_processes_frame (env : TickEnv) (st st' : Loop) :
tick_processes env st = ok st' ->
network_subsystem st' = network_subsystem st
/\ disk_subsystem st' = disk_subsystem st.
Proof.
unfold tick_processes, ok. intros Ht.
apply bind_Some in Ht as (pl & _ & Ht). by simplify_eq.
Qed.

Lemma tick_network_frame (env : TickEnv) (st st' : Loop) :
tick_network env st = ok st' -> disk_subsystem st' = disk_subsystem st.
Proof.
unfold tick_network, ok. intros Ht.
destruct (failed (net_IOCounters env)); [by simplify_eq|].
apply bind_Some in Ht as (c0 & _ & Ht).
apply bind_Some in Ht as (s1 & _ & Ht).
apply bind_Some in Ht as (s2 & _ & Ht).
apply bind_Some in Ht as ([nd g] & _ & Ht).
by simplify_eq.
Qed.

Lemma tick_disk_frame (env : TickEnv) (st st' : Loop) :
tick_disk env st = ok st' -> network_subsystem st' = network_subsystem st.
Proof.
unfold tick_disk, ok. intros Ht.
destruct (failed (disk_IOCounters env)); [by simplify_eq|].
destruct (fold_left _ _ _) as [[[txt r] w] prev].
apply bind_Some in Ht as ([dd g] & _ & Ht).
by simplify_eq.
Qed.

Lemma tick_network_failure (env : TickEnv) (st : Loop) :
failed (net_IOCounters env) = true -> tick_network env st = ok st.
Proof. intros Hf. unfold tick_network. by rewrite Hf. Qed.

Lemma tick_disk_failure (env : TickEnv) (st : Loop) :
failed (disk_IOCounters env) = true -> tick_disk env st = ok st.
Proof. intros Hf. unfold tick_disk. by rewrite Hf. Qed.

Lemma tick_inv (env : TickEnv) (st st' : Loop) :
tick env st = ok st' ->
exists st1 st2 st3,
tick_cpu env st = ok st1 /\ tick_network env st1 = ok st2
/\ tick_disk env st2 = ok st3 /\ tick_processes env st3 = ok st'.
Proof.
unfold tick. intros Ht.
apply bind_Some in Ht as (st1 & H1 & Ht).
apply bind_Some in Ht as (st2 & H2 & Ht).
apply bind_Some in Ht as (st3 & H3 & Ht).
by exists st1, st2, st3.
Qed.

(** A tick on which the network (resp. disk) counters cannot be read
leaves the network (resp. disk) buffers, scale, text and previous
snapshot as they were, and the failure itself ends nothing: the
branch is skipped. *)
Lemma tick_collection_failure (env : TickEnv) (st st' : Loop) :
tick env st = ok st' ->
(failed (net_IOCounters env) = true -> network_subsystem st' = network_subsystem st)
/\ (failed (disk_IOCounters env) = true -> disk_subsystem st' = disk_subsystem st).
Proof.
intros Ht. destruct (tick_inv _ _ _ Ht) as (st1 & st2 & st3 & H1 & H2 & H3 & H4).
destruct (tick_cpu_frame _ _ _ H1) as [Hn1 Hd1].
destruct (tick_processes_frame _ _ _ H4) as [Hn4 Hd4].
pose proof (tick_network_frame _ _ _ H2) as Hd2.
pose proof (tick_disk_frame _ _ _ H3) as Hn3.
split; intros Hf.
- rewrite tick_network_failure in H2 by done.
assert (E : st2 = st1) by (unfold ok in H2; congruence).
rewrite Hn4, Hn3, E. exact Hn1.
- rewrite tick_disk_failure in H3 by done.
assert (E : st3 = st2) by (unfold ok in H3; congruence).
rewrite Hd4, E, Hd2. exact Hd1.
Qed.
End FailureFacts.

Lemma init_baseline_failure_panics (env : InitEnv) :
  val (init_net_IOCounters env) = [] -> init env = panic.
Proof.
  intros Hnil. unfold init.
  destruct (init_TerminalDimensions env) as [w h].
  destruct (createCPUGauges _ _) as [[[t gs] hh]|]; [|done].
  cbn [mbind option_bind ok].
  destruct (make_float64 _); [|done]. cbn [mbind option_bind ok].
  rewrite Hnil. done.
Qed.

(** C2.  A tick on which the read of the network counters (of the disk
    counters) fails keeps the network (disk) history buffers, scale,
    text, plot and previous snapshot as they were, and the tick goes on
    to its other parts.  The first, baseline read of the network counters
    is different: when it fails and returns no counters, the error is
    logged and [netIOCounters[0]] is then out of range, so the program
    panics before the loop starts. *)
Theorem C2_collection_failure `{Formatter} (env : TickEnv) (st st' : Loop)
    (ienv : InitEnv) :
  (tick env st = ok st' ->
     (failed (net_IOCounters env) = true -> network_subsystem st' = network_subsystem st)
     /\ (failed (disk_IOCounters env) = true -> disk_subsystem st' = disk_subsystem st))
  /\ (failed (net_IOCounters env) = true -> tick_network env st = ok st)
  /\ (failed (disk_IOCounters env) = true -> tick_disk env st = ok st)
  /\ (failed (init_net_IOCounters ienv) = true ->
      val (init_net_IOCounters ienv) = [] -> init ienv = panic).
Proof.
  split; [apply tick_collection_failure|].
  split; [apply tick_network_failure|].
  split; [apply tick_disk_failure|].
  intros _. apply init_baseline_failure_panics.
Qed.

Lemma C2_collection_failure_witness :
  let env := mkTickEnv (mkResp [] true) 300000000 (mkResp [] true)
                       (mkResp [] false) (mkResp [] false) in
  let ienv := mkInitEnv (80, 24) (mkResp 4 false) (mkResp [] true) 0
                        (mkResp [] false) 0 "host" in
  let st := example_loop [1; 2; 3]%float in
  (exists st', tick (H := integer_formatter) env st = ok st'
     /\ network_subsystem st' = network_subsystem st
     /\ ReadData (diskData st') = [2; 3; 0]%float)
  /\ init ienv = panic.
Proof.
  intros env ienv st. split.
  - eexists. split; [vm_compute; reflexivity|]. split; [|vm_compute; reflexivity].
    eapply (C2_collection_failure (H := integer_formatter) env st _ ienv);
      [vm_compute; reflexivity | reflexivity].
  - apply (C2_collection_failure (H := integer_formatter) env st st ienv); reflexivity.
Defined.

(** ** The quotient of two floats *)

(** ** Rounding a quotient *)

Section RoundLocation.
#[local] Open Scope Z_scope.

Lemma shr_iter_inv_from (v P : Z) (mrs : shr_record) (k : nat) :
  0 < P -> shr_inv v P mrs ->
  shr_inv v (P * 2 ^ Z.of_nat k) (Nat.iter k shr_1 mrs).
Proof.
  intros HP Hinv. induction k as [|k IH].
  - cbn [Nat.iter]. change (Z.of_nat 0) with 0. by rewrite Z.pow_0_r, Z.mul_1_r.
  - rewrite Nat2Z.inj_succ, Z.pow_succ_r by lia. cbn [Nat.iter].
    replace (P * (2 * 2 ^ Z.of_nat k)) with (2 * (P * 2 ^ Z.of_nat k)) by ring.
    apply shr_1_inv; [|done].
    apply Z.mul_pos_pos; [done | apply pow2_pos; lia].
Qed.

Lemma shr_inv_from (v P : Z) (mrs : shr_record) (e n : Z) :
  0 < P -> 0 <= n -> shr_inv v P mrs ->
  (shr mrs e n).2 = e + n /\ shr_inv v (P * 2 ^ n) (shr mrs e n).1.
Proof.
  intros HP Hn Hinv. destruct n as [|p|p]; try lia; cbn [shr fst snd].
  - split; [lia|]. by rewrite Z.pow_0_r, Z.mul_1_r.
  - split; [done|]. rewrite iter_pos_nat.
    rewrite <- (positive_nat_Z p) at 1. by apply shr_iter_inv_from.
Qed.

(** The mantissa rounded from a record is the quotient or its successor,
    and does not exceed an integer that the exact value does not exceed. *)
Lemma round_of_inv (v P : Z) (mrs : shr_record) :
  0 < P -> shr_inv v P mrs ->
  let M := round_nearest_even (shr_m mrs) (loc_of_shr_record mrs) in
  shr_m mrs <= M <= shr_m mrs + 1
  /\ forall N, v <= N * P -> M <= N.
Proof.
  intros HP (Hm & Hv & Hr & Hs). destruct mrs as [m r s]. cbn [shr_m shr_r shr_s] in *.
  assert (Hex : r = false -> s = false -> v = m * P).
  { intros -> ->. destruct (proj1 Hs eq_refl) as [E|E]; [done|].
    destruct Hr as [_ Hr]. assert (false = true) by (apply Hr; lia). done. }
  assert (HN : forall N, v <= N * P -> m <= N /\ (m = N -> v = m * P)).
  { intros N HvN. assert (m * P <= N * P) by lia.
    assert (m <= N) by (apply Z.mul_le_mono_pos_r with P; lia).
    split; [done|]. intros ->. lia. }
  destruct r, s; cbn [loc_of_shr_record round_nearest_even].
  - split; [lia|]. intros N HvN. destruct (HN N HvN) as [H1 H2].
    destruct (Z.eq_dec m N) as [E|E]; [|lia].
    specialize (H2 E). destruct Hr as [Hr _]. specialize (Hr eq_refl). nia.
  - split; [destruct (Z.even m); lia|]. intros N HvN. destruct (HN N HvN) as [H1 H2].
    destruct (Z.eq_dec m N) as [E|E]; [|destruct (Z.even m); lia].
    specialize (H2 E). destruct Hr as [Hr _]. specialize (Hr eq_refl). nia.
  - split; [lia|]. intros N HvN. by destruct (HN N HvN).
  - split; [lia|]. intros N HvN. by destruct (HN N HvN).
Qed.

Lemma round_finish (s : bool) (M e1 : Z) :
  0 <= M <= 2 ^ 53 -> -1074 <= e1 ->
  match shr_m (shr_fexp prec emax M e1 loc_Exact).1 with
  | 0 => S754_zero s
  | Z.pos m =>
      if (shr_fexp prec emax M e1 loc_Exact).2 <=? emax - prec
      then S754_finite s m (shr_fexp prec emax M e1 loc_Exact).2
      else S754_infinity s
  | Z.neg _ => S754_nan
  end = mk_float s M e1.
Proof.
  intros HM He1. unfold shr_fexp. rewrite fexp_eq.
  change (shr_record_of_loc M loc_Exact) with (Build_shr_record M false false).
  change (emax - prec) with 971. unfold mk_float.
  destruct (Z.eqb_spec M 0) as [E0|N0].
  - rewrite E0. change (Zdigits2 0) with 0.
    rewrite shr_nop by (unfold fexp64; lia). done.
  - destruct (Z.eqb_spec M (2 ^ 53)) as [E53|N53].
    + rewrite E53. change (Zdigits2 (2 ^ 53)) with 54.
      replace (fexp64 (54 + e1) - e1) with 1 by (unfold fexp64; lia).
      done.
    + assert (Hm2 : 0 < M < 2 ^ 53) by lia.
      rewrite Zdigits2_log2 by lia.
      assert (Z.log2 M < 53) by (apply Z.log2_lt_pow2; lia).
      rewrite shr_nop by (unfold fexp64; lia).
      cbn [fst snd shr_m]. destruct M as [|p2|p2]; try lia. done.
Qed.

(** [binary_round_aux] on a mantissa [q] with a location: [v / P] is the
    exact value that [q] and the location stand for. *)
Lemma binary_round_aux_loc (s : bool) (q e : Z) (l : location) (v P : Z) :
  0 <= q -> 0 < P -> shr_inv v P (shr_record_of_loc q l) ->
  let n := fexp64 (Zdigits2 q + e) - e in
  0 <= n ->
  exists M,
    binary_round_aux prec emax s q e l = mk_float s M (e + n)
    /\ 0 <= M <= 2 ^ 53
    /\ (-1074 < e + n -> 2 ^ 52 <= M)
    /\ forall N, v <= N * (P * 2 ^ n) -> M <= N.
Proof.
  intros Hq HP Hinv n Hn.
  pose proof (pow2_pos n Hn) as HPn.
  destruct (shr_inv_from v P _ e n HP Hn Hinv) as [He' Hinv'].
  destruct (round_of_inv v (P * 2 ^ n) _ ltac:(nia) Hinv') as [HM HMN].
  set (mrs' := (shr (shr_record_of_loc q l) e n).1) in *.
  set (M := round_nearest_even (shr_m mrs') (loc_of_shr_record mrs')) in *.
  exists M.
  assert (Hq0 : shr_m (shr_record_of_loc q l) = q) by (by destruct l as [|[]]).
  destruct Hinv as (_ & Hv0 & _). rewrite Hq0 in Hv0.
  destruct Hinv' as (Hm1 & Hv1 & _).
  set (q1 := shr_m mrs') in *.
  (* q1 is q shifted by n *)
  assert (Hq1 : q1 * 2 ^ n <= q < (q1 + 1) * 2 ^ n).
  { split.
    - assert (q1 * 2 ^ n < q + 1); [|lia].
      apply Z.mul_lt_mono_pos_r with P; [done|]. nia.
    - apply Z.mul_lt_mono_pos_r with P; [done|]. nia. }
  assert (Hd : q < 2 ^ (Zdigits2 q) /\ (0 < q -> 2 ^ (Zdigits2 q - 1) <= q)
               /\ 0 <= Zdigits2 q).
  { destruct q as [|p|p]; try lia.
    - split; [done|]. split; [lia | done].
    - pose proof (digits2_pos_bounds p). cbn [Zdigits2]. lia. }
  destruct Hd as (Hd1 & Hd2 & Hd0).
  set (d := Zdigits2 q) in *.
  assert (Hk : d - 53 <= n) by (unfold n, fexp64; lia).
  assert (Hq1b : q1 < 2 ^ 53).
  { assert (2 ^ d <= 2 ^ (n + 53)).
    { destruct (Z_le_gt_dec 0 d); [apply pow2_le; lia|]. lia. }
    rewrite Z.pow_add_r in * by lia.
    apply Z.mul_lt_mono_pos_r with (2 ^ n); [done|]. nia. }
  split.
  { unfold binary_round_aux. unfold shr_fexp at 1. rewrite fexp_eq. fold d. fold n.
    destruct (shr (shr_record_of_loc q l) e n) as [mrs1 e1] eqn:Hshr.
    cbn [fst snd] in He'. subst e1. unfold mrs' in *. cbn [fst] in *. fold q1. fold M.
    pose proof (round_finish s M (e + n) ltac:(lia) ltac:(unfold n, fexp64; lia)) as Hfin.
    destruct (shr_fexp prec emax M (e + n) loc_Exact) as [mrs2 e2].
    cbn [fst snd] in Hfin. exact Hfin. }
  split; [lia|]. split; [|done].
  intros Hgt.
  assert (En : n = d - 53) by (unfold n, fexp64 in *; lia).
  assert (0 < q).
  { destruct (Z.eq_dec q 0) as [E|E]; [|lia].
    unfold d in En. rewrite E in En. cbn in En. lia. }
  specialize (Hd2 ltac:(done)).
  assert (2 ^ (d - 1) = 2 ^ 52 * 2 ^ n).
  { rewrite <- Z.pow_add_r by lia. f_equal. lia. }
  assert (2 ^ 52 < q1 + 1); [|lia].
  apply Z.mul_lt_mono_pos_r with (2 ^ n); [done|]. lia.
Qed.
End RoundLocation.

Section Quotient.
#[local] Open Scope Z_scope.

(** The location that the division computes from its remainder. *)
Lemma new_location_inv (P q r : Z) :
  0 < P -> 0 <= q -> 0 <= r < P ->
  shr_inv (q * P + r) P (shr_record_of_loc q (new_location P r)).
Proof.
  intros HP Hq Hr. unfold new_location.
  assert (Hgoal : forall rb sb : bool,
            (rb = true <-> P <= 2 * r) -> (sb = false <-> (r = 0 \/ 2 * r = P)) ->
            shr_inv (q * P + r) P (Build_shr_record q rb sb)).
  { intros rb sb Hrb Hsb. unfold shr_inv. cbn [shr_m shr_r shr_s].
    split; [done|]. split; [nia|]. split.
    - rewrite Hrb. split; intros; nia.
    - rewrite Hsb. split; (intros [E|E]; [left|right]; nia). }
  destruct (Z.even P) eqn:Hev.
  - unfold new_location_even. destruct (Z.eqb_spec r 0) as [->|Hr0].
    + apply Hgoal; [split; [done | lia] | split; [by left | done]].
    + destruct (Z.compare_spec (2 * r) P) as [E|E|E]; cbn [shr_record_of_loc];
        apply Hgoal; split; try done; try lia.
  - unfold new_location_odd.
    assert (Hodd : 2 * r <> P).
    { intros E. rewrite <- E, Z.even_mul in Hev. done. }
    destruct (Z.eqb_spec r 0) as [->|Hr0].
    + apply Hgoal; [split; [done | lia] | split; [by left | done]].
    + destruct (Z.compare_spec (2 * r + 1) P) as [E|E|E]; cbn [shr_record_of_loc];
        apply Hgoal; split; try done; try lia.
Qed.

(** The quotient of two positive finite floats whose exact quotient does
    not exceed the integer [K] is a finite float that does not exceed
    [K]. *)
Lemma SFdiv_le (mx my : positive) (ex ey K : Z) :
  bounded prec emax mx ex = true -> bounded prec emax my ey = true ->
  0 <= K < 2 ^ 53 ->
  Z.pos mx * 2 ^ (ex + 1074) <= K * (Z.pos my * 2 ^ (ey + 1074)) ->
  let z := SFdiv prec emax (S754_finite false mx ex) (S754_finite false my ey) in
  is_finite_SF z = true /\ 0 <= xval z <= K * 2 ^ 1074.
Proof.
  intros Hbx Hby HK Hle.
  destruct (bounded_inv _ _ Hbx) as (Hex & Hdx & _).
  destruct (bounded_inv _ _ Hby) as (Hey & Hdy & _).
  pose proof (digits2_pos_bounds mx) as Bx. pose proof (digits2_pos_bounds my) as By.
  set (d1 := Z.pos (digits2_pos mx)) in *. set (d2 := Z.pos (digits2_pos my)) in *.
  assert (Hd1 : 1 <= d1) by (unfold d1; lia). assert (Hd2 : 1 <= d2) by (unfold d2; lia).
  cbn zeta. unfold SFdiv, SFdiv_core_binary. rewrite fexp_eq.
  change (Zdigits2 (Z.pos mx)) with d1. change (Zdigits2 (Z.pos my)) with d2.
  set (a := fexp64 (d1 + ex - (d2 + ey))).
  set (e' := Z.min a (ex - ey)).
  set (s := ex - ey - e').
  assert (Hs : 0 <= s) by (unfold s, e'; lia).
  set (m' := match s with Z.pos _ => Z.shiftl (Z.pos mx) s | 0 => Z.pos mx | Z.neg _ => 0 end).
  assert (Em : m' = Z.pos mx * 2 ^ s).
  { unfold m'. generalize s Hs. intros [|p|p] Hp; [change (2 ^ 0) with 1; lia| |lia].
    by rewrite Z.shiftl_mul_pow2. }
  clearbody m'.
  pose proof (Z_div_mod m' (Z.pos my) ltac:(lia)) as Hdiv.
  destruct (Z.div_eucl m' (Z.pos my)) as [q r]. destruct Hdiv as [Eq Hr].
  cbn [xorb].
  pose proof (pow2_pos s Hs) as Hps.
  assert (Hm' : 0 < m') by (rewrite Em; lia).
  assert (Hq : 0 <= q) by nia.
  (* the exponents *)
  pose proof (pow2_pos (ex + 1074) ltac:(lia)) as Hpx.
  pose proof (pow2_pos (ey + 1074) ltac:(lia)) as Hpy.
  assert (HK1 : 1 <= K) by nia.
  assert (Hdd : d1 + ex <= d2 + ey + 53).
  { assert (Hlt : 2 ^ (d1 - 1) * 2 ^ (ex + 1074) < 2 ^ (53 + d2) * 2 ^ (ey + 1074)).
    { rewrite (Z.pow_add_r 2 53 d2) by lia.
      pose proof (pow2_pos d2 ltac:(lia)) as Hpd.
      destruct Bx as [Bx _]. destruct By as [_ By]. destruct HK as [_ HK].
      revert Bx By HK Hle Hpx Hpy Hpd HK1.
      generalize (2 ^ (d1 - 1)) (2 ^ (ex + 1074)) (2 ^ (ey + 1074)) (2 ^ d2) (2 ^ 53)
        (Z.pos mx) (Z.pos my).
      intros A Px Py D T X Y Bx By HK Hle Hpx Hpy Hpd HK1.
      apply Z.le_lt_trans with (X * Px); [nia|].
      apply Z.le_lt_trans with (K * (Y * Py)); [done|].
      assert (Y * Py < D * Py) by nia.
      assert (K * (Y * Py) < T * (D * Py)); [|lia].
      apply Z.le_lt_trans with (K * (D * Py)); nia. }
    rewrite <- !Z.pow_add_r in Hlt by lia.
    apply Z.pow_lt_mono_r_iff in Hlt; lia. }
  assert (Ha : -1074 <= a <= 0) by (unfold a, fexp64; lia).
  assert (He'0 : e' <= 0) by (unfold e'; lia).
  pose proof (pow2_pos (- e') ltac:(lia)) as Hpu.
  (* the exact quotient against K *)
  assert (HA : m' <= K * (Z.pos my * 2 ^ (- e'))).
  { apply Z.mul_le_mono_pos_r with (2 ^ (ey + 1074)); [done|].
    rewrite Em.
    replace (Z.pos mx * 2 ^ s * 2 ^ (ey + 1074))
      with (Z.pos mx * 2 ^ (ex + 1074) * 2 ^ (- e')).
    2:{ rewrite <- !Z.mul_assoc, <- !Z.pow_add_r by lia. do 2 f_equal. unfold s. lia. }
    replace (K * (Z.pos my * 2 ^ (- e')) * 2 ^ (ey + 1074))
      with (K * (Z.pos my * 2 ^ (ey + 1074)) * 2 ^ (- e')) by ring.
    apply Z.mul_le_mono_nonneg_r; lia. }
  assert (HqK : q < 2 ^ (53 - e')).
  { replace (53 - e') with (53 + - e') by lia. rewrite Z.pow_add_r by lia.
    destruct HK as [_ HK]. revert HK HA Hpu HK1. generalize (2 ^ 53) (2 ^ (- e')).
    intros T U HK HA Hpu HK1.
    assert (q * Z.pos my <= K * U * Z.pos my) by nia.
    assert (q <= K * U) by (apply Z.mul_le_mono_pos_r with (Z.pos my); lia).
    nia. }
  assert (Hdq : 0 <= Zdigits2 q /\ Zdigits2 q + e' <= 53
                /\ (-1074 < e' -> 53 <= Zdigits2 q)).
  { destruct (Z.eq_dec q 0) as [->|Hq0].
    - cbn [Zdigits2]. split; [done|]. split; [lia|]. intros He'.
      (* then the shift makes the quotient large *)
      exfalso.
      assert (Ee : e' = d1 + ex - d2 - ey - 53) by (unfold e', a, fexp64 in *; lia).
      assert (Es : s = 53 + d2 - d1) by (unfold s; lia).
      assert (2 ^ (d1 - 1) * 2 ^ s <= m').
      { rewrite Em. apply Z.mul_le_mono_nonneg_r; lia. }
      assert (E2 : 2 ^ (d1 - 1) * 2 ^ s = 2 ^ 52 * 2 ^ d2).
      { rewrite <- !Z.pow_add_r by lia. f_equal. lia. }
      pose proof (pow2_pos d2 ltac:(lia)). nia.
    - rewrite Zdigits2_log2 by lia.
      pose proof (Z.log2_nonneg q).
      destruct (Z.log2_spec q ltac:(lia)) as [Hl1 Hl2].
      split; [lia|]. split.
      + assert (Hlt : 2 ^ Z.log2 q < 2 ^ (53 - e')) by lia.
        apply Z.pow_lt_mono_r_iff in Hlt; lia.
      + intros He'.
        assert (Ee : e' = d1 + ex - d2 - ey - 53) by (unfold e', a, fexp64 in *; lia).
        assert (Es : s = 53 + d2 - d1) by (unfold s; lia).
        assert (2 ^ (d1 - 1) * 2 ^ s <= m').
        { rewrite Em. apply Z.mul_le_mono_nonneg_r; lia. }
        assert (E2 : 2 ^ (d1 - 1) * 2 ^ s = 2 ^ 52 * 2 ^ d2).
        { rewrite <- !Z.pow_add_r by lia. f_equal. lia. }
        pose proof (pow2_pos d2 ltac:(lia)).
        assert (2 ^ 52 <= q) by nia.
        assert (52 <= Z.log2 q) by (apply Z.log2_le_pow2; lia).
        lia. }
  destruct Hdq as (Hdq0 & Hdq1 & Hdq2).
  set (n := fexp64 (Zdigits2 q + e') - e').
  assert (Hn : 0 <= n).
  { unfold n, fexp64. destruct (Z_le_gt_dec e' (-1074)); [lia|].
    specialize (Hdq2 ltac:(lia)). lia. }
  assert (He1 : -1074 <= e' + n <= 0) by (unfold n, fexp64; lia).
  destruct (binary_round_aux_loc false q e' (new_location (Z.pos my) r) m' (Z.pos my)
              Hq ltac:(lia)) as (M & -> & HM & HMn & HMN).
  { rewrite Eq, Z.mul_comm. apply new_location_inv; lia. }
  { done. }
  fold n in HMn, HMN |- *.
  pose proof (pow2_pos n Hn) as Hpn.
  pose proof (pow2_pos (- (e' + n)) ltac:(lia)) as Hpe.
  assert (HMK : M <= K * 2 ^ (- (e' + n))).
  { apply HMN.
    replace (K * 2 ^ (- (e' + n)) * (Z.pos my * 2 ^ n))
      with (K * (Z.pos my * (2 ^ (- (e' + n)) * 2 ^ n))) by ring.
    rewrite <- Z.pow_add_r by lia.
    by replace (- (e' + n) + n) with (- e') by lia. }
  destruct (mk_float_xval false M (e' + n) HM (proj1 He1) HMn) as (_ & Hx & Hf).
  pose proof (pow2_pos (e' + n + 1074) ltac:(lia)) as Hp1.
  assert (E1074 : 2 ^ 1074 = 2 ^ (- (e' + n)) * 2 ^ (e' + n + 1074)).
  { rewrite <- Z.pow_add_r by lia. f_equal. lia. }
  assert (Hval : M * 2 ^ (e' + n + 1074) <= K * 2 ^ 1074).
  { rewrite E1074, Z.mul_assoc. apply Z.mul_le_mono_nonneg_r; lia. }
  assert (HK98 : K * 2 ^ 1074 < 2 ^ 2098).
  { apply Z.lt_le_trans with (2 ^ 53 * 2 ^ 1074).
    - apply Z.mul_lt_mono_pos_r; [apply pow2_pos|]; lia.
    - rewrite <- Z.pow_add_r by lia. apply pow2_le. lia. }
  assert (Hlt : (M * 2 ^ (e' + n + 1074) <? 2 ^ 2098) = true) by (apply Z.ltb_lt; lia).
  rewrite Hlt in Hx, Hf. cbn [cond_Zopp] in Hx. rewrite Hx.
  split; [done|]. split; [|done]. apply Z.mul_nonneg_nonneg; lia.
Qed.
End Quotient.

Section QuotientValue.
#[local] Open Scope Z_scope.

(** The quotient of two floats, on values. *)
Lemma div_le (x y : float64) (K : Z) :
  ffin x -> ffin y -> 0 <= fval x -> 0 < fval y -> 0 <= K < 2 ^ 53 ->
  fval x <= K * fval y ->
  ffin (x / y) /\ 0 <= fval (x / y) <= K * 2 ^ 1074.
Proof.
  unfold ffin, fval. rewrite div_spec. unfold SF64div.
  pose proof (Prim2SF_valid x) as Vx. pose proof (Prim2SF_valid y) as Vy.
  pose proof (pow2_pos 1074 ltac:(lia)) as HU.
  destruct (Prim2SF x) as [sx|sx| |sx mx ex], (Prim2SF y) as [sy|sy| |sy my ey];
    try discriminate; intros _ _ Hx Hy HK Hle; cbn [xval] in Hx, Hy, Hle; try lia.
  - cbn [SFdiv is_finite_SF xval]. split; [done|]. nia.
  - pose proof (finite_xval_bound sx mx ex Vx) as Bx.
    pose proof (finite_xval_bound sy my ey Vy) as By.
    destruct sx; cbn [cond_Zopp] in Hx, Hle; [lia|].
    destruct sy; cbn [cond_Zopp] in Hy, Hle; [lia|].
    by apply SFdiv_le.
Qed.

(** Integers below [2^53], in units of [2^-1074], are floats. *)
Lemma R64_exact (m : Z) : 0 <= m < 2 ^ 53 -> R64 (m * 2 ^ 1074) = m * 2 ^ 1074.
Proof.
  intros Hm. pose proof (pow2_pos 1074 ltac:(lia)) as HU.
  destruct (Z.eq_dec m 0) as [->|Hm0]; [done|].
  assert (HV : 0 < m * 2 ^ 1074) by nia.
  assert (Hb : m * 2 ^ 1074 < 2 ^ 2098).
  { apply Z.lt_le_trans with (2 ^ 53 * 2 ^ 1074).
    - apply Z.mul_lt_mono_pos_r; [done | lia].
    - rewrite <- Z.pow_add_r by lia. apply pow2_le. lia. }
  assert (EL : Z.log2 (m * 2 ^ 1074) = 1074 + Z.log2 m) by (apply Z.log2_mul_pow2; lia).
  assert (HL : 0 <= Z.log2 m < 53).
  { split; [apply Z.log2_nonneg|]. apply Z.log2_lt_pow2; lia. }
  assert (ER : round53q 0 (m * 2 ^ 1074) = m * 2 ^ 1074).
  { unfold round53q.
    destruct (grid_bounds 0 (m * 2 ^ 1074) ltac:(lia) HV) as (Hg1 & _ & Hg3).
    set (g := grid 0 (m * 2 ^ 1074)) in *.
    assert (Hg : 0 <= g <= 1074) by lia. clearbody g.
    rewrite (pow2_add (1074 - g) g 1074) by lia.
    rewrite Z.mul_assoc, rne_exact by lia.
    by rewrite Z.sub_0_r. }
  destruct (m * 2 ^ 1074) as [|V|V] eqn:EV; try lia.
  cbn [R64]. rewrite ER. by apply overflow_small.
Qed.
End QuotientValue.

(** ** Byte counts ([formatBytes], main.go 766-777) *)

Section FormatBytes.
Context `{Formatter}.
#[local] Open Scope Z_scope.

(** The loop multiplies [div_] by 1024 and counts in [exp] for as long as
    the quotient [n] reaches 1024: after it, [k] steps were taken. *)
Lemma formatBytes_loop_spec (fuel : nat) :
  forall n div_ exp : Z,
    0 <= n < 1024 ^ Z.of_nat fuel ->
    exists k : nat,
      (k <= fuel)%nat
      /\ formatBytes_loop fuel n div_ exp = (div_ * 1024 ^ Z.of_nat k, exp + Z.of_nat k)
      /\ 1024 ^ Z.of_nat k <= Z.max n 1
      /\ n < 1024 ^ (Z.of_nat k + 1).
Proof.
  induction fuel as [|fuel IH]; intros n div_ exp Hn.
  - exists 0%nat. cbn [formatBytes_loop]. change (Z.of_nat 0) with 0 in *.
    rewrite Z.pow_0_r in *. split; [done|]. split; [f_equal; lia|]. lia.
  - cbn [formatBytes_loop]. destruct (decide (1024 <= n)) as [Hge|Hlt].
    + rewrite Z.quot_div_nonneg by lia.
      rewrite Nat2Z.inj_succ, Z.pow_succ_r in Hn by lia.
      destruct (IH (n / 1024) (div_ * 1024) (exp + 1)) as (k & Hk & Hrun & Hlo & Hhi).
      { split; [apply Z.div_pos; lia|]. apply Z.div_lt_upper_bound; lia. }
      pose proof (Z.pow_pos_nonneg 1024 (Z.of_nat k) ltac:(lia) ltac:(lia)) as HP.
      rewrite Z.pow_add_r, Z.pow_1_r in Hhi by lia.
      pose proof (Z.mul_div_le n 1024 ltac:(lia)).
      pose proof (Z.mul_succ_div_gt n 1024 ltac:(lia)).
      assert (1 <= n / 1024) by (apply Z.div_le_lower_bound; lia).
      assert (E1 : 1024 ^ Z.of_nat (S k) = 1024 * 1024 ^ Z.of_nat k).
      { by rewrite Nat2Z.inj_succ, Z.pow_succ_r by lia. }
      assert (E2 : 1024 ^ (Z.of_nat (S k) + 1) = 1024 * 1024 ^ Z.of_nat k * 1024).
      { by rewrite Z.pow_add_r, Z.pow_1_r, E1 by lia. }
      exists (S k). rewrite Hrun, E1, E2.
      split; [lia|]. split; [f_equal; lia|]. lia.
    + exists 0%nat. change (Z.of_nat 0) with 0. rewrite Z.pow_0_r.
      split; [lia|]. split; [f_equal; lia|]. lia.
Qed.

(** The unit of a byte count from 1024 on: the largest power of 1024 that
    does not exceed it, and its letter. *)
Lemma formatBytes_unit (bytes : Z) :
  1024 <= bytes < 2 ^ 64 ->
  exists k : nat,
    (k <= 5)%nat
    /\ 1024 ^ (Z.of_nat k + 1) <= bytes < 1024 ^ (Z.of_nat k + 2)
    /\ formatBytes_loop 7 (bytes `quot` 1024) 1024 0
       = (1024 ^ (Z.of_nat k + 1), Z.of_nat k).
Proof.
  intros Hb. rewrite Z.quot_div_nonneg by lia.
  pose proof (Z.mul_div_le bytes 1024 ltac:(lia)).
  pose proof (Z.mul_succ_div_gt bytes 1024 ltac:(lia)).
  destruct (formatBytes_loop_spec 7 (bytes / 1024) 1024 0) as (k & Hk & Hrun & Hlo & Hhi).
  { split; [apply Z.div_pos; lia|]. apply Z.div_lt_upper_bound; [lia|].
    change (1024 * 1024 ^ Z.of_nat 7) with (2 ^ 80). 
    assert (2 ^ 64 < 2 ^ 80) by (by apply Z.pow_lt_mono_r). lia. }
  pose proof (Z.pow_pos_nonneg 1024 (Z.of_nat k) ltac:(lia) ltac:(lia)) as HP.
  assert (1 <= bytes / 1024) by (apply Z.div_le_lower_bound; lia).
  assert (Hlo' : 1024 ^ (Z.of_nat k + 1) <= bytes).
  { rewrite Z.pow_add_r, Z.pow_1_r by lia. nia. }
  assert (Hhi' : bytes < 1024 ^ (Z.of_nat k + 2)).
  { replace (Z.of_nat k + 2) with (Z.of_nat k + 1 + 1) by lia.
    rewrite (Z.pow_add_r _ _ 1), Z.pow_1_r by lia. nia. }
  assert (Hk5 : (k <= 5)%nat).
  { destruct (le_lt_dec k 5) as [|Hgt]; [done|exfalso].
    assert (1024 ^ 7 <= 1024 ^ (Z.of_nat k + 1)) by (apply Z.pow_le_mono_r; lia).
    change (1024 ^ 7) with (2 ^ 70) in *.
    assert (2 ^ 64 < 2 ^ 70) by (by apply Z.pow_lt_mono_r). lia. }
  exists k. split; [done|]. split; [done|].
  rewrite Hrun. f_equal.
  by rewrite Z.pow_add_r, Z.pow_1_r, Z.mul_comm by lia.
Qed.

Lemma formatBytes_ok (bytes : Z) :
  0 <= bytes < 2 ^ 64 -> exists s, formatBytes bytes = ok s.
Proof.
  intros Hb. unfold formatBytes.
  destruct (decide (bytes < 1024)) as [|Hge]; [by eexists|].
  destruct (formatBytes_unit bytes ltac:(lia)) as (k & Hk & _ & ->).
  do 6 (destruct k as [|k]; [by eexists|]). lia.
Qed.

(** X1.  [formatBytes] answers for every [uint64]: below 1024 the count
    itself with [" B"]; from 1024 on the count divided by the largest
    power [1024^(k+1)] not above it, with the letter number [k] of
    ["KMGTPE"].  The index never leaves the six letters and the divisor
    never leaves [uint64]. *)
Theorem formatBytes_units (bytes : Z) :
  0 <= bytes < 2 ^ 64 ->
  (bytes < 1024 -> formatBytes bytes = ok (sprintf_d bytes +:+ " B"))
  /\ (1024 <= bytes ->
      exists (k : nat) (c : ascii),
        list_ascii_of_string "KMGTPE" !! k = Some c
        /\ 1024 ^ (Z.of_nat k + 1) <= bytes < 1024 ^ (Z.of_nat k + 2)
        /\ 1024 ^ (Z.of_nat k + 1) < 2 ^ 64
        /\ formatBytes bytes
           = ok (sprintf_1f (float64_of_Z bytes / float64_of_Z (1024 ^ (Z.of_nat k + 1)))%float
                   +:+ " " +:+ String c EmptyString +:+ "B")).
Proof.
  intros Hb. split.
  - intros Hlt. unfold formatBytes. by rewrite decide_True.
  - intros Hge. unfold formatBytes. rewrite decide_False by lia.
    destruct (formatBytes_unit bytes ltac:(lia)) as (k & Hk & Hrange & ->).
    assert (Hc : exists c, list_ascii_of_string "KMGTPE" !! k = Some c).
    { do 6 (destruct k as [|k]; [by eexists|]). lia. }
    destruct Hc as [c Hc]. exists k, c.
    split; [done|]. split; [done|]. split; [lia|].
    rewrite index_ok by (apply lookup_lt_Some in Hc; done).
    rewrite Hc. done.
Qed.

End FormatBytes.

Lemma formatBytes_units_witness :
  let H := integer_formatter in
  (1023 < 1024 -> formatBytes 1023 = ok (sprintf_d 1023 +:+ " B"))
  /\ (1024 <= 1536 ->
      exists (k : nat) (c : ascii),
        list_ascii_of_string "KMGTPE" !! k = Some c
        /\ 1024 ^ (Z.of_nat k + 1) <= 1536 < 1024 ^ (Z.of_nat k + 2)
        /\ 1024 ^ (Z.of_nat k + 1) < 2 ^ 64
        /\ formatBytes 1536
           = ok (sprintf_1f (float64_of_Z 1536 / float64_of_Z (1024 ^ (Z.of_nat k + 1)))%float
                   +:+ " " +:+ String c EmptyString +:+ "B")).
Proof.
  intros H.
  destruct (formatBytes_units (H := H) 1023 ltac:(done)) as [H1023 _].
  destruct (formatBytes_units (H := H) 1536 ltac:(done)) as [_ H1536].
  split; assumption.
Defined.

(** ** The rates of a tick (main.go, 391-420) *)

Section TickRate.
Context `{Formatter}.
#[local] Open Scope Z_scope.

(** C1, as the code has it.  A tick whose network query succeeds
    appends to the two history series the rates in Mbps:
    the counter difference, taken modulo [2^64] and converted to
    [float64], divided by the seconds since the tick before, times 8 and
    divided by [10^6]; it then keeps the counters and the time for the
    next tick.  While a counter rises the difference is [curr - prev];
    when it has fallen the difference wraps around.  The duration is not
    tested: were it 0 with a risen counter, the sample would be the
    positive infinity, not 0. *)
Theorem C1_rate_is_ieee_quotient (env : TickEnv) (st : Loop)
    (c0 : IOCountersStat) (rest : list IOCountersStat) :
  failed (net_IOCounters env) = false ->
  val (net_IOCounters env) = c0 :: rest ->
  0 <= BytesRecv c0 < uint64_modulus -> 0 <= BytesSent c0 < uint64_modulus ->
  0 <= BytesRecv (prevNetIOStats st) < uint64_modulus ->
  0 <= BytesSent (prevNetIOStats st) < uint64_modulus ->
  RxData (netData st) <> [] ->
  length (TxData (netData st)) = length (RxData (netData st)) ->
  let duration := Seconds (Sub (now env) (lastNetworkUpdate st)) in
  let rate (curr prev : Z) :=
    (float64_of_Z ((curr - prev) mod uint64_modulus) / duration)%float in
  let rx := rate (BytesRecv c0) (BytesRecv (prevNetIOStats st)) in
  let tx := rate (BytesSent c0) (BytesSent (prevNetIOStats st)) in
  exists st',
    tick_network env st = ok st'
    /\ RxData (netData st')
       = drop 1 (RxData (netData st)) ++ [(rx * 8 / 1000000)%float]
    /\ TxData (netData st')
       = drop 1 (TxData (netData st)) ++ [(tx * 8 / 1000000)%float]
    /\ prevNetIOStats st' = c0 /\ lastNetworkUpdate st' = now env
    /\ (BytesRecv (prevNetIOStats st) <= BytesRecv c0 ->
        rx = (float64_of_Z (BytesRecv c0 - BytesRecv (prevNetIOStats st)) / duration)%float)
    /\ (BytesRecv c0 < BytesRecv (prevNetIOStats st) ->
        rx = (float64_of_Z (BytesRecv c0 - BytesRecv (prevNetIOStats st) + uint64_modulus)
              / duration)%float)
    /\ (now env = lastNetworkUpdate st ->
        BytesRecv (prevNetIOStats st) < BytesRecv c0 ->
        (rx * 8 / 1000000)%float = infinity).
Proof.
  intros Hf Hval Hrx Htx Hprx Hptx Hne Hlen duration rate rx tx.
  unfold tick_network. rewrite Hf, Hval, index_0.
  cbn [lookup list_lookup mbind option_bind].
  unfold uint64_modulus in *.
  destruct (formatBytes_ok (BytesRecv c0) Hrx) as [s1 ->].
  destruct (formatBytes_ok (BytesSent c0) Htx) as [s2 ->].
  cbn [mbind option_bind ok].
  match goal with
  | |- context [updateNetworkGraph ?nd ?a ?b ?g] =>
      destruct (updateNetworkGraph_buffers nd a b g Hne Hlen)
        as (nd' & g' & -> & Hrxd & Htxd)
  end.
  cbn [mbind option_bind ok].
  eexists. split; [reflexivity|].
  cbn [netData prevNetIOStats lastNetworkUpdate].
  split; [exact Hrxd|]. split; [exact Htxd|]. split; [done|]. split; [done|].
  split; [|split].
  - intros Hle. unfold rx, rate, uint64_modulus. by rewrite Z.mod_small by lia.
  - intros Hlt. unfold rx, rate, uint64_modulus.
    rewrite <- (Z.mod_add _ 1 (2 ^ 64)) by lia. rewrite Z.mul_1_l.
    by rewrite Z.mod_small by lia.
  - intros Hnow Hlt. unfold rx, rate, duration, uint64_modulus.
    rewrite Hnow, Z.mod_small by lia.
    unfold Sub. rewrite Z.sub_diag.
    destruct (float64_of_Z_pos (BytesRecv c0 - BytesRecv (prevNetIOStats st)) ltac:(lia))
      as (m & e & E).
    apply Prim2SF_inj. rewrite div_spec, mul_spec, div_spec, E. reflexivity.
Qed.
End TickRate.

Lemma C1_rate_is_ieee_quotient_witness :
  let env := mkTickEnv (mkResp [10; 30]%float false) 300000000
               (mkResp [mkNetIO 4000 900] false)
               (mkResp [] true) (mkResp [] true) in
  let st := example_loop [1; 2; 3]%float in
  let duration := Seconds (Sub 300000000 0) in
  exists st',
    tick_network (H := integer_formatter) env st = ok st'
    /\ RxData (netData st')
       = [2; 3; float64_of_Z ((4000 - 1000) mod uint64_modulus) / duration * 8 / 1000000]%float
    /\ prevNetIOStats st' = mkNetIO 4000 900 /\ lastNetworkUpdate st' = 300000000.
Proof.
  intros env st duration.
  destruct (C1_rate_is_ieee_quotient (H := integer_formatter) env st
              (mkNetIO 4000 900) [])
    as (st' & Hrun & Hrxd & _ & Hprev & Hlast & _); try done;
    try (by vm_compute).
  exists st'. split; [exact Hrun|]. split; [exact Hrxd|]. done.
Defined.

(** C1, as the claim words it, fails on a tick after which a counter has
    fallen (an interface has gone, say): 0.3 seconds after a reading of
    1000 bytes, a reading of 400 bytes gives a rate far above zero, not
    [(400 - 1000) / 0.3]. *)
Lemma C1_counterexample :
  ~ (forall (env : TickEnv) (st st' : Loop) (c0 : IOCountersStat)
            (rest : list IOCountersStat),
       failed (net_IOCounters env) = false ->
       val (net_IOCounters env) = c0 :: rest ->
       0 <= BytesRecv c0 < uint64_modulus ->
       0 <= BytesRecv (prevNetIOStats st) < uint64_modulus ->
       lastNetworkUpdate st < now env ->
       tick_network (H := integer_formatter) env st = ok st' ->
       last (RxData (netData st'))
       = Some (float64_of_Z (BytesRecv c0 - BytesRecv (prevNetIOStats st))
               / Seconds (Sub (now env) (lastNetworkUpdate st)) * 8 / 1000000)%float).
Proof.
  intros Hclaim.
  pose (env := mkTickEnv (mkResp [10; 30]%float false) 300000000
                 (mkResp [mkNetIO 400 500] false) (mkResp [] true) (mkResp [] true)).
  pose (st := example_loop [1; 2; 3]%float).
  destruct (tick_network (H := integer_formatter) env st) as [st'|] eqn:Hrun;
    [|vm_compute in Hrun; discriminate].
  specialize (Hclaim env st st' (mkNetIO 400 500) [] eq_refl eq_refl
                ltac:(by vm_compute) ltac:(by vm_compute) ltac:(by vm_compute) Hrun).
  vm_compute in Hrun. injection Hrun as <-.
  apply (f_equal (fun o => match o with
                           | Some f => (f <? 0)%float
                           | None => false
                           end)) in Hclaim.
  vm_compute in Hclaim. discriminate.
Qed.

(** ** Maxima ([maxInSlice], [max], main.go 699-718) *)

Section Maxima.
#[local] Open Scope Z_scope.

Lemma ltb_nan_l (x y : float64) : fnan x = true -> (x <? y)%float = false.
Proof.
  intros Hx. destruct (x <? y)%float eqn:E; [|done].
  apply ltb_true_nan in E as [E _]. congruence.
Qed.

Lemma ltb_nan_r (x y : float64) : fnan y = true -> (x <? y)%float = false.
Proof.
  intros Hy. destruct (x <? y)%float eqn:E; [|done].
  apply ltb_true_nan in E as [_ E]. congruence.
Qed.

(** The loop of [maxInSlice] started from a value that is not a NaN. *)
Lemma max_loop_spec (l : list float64) :
  forall m0 : float64,
    fnan m0 = false ->
    let m := fold_left (fun mx v => if (mx <? v)%float then v else mx) l m0 in
    fnan m = false
    /\ (m = m0 \/ m ∈ l)
    /\ fval m0 <= fval m
    /\ forall v, v ∈ l -> fnan v = false -> fval v <= fval m.
Proof.
  induction l as [|v l IH]; intros m0 Hm0; cbn [fold_left].
  - split; [done|]. split; [by left|]. split; [done|]. intros v Hv. by apply elem_of_nil in Hv.
  - destruct (m0 <? v)%float eqn:E.
    + destruct (ltb_true_nan _ _ E) as [_ Nv].
      rewrite ltb_val in E by done. apply Z.ltb_lt in E.
      destruct (IH v Nv) as (Hn & Hin & Hle & Hall).
      split; [done|]. split; [|split].
      * right. destruct Hin as [->|Hin]; [by left | by right].
      * lia.
      * intros w Hw Nw. apply elem_of_cons in Hw as [->|Hw]; [done | by apply Hall].
    + destruct (IH m0 Hm0) as (Hn & Hin & Hle & Hall).
      split; [done|]. split; [|split].
      * destruct Hin as [->|Hin]; [by left | right; by right].
      * done.
      * intros w Hw Nw. apply elem_of_cons in Hw as [->|Hw]; [|by apply Hall].
        rewrite ltb_val in E by done. apply Z.ltb_ge in E. lia.
Qed.

(** Started from a NaN the loop keeps it: no comparison with a NaN holds. *)
Lemma max_loop_nan (l : list float64) (m0 : float64) :
  fnan m0 = true ->
  fold_left (fun mx v => if (mx <? v)%float then v else mx) l m0 = m0.
Proof.
  intros Hm0. induction l as [|v l IH]; [done|].
  cbn [fold_left]. by rewrite ltb_nan_l.
Qed.

Lemma maxInSlice_spec (v0 : float64) (rest : list float64) :
  fnan v0 = false ->
  fnan (maxInSlice (v0 :: rest)) = false
  /\ maxInSlice (v0 :: rest) ∈ v0 :: rest
  /\ forall v, v ∈ v0 :: rest -> fnan v = false ->
               fval v <= fval (maxInSlice (v0 :: rest)).
Proof.
  intros N0. unfold maxInSlice.
  destruct (max_loop_spec (v0 :: rest) v0 N0) as (Hn & Hin & _ & Hall).
  split; [done|]. split; [|done].
  destruct Hin as [->|Hin]; [by left | done].
Qed.

(** X2.  [maxInSlice] of an empty slice is 0.  When the first value is
    not a NaN, the result is one of the values, is not a NaN, and no
    value that is not a NaN exceeds it: later NaNs are passed over.  When
    the first value is a NaN it is the result, whatever follows. *)
Theorem maxInSlice_max (values : list float64) :
  (values = [] -> maxInSlice values = 0%float)
  /\ (forall v0 rest, values = v0 :: rest -> fnan v0 = false ->
        fnan (maxInSlice values) = false
        /\ maxInSlice values ∈ values
        /\ forall v, v ∈ values -> fnan v = false ->
                     (v <=? maxInSlice values)%float = true)
  /\ (forall v0 rest, values = v0 :: rest -> fnan v0 = true ->
        maxInSlice values = v0).
Proof.
  split; [by intros ->|]. split.
  - intros v0 rest -> N0.
    destruct (maxInSlice_spec v0 rest N0) as (Hn & Hin & Hall).
    split; [done|]. split; [done|].
    intros v Hv Nv. rewrite leb_val by done. apply Z.leb_le. by apply Hall.
  - intros v0 rest -> N0. unfold maxInSlice. by apply max_loop_nan.
Qed.

Lemma maxInSlice_max_witness :
  let values := [1; nan; 3; 2]%float in
  fnan (maxInSlice values) = false
  /\ maxInSlice values ∈ values
  /\ forall v, v ∈ values -> fnan v = false -> (v <=? maxInSlice values)%float = true.
Proof.
  intros values.
  apply (proj1 (proj2 (maxInSlice_max values)) 1%float [nan; 3; 2]%float); reflexivity.
Defined.

Lemma max_spec (a b : float64) :
  fnan a = false -> fnan b = false ->
  fnan (max a b) = false /\ (max a b = a \/ max a b = b)
  /\ fval a <= fval (max a b) /\ fval b <= fval (max a b).
Proof.
  intros Na Nb. unfold max. rewrite ltb_val by done.
  destruct (Z.ltb_spec (fval b) (fval a)).
  - split; [done|]. split; [by left|]. lia.
  - split; [done|]. split; [by right|]. lia.
Qed.

(** X3.  The peak that [updateNetworkMaxValue] and [updateDiskMaxValue]
    compare the scale with: when no sample of the two series is a NaN,
    the peak is not a NaN, no sample exceeds it, and it is one of the
    samples, or the 0 of an empty series. *)
Theorem observed_peak_bound (a b : list float64) :
  Forall (fun v => fnan v = false) a -> Forall (fun v => fnan v = false) b ->
  fnan (observed_peak (a, b)) = false
  /\ (forall v, v ∈ a ++ b -> (v <=? observed_peak (a, b))%float = true)
  /\ (observed_peak (a, b) ∈ a ++ b
      \/ (observed_peak (a, b) = 0%float /\ (a = [] \/ b = []))).
Proof.
  intros Ha Hb. unfold observed_peak. cbn [fst snd].
  assert (Hmax : forall l, Forall (fun v => fnan v = false) l ->
            fnan (maxInSlice l) = false
            /\ (forall v, v ∈ l -> fval v <= fval (maxInSlice l))
            /\ (maxInSlice l ∈ l \/ (maxInSlice l = 0%float /\ l = []))).
  { intros [|v0 rest] Hl.
    - split; [done|]. split; [|by right]. intros v Hv. by apply elem_of_nil in Hv.
    - destruct (maxInSlice_spec v0 rest (Forall_inv Hl)) as (Hn & Hin & Hall).
      split; [done|]. split; [|by left].
      intros v Hv. apply Hall; [done|]. by apply (proj1 (Forall_forall _ _) Hl). }
  destruct (Hmax a Ha) as (Na & Ua & Ma), (Hmax b Hb) as (Nb & Ub & Mb).
  destruct (max_spec _ _ Na Nb) as (Nm & Hm & La & Lb).
  split; [done|]. split.
  - intros v Hv. 
    assert (Nv : fnan v = false).
    { apply elem_of_app in Hv as [Hv|Hv];
        [apply (proj1 (Forall_forall _ _) Ha) | apply (proj1 (Forall_forall _ _) Hb)]; done. }
    rewrite leb_val by done. apply Z.leb_le.
    apply elem_of_app in Hv as [Hv|Hv]; [specialize (Ua v Hv) | specialize (Ub v Hv)]; lia.
  - destruct Hm as [->| ->].
    + destruct Ma as [Ma|[Ma ->]]; [left; apply elem_of_app; by left | right; split; [done | by left]].
    + destruct Mb as [Mb|[Mb ->]]; [left; apply elem_of_app; by right | right; split; [done | by right]].
Qed.

Lemma observed_peak_bound_witness :
  let a := [1; 5; 2]%float in
  let b := [4; 3]%float in
  fnan (observed_peak (a, b)) = false
  /\ (forall v, v ∈ a ++ b -> (v <=? observed_peak (a, b))%float = true)
  /\ (observed_peak (a, b) ∈ a ++ b
      \/ (observed_peak (a, b) = 0%float /\ (a = [] \/ b = []))).
Proof.
  intros a b. apply (observed_peak_bound a b); repeat constructor.
Defined.
End Maxima.

(** ** The gauges of [createCPUGauges] (main.go 467-540) *)

Section Gauges.
#[local] Open Scope Z_scope.

(** The loop over the cores writes [core_gauge] at the indices
    [i + 1 .. i + n] and nothing else. *)
Lemma core_gauges_loop_lookup (n : nat) :
  forall (width cpuCount : Z) (i : nat) (gauges : list CPUGauge),
    (i + n < length gauges)%nat ->
    exists gauges',
      core_gauges_loop n width cpuCount (Z.of_nat i) gauges = ok gauges'
      /\ length gauges' = length gauges
      /\ forall k : nat,
           gauges' !! k
           = if decide (i < k <= i + n)%nat
             then Some (core_gauge width cpuCount (Z.of_nat k - 1))
             else gauges !! k.
Proof.
  induction n as [|n IH]; intros width cpuCount i gauges Hi.
  - exists gauges. split; [done|]. split; [done|]. intros k.
    by rewrite decide_False by lia.
  - cbn [core_gauges_loop]. replace (Z.of_nat i + 1) with (Z.of_nat (S i)) by lia.
    rewrite assign_ok by lia. cbn [mbind option_bind ok].
    destruct (IH width cpuCount (S i)
                (<[S i := core_gauge width cpuCount (Z.of_nat i)]> gauges))
      as (gauges' & Hrun & Hl & Hk).
    { rewrite length_insert. lia. }
    exists gauges'. rewrite length_insert in Hl.
    split; [done|]. split; [done|]. intros k. rewrite Hk.
    destruct (decide (k = S i)) as [->|Hne].
    + rewrite decide_False by lia. rewrite decide_True by lia.
      rewrite list_lookup_insert_eq by lia. do 2 f_equal. lia.
    + rewrite list_lookup_insert_ne by done.
      destruct (decide (S i < k <= S i + n)%nat), (decide (i < k <= i + S n)%nat);
        try done; lia.
Qed.

(** What [createCPUGauges] returns for a count that is not negative. *)
Lemma createCPUGauges_lookup (cpu_Counts : Resp Z) (width : Z) :
  0 <= cpuCount_of cpu_Counts ->
  exists cpuTitle gauges,
    createCPUGauges cpu_Counts width
    = ok (cpuTitle, gauges, 7 + (cpuCount_of cpu_Counts + 1) `quot` 2 * 3)
    /\ len gauges = cpuCount_of cpu_Counts + 1
    /\ gauges !! 0%nat
       = Some (mkCPUGauge (mkGauge "Avg CPU" (Rect 0 4 width 7) 0 ColorGreen) 0 0)
    /\ forall k : nat,
         (0 < k < length gauges)%nat ->
         gauges !! k = Some (core_gauge width (cpuCount_of cpu_Counts) (Z.of_nat k - 1)).
Proof.
  intros Hc.
  set (g0 := mkCPUGauge (mkGauge "Avg CPU" (Rect 0 4 width 7) 0 ColorGreen) 0 0).
  set (zs := replicate (Z.to_nat (cpuCount_of cpu_Counts + 1)) (mkCPUGauge NewGauge 0 0)).
  assert (Hzs : length zs = S (Z.to_nat (cpuCount_of cpu_Counts))).
  { unfold zs. rewrite length_replicate. lia. }
  destruct (core_gauges_loop_lookup (Z.to_nat (cpuCount_of cpu_Counts)) width
              (cpuCount_of cpu_Counts) 0 (<[0%nat := g0]> zs))
    as (gauges' & Hrun & Hl & Hk).
  { rewrite length_insert, Hzs. lia. }
  change (Z.of_nat 0) with 0 in Hrun. rewrite length_insert in Hl.
  unfold createCPUGauges. fold (cpuCount_of cpu_Counts).
  rewrite decide_True by lia. fold g0 zs.
  cbn [mbind option_bind ok].
  rewrite assign_0 by (intros E; rewrite E in Hzs; done).
  cbn [mbind option_bind ok]. rewrite Hrun. cbn [mbind option_bind ok].
  eexists _, gauges'. split; [reflexivity|]. split; [|split].
  - unfold len. rewrite Hl, Hzs. lia.
  - rewrite Hk, decide_False by lia. apply list_lookup_insert_eq. rewrite Hzs. lia.
  - intros k Hklt. rewrite Hk, decide_True; [done|]. rewrite Hl, Hzs in Hklt. lia.
Qed.

Lemma createCPUGauges_negative (cpu_Counts : Resp Z) (width : Z) :
  cpuCount_of cpu_Counts < 0 -> createCPUGauges cpu_Counts width = panic.
Proof.
  intros Hneg. unfold createCPUGauges. fold (cpuCount_of cpu_Counts).
  destruct (decide (0 <= cpuCount_of cpu_Counts + 1)) as [Hd|Hd]; [|done].
  replace (cpuCount_of cpu_Counts) with (-1) by lia. done.
Qed.

(** X4.  [createCPUGauges] panics exactly when the provider reports a
    negative number of cores without an error ([gauges[0]] does not exist,
    or [make] gets a negative length); a failed query counts as one core. *)
Theorem createCPUGauges_panics (cpu_Counts : Resp Z) (width : Z) :
  createCPUGauges cpu_Counts width = panic
  <-> failed cpu_Counts = false /\ val cpu_Counts < 0.
Proof.
  split.
  - intros Hp. destruct (Z_lt_le_dec (cpuCount_of cpu_Counts) 0) as [Hneg|Hpos].
    + unfold cpuCount_of in Hneg. destruct (failed cpu_Counts); [lia | done].
    + destruct (createCPUGauges_lookup cpu_Counts width Hpos) as (t & g & Hrun & _).
      rewrite Hrun in Hp. discriminate.
  - intros [Hf Hv]. apply createCPUGauges_negative. unfold cpuCount_of. by rewrite Hf.
Qed.

(** X5.  For a width and a core count that are not negative,
    [createCPUGauges] returns one gauge per core and one for the average.
    The average gauge covers the rows 4 to 6; every core gauge lies in
    the rows from 7 to the returned height and in the columns of the
    terminal; no two gauges share a cell. *)
Theorem createCPUGauges_layout (cpu_Counts : Resp Z) (width : Z) :
  0 <= width -> 0 <= cpuCount_of cpu_Counts ->
  exists cpuTitle gauges cpuHeight,
    createCPUGauges cpu_Counts width = ok (cpuTitle, gauges, cpuHeight)
    /\ len gauges = cpuCount_of cpu_Counts + 1
    /\ cpuHeight = 7 + 3 * ((cpuCount_of cpu_Counts + 1) / 2)
    /\ (forall g, gauges !! 0%nat = Some g -> GaugeRect (gauge g) = mkRect 0 4 width 7)
    /\ (forall (k : nat) g, (0 < k)%nat -> gauges !! k = Some g ->
          rect_within (GaugeRect (gauge g)) width 7 cpuHeight)
    /\ (forall (j k : nat) gj gk, j <> k ->
          gauges !! j = Some gj -> gauges !! k = Some gk ->
          disjoint_rects (GaugeRect (gauge gj)) (GaugeRect (gauge gk))).
Proof.
  intros Hw Hc.
  destruct (createCPUGauges_lookup cpu_Counts width Hc) as (t & gs & Hrun & Hlen & H0 & Hk).
  set (n := cpuCount_of cpu_Counts) in *.
  assert (Hq : forall a, 0 <= a -> a `quot` 2 = a / 2)
    by (intros a Ha; apply Z.quot_div_nonneg; lia).
  pose proof (Z.mul_div_le width 2 ltac:(done)) as Hw1.
  pose proof (Z.mul_succ_div_gt width 2 ltac:(done)) as Hw2.
  pose proof (Z.mul_div_le n 2 ltac:(done)) as Hn1.
  pose proof (Z.mul_succ_div_gt n 2 ltac:(done)) as Hn2.
  pose proof (Z.mul_div_le (n + 1) 2 ltac:(done)) as Hn3.
  pose proof (Z.mul_succ_div_gt (n + 1) 2 ltac:(done)) as Hn4.
  assert (Hcore : forall (k : nat) g, (0 < k)%nat -> gs !! k = Some g ->
            let i := Z.of_nat k - 1 in
            0 <= i < n
            /\ GaugeRect (gauge g)
               = if decide (i < n / 2)
                 then mkRect 0 (7 + i * 3) (width / 2) (10 + i * 3)
                 else mkRect (width / 2) (7 + (i - n / 2) * 3) width (10 + (i - n / 2) * 3)).
  { intros k g Hk0 Hg i.
    assert (Hkl : (k < length gs)%nat) by (by apply lookup_lt_Some in Hg).
    rewrite Hk in Hg by lia. injection Hg as <-.
    unfold len in Hlen. split; [lia|].
    unfold core_gauge. cbn [gauge GaugeRect]. rewrite !Hq by lia. fold i.
    unfold Rect. destruct (decide (i < n / 2)) as [Hl|Hl].
    - rewrite bool_decide_eq_true_2 by done. f_equal; lia.
    - rewrite bool_decide_eq_false_2 by done. f_equal; lia. }
  exists t, gs, (7 + (n + 1) `quot` 2 * 3).
  split; [done|]. split; [done|]. split; [rewrite Hq by lia; lia|].
  rewrite Hq by lia. split; [|split].
  - intros g Hg. rewrite H0 in Hg. injection Hg as <-. cbn [gauge GaugeRect].
    unfold Rect. f_equal; lia.
  - intros k g Hk0 Hg. destruct (Hcore k g Hk0 Hg) as [Hi ->].
    unfold rect_within.
    destruct (decide _); cbn [MinX MinY MaxX MaxY]; lia.
  - intros j k gj gk Hne Hj Hkk x y [Hx1 Hy1] [Hx2 Hy2].
    destruct j as [|j], k as [|k]; [done| | |].
    + rewrite H0 in Hj. injection Hj as <-.
      destruct (Hcore (S k) gk ltac:(lia) Hkk) as [Hi E]. rewrite E in Hx2, Hy2.
      cbn [gauge GaugeRect] in Hy1. unfold Rect in Hy1. cbn [MinY MaxY] in Hy1.
      destruct (decide _); cbn [MinX MinY MaxX MaxY] in *; lia.
    + rewrite H0 in Hkk. injection Hkk as <-.
      destruct (Hcore (S j) gj ltac:(lia) Hj) as [Hi E]. rewrite E in Hx1, Hy1.
      cbn [gauge GaugeRect] in Hy2. unfold Rect in Hy2. cbn [MinY MaxY] in Hy2.
      destruct (decide _); cbn [MinX MinY MaxX MaxY] in *; lia.
    + destruct (Hcore (S j) gj ltac:(lia) Hj) as [Hi1 E1].
      destruct (Hcore (S k) gk ltac:(lia) Hkk) as [Hi2 E2].
      rewrite E1 in Hx1, Hy1. rewrite E2 in Hx2, Hy2.
      do 2 destruct (decide _); cbn [MinX MinY MaxX MaxY] in *; lia.
Qed.

Lemma createCPUGauges_layout_witness :
  let cpu_Counts := mkResp 5 false in
  let width := 81 in
  exists cpuTitle gauges cpuHeight,
    createCPUGauges cpu_Counts width = ok (cpuTitle, gauges, cpuHeight)
    /\ len gauges = cpuCount_of cpu_Counts + 1
    /\ cpuHeight = 7 + 3 * ((cpuCount_of cpu_Counts + 1) / 2)
    /\ (forall g, gauges !! 0%nat = Some g -> GaugeRect (gauge g) = mkRect 0 4 width 7)
    /\ (forall (k : nat) g, (0 < k)%nat -> gauges !! k = Some g ->
          rect_within (GaugeRect (gauge g)) width 7 cpuHeight)
    /\ (forall (j k : nat) gj gk, j <> k ->
          gauges !! j = Some gj -> gauges !! k = Some gk ->
          disjoint_rects (GaugeRect (gauge gj)) (GaugeRect (gauge gk))).
Proof.
  intros cpu_Counts width. apply (createCPUGauges_layout cpu_Counts width); done.
Defined.
End Gauges.

(** ** The targets of the gauges ([updateCPUTargets], main.go 542-566) *)

Section Targets.
#[local] Open Scope Z_scope.

Lemma targets_loop_lookup (percentages : list float64) :
  forall (i : nat) (gauges : list CPUGauge) (k : nat),
    targets_loop percentages (Z.of_nat i) gauges !! k
    = g ← gauges !! k;
      Some (if decide (i < k)%nat
            then match percentages !! (k - 1 - i)%nat with
                 | Some p => set_target g p
                 | None => g
                 end
            else g).
Proof.
  induction percentages as [|percent rest IH]; intros i gauges k.
  - cbn [targets_loop]. destruct (gauges !! k) as [g|]; [|done].
    cbn. by destruct (decide _).
  - cbn [targets_loop]. replace (Z.of_nat i + 1) with (Z.of_nat (S i)) by lia.
    rewrite IH. unfold len.
    destruct (decide (Z.of_nat (S i) < Z.of_nat (length gauges))) as [Hin|Hout].
    + rewrite Nat2Z.id.
      destruct (decide (k = S i)) as [->|Hne].
      * rewrite list_lookup_alter_eq.
        destruct (gauges !! S i) as [g|]; [|done]. cbn.
        rewrite decide_False by lia. rewrite decide_True by lia.
        match goal with |- context [(_ :: _) !! ?n] => by replace n with 0%nat by lia end.
      * rewrite list_lookup_alter_ne by done.
        destruct (gauges !! k) as [g|]; [|done]. cbn. f_equal.
        destruct (decide (S i < k)%nat), (decide (i < k)%nat); try done; try lia.
        match goal with |- context [(_ :: _) !! ?n] =>
          by replace n with (S (k - 1 - S i)) by lia end.
    + destruct (gauges !! k) as [g|] eqn:Hg; [|done]. cbn. f_equal.
      apply lookup_lt_Some in Hg.
      rewrite decide_False by lia. by rewrite decide_False by lia.
Qed.

Lemma targets_loop_length (percentages : list float64) :
  forall (i : Z) (gauges : list CPUGauge),
    length (targets_loop percentages i gauges) = length gauges.
Proof.
  induction percentages as [|percent rest IH]; intros i gauges; [done|].
  cbn [targets_loop]. rewrite IH. destruct (decide _); [|done].
  apply length_alter.
Qed.

Lemma updateCPUTargets_ok (cpu_Percent : Resp (list float64)) (gauges : list CPUGauge) :
  gauges <> [] ->
  exists gauges',
    updateCPUTargets cpu_Percent gauges = ok gauges' /\ length gauges' = length gauges.
Proof.
  intros Hne. unfold updateCPUTargets. destruct (failed cpu_Percent); [by exists gauges|].
  destruct gauges as [|g0 gauges]; [done|].
  rewrite index_0. cbn [lookup list_lookup mbind option_bind].
  rewrite assign_0 by done. cbn [mbind option_bind ok insert list_insert].
  eexists. split; [reflexivity|]. by rewrite targets_loop_length.
Qed.

(** X6.  [updateCPUTargets] leaves the gauges alone when the query fails.
    Otherwise it panics on an empty slice of gauges, and on a slice that
    is not empty it keeps the number of gauges, their widgets and their
    [CurrentPercent]; gauge 0 gets the average as its target, gauge
    [j + 1] gets [percentages[j]], and a gauge without a percentage keeps
    the target it had. *)
Theorem updateCPUTargets_targets (cpu_Percent : Resp (list float64))
    (gauges : list CPUGauge) :
  (failed cpu_Percent = true -> updateCPUTargets cpu_Percent gauges = ok gauges)
  /\ (failed cpu_Percent = false -> gauges = [] ->
      updateCPUTargets cpu_Percent gauges = panic)
  /\ (failed cpu_Percent = false -> gauges <> [] ->
      exists gauges',
        updateCPUTargets cpu_Percent gauges = ok gauges'
        /\ length gauges' = length gauges
        /\ forall (k : nat) (g : CPUGauge),
             gauges !! k = Some g ->
             exists g',
               gauges' !! k = Some g'
               /\ gauge g' = gauge g
               /\ CurrentPercent g' = CurrentPercent g
               /\ TargetPercent g'
                  = match k with
                    | O => avgPercent_of (val cpu_Percent)
                    | S j => default (TargetPercent g) (val cpu_Percent !! j)
                    end).
Proof.
  unfold updateCPUTargets. split; [by intros ->|]. split.
  - intros -> ->. done.
  - intros -> Hne. destruct gauges as [|g0 gauges]; [done|].
    rewrite index_0. cbn [lookup list_lookup mbind option_bind].
    rewrite assign_0 by done. cbn [mbind option_bind ok insert list_insert].
    eexists. split; [reflexivity|]. split.
    + by rewrite targets_loop_length.
    + intros k g Hg. change 0 with (Z.of_nat 0).
      rewrite targets_loop_lookup. destruct k as [|k].
      * cbn in Hg. injection Hg as <-. cbn. eexists. split; [reflexivity|]. done.
      * cbn in Hg. cbn [lookup list_lookup]. rewrite Hg. cbn.
        eexists. split; [reflexivity|].
        rewrite decide_True by lia.
        match goal with |- context [val cpu_Percent !! ?n] =>
          replace n with k by (cbn; lia) end.
        by destruct (val cpu_Percent !! k).
Qed.

Lemma updateCPUTargets_targets_witness :
  let gauges := [mkCPUGauge NewGauge 1 2; mkCPUGauge NewGauge 3 4; mkCPUGauge NewGauge 5 6] in
  exists gauges',
    updateCPUTargets (mkResp [10; 30]%float false) gauges = ok gauges'
    /\ length gauges' = length gauges
    /\ forall (k : nat) (g : CPUGauge),
         gauges !! k = Some g ->
         exists g',
           gauges' !! k = Some g'
           /\ gauge g' = gauge g
           /\ CurrentPercent g' = CurrentPercent g
           /\ TargetPercent g'
              = match k with
                | O => avgPercent_of [10; 30]%float
                | S j => default (TargetPercent g) ([10; 30]%float !! j)
                end.
Proof.
  intros gauges.
  apply (proj2 (proj2 (updateCPUTargets_targets (mkResp [10; 30]%float false) gauges))); done.
Defined.

End Targets.

(** ** The per-disk baseline ([main], main.go 422-458) *)

Section DiskBaseline.
Context `{Formatter}.
#[local] Open Scope Z_scope.

(** The baseline map after the loop over the disks: every entry of the
    reading is stored under its name. *)
Lemma disk_fold_prev (duration : float64) (entries : list (string * DiskIOCountersStat)) :
  forall acc,
    (fold_left (disk_step duration) entries acc).2
    = fold_left (fun m e => <[e.1 := e.2]> m) entries acc.2.
Proof.
  induction entries as [|[name stat] rest IH]; intros [[[txt r] w] prev]; [done|].
  cbn [fold_left]. rewrite IH. f_equal.
  unfold disk_step. by destruct (prev !! name).
Qed.

Lemma insert_fold_lookup (entries : list (string * DiskIOCountersStat)) :
  forall (m : gmap string DiskIOCountersStat),
    NoDup entries.*1 ->
    (forall name stat, (name, stat) ∈ entries ->
       fold_left (fun m e => <[e.1 := e.2]> m) entries m !! name = Some stat)
    /\ (forall name, name ∉ entries.*1 ->
          fold_left (fun m e => <[e.1 := e.2]> m) entries m !! name = m !! name).
Proof.
  induction entries as [|[n s] rest IH]; intros m Hnd.
  - split; [|done]. intros name stat Hin. by apply elem_of_nil in Hin.
  - cbn [fmap list_fmap fst] in Hnd. apply NoDup_cons in Hnd as [Hn Hnd].
    destruct (IH (<[n := s]> m) Hnd) as [IH1 IH2].
    cbn [fold_left fst snd]. split.
    + intros name stat Hin. apply elem_of_cons in Hin as [Heq|Hin].
      * injection Heq as -> ->. rewrite IH2 by done. apply lookup_insert_eq.
      * by apply IH1.
    + intros name Hname. cbn [fmap list_fmap fst] in Hname.
      apply not_elem_of_cons in Hname as [Hne Hname].
      rewrite IH2 by done. by apply lookup_insert_ne.
Qed.

(** Disks that have no baseline add nothing to the text and the totals. *)
Lemma disk_fold_unknown (duration : float64) (entries : list (string * DiskIOCountersStat)) :
  forall txt r w (prev : gmap string DiskIOCountersStat),
    NoDup entries.*1 ->
    (forall name, name ∈ entries.*1 -> prev !! name = None) ->
    (fold_left (disk_step duration) entries (txt, r, w, prev)).1 = (txt, r, w).
Proof.
  induction entries as [|[n s] rest IH]; intros txt r w prev Hnd Hnone; [done|].
  cbn [fmap list_fmap fst] in Hnd, Hnone. apply NoDup_cons in Hnd as [Hn Hnd].
  cbn [fold_left]. unfold disk_step at 2.
  rewrite (Hnone n) by (by left).
  apply IH; [done|]. intros name Hname.
  rewrite lookup_insert_ne; [apply Hnone; by right|].
  intros ->. done.
Qed.

Lemma tick_disk_run (env : TickEnv) (st : Loop) :
  failed (disk_IOCounters env) = false ->
  ReadData (diskData st) <> [] ->
  length (WriteData (diskData st)) = length (ReadData (diskData st)) ->
  exists st' txt r w,
    tick_disk env st = ok st'
    /\ (fold_left (disk_step (Seconds (Sub (now env) (lastDiskUpdate st))))
          (val (disk_IOCounters env)) ("", 0%float, 0%float, prevDiskIOStats st)).1
       = (txt, r, w)
    /\ prevDiskIOStats st'
       = fold_left (fun m e => <[e.1 := e.2]> m) (val (disk_IOCounters env))
           (prevDiskIOStats st)
    /\ lastDiskUpdate st' = now env
    /\ ReadData (diskData st') = drop 1 (ReadData (diskData st)) ++ [r]
    /\ WriteData (diskData st') = drop 1 (WriteData (diskData st)) ++ [w]
    /\ Text (diskStats st') = txt
    /\ cpuGauges st' = cpuGauges st /\ netData st' = netData st
    /\ processList st' = processList st.
Proof.
  intros Hf Hne Hlen. unfold tick_disk. rewrite Hf.
  pose proof (disk_fold_prev (Seconds (Sub (now env) (lastDiskUpdate st)))
                (val (disk_IOCounters env)) ("", 0%float, 0%float, prevDiskIOStats st)) as Hp.
  destruct (fold_left (disk_step _) _ _) as [[[txt r] w] prev]. cbn [fst snd] in Hp.
  destruct (updateDiskGraph_buffers (diskData st) r w (diskGraph st) Hne Hlen)
    as (dd & g & Hrun & Hrd & Hwr).
  rewrite Hrun. cbn [mbind option_bind ok].
  eexists _, txt, r, w. split; [reflexivity|]. cbn.
  split; [done|]. split; [done|]. split; [done|]. split; [done|]. split; [done|].
  split; [|done]. destruct (decide _) as [|Hn]; [done|].
  symmetry. by apply dec_stable in Hn.
Qed.

(** X8.  A tick whose disk query succeeds stores every reported disk
    under its name in the baseline map and keeps the entries of the disks
    that were not reported (none is ever removed); the time of the
    reading becomes the time of the baseline. *)
Theorem tick_disk_baseline (env : TickEnv) (st : Loop) :
  failed (disk_IOCounters env) = false ->
  NoDup (val (disk_IOCounters env)).*1 ->
  ReadData (diskData st) <> [] ->
  length (WriteData (diskData st)) = length (ReadData (diskData st)) ->
  exists st',
    tick_disk env st = ok st'
    /\ (forall name stat, (name, stat) ∈ val (disk_IOCounters env) ->
          prevDiskIOStats st' !! name = Some stat)
    /\ (forall name, name ∉ (val (disk_IOCounters env)).*1 ->
          prevDiskIOStats st' !! name = prevDiskIOStats st !! name)
    /\ lastDiskUpdate st' = now env.
Proof.
  intros Hf Hnd Hne Hlen.
  destruct (tick_disk_run env st Hf Hne Hlen)
    as (st' & txt & r & w & Hrun & _ & Hprev & Hlast & _).
  destruct (insert_fold_lookup (val (disk_IOCounters env)) (prevDiskIOStats st) Hnd)
    as [H1 H2].
  exists st'. rewrite Hprev. done.
Qed.

(** X9.  When none of the reported disks has a baseline (as on the first
    tick after a failed initial query), the tick shows no per-disk text
    and appends the sample 0 to both series, whatever the counters are:
    a disk is only measured from its second sighting on. *)
Theorem tick_disk_first_sighting (env : TickEnv) (st : Loop) :
  failed (disk_IOCounters env) = false ->
  NoDup (val (disk_IOCounters env)).*1 ->
  (forall name, name ∈ (val (disk_IOCounters env)).*1 -> prevDiskIOStats st !! name = None) ->
  ReadData (diskData st) <> [] ->
  length (WriteData (diskData st)) = length (ReadData (diskData st)) ->
  exists st',
    tick_disk env st = ok st'
    /\ Text (diskStats st') = ""
    /\ ReadData (diskData st') = drop 1 (ReadData (diskData st)) ++ [0%float]
    /\ WriteData (diskData st') = drop 1 (WriteData (diskData st)) ++ [0%float].
Proof.
  intros Hf Hnd Hnone Hne Hlen.
  destruct (tick_disk_run env st Hf Hne Hlen)
    as (st' & txt & r & w & Hrun & Hacc & _ & _ & Hrd & Hwr & Htxt & _).
  rewrite disk_fold_unknown in Hacc by done. injection Hacc as <- <- <-.
  by exists st'.
Qed.
End DiskBaseline.

Lemma tick_disk_baseline_witness :
  let env := mkTickEnv (mkResp [] true) 300000000 (mkResp [] true)
               (mkResp [("sda", mkDiskIO 10 20); ("sdb", mkDiskIO 30 40)] false)
               (mkResp [] false) in
  let st := example_loop [1; 2; 3]%float in
  exists st',
    tick_disk (H := integer_formatter) env st = ok st'
    /\ (forall name stat, (name, stat) ∈ val (disk_IOCounters env) ->
          prevDiskIOStats st' !! name = Some stat)
    /\ (forall name, name ∉ (val (disk_IOCounters env)).*1 ->
          prevDiskIOStats st' !! name = prevDiskIOStats st !! name)
    /\ lastDiskUpdate st' = now env.
Proof.
  intros env st.
  apply (tick_disk_baseline (H := integer_formatter) env st); [done | | done | done].
  cbn. apply NoDup_cons. split; [|apply NoDup_singleton].
  intros Hin. apply list_elem_of_singleton in Hin. discriminate.
Defined.

Lemma tick_disk_first_sighting_witness :
  let env := mkTickEnv (mkResp [] true) 300000000 (mkResp [] true)
               (mkResp [("sda", mkDiskIO 10 20); ("sdb", mkDiskIO 30 40)] false)
               (mkResp [] false) in
  let st := example_loop [1; 2; 3]%float in
  exists st',
    tick_disk (H := integer_formatter) env st = ok st'
    /\ Text (diskStats st') = ""
    /\ ReadData (diskData st') = drop 1 (ReadData (diskData st)) ++ [0%float]
    /\ WriteData (diskData st') = drop 1 (WriteData (diskData st)) ++ [0%float].
Proof.
  intros env st.
  apply (tick_disk_first_sighting (H := integer_formatter) env st); [done | | | done | done].
  - cbn. apply NoDup_cons. split; [|apply NoDup_singleton].
    intros Hin. apply list_elem_of_singleton in Hin. discriminate.
  - intros name _. done.
Defined.

(** ** Integers and floats *)

Section IntFloat.
#[local] Open Scope Z_scope.

Lemma Rmul_mono (P1 P2 : Z) : P1 <= P2 -> Rmul P1 <= Rmul P2.
Proof.
  intros HP.
  assert (Hpos : forall p, 0 <= overflow (round53q 1074 (Z.pos p))).
  { intros p. apply overflow_nonneg, round53q_nonneg; lia. }
  assert (Hmono : forall p1 p2, Z.pos p1 <= Z.pos p2 ->
            overflow (round53q 1074 (Z.pos p1)) <= overflow (round53q 1074 (Z.pos p2))).
  { intros p1 p2 Hp. apply overflow_mono, round53q_mono; lia. }
  destruct P1 as [|p1|p1], P2 as [|p2|p2]; cbn [Rmul]; try lia.
  - apply Hpos.
  - by apply Hmono.
  - pose proof (Hpos p1). lia.
  - pose proof (Hpos p1). pose proof (Hpos p2). lia.
  - assert (Z.pos p2 <= Z.pos p1) by lia. pose proof (Hmono p2 p1 ltac:(done)). lia.
Qed.

Lemma float64_of_Z_val (n : Z) :
  fnan (float64_of_Z n) = false /\ fval (float64_of_Z n) = R64 (n * 2 ^ 1074).
Proof.
  unfold fnan, fval. rewrite Prim2SF_float64_of_Z.
  destruct (SFofZ_props (n * 2 ^ 1074)) as (_ & Hn & Hv). done.
Qed.

Lemma float64_of_Z_fin (n : Z) : Z.abs n <= 2 ^ 63 -> ffin (float64_of_Z n).
Proof.
  intros Hn. destruct (float64_of_Z_val n) as [Nn Vn].
  apply ffin_intro; [done|]. rewrite Vn.
  pose proof (pow2_pos 1074 ltac:(done)) as HU.
  destruct (R64_error (n * 2 ^ 1074) 1138) as [_ Hb]; [|done|].
  - rewrite Z.abs_mul, (Z.abs_eq (2 ^ 1074)) by lia.
    rewrite (pow2_add 64 1074 1138) by done.
    apply Z.mul_lt_mono_pos_r; [done|].
    apply Z.le_lt_trans with (2 ^ 63); [done | by apply pow2_lt].
  - apply Z.le_lt_trans with (2 ^ 1138); [done | by apply pow2_lt].
Qed.

(** [int(f)] of a finite float that is not negative and fits [int64]:
    the integer part. *)
Lemma int_of_float64_val (f : float64) :
  ffin f -> 0 <= fval f -> fval f / 2 ^ 1074 <= int64_max ->
  int_of_float64 f = fval f / 2 ^ 1074.
Proof.
  unfold ffin, fval, int_of_float64. pose proof (Prim2SF_valid f) as Hv.
  pose proof (pow2_pos 1074 ltac:(done)) as HU.
  destruct (Prim2SF f) as [s|s| |s m e]; try discriminate; intros _.
  - intros _ _. cbn [xval]. by rewrite Z.div_0_l by lia.
  - pose proof (finite_xval_bound s m e Hv) as Hb.
    destruct (bounded_inv m e Hv) as (He & _).
    destruct s; cbn [xval cond_Zopp]; [plia|]. intros _ Hmax.
    assert (E : Z.shiftl (Z.pos m) e = Z.pos m * 2 ^ (e + 1074) / 2 ^ 1074).
    { destruct (Z_le_gt_dec 0 e) as [Hpos|Hneg].
      - rewrite Z.shiftl_mul_pow2 by done.
        rewrite Z.pow_add_r, Z.mul_assoc by lia. by rewrite Z.div_mul by lia.
      - rewrite Z.shiftl_div_pow2 by lia.
        rewrite (pow2_add (e + 1074) (- e) 1074) by lia.
        pose proof (pow2_pos (e + 1074) ltac:(lia)).
        pose proof (pow2_pos (- e) ltac:(lia)).
        rewrite (Z.mul_comm (2 ^ (e + 1074))).
        by rewrite Z.div_mul_cancel_r by lia. }
    rewrite E. rewrite decide_True; [done|].
    split; [|done]. unfold int64_min.
    assert (0 <= Z.pos m * 2 ^ (e + 1074) / 2 ^ 1074) by (apply Z.div_pos; lia).
    pose proof (pow2_pos 63 ltac:(done)). lia.
Qed.

Lemma int_of_float64_ge (f : float64) (k : Z) :
  fnan f = false -> 0 <= k -> k * 2 ^ 1074 <= fval f -> fval f < 2 ^ 63 * 2 ^ 1074 ->
  k <= int_of_float64 f.
Proof.
  intros Nf Hk Hlo Hhi.
  pose proof (pow2_pos 1074 ltac:(done)) as HU.
  pose proof (pow2_pos 63 ltac:(done)) as H63.
  assert (Hq1 : k <= fval f / 2 ^ 1074)
    by (apply Z.div_le_lower_bound; [done | by rewrite Z.mul_comm]).
  assert (Hq2 : fval f / 2 ^ 1074 < 2 ^ 63).
  { apply Z.div_lt_upper_bound; [done|]. by rewrite Z.mul_comm. }
  assert (H98 : 2 ^ 63 * 2 ^ 1074 < 2 ^ 2098).
  { rewrite <- (pow2_add 63 1074 1137) by done. by apply pow2_lt. }
  assert (H0 : 0 <= fval f).
  { apply Z.le_trans with (k * 2 ^ 1074); [|done].
    apply Z.mul_nonneg_nonneg; [done | by apply Z.lt_le_incl]. }
  rewrite int_of_float64_val; [done| |done|].
  - apply ffin_intro; [done|]. rewrite Z.abs_eq by done.
    by apply Z.lt_trans with (2 ^ 63 * 2 ^ 1074).
  - unfold int64_max. apply Z.lt_le_pred in Hq2. exact Hq2.
Qed.

Lemma ffin_0_6 : ffin 0.6.
Proof. unfold ffin. vm_compute. reflexivity. Qed.

Lemma fval_0_6_pos : 0 <= fval 0.6.
Proof. apply Z.leb_le. vm_compute. reflexivity. Qed.

(** [int(float64(n) * 0.6)] is at least 3 from [n = 5] on. *)
Lemma scaled_0_6_ge_3 (n : Z) :
  5 <= n <= 2 ^ 63 -> 3 <= int_of_float64 (float64_of_Z n * 0.6).
Proof.
  intros Hn.
  pose proof (pow2_pos 1074 ltac:(done)) as HU.
  pose proof (pow2_pos 63 ltac:(done)) as H63.
  pose proof fval_0_6_pos as H06.
  assert (Hfin : forall k, Z.abs k <= 2 ^ 63 -> ffin (float64_of_Z k))
    by apply float64_of_Z_fin.
  assert (Hval : forall k, fval (float64_of_Z k) = R64 (k * 2 ^ 1074))
    by (intros k; apply float64_of_Z_val).
  assert (Hmul : forall k, Z.abs k <= 2 ^ 63 ->
            fnan (float64_of_Z k * 0.6) = false
            /\ fval (float64_of_Z k * 0.6) = Rmul (R64 (k * 2 ^ 1074) * fval 0.6)).
  { intros k Hk. destruct (mul_val _ _ (Hfin k Hk) ffin_0_6) as [N V].
    by rewrite V, Hval. }
  destruct (Hmul n ltac:(lia)) as [Nn Vn].
  destruct (Hmul 5 ltac:(lia)) as [_ V5].
  destruct (Hmul (2 ^ 63) ltac:(lia)) as [_ Vmax].
  assert (Hlo : fval (float64_of_Z 5 * 0.6) <= fval (float64_of_Z n * 0.6)).
  { rewrite V5, Vn. apply Rmul_mono. apply Z.mul_le_mono_nonneg_r; [done|].
    apply R64_mono. apply Z.mul_le_mono_nonneg_r; lia. }
  assert (Hhi : fval (float64_of_Z n * 0.6) <= fval (float64_of_Z (2 ^ 63) * 0.6)).
  { rewrite Vmax, Vn. apply Rmul_mono. apply Z.mul_le_mono_nonneg_r; [done|].
    apply R64_mono. apply Z.mul_le_mono_nonneg_r; lia. }
  assert (C5 : fval (float64_of_Z 5 * 0.6) = 3 * 2 ^ 1074) by (vm_compute; reflexivity).
  assert (Cmax : fval (float64_of_Z (2 ^ 63) * 0.6) < 2 ^ 63 * 2 ^ 1074)
    by (apply Z.ltb_lt; vm_compute; reflexivity).
  apply int_of_float64_ge; [done | done | by rewrite <- C5 |].
  by apply Z.le_lt_trans with (fval (float64_of_Z (2 ^ 63) * 0.6)).
Qed.
End IntFloat.

(** ** Relative error of the rounding *)

Section RelativeError.
#[local] Open Scope Z_scope.

(** Rounding a positive value that does not overflow moves it by at most
    the [2^53]-th part of it. *)
Lemma R64_rel (W : Z) :
  0 < W -> R64 W < 2 ^ 2098 ->
  2 ^ 53 * (R64 W - W) <= W /\ 2 ^ 53 * (W - R64 W) <= W.
Proof.
  intros HW Hfin.
  assert (H00 : 2 ^ 2098 < 2 ^ 2100) by (apply pow2_lt; plia).
  destruct W as [|p|p]; try plia. cbn [R64] in *.
  unfold overflow in *.
  destruct (Z.ltb_spec (round53q 0 (Z.pos p)) (2 ^ 2098)) as [Hr|Hr]; [|plia].
  set (W := Z.pos p) in *. clearbody W. clear Hfin.
  pose proof (Z.log2_nonneg W) as Hk0.
  destruct (Z.log2_spec W HW) as [Hk1 Hk2].
  set (k := Z.log2 W) in *. clearbody k.
  replace (Z.succ k) with (k + 1) in Hk2 by lia.
  destruct (Z_lt_le_dec k 53) as [Hsmall|Hbig].
  - assert (W < 2 ^ 53).
    { apply Z.lt_le_trans with (2 ^ (k + 1)); [done | apply pow2_le; lia]. }
    destruct (round53q_error 0 W 53) as [He _]; [lia | lia | lia |].
    change (2 ^ (53 - 54)) with 0 in He. rewrite Z.pow_0_r, Z.mul_1_r in He. lia.
  - destruct (round53q_error 0 W (k + 1)) as [He _]; [lia | lia | lia |].
    rewrite Z.pow_0_r, Z.mul_1_r in He.
    replace (k + 1 - 54) with (k - 53) in He by lia.
    assert (Ek : 2 ^ k = 2 ^ 53 * 2 ^ (k - 53)) by (apply pow2_add; lia).
    pose proof (pow2_pos (k - 53) ltac:(lia)) as Hp.
    set (u := 2 ^ (k - 53)) in *. clearbody u.
    rewrite Ek in Hk1. lia.
Qed.

(** The same for a product, whose rounding to the unit adds up to half a
    unit when the product is small. *)
Lemma Rmul_rel (P : Z) :
  0 < P < 2 ^ 3171 ->
  Rmul P * 2 ^ 1074 - P <= 2 ^ 1073
  \/ 2 ^ 53 * (Rmul P * 2 ^ 1074 - P) <= P.
Proof.
  intros HP.
  assert (H97 : 2 ^ 2097 < 2 ^ 2098) by (apply pow2_lt; plia).
  destruct (Rmul_error P 3171) as [_ Hb]; [rewrite Z.abs_eq; plia | plia |].
  change (3171 - 1074) with 2097 in Hb.
  destruct P as [|p|p]; try plia. cbn [Rmul] in *.
  unfold overflow in *.
  destruct (Z.ltb_spec (round53q 1074 (Z.pos p)) (2 ^ 2098)) as [Hr|Hr].
  2:{ assert (2 ^ 2098 < 2 ^ 2100) by (apply pow2_lt; plia).
      rewrite Z.abs_eq in Hb by plia. plia. }
  set (P := Z.pos p) in *. clearbody P. clear Hb.
  pose proof (Z.log2_nonneg P) as Hk0.
  destruct (Z.log2_spec P ltac:(plia)) as [Hk1 Hk2].
  set (k := Z.log2 P) in *. clearbody k.
  replace (Z.succ k) with (k + 1) in Hk2 by lia.
  destruct (Z_lt_le_dec k 1127) as [Hsmall|Hbig].
  - left.
    assert (P < 2 ^ 1127).
    { apply Z.lt_le_trans with (2 ^ (k + 1)); [done | apply pow2_le; lia]. }
    destruct (round53q_error 1074 P 1127) as [He _]; [lia | plia | lia |].
    change (1127 - 54) with 1073 in He. plia.
  - right.
    destruct (round53q_error 1074 P (k + 1)) as [He _]; [lia | plia | lia |].
    replace (k + 1 - 54) with (k - 53) in He by lia.
    assert (Ek : 2 ^ k = 2 ^ 53 * 2 ^ (k - 53)) by (apply pow2_add; lia).
    pose proof (pow2_pos (k - 53) ltac:(lia)) as Hp.
    set (u := 2 ^ (k - 53)) in *. clearbody u.
    rewrite Ek in Hk1. plia.
Qed.

(** A rounded product with a factor of at most one half (of value [F])
    does not exceed a positive [D] whose rounding is the other factor. *)
Lemma scaled_part_le (D F : Z) :
  0 < D -> R64 D < 2 ^ 2098 -> 0 <= F <= 2 ^ 1073 ->
  0 <= Rmul (R64 D * F) <= D.
Proof.
  intros HD Hfin HF.
  destruct (R64_rel D HD Hfin) as [Hup Hlow].
  pose proof (R64_nonneg D ltac:(lia)) as Hd0.
  set (d := R64 D) in *. clearbody d.
  assert (Hd1 : 0 < d) by lia.
  split; [apply Rmul_nonneg; apply Z.mul_nonneg_nonneg; plia|].
  assert (E1074 : 2 ^ 1074 = 2 * 2 ^ 1073) by (apply (pow2_add 1 1073); lia).
  assert (E3171 : 2 ^ 3171 = 2 ^ 2098 * 2 ^ 1073) by (apply pow2_add; lia).
  pose proof (pow2_pos 1073 ltac:(lia)) as He.
  apply Z.le_trans with (Rmul (d * 2 ^ 1073));
    [apply Rmul_mono; apply Z.mul_le_mono_nonneg_l; plia|].
  assert (HP : 0 < d * 2 ^ 1073 < 2 ^ 3171).
  { split; [apply Z.mul_pos_pos; plia|].
    rewrite E3171. apply Z.mul_lt_mono_pos_r; plia. }
  destruct (Rmul_rel (d * 2 ^ 1073) HP) as [Hh|Hh];
    rewrite E1074 in Hh; set (e := 2 ^ 1073) in *; clearbody e;
    set (h := Rmul (d * e)) in *; clearbody h; clear HP E3171 E1074 HF Hfin.
  - assert (h * 2 <= d + 1).
    { apply Z.mul_le_mono_pos_r with e; [done|]. nia. }
    lia.
  - assert (2 ^ 53 * (h * 2) <= d * (2 ^ 53 + 1)).
    { apply Z.mul_le_mono_pos_r with e; [done|]. nia. }
    lia.
Qed.
End RelativeError.

(** ** The adaptive scale on finite samples *)

Section ScaleFinite.
#[local] Open Scope Z_scope.

Lemma ffin_0_1 : ffin 0.1.
Proof. vm_compute. reflexivity. Qed.

Lemma ffin_0_3 : ffin 0.3.
Proof. vm_compute. reflexivity. Qed.

Lemma ffin_0_05 : ffin 0.05.
Proof. vm_compute. reflexivity. Qed.

Lemma ffin_half : ffin 0.5.
Proof. vm_compute. reflexivity. Qed.

Lemma fval_0_3_half : 0 <= fval 0.3 <= 2 ^ 1073.
Proof. split; apply Z.leb_le; vm_compute; reflexivity. Qed.

Lemma fval_0_05_half : 0 <= fval 0.05 <= 2 ^ 1073.
Proof. split; apply Z.leb_le; vm_compute; reflexivity. Qed.

Lemma fval_1_pos : 0 < fval 1.
Proof. apply Z.ltb_lt. vm_compute. reflexivity. Qed.

(** A float beyond every finite value is the positive infinity. *)
Lemma above_finite_inv (f : float64) :
  fnan f = false -> 2 ^ 2098 <= fval f -> Prim2SF f = S754_infinity false.
Proof.
  unfold fnan, fval. intros Hn Hv. pose proof (Prim2SF_valid f) as Hval.
  pose proof (pow2_pos 2098 ltac:(plia)) as H98.
  pose proof (pow2_pos 2100 ltac:(plia)) as H00.
  destruct (Prim2SF f) as [s|s| |s m e]; try discriminate; cbn [xval] in Hv.
  - plia.
  - destruct s; [cbn [cond_Zopp] in Hv; plia | done].
  - pose proof (finite_xval_bound s m e Hval). destruct s; cbn [cond_Zopp] in Hv; plia.
Qed.

(** The loop of [maxInSlice] returns its start value or a sample. *)
Lemma max_loop_in (P : float64 -> Prop) (l : list float64) :
  forall m0 : float64, P m0 -> Forall P l ->
    P (fold_left (fun mx v => if (mx <? v)%float then v else mx) l m0).
Proof.
  induction l as [|v l IH]; intros m0 H0 Hl; [done|].
  cbn [fold_left]. inversion Hl as [|? ? Hv Hl']; subst.
  apply IH; [|done]. by destruct (m0 <? v)%float.
Qed.

Lemma observed_peak_finite (series : list float64 * list float64) :
  finite_series series -> ffin (observed_peak series).
Proof.
  intros [H1 H2]. unfold observed_peak, max.
  assert (Hmax : forall l, Forall ffin l -> ffin (maxInSlice l)).
  { intros [|v0 l] Hl; [done|]. unfold maxInSlice.
    apply max_loop_in; [|done]. by inversion Hl. }
  destruct (_ <? _)%float; by apply Hmax.
Qed.

(** The upward branch moves a finite scale towards a finite peak above
    it, and not beyond. *)
Lemma up_step_finite (mv c : float64) :
  ffin mv -> ffin c -> 0 < fval mv -> (mv <? c)%float = true ->
  ffin (mv + (c - mv) * 0.3)
  /\ fval mv <= fval (mv + (c - mv) * 0.3) <= fval c.
Proof.
  intros Fm Fc Hpos Hlt.
  destruct (ffin_inv mv Fm) as [Nm Bm], (ffin_inv c Fc) as [Nc Bc].
  rewrite ltb_val in Hlt by done. apply Z.ltb_lt in Hlt.
  pose proof (ffin_R64 mv Fm) as Rm. pose proof (ffin_R64 c Fc) as Rc.
  destruct (sub_val c mv Fc Fm) as [Nd Vd].
  set (M := fval mv) in *. set (C := fval c) in *.
  rewrite Z.abs_eq in Bm, Bc by lia.
  assert (Hd : 0 <= R64 (C - M) <= C).
  { split; [apply R64_nonneg; lia|].
    apply Z.le_trans with (R64 C); [apply R64_mono; lia | lia]. }
  assert (Fd : ffin (c - mv)).
  { apply ffin_intro; [done|]. rewrite Vd, Z.abs_eq; lia. }
  destruct (mul_val (c - mv) 0.3 Fd ffin_0_3) as [Np Vp].
  rewrite Vd in Vp.
  destruct (scaled_part_le (C - M) (fval 0.3) ltac:(lia) ltac:(lia) fval_0_3_half)
    as [Hy0 Hy1].
  assert (Fp : ffin ((c - mv) * 0.3)).
  { apply ffin_intro; [done|]. rewrite Vp, Z.abs_eq; lia. }
  destruct (add_val mv ((c - mv) * 0.3) Fm Fp) as [Nr Vr].
  rewrite Vp in Vr. fold M in Vr.
  set (y := Rmul (R64 (C - M) * fval 0.3)) in *. clearbody y.
  assert (Hr : M <= R64 (M + y) <= C).
  { split.
    - apply Z.le_trans with (R64 M); [lia | apply R64_mono; lia].
    - apply Z.le_trans with (R64 C); [apply R64_mono; lia | lia]. }
  rewrite Vr. split; [|done].
  apply ffin_intro; [done|]. rewrite Vr, Z.abs_eq; lia.
Qed.

(** The downward branch leaves a finite value or the negative infinity,
    which the clamp replaces. *)
Lemma down_step_clamped (mv c : float64) :
  ffin mv -> ffin c -> (c <? mv * 0.5)%float = true -> (1 <? mv)%float = true ->
  let r := (mv - (mv - c) * 0.05)%float in
  ffin (if (r <? 0.1)%float then 0.1%float else r)
  /\ (0.1 <=? (if (r <? 0.1)%float then 0.1%float else r))%float = true.
Proof.
  intros Fm Fc Hlt H1 r.
  destruct (ffin_inv mv Fm) as [Nm Bm], (ffin_inv c Fc) as [Nc Bc].
  destruct (ffin_inv 0.1 ffin_0_1) as [N01 _].
  pose proof (ffin_R64 mv Fm) as Rm.
  rewrite ltb_val in H1 by done. apply Z.ltb_lt in H1. pose proof fval_1_pos as Hone.
  destruct (mul_val mv 0.5 Fm ffin_half) as [Nh Vh]. rewrite fval_half in Vh.
  rewrite ltb_val in Hlt by done. apply Z.ltb_lt in Hlt. rewrite Vh in Hlt.
  set (M := fval mv) in *. set (C := fval c) in *.
  rewrite Z.abs_eq in Bm by lia.
  (* half of the scale does not exceed the scale *)
  assert (Hh : Rmul (M * 2 ^ 1073) <= M).
  { assert (E1074 : 2 ^ 1074 = 2 * 2 ^ 1073) by (apply (pow2_add 1 1073); lia).
    assert (E3171 : 2 ^ 3171 = 2 ^ 2098 * 2 ^ 1073) by (apply pow2_add; lia).
    pose proof (pow2_pos 1073 ltac:(lia)) as He.
    assert (HP : 0 < M * 2 ^ 1073 < 2 ^ 3171).
    { split; [apply Z.mul_pos_pos; plia|].
      rewrite E3171. apply Z.mul_lt_mono_pos_r; plia. }
    destruct (Rmul_rel (M * 2 ^ 1073) HP) as [Hr|Hr];
      rewrite E1074 in Hr; set (e := 2 ^ 1073) in *; clearbody e;
      set (h := Rmul (M * e)) in *; clearbody h; clear HP E3171 E1074 Bm Bc Hlt.
    - assert (h * 2 <= M + 1).
      { apply Z.mul_le_mono_pos_r with e; [done|]. nia. }
      lia.
    - assert (2 ^ 53 * (h * 2) <= M * (2 ^ 53 + 1)).
      { apply Z.mul_le_mono_pos_r with e; [done|]. nia. }
      lia. }
  destruct (sub_val mv c Fm Fc) as [Ne Ve]. fold M C in Ve.
  pose proof (R64_nonneg (M - C) ltac:(lia)) as He0. rewrite <- Ve in He0.
  assert (Hclamp : forall x : float64, ffin x ->
            ffin (if (x <? 0.1)%float then 0.1%float else x)
            /\ (0.1 <=? (if (x <? 0.1)%float then 0.1%float else x))%float = true).
  { intros x Fx. destruct (ffin_inv x Fx) as [Nx _].
    rewrite (ltb_val x 0.1) by done.
    destruct (Z.ltb_spec (fval x) (fval 0.1)) as [Hx|Hx].
    - split; [apply ffin_0_1 | by vm_compute].
    - split; [done|]. rewrite leb_val by done. by apply Z.leb_le. }
  destruct (Z_lt_le_dec (fval (mv - c)) (2 ^ 2098)) as [Hfin|Hinf].
  - (* the difference is finite *)
    assert (Fe : ffin (mv - c)) by (apply ffin_intro; [done | rewrite Z.abs_eq; lia]).
    destruct (mul_val (mv - c) 0.05 Fe ffin_0_05) as [Nz Vz].
    assert (E3171 : 2 ^ 3171 = 2 ^ 2098 * 2 ^ 1073) by (apply pow2_add; lia).
    assert (H97 : 2 ^ 2097 < 2 ^ 2098) by (apply pow2_lt; lia).
    pose proof fval_0_05_half as H05.
    pose proof (pow2_pos 1073 ltac:(lia)) as Hp73.
    assert (HP : Z.abs (fval (mv - c) * fval 0.05) < 2 ^ 3171).
    { rewrite Z.abs_eq by (apply Z.mul_nonneg_nonneg; plia). rewrite E3171.
      apply Z.le_lt_trans with (fval (mv - c) * 2 ^ 1073).
      - apply Z.mul_le_mono_nonneg_l; plia.
      - apply Z.mul_lt_mono_pos_r; plia. }
    destruct (Rmul_error _ 3171 HP) as [_ Hzb]; [plia|].
    change (3171 - 1074) with 2097 in Hzb. rewrite <- Vz in Hzb.
    pose proof (Rmul_nonneg (fval (mv - c) * fval 0.05)
                  ltac:(apply Z.mul_nonneg_nonneg; plia)) as Hz0.
    rewrite <- Vz in Hz0. rewrite Z.abs_eq in Hzb by done.
    assert (Fz : ffin ((mv - c) * 0.05)) by (apply ffin_intro; [done | rewrite Z.abs_eq; plia]).
    pose proof (ffin_R64 _ Fz) as Rz.
    destruct (sub_val mv ((mv - c) * 0.05) Fm Fz) as [Nr Vr]. fold M in Vr.
    set (Zv := fval ((mv - c) * 0.05)) in *. clearbody Zv.
    assert (Hr : - Zv <= R64 (M - Zv) <= M).
    { split.
      - apply Z.le_trans with (R64 (- Zv)); [rewrite R64_opp; lia | apply R64_mono; lia].
      - apply Z.le_trans with (R64 M); [apply R64_mono; lia | lia]. }
    apply Hclamp. apply ffin_intro; [done|]. fold r in Vr. rewrite Vr.
    apply Z.abs_lt. plia.
  - (* the difference overflows *)
    pose proof (above_finite_inv (mv - c) Ne Hinf) as Einf.
    assert (Er : Prim2SF r = S754_infinity true).
    { unfold r. rewrite sub_spec, mul_spec, Einf. unfold SF64sub, SF64mul.
      unfold ffin in Fm.
      destruct (Prim2SF mv) as [s|s| |s m e]; try discriminate; vm_compute; reflexivity. }
    assert (Hlt01 : (r <? 0.1)%float = true).
    { rewrite ltb_spec, Er. vm_compute. reflexivity. }
    rewrite Hlt01. split; [apply ffin_0_1 | by vm_compute].
Qed.

(** One update of a finite scale that is not below 0.1, against a finite
    peak, gives such a scale again. *)
Lemma scale_step_finite (mv c : float64) :
  ffin mv -> (0.1 <=? mv)%float = true -> ffin c ->
  ffin (scale_step mv c) /\ (0.1 <=? scale_step mv c)%float = true.
Proof.
  intros Fm H01 Fc.
  destruct (ffin_inv mv Fm) as [Nm _].
  destruct (ffin_inv 0.1 ffin_0_1) as [N01 _].
  pose proof fval_0_1_pos as Hpos.
  pose proof H01 as H01'. rewrite leb_val in H01' by done. apply Z.leb_le in H01'.
  unfold scale_step.
  destruct (mv <? c)%float eqn:Hup.
  - destruct (up_step_finite mv c Fm Fc ltac:(lia) Hup) as [Fr [Hr1 Hr2]].
    destruct (ffin_inv _ Fr) as [Nr _].
    rewrite (ltb_val (mv + (c - mv) * 0.3) 0.1) by done.
    rewrite (proj2 (Z.ltb_ge _ _)) by lia.
    split; [done|]. rewrite leb_val by done. apply Z.leb_le. lia.
  - destruct ((c <? mv * 0.5) && (1 <? mv))%float eqn:Hdown.
    + apply andb_true_iff in Hdown as [Hd1 Hd2].
      by apply down_step_clamped.
    + rewrite (ltb_val mv 0.1) by done.
      rewrite (proj2 (Z.ltb_ge _ _)) by lia. done.
Qed.

Lemma scale_updates_finite update mv0 ticks_ :
  (forall mv series, update mv series = scale_step mv (observed_peak series)) ->
  ffin mv0 -> (0.1 <=? mv0)%float = true -> Forall finite_series ticks_ ->
  Forall (fun mv => (0.1 <=? mv)%float = true /\ ffin mv) (scale_updates update mv0 ticks_).
Proof.
  intros Hstep F0 H0 Hall. revert mv0 F0 H0.
  induction Hall as [|series rest Hs Hrest IH]; intros mv0 F0 H0; cbn [scale_updates].
  - constructor.
  - destruct (scale_step_finite mv0 (observed_peak series) F0 H0
                (observed_peak_finite series Hs)) as [F1 H1].
    rewrite Hstep. constructor; [done | by apply IH].
Qed.

(** C6, on finite samples.  From a finite scale that starts at 0.1 or
    more, and as long as every sample of the two series is finite, every
    update of the network or of the disk scale yields a finite value that
    is at least 0.1; and a tick whose observed peak exceeds the scale
    yields a scale greater than or equal to the one before it. *)
Theorem C6_scale_floor (mv0 : float64) (ticks_ : list (list float64 * list float64)) :
  (0.1 <=? mv0)%float = true -> ffin mv0 -> Forall finite_series ticks_ ->
  forall update, update = network_scale_update \/ update = disk_scale_update ->
  let scales := scale_updates update mv0 ticks_ in
  (forall k mv, scales !! k = Some mv -> (0.1 <=? mv)%float = true /\ ffin mv)
  /\ (forall k prev next series,
        (mv0 :: scales) !! k = Some prev ->
        scales !! k = Some next ->
        ticks_ !! k = Some series ->
        (prev <? observed_peak series)%float = true ->
        (prev <=? next)%float = true).
Proof.
  intros H0 F0 Hfin update Hupd scales.
  assert (Hstep : forall mv series, update mv series = scale_step mv (observed_peak series)).
  { intros mv series. by destruct Hupd as [-> | ->]. }
  pose proof (scale_updates_finite update mv0 ticks_ Hstep F0 H0 Hfin) as Hall.
  fold scales in Hall.
  split.
  - intros k mv Hk. rewrite Forall_lookup in Hall. by eapply Hall.
  - intros k prev next series Hp Hn Hs Hpeak.
    rewrite (scale_updates_lookup _ _ _ _ _ _ _ Hp Hn Hs), Hstep.
    apply scale_step_up; [done|].
    assert (Hall' : Forall (fun mv => (0.1 <=? mv)%float = true /\ ffin mv) (mv0 :: scales))
      by (by constructor).
    rewrite Forall_lookup in Hall'. destruct (Hall' k prev Hp) as [Hge Fp].
    destruct (leb_true_nan _ _ Hge) as [N1 N2].
    rewrite leb_val in Hge by done. apply Z.leb_le in Hge.
    rewrite ltb_val by done. apply Z.ltb_ge. lia.
Qed.

(** C6, as the claim words it, fails: after an infinite sample the scale
    is the positive infinity, and when the peak has fallen again the
    update computes [Inf - Inf], a NaN, which is not 0.1 or more. *)
Lemma C6_counterexample :
  ~ (forall (mv0 : float64) (ticks_ : list (list float64 * list float64)),
       (0.1 <=? mv0)%float = true ->
       forall k mv, scale_updates network_scale_update mv0 ticks_ !! k = Some mv ->
                    (0.1 <=? mv)%float = true).
Proof.
  intros Hclaim.
  specialize (Hclaim 0.1%float [([infinity], [0%float]); ([0%float], [0%float])]
                ltac:(vm_compute; reflexivity) 1%nat).
  specialize (Hclaim _ eq_refl). vm_compute in Hclaim. discriminate.
Qed.
End ScaleFinite.

Lemma C6_scale_floor_witness :
  let ticks_ := [([1; 2], [0.5; 3]); ([0; 0], [0; 0])]%float in
  (forall k mv,
      scale_updates network_scale_update 0.1 ticks_ !! k = Some mv ->
      (0.1 <=? mv)%float = true /\ ffin mv)
  /\ (0.1 <=? network_scale_update 0.1 ([1; 2], [0.5; 3])%float)%float = true.
Proof.
  intros ticks_.
  destruct (C6_scale_floor 0.1 ticks_ ltac:(vm_compute; reflexivity)
              ltac:(vm_compute; reflexivity)
              ltac:(repeat constructor)
              network_scale_update (or_introl eq_refl))
    as [Hfloor Hup].
  split; [exact Hfloor|].
  apply (Hup 0%nat 0.1%float _ ([1; 2], [0.5; 3])%float); reflexivity.
Defined.

(** ** [sort.Slice] keeps the length *)

Section SortLength.
Context {A : Type} `{Inhabited A}.
Variable less : A -> A -> bool.

Lemma Swap_length (data : list A) (i j : nat) : length (sort.Swap data i j) = length data.
Proof. unfold sort.Swap. by rewrite !length_insert. Qed.

Lemma insert_loop_length (j : nat) :
  forall (data : list A) (a : nat), length (sort.insert_loop less data a j) = length data.
Proof.
  induction j as [|j IH]; intros data a; [done|]. cbn [sort.insert_loop].
  destruct (_ && _); [|done]. by rewrite IH, Swap_length.
Qed.

Lemma insertion_loop_length (n : nat) :
  forall (data : list A) (a i : nat),
    length (sort.insertion_loop less n data a i) = length data.
Proof.
  induction n as [|n IH]; intros data a i; [done|]. cbn [sort.insertion_loop].
  by rewrite IH, insert_loop_length.
Qed.

Lemma insertionSort_length (data : list A) (a b : nat) :
  length (sort.insertionSort_func less data a b) = length data.
Proof. apply insertion_loop_length. Qed.

Lemma siftDown_loop_length (fuel : nat) :
  forall (data : list A) (root hi first : nat),
    length (sort.siftDown_loop less fuel data root hi first) = length data.
Proof.
  induction fuel as [|fuel IH]; intros data root hi first; [done|].
  cbn [sort.siftDown_loop]. destruct (_ <=? _)%nat; [done|].
  destruct (negb _); [done|]. by rewrite IH, Swap_length.
Qed.

Lemma heapify_loop_length (n : nat) :
  forall (data : list A) (hi first : nat),
    length (sort.heapify_loop less n data hi first) = length data.
Proof.
  induction n as [|n IH]; intros data hi first; [done|]. cbn [sort.heapify_loop].
  rewrite IH. apply siftDown_loop_length.
Qed.

Lemma popheap_loop_length (n : nat) :
  forall (data : list A) (first : nat),
    length (sort.popheap_loop less n data first) = length data.
Proof.
  induction n as [|n IH]; intros data first; [done|]. cbn [sort.popheap_loop].
  rewrite IH. unfold sort.siftDown_func. by rewrite siftDown_loop_length, Swap_length.
Qed.

Lemma heapSort_length (data : list A) (a b : nat) :
  length (sort.heapSort_func less data a b) = length data.
Proof. unfold sort.heapSort_func. by rewrite popheap_loop_length, heapify_loop_length. Qed.

Lemma partition_loop_length (fuel : nat) :
  forall (data : list A) (a i j : nat),
    length (sort.partition_loop less fuel data a i j).1 = length data.
Proof.
  induction fuel as [|fuel IH]; intros data a i j; [done|]. cbn [sort.partition_loop].
  destruct (_ <? _)%nat; [done|]. by rewrite IH, Swap_length.
Qed.

Lemma partition_length (data : list A) (a b pivot : nat) :
  length (sort.partition_func less data a b pivot).1.1 = length data.
Proof.
  unfold sort.partition_func. destruct (_ <? _)%nat; cbn [fst].
  - by rewrite !Swap_length.
  - destruct (sort.partition_loop _ _ _ _ _ _) as [d j] eqn:E. cbn [fst].
    rewrite Swap_length. change d with (d, j).1. rewrite <- E.
    by rewrite partition_loop_length, !Swap_length.
Qed.

Lemma partitionEqual_loop_length (fuel : nat) :
  forall (data : list A) (a i j : nat),
    length (sort.partitionEqual_loop less fuel data a i j).1 = length data.
Proof.
  induction fuel as [|fuel IH]; intros data a i j; [done|].
  cbn [sort.partitionEqual_loop].
  destruct (_ <? _)%nat; [done|]. by rewrite IH, Swap_length.
Qed.

Lemma partitionEqual_length (data : list A) (a b pivot : nat) :
  length (sort.partitionEqual_func less data a b pivot).1 = length data.
Proof. unfold sort.partitionEqual_func. by rewrite partitionEqual_loop_length, Swap_length. Qed.

Lemma shift_left_length (j : nat) :
  forall data : list A, length (sort.shift_left less data j) = length data.
Proof.
  induction j as [|j IH]; intros data; [done|]. cbn [sort.shift_left].
  destruct (negb _); [done|]. by rewrite IH, Swap_length.
Qed.

Lemma shift_right_length (fuel : nat) :
  forall (data : list A) (j b : nat),
    length (sort.shift_right less fuel data j b) = length data.
Proof.
  induction fuel as [|fuel IH]; intros data j b; [done|]. cbn [sort.shift_right].
  destruct (_ <=? _)%nat; [done|]. destruct (negb _); [done|].
  by rewrite IH, Swap_length.
Qed.

Lemma partialInsertion_loop_length (steps : nat) :
  forall (data : list A) (a b i : nat),
    length (sort.partialInsertion_loop less steps data a b i).1 = length data.
Proof.
  induction steps as [|steps IH]; intros data a b i; [done|].
  cbn [sort.partialInsertion_loop].
  destruct (_ =? _)%nat; [done|]. destruct (_ <? _)%nat; [done|].
  rewrite IH.
  destruct (2 <=? b - _)%nat; [rewrite shift_right_length|];
    (destruct (2 <=? _ - a)%nat; [rewrite shift_left_length|]); by rewrite Swap_length.
Qed.

Lemma breakPatterns_loop_length (n : nat) :
  forall (data : list A) (a length_ idx i : nat) (random : Z),
    length (sort.breakPatterns_loop n data a length_ idx i random) = length data.
Proof.
  induction n as [|n IH]; intros data a length_ idx i random; [done|].
  cbn [sort.breakPatterns_loop]. by rewrite IH, Swap_length.
Qed.

Lemma breakPatterns_length (data : list A) (a b : nat) :
  length (sort.breakPatterns_func data a b) = length data.
Proof.
  unfold sort.breakPatterns_func. destruct (_ <=? _)%nat; [|done].
  apply breakPatterns_loop_length.
Qed.

Lemma reverse_loop_length (fuel : nat) :
  forall (data : list A) (i j : nat),
    length (sort.reverse_loop fuel data i j) = length data.
Proof.
  induction fuel as [|fuel IH]; intros data i j; [done|]. cbn [sort.reverse_loop].
  destruct (_ <? _)%nat; [|done]. by rewrite IH, Swap_length.
Qed.

Lemma pdqsort_length (fuel : nat) :
  forall (data : list A) (a b limit : nat) (wb wp : bool),
    length (sort.pdqsort_func less fuel data a b limit wb wp) = length data.
Proof.
  induction fuel as [|fuel IH]; intros data a b limit wb wp; [done|].
  cbn [sort.pdqsort_func].
  destruct (_ <=? _)%nat; [apply insertionSort_length|].
  destruct (_ =? _)%nat; [apply heapSort_length|].
  set (d1 := if negb wb then _ else _).
  assert (H1 : length d1.1 = length data).
  { unfold d1. destruct (negb wb); [apply breakPatterns_length | done]. }
  destruct d1 as [data1 limit1]. cbn [fst] in H1.
  destruct (sort.choosePivot_func less data1 a b) as [pivot hint].
  set (d2 := if sort.hint_eqb hint sort.decreasingHint then _ else _).
  assert (H2 : length d2.1.1 = length data).
  { unfold d2. destruct (sort.hint_eqb _ _); cbn [fst]; [|done].
    unfold sort.reverseRange_func. by rewrite reverse_loop_length. }
  destruct d2 as [[data2 pivot2] hint2]. cbn [fst] in H2.
  set (d3 := if _ && _ then _ else _).
  assert (H3 : length d3.1 = length data).
  { unfold d3. destruct (_ && _); [|done].
    unfold sort.partialInsertionSort_func. by rewrite partialInsertion_loop_length. }
  destruct d3 as [data3 done_]. cbn [fst] in H3.
  destruct done_; [done|].
  destruct (_ && _).
  - pose proof (partitionEqual_length data3 a b pivot2) as H4.
    destruct (sort.partitionEqual_func less data3 a b pivot2) as [data4 mid].
    cbn [fst] in H4. by rewrite IH, H4.
  - pose proof (partition_length data3 a b pivot2) as H4.
    destruct (sort.partition_func less data3 a b pivot2) as [[data4 mid] ap].
    cbn [fst] in H4. destruct (_ <? _)%nat; by rewrite !IH, H4.
Qed.

Lemma Slice_length (x : list A) : length (sort.Slice less x) = length x.
Proof. apply pdqsort_length. Qed.
End SortLength.

(** ** The process table ([ProcessList.update], main.go 58-148) *)

Section ProcessTable.
Context `{Formatter}.
#[local] Open Scope Z_scope.

Lemma getProcessInfo_readable (p : Process) :
  match getProcessInfo p with
  | Some info => readable p = true /\ PID info = Pid p
  | None => readable p = false
  end.
Proof.
  unfold getProcessInfo, readable.
  by destruct (failed (p_Name p)), (failed (p_CPUPercent p)), (failed (p_MemoryPercent p)).
Qed.

Lemma collect_length (procs : list Process) :
  length (omap getProcessInfo procs) = length (filter (fun p => readable p = true) procs).
Proof.
  induction procs as [|p procs IH]; [done|].
  cbn [omap list_omap]. rewrite filter_cons.
  pose proof (getProcessInfo_readable p) as Hp.
  destruct (getProcessInfo p) as [info|].
  - destruct Hp as [Hr _]. rewrite decide_True by done. cbn [length]. by rewrite IH.
  - rewrite decide_False by (by rewrite Hp). done.
Qed.

Lemma formatCommand_ok (cmd : string) (w : Z) :
  3 <= w -> exists s, formatCommand cmd w = ok s.
Proof.
  intros Hw. unfold formatCommand.
  destruct (decide (strlen cmd > w)) as [Hlong|Hshort]; [|by eexists].
  rewrite decide_True by lia. by eexists.
Qed.

Lemma rows_ok (w : Z) (ps : list ProcessInfo) :
  3 <= w ->
  exists rows,
    mapM (process_row w) ps = Some rows
    /\ length rows = length ps
    /\ Forall (fun row => length row = 4%nat) rows.
Proof.
  intros Hw. induction ps as [|p ps (rows & Hrows & Hlen & Hall)].
  - by exists [].
  - destruct (formatCommand_ok (Command p) w Hw) as (s & Hs).
    exists ([Name p; sprintf_1f (CPU p); sprintf_1f (Memory p); s] :: rows).
    split; [|split].
    + apply mapM_Some. constructor; [|by apply mapM_Some].
      unfold process_row. by rewrite Hs.
    + cbn [length]. by rewrite Hlen.
    + by constructor.
Qed.

Lemma commandWidth_ge_3 (dx : Z) :
  7 <= dx <= 2 ^ 62 -> 3 <= int_of_float64 (float64_of_Z (dx - 2) * 0.6).
Proof.
  intros Hdx. apply scaled_0_6_ge_3. split; [lia|].
  apply Z.le_trans with (2 ^ 62); [lia|]. by apply Z.pow_le_mono_r.
Qed.

Lemma ProcessList_update_ok (process_Processes : Resp (list Process)) (pl : ProcessList) :
  7 <= Dx (ProcessListRect pl) <= 2 ^ 62 ->
  exists pl',
    ProcessList_update process_Processes pl = ok pl'
    /\ ProcessListRect pl' = ProcessListRect pl.
Proof.
  intros Hdx. unfold ProcessList_update, collectProcessInfo.
  cbn [ProcessListRect updateColumnWidths].
  destruct (failed process_Processes); [by eexists|].
  cbn [sortProcesses ProcessListRect Processes ColumnWidths Rows].
  destruct (rows_ok _ (sort.Slice (fun pi pj => (CPU pj <? CPU pi)%float)
                         (omap getProcessInfo (val process_Processes)))
              (commandWidth_ge_3 _ Hdx)) as (rows & -> & _).
  cbn [mbind option_bind ok]. by eexists.
Qed.

(** X10.  On a table at least 7 columns wide [ProcessList.update] does
    not panic.  When the process query fails, the table shows the one
    row ["Error getting processes"] and keeps the processes of the tick
    before; otherwise it shows the header and one row of four cells for
    every process whose name, CPU share and memory share could be read. *)
Theorem ProcessList_update_rows (process_Processes : Resp (list Process))
    (pl : ProcessList) :
  7 <= Dx (ProcessListRect pl) <= 2 ^ 62 ->
  exists pl',
    ProcessList_update process_Processes pl = ok pl'
    /\ ProcessListRect pl' = ProcessListRect pl
    /\ (failed process_Processes = true ->
        Rows pl' = [["Error getting processes"]] /\ Processes pl' = Processes pl)
    /\ (failed process_Processes = false ->
        exists rows,
          Rows pl' = ["Name"; "CPU%"; "Mem%"; "Command"] :: rows
          /\ length rows
             = length (filter (fun p => readable p = true) (val process_Processes))
          /\ length (Processes pl') = length rows
          /\ Forall (fun row => length row = 4%nat) rows).
Proof.
  intros Hdx. unfold ProcessList_update, collectProcessInfo.
  cbn [ProcessListRect updateColumnWidths].
  destruct (failed process_Processes) eqn:Hf.
  - eexists. split; [reflexivity|]. cbn. split; [done|]. split; [done|]. done.
  - cbn [sortProcesses ProcessListRect Processes ColumnWidths Rows].
    pose proof (commandWidth_ge_3 _ Hdx) as Hw.
    destruct (rows_ok _ (sort.Slice (fun pi pj => (CPU pj <? CPU pi)%float)
                           (omap getProcessInfo (val process_Processes))) Hw)
      as (rows & Hrows & Hlen & Hall).
    rewrite Hrows. cbn [mbind option_bind ok].
    eexists. split; [reflexivity|]. cbn [ProcessListRect Rows Processes].
    split; [reflexivity|]. split; [intros [=]|].
    intros _. exists rows. split; [reflexivity|].
    rewrite Slice_length, collect_length in Hlen.
    split; [exact Hlen|]. split; [|exact Hall].
    by rewrite Slice_length, collect_length.
Qed.
End ProcessTable.

Lemma ProcessList_update_rows_witness :
  let procs := [mkProcess 1 (mkResp "init" false) (mkResp 1%float false)
                          (mkResp 2%float false) (mkResp "/sbin/init" false);
                mkProcess 2 (mkResp "" true) (mkResp 0%float false)
                          (mkResp 0%float false) (mkResp "" false)] in
  let resp := mkResp procs false in
  let pl := createProcessList 0 36 80 23 in
  exists pl',
    ProcessList_update (H := integer_formatter) resp pl = ok pl'
    /\ ProcessListRect pl' = ProcessListRect pl
    /\ (failed resp = true ->
        Rows pl' = [["Error getting processes"]] /\ Processes pl' = Processes pl)
    /\ (failed resp = false ->
        exists rows,
          Rows pl' = ["Name"; "CPU%"; "Mem%"; "Command"] :: rows
          /\ length rows = length (filter (fun p => readable p = true) (val resp))
          /\ length (Processes pl') = length rows
          /\ Forall (fun row => length row = 4%nat) rows).
Proof.
  intros procs resp pl.
  apply (ProcessList_update_rows (H := integer_formatter) resp pl).
  split; vm_compute; discriminate.
Defined.

(** ** Gauges at percentages *)

Section GaugeRange.
#[local] Open Scope Z_scope.

Lemma in_percent_intro (x : float64) :
  ffin x -> 0 <= fval x <= 100 * 2 ^ 1074 -> in_percent x.
Proof.
  intros Fx Hx. destruct (ffin_inv x Fx) as [Nx _].
  assert (N0 : fnan 0 = false) by (by vm_compute).
  assert (N100 : fnan 100 = false) by (by vm_compute).
  split; rewrite leb_val by done; apply Z.leb_le.
  - change (fval 0) with 0. lia.
  - rewrite fval_100. lia.
Qed.

Lemma in_percent_0 : in_percent 0.
Proof. split; by vm_compute. Qed.

(** The running total of [k] percentages does not exceed [100 * k]. *)
Lemma total_le (percentages : list float64) :
  Forall in_percent percentages ->
  forall (k : Z) (acc : float64),
    0 <= k -> k + len percentages < 2 ^ 46 ->
    ffin acc -> 0 <= fval acc <= 100 * k * 2 ^ 1074 ->
    let total := fold_left (fun acc p => (acc + p)%float) percentages acc in
    ffin total /\ 0 <= fval total <= 100 * (k + len percentages) * 2 ^ 1074.
Proof.
  induction 1 as [|p ps Hp Hps IH]; intros k acc Hk Hlen Fa Ha; cbn zeta.
  - cbn [fold_left]. unfold len. cbn [length]. split; [done|].
    by replace (k + Z.of_nat 0) with k by lia.
  - cbn [fold_left]. unfold len in *. cbn [length] in *.
    destruct (in_percent_inv p Hp) as [Fp Vp].
    destruct (add_val acc p Fa Fp) as [Ns Vs].
    pose proof (pow2_pos 1074 ltac:(lia)) as HU.
    assert (H46 : 2 ^ 46 * 128 = 2 ^ 53) by (by rewrite (pow2_add 46 7 53)).
    assert (Hs : 0 <= fval (acc + p) <= 100 * (k + 1) * 2 ^ 1074).
    { rewrite Vs. split.
      - apply R64_nonneg. lia.
      - rewrite <- (R64_exact (100 * (k + 1))) by lia.
        apply R64_mono. lia. }
    assert (Fs : ffin (acc + p)).
    { apply ffin_intro; [done|].
      apply Z.le_lt_trans with (100 * (k + 1) * 2 ^ 1074); [lia|].
      apply Z.lt_le_trans with (2 ^ 53 * 2 ^ 1074).
      - apply Z.mul_lt_mono_pos_r; [done | lia].
      - rewrite <- Z.pow_add_r by lia. apply pow2_le. lia. }
    destruct (IH (k + 1) (acc + p)%float ltac:(lia) ltac:(lia) Fs Hs) as [Ft Vt].
    split; [done|].
    by replace (k + Z.of_nat (S (length ps))) with (k + 1 + Z.of_nat (length ps)) by lia.
Qed.

(** The average of percentages, as [updateCPUTargets] computes it, is a
    percentage. *)
Lemma avgPercent_of_in_percent (percentages : list float64) :
  percentages <> [] -> len percentages < 2 ^ 46 ->
  Forall in_percent percentages ->
  in_percent (avgPercent_of percentages).
Proof.
  intros Hne Hlen Hps. unfold avgPercent_of.
  assert (HL : 0 < len percentages).
  { unfold len. destruct percentages; [done|]. cbn [length]. lia. }
  pose proof (pow2_pos 1074 ltac:(lia)) as HU.
  assert (H46 : 2 ^ 46 * 128 = 2 ^ 53) by (by rewrite (pow2_add 46 7 53)).
  assert (F0 : ffin 0) by (by vm_compute).
  destruct (total_le percentages Hps 0 0%float ltac:(lia) ltac:(lia) F0) as [Ft Vt].
  { change (fval 0) with 0. lia. }
  rewrite Z.add_0_l in Vt.
  destruct (float64_of_Z_val (len percentages)) as [Nl Vl].
  rewrite R64_exact in Vl by lia.
  assert (Fl : ffin (float64_of_Z (len percentages))).
  { apply ffin_intro; [done|]. rewrite Vl.
    apply Z.le_lt_trans with (2 ^ 53 * 2 ^ 1074).
    - rewrite Z.abs_eq by nia. apply Z.mul_le_mono_nonneg_r; lia.
    - rewrite <- Z.pow_add_r by lia. apply pow2_lt. lia. }
  set (total := fold_left (fun acc p => (acc + p)%float) percentages 0%float) in *.
  destruct (div_le total (float64_of_Z (len percentages)) 100 Ft Fl) as [Fd Vd].
  - lia.
  - rewrite Vl. nia.
  - split; [lia|]. apply Z.lt_le_trans with (2 ^ 7); [done|]. apply pow2_le. lia.
  - rewrite Vl. lia.
  - by apply in_percent_intro.
Qed.

(** One animation step at the speed of the program keeps a percentage
    a percentage. *)
Lemma gauge_tick_in_percent (c t : float64) :
  in_percent c -> in_percent t -> in_percent (gauge_tick_spec animationSpeed c t).
Proof.
  intros Hc Ht.
  destruct (in_percent_inv c Hc) as [Fc Vc], (in_percent_inv t Ht) as [Ft Vt].
  destruct (speed_range_intro animationSpeed) as [Fs HS]; [by vm_compute | by vm_compute |].
  pose proof (pow2_pos 1074 ltac:(done)) as HU.
  assert (HS0 : 0 < fval animationSpeed).
  { unfold speed_range in HS. pose proof (pow2_pos 1034 ltac:(done)). plia. }
  destruct (tick_progress animationSpeed c t Fs HS Fc Ft) as [->|(Fr & _ & _ & Hq & Hb1 & Hb2)];
    [unfold percent_range; rewrite Z.abs_eq; plia
    |unfold percent_range; rewrite Z.abs_eq; plia | done |].
  apply in_percent_intro; [done|].
  set (r := fval (gauge_tick_spec animationSpeed c t)) in *. clearbody r.
  set (S := fval animationSpeed) in *. clearbody S.
  set (C := fval c) in *. set (T := fval t) in *. clearbody C T.
  destruct (Z_le_gt_dec C T) as [Hle|Hgt].
  - specialize (Hb1 Hle). clear Hb2 HS. plia.
  - specialize (Hb2 ltac:(lia)). clear Hb1 HS. plia.
Qed.

(** [int] of a percentage is an integer from 0 to 100. *)
Lemma int_of_percent (x : float64) : in_percent x -> 0 <= int_of_float64 x <= 100.
Proof.
  intros Hx. destruct (in_percent_inv x Hx) as [Fx Vx].
  pose proof (pow2_pos 1074 ltac:(done)) as HU.
  assert (Hq : 0 <= fval x / 2 ^ 1074 <= 100).
  { split; [apply Z.div_pos; plia|].
    apply Z.div_le_upper_bound; [done|]. plia. }
  rewrite int_of_float64_val; [done | done | plia |].
  unfold int64_max. plia.
Qed.

Lemma animate_in_range (g : CPUGauge) :
  in_percent (CurrentPercent g) -> in_percent (TargetPercent g) ->
  gauge_in_range (animate animationSpeed g).
Proof.
  intros Hc Ht.
  pose proof (gauge_tick_in_percent _ _ Hc Ht) as Hr.
  rewrite <- animate_current in Hr.
  split; [done|]. split; [done|].
  unfold animate in *. cbn [gauge Percent CurrentPercent] in *. by apply int_of_percent.
Qed.

Lemma set_target_in_range (g : CPUGauge) (p : float64) :
  gauge_in_range g -> in_percent p -> gauge_in_range (set_target g p).
Proof. intros (Hc & _ & Hp) Hin. done. Qed.

Lemma targets_loop_in_range (percentages : list float64) :
  forall (i : Z) (gauges : list CPUGauge),
    Forall in_percent percentages -> Forall gauge_in_range gauges ->
    Forall gauge_in_range (targets_loop percentages i gauges).
Proof.
  induction percentages as [|p rest IH]; intros i gauges Hp Hg; [done|].
  cbn [targets_loop]. inversion Hp as [|? ? Hp0 Hrest]; subst.
  apply IH; [done|]. destruct (decide _); [|done].
  apply Forall_alter; [done|]. intros g _ Hin. by apply set_target_in_range.
Qed.

Lemma updateCPUTargets_in_range (env : TickEnv) (gauges gauges' : list CPUGauge) :
  cpu_answers env -> Forall gauge_in_range gauges ->
  updateCPUTargets (cpu_Percent env) gauges = ok gauges' ->
  Forall gauge_in_range gauges'.
Proof.
  intros Hans Hg. unfold updateCPUTargets.
  destruct (failed (cpu_Percent env)) eqn:Hf; [by intros [= <-]|].
  destruct (Hans Hf) as (Hne & Hlen & Hps).
  pose proof (avgPercent_of_in_percent _ Hne Hlen Hps) as Havg.
  unfold avgPercent_of in Havg.
  destruct gauges as [|g0 gauges]; [done|].
  rewrite index_0. cbn [lookup list_lookup mbind option_bind].
  rewrite assign_0 by done. cbn [mbind option_bind ok insert list_insert].
  intros [= <-]. inversion Hg as [|? ? Hg0 Hgs]; subst.
  apply targets_loop_in_range; [done|].
  constructor; [|done]. by apply set_target_in_range.
Qed.

Lemma animateCPUGauges_in_range (gauges : list CPUGauge) :
  Forall gauge_in_range gauges ->
  Forall gauge_in_range (animateCPUGauges gauges animationSpeed).
Proof.
  intros Hg. unfold animateCPUGauges. apply Forall_fmap.
  eapply Forall_impl; [exact Hg|]. intros g (Hc & Ht & _). by apply animate_in_range.
Qed.

Lemma tick_cpu_in_range (env : TickEnv) (st st' : Loop) :
  cpu_answers env -> Forall gauge_in_range (cpuGauges st) ->
  tick_cpu env st = ok st' -> Forall gauge_in_range (cpuGauges st').
Proof.
  intros Hans Hg. unfold tick_cpu.
  destruct (updateCPUTargets (cpu_Percent env) (cpuGauges st)) as [gs|] eqn:Hup; [|done].
  cbn [mbind option_bind ok]. intros [= <-]. cbn [cpuGauges].
  apply animateCPUGauges_in_range. by apply (updateCPUTargets_in_range env (cpuGauges st)).
Qed.

(** The gauges that [createCPUGauges] lays out rest at 0. *)
Lemma createCPUGauges_in_range (cpu_Counts : Resp Z) (width : Z)
    (t : Paragraph) (gs : list CPUGauge) (h : Z) :
  createCPUGauges cpu_Counts width = ok (t, gs, h) -> Forall gauge_in_range gs.
Proof.
  intros Hrun.
  destruct (Z_lt_le_dec (cpuCount_of cpu_Counts) 0) as [Hneg|Hpos].
  { by rewrite createCPUGauges_negative in Hrun. }
  destruct (createCPUGauges_lookup cpu_Counts width Hpos) as (t' & gs' & Hrun' & _ & H0 & Hk).
  rewrite Hrun in Hrun'. injection Hrun' as <- <-.
  apply Forall_lookup. intros k g Hg.
  destruct k as [|k].
  - rewrite H0 in Hg. injection Hg as <-.
    split; [apply in_percent_0|]. split; [apply in_percent_0 | done].
  - rewrite Hk in Hg by (apply lookup_lt_Some in Hg; lia). injection Hg as <-.
    split; [apply in_percent_0|]. split; [apply in_percent_0 | done].
Qed.
End GaugeRange.

(** X18.  The average that [updateCPUTargets] hands to the first gauge
    is a NaN ([0 / 0]) when the answer holds no percentage; when it holds
    at least one and fewer than [2^46], all from 0 to 100, the average is
    again from 0 to 100, whatever the roundings of the sum and of the
    quotient. *)
Theorem avgPercent_of_range :
  fnan (avgPercent_of []) = true
  /\ forall percentages : list float64,
       percentages <> [] -> (len percentages < 2 ^ 46)%Z ->
       Forall in_percent percentages ->
       in_percent (avgPercent_of percentages).
Proof.
  split; [by vm_compute|]. apply avgPercent_of_in_percent.
Qed.

Lemma avgPercent_of_range_witness :
  in_percent (avgPercent_of [10; 30; 100; 100]%float).
Proof.
  apply (proj2 avgPercent_of_range); [done | done |].
  repeat constructor; by vm_compute.
Defined.

(** ** The event loop keeps going ([main], main.go 310-464) *)

Section LoopSafety.
Context `{Formatter}.
#[local] Open Scope Z_scope.

Lemma snoc_not_nil {A : Type} (l : list A) (x : A) : l ++ [x] <> [].
Proof. by destruct l. Qed.

Lemma tick_cpu_run (env : TickEnv) (st : Loop) :
  cpuGauges st <> [] ->
  exists st',
    tick_cpu env st = ok st'
    /\ cpuGauges st' <> []
    /\ netData st' = netData st /\ diskData st' = diskData st
    /\ processList st' = processList st.
Proof.
  intros Hg. unfold tick_cpu.
  destruct (updateCPUTargets_ok (cpu_Percent env) (cpuGauges st) Hg) as (gs & -> & Hlen).
  cbn [mbind option_bind ok].
  eexists. split; [reflexivity|]. cbn [cpuGauges netData diskData processList].
  split; [|done]. unfold animateCPUGauges.
  destruct gs; [|done]. by destruct (cpuGauges st).
Qed.

Lemma tick_network_run (env : TickEnv) (st : Loop) :
  tick_answers env ->
  RxData (netData st) <> [] ->
  length (TxData (netData st)) = length (RxData (netData st)) ->
  exists st',
    tick_network env st = ok st'
    /\ cpuGauges st' = cpuGauges st
    /\ RxData (netData st') <> []
    /\ length (TxData (netData st')) = length (RxData (netData st'))
    /\ diskData st' = diskData st
    /\ processList st' = processList st.
Proof.
  intros Hans Hne Hlen. unfold tick_network.
  destruct (failed (net_IOCounters env)) eqn:Hf; [by exists st|].
  destruct (Hans Hf) as (c0 & rest & -> & Hrx & Htx).
  rewrite index_0. cbn [lookup list_lookup mbind option_bind].
  destruct (formatBytes_ok (BytesRecv c0) Hrx) as [s1 ->].
  destruct (formatBytes_ok (BytesSent c0) Htx) as [s2 ->].
  cbn [mbind option_bind ok].
  match goal with
  | |- context [updateNetworkGraph ?nd ?rx ?tx ?g] =>
      destruct (updateNetworkGraph_buffers nd rx tx g Hne Hlen)
        as (nd' & g' & -> & Hrxd & Htxd)
  end.
  cbn [mbind option_bind ok].
  eexists. split; [reflexivity|]. cbn [cpuGauges netData diskData processList].
  rewrite Hrxd, Htxd. split; [done|]. split; [apply snoc_not_nil|].
  split; [|done]. rewrite !length_app, !length_drop, Hlen. done.
Qed.

Lemma tick_processes_run (env : TickEnv) (st : Loop) :
  7 <= Dx (ProcessListRect (processList st)) <= 2 ^ 62 ->
  exists st',
    tick_processes env st = ok st'
    /\ cpuGauges st' = cpuGauges st
    /\ netData st' = netData st /\ diskData st' = diskData st
    /\ ProcessListRect (processList st') = ProcessListRect (processList st).
Proof.
  intros Hdx. unfold tick_processes.
  destruct (ProcessList_update_ok (process_Processes env) (processList st) Hdx)
    as (pl & -> & Hrect).
  cbn [mbind option_bind ok]. by eexists.
Qed.

Lemma tick_run (env : TickEnv) (st : Loop) :
  loop_invariant st -> tick_answers env ->
  exists st1 st',
    tick_cpu env st = ok st1 /\ tick env st = ok st'
    /\ loop_invariant st' /\ cpuGauges st' = cpuGauges st1.
Proof.
  intros (Hg & Hrx & Htx & Hrd & Hwr & Hdx) Hans. unfold tick.
  destruct (tick_cpu_run env st Hg) as (st1 & Hcpu & Hg1 & En1 & Ed1 & Ep1).
  exists st1. rewrite Hcpu.
  cbn [mbind option_bind ok].
  destruct (tick_network_run env st1 Hans) as (st2 & -> & Eg2 & Hrx2 & Htx2 & Ed2 & Ep2);
    [by rewrite En1 | by rewrite En1 |].
  cbn [mbind option_bind ok].
  assert (Hrd2 : ReadData (diskData st2) <> []) by (by rewrite Ed2, Ed1).
  assert (Hwr2 : length (WriteData (diskData st2)) = length (ReadData (diskData st2)))
    by (by rewrite Ed2, Ed1).
  assert (Hstep3 : exists st3, tick_disk env st2 = ok st3
            /\ cpuGauges st3 = cpuGauges st2 /\ netData st3 = netData st2
            /\ ReadData (diskData st3) <> []
            /\ length (WriteData (diskData st3)) = length (ReadData (diskData st3))
            /\ processList st3 = processList st2).
  { destruct (failed (disk_IOCounters env)) eqn:Hf.
    - exists st2. by rewrite tick_disk_failure.
    - destruct (tick_disk_run env st2 Hf Hrd2 Hwr2)
        as (st3 & txt & r & w & Hrun & _ & _ & _ & Er & Ew & _ & Eg & En & Ep).
      exists st3. rewrite Er, Ew. split; [done|]. split; [done|]. split; [done|].
      split; [apply snoc_not_nil|]. split; [|done].
      by rewrite !length_app, !length_drop, Hwr2. }
  destruct Hstep3 as (st3 & -> & Eg3 & En3 & Hrd3 & Hwr3 & Ep3).
  cbn [mbind option_bind ok].
  destruct (tick_processes_run env st3) as (st4 & -> & Eg4 & En4 & Ed4 & Ep4).
  { by rewrite Ep3, Ep2, Ep1. }
  exists st4. split; [done|]. split; [done|].
  split; [|by rewrite Eg4, Eg3, Eg2]. unfold loop_invariant.
  rewrite Eg4, En4, Ed4, Ep4, Eg3, En3, Ep3, Eg2, Ep2, Ep1. done.
Qed.

Lemma resize_run (cpu_Counts : Resp Z) (width height : Z) (st : Loop) :
  loop_invariant st -> 0 <= cpuCount_of cpu_Counts -> 7 <= width <= 2 ^ 62 ->
  exists st',
    resize cpu_Counts width height st = ok st' /\ loop_invariant st'
    /\ Forall gauge_in_range (cpuGauges st').
Proof.
  intros (Hg & Hrx & Htx & Hrd & Hwr & Hdx) Hc Hw.
  destruct (createCPUGauges_ok cpu_Counts width Hc) as (t & gs & hh & Hrun & Hl & _).
  unfold resize. rewrite Hrun. cbn [mbind option_bind ok].
  rewrite (grow_pair_grown _ _ _ Htx). cbn [mbind option_bind ok].
  rewrite (grow_pair_grown _ _ _ Hwr). cbn [mbind option_bind ok].
  eexists. split; [reflexivity|].
  split; [|by apply (createCPUGauges_in_range _ _ _ _ _ Hrun)].
  unfold loop_invariant.
  cbn [cpuGauges netData diskData processList RxData TxData Disk.ReadData Disk.WriteData
       ProcessListRect].
  assert (Hgrown : forall a b : list float64, a <> [] -> length b = length a ->
            grown (dataPointCount_of width) a <> []
            /\ length (grown (dataPointCount_of width) b)
               = length (grown (dataPointCount_of width) a)).
  { intros a b Ha Hab. unfold grown, len. rewrite Hab.
    destruct (decide _); [|done]. split; [|by rewrite !length_app, Hab].
    destruct a; [done|]. intros E. apply (f_equal length) in E.
    rewrite length_app in E. cbn in E. lia. }
  destruct (Hgrown _ _ Hrx Htx) as [G1 G2], (Hgrown _ _ Hrd Hwr) as [G3 G4].
  split; [|split; [done|]; split; [done|]; split; [done|]; split; [done|]].
  - intros ->. unfold len in Hl. cbn in Hl. lia.
  - unfold Dx, Rect. cbn [MinX MaxX]. lia.
Qed.

Lemma loop_step_run (st : Loop) (i : Input) :
  steady_invariant st -> input_in_range i ->
  exists r, loop_step st i = ok r
            /\ match r with Some st' => steady_invariant st' | None => i = KeyQuit end.
Proof.
  intros [Hinv Hg] [Hi Hc]. destruct i as [|c w h| |env]; cbn [loop_step input_answers] in *.
  - by exists None.
  - destruct Hi as [Hcnt Hw].
    destruct (resize_run c w h st Hinv Hcnt Hw) as (st' & -> & Hinv' & Hg').
    by exists (Some st').
  - by exists (Some st).
  - destruct (tick_run env st Hinv Hi) as (st1 & st' & Hcpu & -> & Hinv' & Eg).
    exists (Some st'). split; [done|]. split; [done|].
    rewrite Eg. by apply (tick_cpu_in_range env st).
Qed.

(** X11.  A tick from a state of the loop invariant whose gauges are at
    percentages does not panic and ends in such a state again, so that
    every gauge is drawn with a [Percent] from 0 to 100.  The CPU answer
    is an error or holds the percentages of at least one processor and
    of fewer than [2^46]; a network answer without error has an entry
    with [uint64] counters; the disk and process answers are arbitrary. *)
Theorem tick_keeps_invariant (env : TickEnv) (st : Loop) :
  steady_invariant st -> tick_answers env -> cpu_answers env ->
  exists st', tick env st = ok st' /\ steady_invariant st'.
Proof.
  intros [Hinv Hg] Hans Hcpu.
  destruct (tick_run env st Hinv Hans) as (st1 & st' & Hrun1 & Hrun & Hinv' & Eg).
  exists st'. split; [done|]. split; [done|].
  rewrite Eg. by apply (tick_cpu_in_range env st).
Qed.

(** X12.  [main] reaches its loop in a state of that invariant whenever
    the set-up returns on a terminal from 7 columns on; from there no
    sequence of such ticks, of resizes to at least 7 columns and of other
    events makes the loop panic or takes a gauge out of its range: the
    loop runs until the quit key. *)
Theorem run_never_panics (ienv : InitEnv) (st : Loop) (inputs : list Input) :
  init ienv = ok st -> 7 <= (init_TerminalDimensions ienv).1 <= 2 ^ 62 ->
  Forall input_in_range inputs ->
  steady_invariant st
  /\ exists r, run st inputs = ok r
               /\ match r with
                  | Some st' => steady_invariant st' /\ KeyQuit ∉ inputs
                  | None => KeyQuit ∈ inputs
                  end.
Proof.
  intros Hinit Hw Hin.
  assert (Hinv : steady_invariant st).
  { unfold init in Hinit. destruct (init_TerminalDimensions ienv) as [w h].
    cbn [fst] in Hw.
    destruct (createCPUGauges (init_cpu_Counts ienv) w) as [[[t gs] hh]|] eqn:Hg; [|done].
    cbn [mbind option_bind ok] in Hinit.
    pose proof (createCPUGauges_in_range _ _ _ _ _ Hg) as Hrange.
    assert (Hgs : gs <> []).
    { intros ->.
      destruct (Z_lt_le_dec (cpuCount_of (init_cpu_Counts ienv)) 0) as [Hneg|Hpos].
      - by rewrite createCPUGauges_negative in Hg.
      - destruct (createCPUGauges_ok _ w Hpos) as (t' & gs' & hh' & Hrun & Hl & _).
        rewrite Hg in Hrun. injection Hrun as <- <- <-. unfold len in Hl. cbn in Hl. lia. }
    assert (Hn : 100 <= dataPointCount_of w)
      by (unfold dataPointCount_of; destruct (decide _); lia).
    unfold make_float64 in Hinit. rewrite decide_True in Hinit by lia.
    cbn [mbind option_bind ok] in Hinit.
    destruct (index _ 0) as [c0|]; [|done]. cbn [mbind option_bind ok] in Hinit.
    injection Hinit as <-. split; [|done]. unfold loop_invariant.
    cbn [cpuGauges netData diskData processList RxData TxData Disk.ReadData Disk.WriteData].
    assert (Hrep : replicate (Z.to_nat (dataPointCount_of w)) 0%float <> []).
    { intros E. apply (f_equal length) in E. rewrite length_replicate in E. cbn in E. lia. }
    split; [done|]. split; [done|]. split; [done|]. split; [done|]. split; [done|].
    unfold createProcessList, updateColumnWidths, Dx, Rect. cbn [ProcessListRect MinX MaxX].
    lia. }
  split; [done|]. clear Hinit Hw. revert st Hinv.
  induction Hin as [|i inputs Hi Hin IH]; intros st Hinv.
  - exists (Some st). split; [done|]. split; [done|]. by apply not_elem_of_nil.
  - cbn [run]. destruct (loop_step_run st i Hinv Hi) as (r & Hstep & Hr).
    rewrite Hstep. cbn [mbind option_bind ok]. destruct r as [st'|].
    + destruct (IH st' Hr) as (r & Hrun & Hres). exists r. split; [done|].
      destruct r as [st''|].
      * destruct Hres as [Hinv'' Hq]. split; [done|].
        apply not_elem_of_cons. split; [|done].
        intros <-. cbn [loop_step] in Hstep. unfold ok in Hstep. discriminate.
      * by right.
    + exists None. split; [done|]. rewrite Hr. by left.
Qed.
End LoopSafety.

Lemma tick_keeps_invariant_witness :
  let env := mkTickEnv (mkResp [10; 30]%float false) 300000000
               (mkResp [mkNetIO 4000 900] false)
               (mkResp [("sda", mkDiskIO 10 20)] false) (mkResp [] true) in
  let st := example_loop [1; 2; 3]%float in
  exists st', tick (H := integer_formatter) env st = ok st' /\ steady_invariant st'.
Proof.
  intros env st. apply (tick_keeps_invariant (H := integer_formatter) env st).
  - split.
    + unfold loop_invariant. repeat split; try done; vm_compute; discriminate.
    + repeat constructor; by vm_compute.
  - intros _. exists (mkNetIO 4000 900), []. repeat split; done.
  - intros _. split; [done|]. split; [done|]. repeat constructor; by vm_compute.
Defined.

Lemma run_never_panics_witness :
  let ienv := mkInitEnv (80, 24) (mkResp 4 false) (mkResp [mkNetIO 1000 500] false) 0
                (mkResp [] false) 0 "host" in
  let env := mkTickEnv (mkResp [10; 30]%float false) 300000000
               (mkResp [mkNetIO 4000 900] false)
               (mkResp [("sda", mkDiskIO 10 20)] false) (mkResp [] true) in
  let inputs := [TickerFired env; ResizeEvent (mkResp 4 false) 120 40; OtherEvent;
                 TickerFired env] in
  exists st,
    init ienv = ok st
    /\ steady_invariant st
    /\ exists r, run (H := integer_formatter) st inputs = ok r
                 /\ match r with
                    | Some st' => steady_invariant st' /\ KeyQuit ∉ inputs
                    | None => KeyQuit ∈ inputs
                    end.
Proof.
  intros ienv env inputs.
  destruct (init ienv) as [st|] eqn:Hinit; [|vm_compute in Hinit; discriminate].
  exists st. split; [done|].
  apply (run_never_panics (H := integer_formatter) ienv st inputs Hinit).
  - split; vm_compute; discriminate.
  - assert (Henv : tick_answers env).
    { intros _. exists (mkNetIO 4000 900), []. repeat split; done. }
    assert (Hcpu : cpu_answers env).
    { intros _. split; [done|]. split; [done|]. repeat constructor; by vm_compute. }
    repeat constructor; try done; vm_compute; discriminate.
Defined.

(** ** [sort.Slice]: exchanges *)

(** A bound on a key that is an instance of a hypothesis. *)
Ltac by_hyp := match goal with Hs : _ |- _ => solve [apply Hs; lia] end.
Ltac swap_cases := repeat case_decide; subst; try lia; try by_hyp.

Section SortSwaps.
Context {A : Type} `{Inhabited A}.
#[local] Open Scope nat_scope.

Lemma Swap_lookup (d : list A) (i j k : nat) :
  i < length d -> j < length d ->
  sort.Swap d i j !!! k
  = if decide (k = i) then d !!! j else if decide (k = j) then d !!! i else d !!! k.
Proof.
  intros Hi Hj. unfold sort.Swap.
  destruct (decide (k = i)) as [->|Hki].
  - by rewrite list_lookup_total_insert_eq by (by rewrite length_insert).
  - rewrite list_lookup_total_insert_ne by done.
    destruct (decide (k = j)) as [->|Hkj].
    + by rewrite list_lookup_total_insert_eq.
    + by rewrite list_lookup_total_insert_ne.
Qed.

Lemma Swap_lookup_opt (d : list A) (i j k : nat) :
  i < length d -> j < length d ->
  sort.Swap d i j !! k
  = d !! (if decide (k = i) then j else if decide (k = j) then i else k).
Proof.
  intros Hi Hj.
  destruct (decide (k < length d)) as [Hk|Hk].
  - rewrite !list_lookup_lookup_total_lt.
    + by rewrite Swap_lookup by done; repeat case_decide.
    + repeat case_decide; lia.
    + by rewrite Swap_length.
  - rewrite !lookup_ge_None_2; [done| |].
    + repeat case_decide; lia.
    + rewrite Swap_length. lia.
Qed.

Lemma Swap_perm (d : list A) (i j : nat) :
  i < length d -> j < length d -> sort.Swap d i j ≡ₚ d.
Proof.
  intros Hi Hj. apply Permutation_inj. split; [apply Swap_length|].
  exists (fun k => if decide (k = i) then j else if decide (k = j) then i else k).
  split.
  - intros x y Hxy. repeat case_decide; lia.
  - intros k. by apply Swap_lookup_opt.
Qed.

Lemma swapped_length (a b : nat) (d d' : list A) :
  swapped a b d d' -> length d' = length d.
Proof. induction 1 as [|d d' i j Hi Hj Hb _ IH]; [done|]. by rewrite IH, Swap_length. Qed.

Lemma swapped_perm (a b : nat) (d d' : list A) : swapped a b d d' -> d' ≡ₚ d.
Proof.
  induction 1 as [|d d' i j Hi Hj Hb _ IH]; [done|].
  rewrite IH. apply Swap_perm; lia.
Qed.

Lemma swapped_outside (a b : nat) (d d' : list A) (k : nat) :
  swapped a b d d' -> ~ (a <= k < b) -> d' !!! k = d !!! k.
Proof.
  induction 1 as [|d d' i j Hi Hj Hb _ IH]; intros Hk; [done|].
  rewrite IH by done. rewrite Swap_lookup by lia. repeat case_decide; try done; lia.
Qed.

Lemma swapped_trans (a b : nat) (d1 d2 d3 : list A) :
  swapped a b d1 d2 -> swapped a b d2 d3 -> swapped a b d1 d3.
Proof.
  intros H12 H23. induction H12 as [|d d' i j Hi Hj Hb _ IH]; [done|].
  apply (swapped_step a b d d3 i j); [exact Hi | exact Hj | exact Hb |]. by apply IH.
Qed.

Lemma swapped_one (a b : nat) (d : list A) (i j : nat) :
  a <= i < b -> a <= j < b -> b <= length d -> swapped a b d (sort.Swap d i j).
Proof.
  intros Hi Hj Hb. apply (swapped_step a b d _ i j); [exact Hi | exact Hj | exact Hb |].
  constructor.
Qed.

Lemma swapped_mono (a b a' b' : nat) (d d' : list A) :
  a' <= a -> b <= b' -> b' <= length d -> swapped a b d d' -> swapped a' b' d d'.
Proof.
  intros Ha Hb Hl Hs. revert Hl.
  induction Hs as [|d d' i j Hi Hj Hbl _ IH]; intros Hl; [constructor|].
  apply (swapped_step a' b' d d' i j); [lia | lia | exact Hl |].
  apply IH. by rewrite Swap_length.
Qed.

(** What holds of every element of the segment holds after the exchanges. *)
Lemma swapped_seg_forall (P : A -> Prop) (a b : nat) (d d' : list A) :
  swapped a b d d' ->
  (forall k, a <= k < b -> P (d !!! k)) -> forall k, a <= k < b -> P (d' !!! k).
Proof.
  induction 1 as [|d d' i j Hi Hj Hb _ IH]; intros HP k Hk; [by apply HP|].
  apply IH; [|done]. intros k' Hk'. rewrite Swap_lookup by lia.
  repeat case_decide; apply HP; lia.
Qed.

Lemma swapped_Forall (P : A -> Prop) (a b : nat) (d d' : list A) :
  swapped a b d d' -> Forall P d -> Forall P d'.
Proof. intros Hs Hd. by rewrite (swapped_perm _ _ _ _ Hs). Qed.

Lemma swapped_prefix_le (key : A -> Z) (a b : nat) (d d' : list A) :
  swapped a b d d' -> prefix_le key d a b -> prefix_le key d' a b.
Proof.
  intros Hs Hp p q Hpa Hq1 Hq2.
  rewrite (swapped_outside _ _ _ _ p Hs) by lia.
  apply (swapped_seg_forall (fun x => (key (d !!! p) <= key x)%Z) _ _ _ _ Hs); [|lia].
  intros k Hk. apply Hp; lia.
Qed.

(** Exchanges inside a part of the segment keep the bounds of the rest. *)
Lemma swapped_sorted_outside (key : A -> Z) (a b lo hi : nat) (d d' : list A) :
  swapped a b d d' -> (hi <= a \/ b <= lo) ->
  sorted_seg key d lo hi -> sorted_seg key d' lo hi.
Proof.
  intros Hs Hout Hsort i j Hi Hij Hj.
  rewrite !(swapped_outside _ _ _ _ _ Hs) by lia. by apply Hsort.
Qed.
End SortSwaps.

(** ** [sort.Slice]: insertion sort *)

Section SortInsertion.
Context {A : Type} `{Inhabited A}.
Variable less : A -> A -> bool.
Variable key : A -> Z.
Variable good : A -> Prop.
Hypothesis less_key : forall x y, good x -> good y -> less x y = (key x <? key y)%Z.
#[local] Open Scope nat_scope.

Lemma Less_key (d : list A) (i j : nat) :
  Forall good d -> i < length d -> j < length d ->
  sort.Less less d i j = (key (d !!! i) <? key (d !!! j))%Z.
Proof.
  intros Hg Hi Hj. unfold sort.Less.
  apply less_key; by apply Forall_lookup_total_1.
Qed.

Lemma insert_loop_spec (a : nat) (j : nat) :
  forall (d : list A) (J : nat),
    a <= j <= J -> J < length d -> Forall good d ->
    sorted_seg key d a j -> sorted_seg key d j (S J) ->
    (forall p q, a <= p < j -> j < q <= J -> (key (d !!! p) <= key (d !!! q))%Z) ->
    swapped a (S J) d (sort.insert_loop less d a j)
    /\ sorted_seg key (sort.insert_loop less d a j) a (S J).
Proof.
  induction j as [|j' IH]; intros d J Hj HJ Hg S1 S2 S3.
  - cbn [sort.insert_loop]. split; [constructor|].
    replace a with 0 by lia. done.
  - cbn [sort.insert_loop].
    destruct (Nat.ltb_spec a (S j')) as [Haj|Haj]; cbn [andb].
    + rewrite Less_key by (done || lia).
      destruct (Z.ltb_spec (key (d !!! S j')) (key (d !!! j'))) as [Hlt|Hge].
      * destruct (IH (sort.Swap d (S j') j') J) as [IH1 IH2].
        -- lia.
        -- by rewrite Swap_length.
        -- rewrite Swap_perm by lia. done.
        -- intros p q Hp Hpq Hq. rewrite !Swap_lookup by lia. swap_cases.
        -- intros p q Hp Hpq Hq. rewrite !Swap_lookup by lia. swap_cases.
        -- intros p q Hp Hq. rewrite !Swap_lookup by lia. swap_cases.
        -- split; [|done].
           apply (swapped_step a (S J) d _ (S j') j'); [lia | lia | lia | done].
      * split; [constructor|]. intros p q Hp Hpq Hq.
        destruct (decide (q < S j')) as [Hq1|Hq1]; [apply S1; lia|].
        destruct (decide (S j' <= p)) as [Hp1|Hp1]; [apply S2; lia|].
        destruct (decide (q = S j')) as [->|Hq2]; [|apply S3; lia].
        pose proof (S1 p j' ltac:(lia) ltac:(lia) ltac:(lia)). lia.
    + split; [constructor|]. intros p q Hp Hpq Hq. apply S2; lia.
Qed.

Lemma insertion_loop_spec (a : nat) (n : nat) :
  forall (d : list A) (i : nat),
    a < i -> i + n <= length d -> Forall good d -> sorted_seg key d a i ->
    swapped a (i + n) d (sort.insertion_loop less n d a i)
    /\ sorted_seg key (sort.insertion_loop less n d a i) a (i + n).
Proof.
  induction n as [|n IH]; intros d i Hi Hl Hg Hs.
  - cbn [sort.insertion_loop]. rewrite Nat.add_0_r. split; [constructor | done].
  - cbn [sort.insertion_loop].
    destruct (insert_loop_spec a i d i) as [I1 I2]; try done; try lia.
    { intros p q Hp Hpq Hq. replace q with p by lia. lia. }
    destruct (IH (sort.insert_loop less d a i) (S i)) as [J1 J2].
    + lia.
    + rewrite (swapped_length _ _ _ _ I1). lia.
    + by apply (swapped_Forall _ _ _ _ _ I1).
    + done.
    + replace (i + S n) with (S i + n) by lia. split; [|done].
      eapply swapped_trans; [|exact J1].
      apply (swapped_mono a (S i)); [lia | lia | lia | done].
Qed.

Lemma insertionSort_spec (d : list A) (a b : nat) :
  a <= b <= length d -> Forall good d ->
  swapped a b d (sort.insertionSort_func less d a b)
  /\ sorted_seg key (sort.insertionSort_func less d a b) a b.
Proof.
  intros Hab Hg. unfold sort.insertionSort_func.
  destruct (decide (b <= a + 1)) as [Hsmall|Hbig].
  - replace (b - (a + 1)) with 0 by lia. cbn [sort.insertion_loop].
    split; [constructor|]. intros p q Hp Hpq Hq. replace q with p by lia. lia.
  - destruct (insertion_loop_spec a (b - (a + 1)) d (a + 1)) as [I1 I2]; try done; try lia.
    + intros p q Hp Hpq Hq. replace q with p by lia. lia.
    + by replace (a + 1 + (b - (a + 1))) with b in * by lia.
Qed.

(** Exchanging two neighbours of different keys changes the order of no
    two elements of one key. *)
Lemma Swap_adjacent_filter (d : list A) (j : nat) (c : Z) :
  S j < length d -> key (d !!! S j) <> key (d !!! j) ->
  filter (fun x => key x = c) (sort.Swap d (S j) j) = filter (fun x => key x = c) d.
Proof.
  intros Hj Hne.
  assert (Hx : d !! j = Some (d !!! j)) by (apply list_lookup_lookup_total_lt; lia).
  assert (Hy : d !! S j = Some (d !!! S j)) by (by apply list_lookup_lookup_total_lt).
  set (x := d !!! j) in *. set (y := d !!! S j) in *.
  assert (Hd : d = take j d ++ x :: y :: drop (S (S j)) d).
  { rewrite <- (take_drop_middle d j x Hx) at 1. do 2 f_equal.
    by apply drop_S. }
  assert (Hs : sort.Swap d (S j) j = take j d ++ y :: x :: drop (S (S j)) d).
  { unfold sort.Swap. fold x y. rewrite Hd at 1.
    rewrite insert_app_r_alt by (rewrite length_take; lia).
    rewrite length_take, Nat.min_l by lia. rewrite Nat.sub_diag. cbn [insert list_insert].
    rewrite insert_app_r_alt by (rewrite length_take; lia).
    rewrite length_take, Nat.min_l by lia.
    replace (S j - j) with 1 by lia. done. }
  rewrite Hs.
  transitivity (filter (fun x => key x = c) (take j d ++ x :: y :: drop (S (S j)) d));
    [|by rewrite <- Hd].
  rewrite !filter_app, !filter_cons. f_equal.
  destruct (decide (key y = c)), (decide (key x = c)); try done. congruence.
Qed.

Lemma insert_loop_stable (a : nat) (j : nat) :
  forall d : list A,
    j < length d -> Forall good d ->
    stable_wrt key d (sort.insert_loop less d a j).
Proof.
  induction j as [|j' IH]; intros d Hj Hg c; [done|].
  cbn [sort.insert_loop].
  destruct (a <? S j'); cbn [andb]; [|done].
  rewrite Less_key by (done || lia).
  destruct (Z.ltb_spec (key (d !!! S j')) (key (d !!! j'))) as [Hlt|Hge]; [|done].
  rewrite IH.
  - apply Swap_adjacent_filter; [done | lia].
  - rewrite Swap_length. lia.
  - rewrite Swap_perm by lia. done.
Qed.

Lemma insert_loop_perm (a : nat) (j : nat) :
  forall d : list A, j < length d -> sort.insert_loop less d a j ≡ₚ d.
Proof.
  induction j as [|j' IH]; intros d Hj; [done|].
  cbn [sort.insert_loop]. destruct (_ && _); [|done].
  rewrite IH by (rewrite Swap_length; lia). apply Swap_perm; lia.
Qed.

Lemma insertion_loop_stable (a : nat) (n : nat) :
  forall (d : list A) (i : nat),
    i + n <= length d -> Forall good d ->
    stable_wrt key d (sort.insertion_loop less n d a i).
Proof.
  induction n as [|n IH]; intros d i Hl Hg c; [done|].
  cbn [sort.insertion_loop].
  assert (Hperm : sort.insert_loop less d a i ≡ₚ d) by (apply insert_loop_perm; lia).
  rewrite IH.
  - apply insert_loop_stable; [lia | done].
  - rewrite insert_loop_length. lia.
  - by rewrite Hperm.
Qed.

Lemma insertionSort_stable (d : list A) (a b : nat) :
  b <= length d -> Forall good d ->
  stable_wrt key d (sort.insertionSort_func less d a b).
Proof.
  intros Hb Hg. unfold sort.insertionSort_func.
  destruct (decide (b <= a + 1)) as [Hsmall|Hbig].
  - replace (b - (a + 1)) with 0 by lia. done.
  - apply insertion_loop_stable; [lia | done].
Qed.

(** Up to 12 elements [sort.Slice] is the insertion sort. *)
Lemma Slice_small (x : list A) :
  length x <= 12 -> sort.Slice less x = sort.insertionSort_func less x 0 (length x).
Proof.
  intros Hx. unfold sort.Slice. cbn [sort.pdqsort_func].
  rewrite Nat.sub_0_r. unfold sort.maxInsertion.
  by rewrite (proj2 (Nat.leb_le _ _)) by done.
Qed.
End SortInsertion.

(** ** [sort.Slice]: the partitions *)

Section SortPartition.
Context {A : Type} `{Inhabited A}.
Variable less : A -> A -> bool.
Variable key : A -> Z.
Variable good : A -> Prop.
Hypothesis less_key : forall x y, good x -> good y -> less x y = (key x <? key y)%Z.
#[local] Open Scope nat_scope.

Lemma scan_up_spec (fuel : nat) :
  forall (d : list A) (a i j : nat),
    S j - i <= fuel -> j < length d -> a < length d -> Forall good d ->
    let i' := sort.scan_up less fuel d a i j in
    i <= i' /\ (i <= S j -> i' <= S j)
    /\ (forall k, i <= k < i' -> (key (d !!! k) < key (d !!! a))%Z)
    /\ (i' <= j -> (key (d !!! a) <= key (d !!! i'))%Z).
Proof.
  induction fuel as [|fuel IH]; intros d a i j Hf Hj Ha Hg; cbn [sort.scan_up].
  - split; [done|]. split; [done|]. split; [intros; lia | intros; lia].
  - destruct (Nat.leb_spec i j) as [Hij|Hij]; cbn [andb].
    + rewrite (Less_key less key good less_key) by (done || lia).
      destruct (Z.ltb_spec (key (d !!! i)) (key (d !!! a))) as [Hlt|Hge].
      * destruct (IH d a (S i) j ltac:(lia) Hj Ha Hg) as (I1 & I2 & I3 & I4).
        split; [lia|]. split; [intros; apply I2; lia|]. split; [|done].
        intros k Hk. destruct (decide (k = i)) as [->|]; [done | apply I3; lia].
      * split; [done|]. split; [done|]. split; [intros; lia | done].
    + split; [done|]. split; [done|]. split; [intros; lia | intros; lia].
Qed.

Lemma scan_down_spec (fuel : nat) :
  forall (d : list A) (a i j : nat),
    S j - i <= fuel -> 1 <= i -> j < length d -> a < length d -> Forall good d ->
    let j' := sort.scan_down less fuel d a i j in
    j' <= j /\ (i <= S j -> i <= S j')
    /\ (forall k, j' < k <= j -> (key (d !!! a) <= key (d !!! k))%Z)
    /\ (i <= j' -> (key (d !!! j') < key (d !!! a))%Z).
Proof.
  induction fuel as [|fuel IH]; intros d a i j Hf Hi Hj Ha Hg; cbn [sort.scan_down].
  - split; [done|]. split; [done|]. split; [intros; lia | intros; lia].
  - destruct (Nat.leb_spec i j) as [Hij|Hij]; cbn [andb].
    + rewrite (Less_key less key good less_key) by (done || lia).
      destruct (Z.ltb_spec (key (d !!! j)) (key (d !!! a))) as [Hlt|Hge]; cbn [negb].
      * split; [done|]. split; [done|]. split; [intros; lia | done].
      * destruct (IH d a i (j - 1) ltac:(lia) Hi ltac:(lia) Ha Hg) as (I1 & I2 & I3 & I4).
        split; [lia|]. split; [intros; apply I2; lia|]. split; [|done].
        intros k Hk. destruct (decide (k = j)) as [->|]; [done | apply I3; lia].
    + split; [done|]. split; [done|]. split; [intros; lia | intros; lia].
Qed.

Lemma scan_up_eq_spec (fuel : nat) :
  forall (d : list A) (a i j : nat),
    S j - i <= fuel -> j < length d -> a < length d -> Forall good d ->
    let i' := sort.scan_up_eq less fuel d a i j in
    i <= i' /\ (i <= S j -> i' <= S j)
    /\ (forall k, i <= k < i' -> (key (d !!! k) <= key (d !!! a))%Z)
    /\ (i' <= j -> (key (d !!! a) < key (d !!! i'))%Z).
Proof.
  induction fuel as [|fuel IH]; intros d a i j Hf Hj Ha Hg; cbn [sort.scan_up_eq].
  - split; [done|]. split; [done|]. split; [intros; lia | intros; lia].
  - destruct (Nat.leb_spec i j) as [Hij|Hij]; cbn [andb].
    + rewrite (Less_key less key good less_key) by (done || lia).
      destruct (Z.ltb_spec (key (d !!! a)) (key (d !!! i))) as [Hlt|Hge]; cbn [negb].
      * split; [done|]. split; [done|]. split; [intros; lia | done].
      * destruct (IH d a (S i) j ltac:(lia) Hj Ha Hg) as (I1 & I2 & I3 & I4).
        split; [lia|]. split; [intros; apply I2; lia|]. split; [|done].
        intros k Hk. destruct (decide (k = i)) as [->|]; [done | apply I3; lia].
    + split; [done|]. split; [done|]. split; [intros; lia | intros; lia].
Qed.

Lemma scan_down_eq_spec (fuel : nat) :
  forall (d : list A) (a i j : nat),
    S j - i <= fuel -> 1 <= i -> j < length d -> a < length d -> Forall good d ->
    let j' := sort.scan_down_eq less fuel d a i j in
    j' <= j /\ (i <= S j -> i <= S j')
    /\ (forall k, j' < k <= j -> (key (d !!! a) < key (d !!! k))%Z)
    /\ (i <= j' -> (key (d !!! j') <= key (d !!! a))%Z).
Proof.
  induction fuel as [|fuel IH]; intros d a i j Hf Hi Hj Ha Hg; cbn [sort.scan_down_eq].
  - split; [done|]. split; [done|]. split; [intros; lia | intros; lia].
  - destruct (Nat.leb_spec i j) as [Hij|Hij]; cbn [andb].
    + rewrite (Less_key less key good less_key) by (done || lia).
      destruct (Z.ltb_spec (key (d !!! a)) (key (d !!! j))) as [Hlt|Hge].
      * destruct (IH d a i (j - 1) ltac:(lia) Hi ltac:(lia) Ha Hg) as (I1 & I2 & I3 & I4).
        split; [lia|]. split; [intros; apply I2; lia|]. split; [|done].
        intros k Hk. destruct (decide (k = j)) as [->|]; [done | apply I3; lia].
      * split; [done|]. split; [done|]. split; [intros; lia | done].
    + split; [done|]. split; [done|]. split; [intros; lia | intros; lia].
Qed.

(** The loop of [partition_func]: what is left of the pivot at [a] is
    smaller, what is right of [j] is not. *)
Lemma partition_loop_spec (b : nat) (fuel : nat) :
  forall (d : list A) (a i j : nat),
    S j - i <= fuel -> a < i -> i <= S j -> j < b -> b <= length d -> Forall good d ->
    (forall k, a < k < i -> (key (d !!! k) < key (d !!! a))%Z) ->
    (forall k, j < k < b -> (key (d !!! a) <= key (d !!! k))%Z) ->
    let r := sort.partition_loop less fuel d a i j in
    swapped (S a) b d r.1
    /\ a <= r.2 < b
    /\ (forall k, a < k <= r.2 -> (key (r.1 !!! k) < key (d !!! a))%Z)
    /\ (forall k, r.2 < k < b -> (key (d !!! a) <= key (r.1 !!! k))%Z).
Proof.
  induction fuel as [|fuel IH]; intros d a i j Hf Hai Hij Hjb Hb Hg HL HR;
    cbn [sort.partition_loop].
  - cbn [fst snd]. split; [constructor|]. split; [lia|].
    split; [intros; apply HL; lia | done].
  - destruct (scan_up_spec (S j - i) d a i j) as (U1 & U2 & U3 & U4);
      [lia | lia | lia | done |].
    set (i1 := sort.scan_up less (S j - i) d a i j) in *. clearbody i1.
    destruct (scan_down_spec (S j - i1) d a i1 j) as (D1 & D2 & D3 & D4);
      [lia | lia | lia | lia | done |].
    set (j1 := sort.scan_down less (S j - i1) d a i1 j) in *. clearbody j1.
    specialize (U2 ltac:(lia)). specialize (D2 ltac:(lia)).
    assert (HL1 : forall k, a < k < i1 -> (key (d !!! k) < key (d !!! a))%Z).
    { intros k Hk. destruct (decide (k < i)); [apply HL | apply U3]; lia. }
    assert (HR1 : forall k, j1 < k < b -> (key (d !!! a) <= key (d !!! k))%Z).
    { intros k Hk. destruct (decide (j < k)); [apply HR | apply D3]; lia. }
    destruct (Nat.ltb_spec j1 i1) as [Hlt|Hge]; cbn [fst snd].
    + split; [constructor|]. split; [lia|].
      split; [intros; apply HL1; lia | done].
    + specialize (U4 ltac:(lia)). specialize (D4 ltac:(lia)).
      assert (Hne : i1 <> j1) by (intros E; rewrite E in U4; lia).
      destruct (IH (sort.Swap d i1 j1) a (S i1) (j1 - 1)) as (I1 & I2 & I3 & I4).
      * lia.
      * lia.
      * lia.
      * lia.
      * by rewrite Swap_length.
      * rewrite Swap_perm by lia. done.
      * intros k Hk. rewrite !Swap_lookup by lia. swap_cases.
      * intros k Hk. rewrite !Swap_lookup by lia. swap_cases.
      * rewrite Swap_lookup in I3, I4 by lia.
        rewrite decide_False in I3, I4 by lia. rewrite decide_False in I3, I4 by lia.
        split; [|split; [lia|done]].
        apply (swapped_step (S a) b d _ i1 j1); [lia | lia | lia | done].
Qed.

(** [partition_func] puts the pivot at the returned index, the smaller
    elements before it and the others after it. *)
Lemma partition_spec (d : list A) (a b pivot : nat) :
  a < b -> b <= length d -> a <= pivot < b -> Forall good d ->
  let r := sort.partition_func less d a b pivot in
  swapped a b d r.1.1
  /\ a <= r.1.2 < b
  /\ (forall k, a <= k < r.1.2 -> (key (r.1.1 !!! k) < key (r.1.1 !!! r.1.2))%Z)
  /\ (forall k, r.1.2 < k < b -> (key (r.1.1 !!! r.1.2) <= key (r.1.1 !!! k))%Z).
Proof.
  intros Hab Hb Hp Hg. unfold sort.partition_func.
  set (d0 := sort.Swap d a pivot).
  assert (L0 : length d0 = length d) by apply Swap_length.
  assert (G0 : Forall good d0) by (unfold d0; rewrite Swap_perm by lia; done).
  assert (S0 : swapped a b d d0) by (apply swapped_one; lia).
  destruct (scan_up_spec (S (b - 1) - (a + 1)) d0 a (a + 1) (b - 1))
    as (U1 & U2 & U3 & U4); [lia | lia | lia | done |].
  set (i1 := sort.scan_up less (S (b - 1) - (a + 1)) d0 a (a + 1) (b - 1)) in *. clearbody i1.
  destruct (scan_down_spec (S (b - 1) - i1) d0 a i1 (b - 1)) as (D1 & D2 & D3 & D4);
    [lia | lia | lia | lia | done |].
  set (j1 := sort.scan_down less (S (b - 1) - i1) d0 a i1 (b - 1)) in *. clearbody j1.
  specialize (U2 ltac:(lia)). specialize (D2 ltac:(lia)).
  destruct (Nat.ltb_spec j1 i1) as [Hlt|Hge]; cbn [fst snd].
  - split; [|split; [lia|split]].
    + eapply swapped_trans; [exact S0|]. apply swapped_one; lia.
    + intros k Hk. rewrite !Swap_lookup by lia. swap_cases.
    + intros k Hk. rewrite !Swap_lookup by lia. swap_cases.
  - specialize (U4 ltac:(lia)). specialize (D4 ltac:(lia)).
    assert (Hne : i1 <> j1) by (intros E; rewrite E in U4; lia).
    pose proof (partition_loop_spec b (b - a) (sort.Swap d0 i1 j1) a (S i1) (j1 - 1)) as HL.
    destruct (sort.partition_loop less (b - a) (sort.Swap d0 i1 j1) a (S i1) (j1 - 1))
      as [d2 j2].
    destruct HL as (I1 & I2 & I3 & I4).
    + lia.
    + lia.
    + lia.
    + lia.
    + by rewrite Swap_length, L0.
    + rewrite Swap_perm by lia. done.
    + intros k Hk. rewrite !Swap_lookup by lia. swap_cases.
    + intros k Hk. rewrite !Swap_lookup by lia. swap_cases.
    + cbn [fst snd] in *.
      rewrite Swap_lookup in I3, I4 by lia.
      rewrite decide_False in I3, I4 by lia. rewrite decide_False in I3, I4 by lia.
      assert (L2 : length d2 = length d).
      { rewrite (swapped_length _ _ _ _ I1), Swap_length. done. }
      assert (E2 : d2 !!! a = d0 !!! a).
      { rewrite (swapped_outside _ _ _ _ a I1) by lia.
        rewrite Swap_lookup by lia. by rewrite !decide_False by lia. }
      split; [|split; [lia|split]].
      * eapply swapped_trans; [exact S0|].
        apply (swapped_step a b d0 _ i1 j1); [lia | lia | lia |].
        eapply swapped_trans; [apply (swapped_mono (S a) b a b); [lia | lia | | exact I1]|].
        -- rewrite Swap_length. lia.
        -- apply swapped_one; lia.
      * intros k Hk. rewrite !Swap_lookup by lia. rewrite E2. swap_cases.
      * intros k Hk. rewrite !Swap_lookup by lia. rewrite E2. swap_cases.
Qed.

(** The loop of [partitionEqual_func]. *)
Lemma partitionEqual_loop_spec (b : nat) (fuel : nat) :
  forall (d : list A) (a i j : nat),
    S j - i <= fuel -> a < i -> i <= S j -> j < b -> b <= length d -> Forall good d ->
    (forall k, a < k < i -> (key (d !!! k) <= key (d !!! a))%Z) ->
    (forall k, j < k < b -> (key (d !!! a) < key (d !!! k))%Z) ->
    let r := sort.partitionEqual_loop less fuel d a i j in
    swapped (S a) b d r.1
    /\ a < r.2 <= b
    /\ (forall k, a < k < r.2 -> (key (r.1 !!! k) <= key (d !!! a))%Z)
    /\ (forall k, r.2 <= k < b -> (key (d !!! a) < key (r.1 !!! k))%Z).
Proof.
  induction fuel as [|fuel IH]; intros d a i j Hf Hai Hij Hjb Hb Hg HL HR;
    cbn [sort.partitionEqual_loop].
  - cbn [fst snd]. split; [constructor|]. split; [lia|].
    split; [done | intros; apply HR; lia].
  - destruct (scan_up_eq_spec (S j - i) d a i j) as (U1 & U2 & U3 & U4);
      [lia | lia | lia | done |].
    set (i1 := sort.scan_up_eq less (S j - i) d a i j) in *. clearbody i1.
    destruct (scan_down_eq_spec (S j - i1) d a i1 j) as (D1 & D2 & D3 & D4);
      [lia | lia | lia | lia | done |].
    set (j1 := sort.scan_down_eq less (S j - i1) d a i1 j) in *. clearbody j1.
    specialize (U2 ltac:(lia)). specialize (D2 ltac:(lia)).
    assert (HL1 : forall k, a < k < i1 -> (key (d !!! k) <= key (d !!! a))%Z).
    { intros k Hk. destruct (decide (k < i)); [apply HL | apply U3]; lia. }
    assert (HR1 : forall k, j1 < k < b -> (key (d !!! a) < key (d !!! k))%Z).
    { intros k Hk. destruct (decide (j < k)); [apply HR | apply D3]; lia. }
    destruct (Nat.ltb_spec j1 i1) as [Hlt|Hge]; cbn [fst snd].
    + split; [constructor|]. split; [lia|].
      split; [done | intros; apply HR1; lia].
    + specialize (U4 ltac:(lia)). specialize (D4 ltac:(lia)).
      assert (Hne : i1 <> j1) by (intros E; rewrite E in U4; lia).
      destruct (IH (sort.Swap d i1 j1) a (S i1) (j1 - 1)) as (I1 & I2 & I3 & I4).
      * lia.
      * lia.
      * lia.
      * lia.
      * by rewrite Swap_length.
      * rewrite Swap_perm by lia. done.
      * intros k Hk. rewrite !Swap_lookup by lia. swap_cases.
      * intros k Hk. rewrite !Swap_lookup by lia. swap_cases.
      * rewrite Swap_lookup in I3, I4 by lia.
        rewrite decide_False in I3, I4 by lia. rewrite decide_False in I3, I4 by lia.
        split; [|split; [lia|done]].
        apply (swapped_step (S a) b d _ i1 j1); [lia | lia | lia | done].
Qed.

(** [partitionEqual_func] gathers the elements that do not exceed the
    pivot before the returned index. *)
Lemma partitionEqual_spec (d : list A) (a b pivot : nat) :
  a < b -> b <= length d -> a <= pivot < b -> Forall good d ->
  let r := sort.partitionEqual_func less d a b pivot in
  swapped a b d r.1
  /\ a < r.2 <= b
  /\ (forall k, a <= k < r.2 -> (key (r.1 !!! k) <= key (d !!! pivot))%Z)
  /\ (forall k, r.2 <= k < b -> (key (d !!! pivot) < key (r.1 !!! k))%Z).
Proof.
  intros Hab Hb Hp Hg. unfold sort.partitionEqual_func.
  set (d0 := sort.Swap d a pivot).
  assert (L0 : length d0 = length d) by apply Swap_length.
  assert (G0 : Forall good d0) by (unfold d0; rewrite Swap_perm by lia; done).
  assert (S0 : swapped a b d d0) by (apply swapped_one; lia).
  assert (E0 : d0 !!! a = d !!! pivot).
  { unfold d0. rewrite Swap_lookup by lia. by rewrite decide_True. }
  destruct (partitionEqual_loop_spec b (b - a) d0 a (a + 1) (b - 1))
    as (I1 & I2 & I3 & I4); try done; try lia.
  rewrite E0 in I3, I4.
  set (r := sort.partitionEqual_loop less (b - a) d0 a (a + 1) (b - 1)) in *.
  split; [|split; [lia|split; [|done]]].
  - eapply swapped_trans; [exact S0|].
    apply (swapped_mono (S a) b a b); [lia | lia | lia | done].
  - intros k Hk. destruct (decide (k = a)) as [->|]; [|apply I3; lia].
    rewrite (swapped_outside _ _ _ _ a I1) by lia. rewrite E0. lia.
Qed.
End SortPartition.

(** ** [sort.Slice]: pivots and patterns *)

Section SortPivot.
Context {A : Type} `{Inhabited A}.
Variable less : A -> A -> bool.
#[local] Open Scope nat_scope.

Lemma bits_Len_bounds (n : nat) :
  0 < n -> n < 2 ^ sort.bits_Len n /\ 2 ^ sort.bits_Len n <= 2 * n.
Proof.
  intros Hn. unfold sort.bits_Len. destruct n as [|n]; [lia|].
  destruct (Nat.log2_spec (S n) ltac:(lia)) as [H1 H2].
  rewrite Nat.pow_succ_r' in *. lia.
Qed.

Lemma breakPatterns_loop_swapped (n : nat) :
  forall (d : list A) (a b idx i : nat) (random : Z),
    0 < b - a -> b <= length d -> a <= idx - 1 + i -> idx - 1 + i + n <= b ->
    swapped a b d (sort.breakPatterns_loop n d a (b - a) idx i random).
Proof.
  induction n as [|n IH]; intros d a b idx i random Hab Hb Hlo Hhi; [constructor|].
  cbn [sort.breakPatterns_loop].
  set (r := sort.xorshift_Next random).
  set (other0 := Z.to_nat (Z.land r (Z.of_nat (sort.nextPowerOfTwo (b - a)) - 1))).
  set (other := if b - a <=? other0 then other0 - (b - a) else other0).
  assert (Hother : other < b - a).
  { destruct (bits_Len_bounds (b - a) Hab) as [B1 B2].
    assert (H0 : other0 < 2 ^ sort.bits_Len (b - a)).
    { unfold other0, sort.nextPowerOfTwo.
      rewrite Nat2Z.inj_pow. change (Z.of_nat 2) with 2%Z.
      replace (2 ^ Z.of_nat (sort.bits_Len (b - a)) - 1)%Z
        with (Z.ones (Z.of_nat (sort.bits_Len (b - a)))) by (rewrite Z.ones_equiv; lia).
      rewrite Z.land_ones by lia.
      pose proof (Z.mod_pos_bound r (2 ^ Z.of_nat (sort.bits_Len (b - a))) ltac:(lia)) as Hm.
      apply Nat2Z.inj_lt. rewrite Z2Nat.id by lia.
      rewrite Nat2Z.inj_pow. change (Z.of_nat 2) with 2%Z. lia. }
    unfold other. destruct (Nat.leb_spec (b - a) other0); lia. }
  apply (swapped_step a b d _ (idx - 1 + i) (a + other)); [lia | lia | done |].
  replace (idx - 1 + S i) with (idx - 1 + i + 1) in IH by lia.
  apply IH; [done | by rewrite Swap_length | lia | lia].
Qed.

Lemma breakPatterns_swapped (d : list A) (a b : nat) :
  b <= length d -> swapped a b d (sort.breakPatterns_func d a b).
Proof.
  intros Hb. unfold sort.breakPatterns_func.
  destruct (Nat.leb_spec 8 (b - a)) as [H8|H8]; [|constructor].
  assert (Hq : 2 <= (b - a) / 4) by (apply Nat.div_le_lower_bound; lia).
  assert (Hq' : 4 * ((b - a) / 4) <= b - a) by (apply Nat.Div0.mul_div_le).
  apply breakPatterns_loop_swapped; lia.
Qed.

Lemma reverse_loop_swapped (a b : nat) (fuel : nat) :
  forall (d : list A) (i j : nat),
    a <= i -> j < b -> b <= length d ->
    swapped a b d (sort.reverse_loop fuel d i j).
Proof.
  induction fuel as [|fuel IH]; intros d i j Hi Hj Hb; [constructor|].
  cbn [sort.reverse_loop]. destruct (Nat.ltb_spec i j) as [Hij|Hij]; [|constructor].
  apply (swapped_step a b d _ i j); [lia | lia | done |].
  apply IH; [lia | lia | by rewrite Swap_length].
Qed.

Lemma reverseRange_swapped (d : list A) (a b : nat) :
  a < b -> b <= length d -> swapped a b d (sort.reverseRange_func d a b).
Proof. intros Hab Hb. apply reverse_loop_swapped; lia. Qed.

Lemma order2_in (d : list A) (a b swaps : nat) :
  let r := sort.order2_func less d a b swaps in
  (r.1.1 = a /\ r.1.2 = b) \/ (r.1.1 = b /\ r.1.2 = a).
Proof. unfold sort.order2_func. destruct (sort.Less _ _ _ _); cbn; auto. Qed.

Lemma median_in (d : list A) (a b c swaps : nat) :
  let r := sort.median_func less d a b c swaps in
  r.1 = a \/ r.1 = b \/ r.1 = c.
Proof.
  unfold sort.median_func.
  pose proof (order2_in d a b swaps) as H1.
  destruct (sort.order2_func less d a b swaps) as [[a1 b1] s1]. cbn [fst snd] in H1.
  pose proof (order2_in d b1 c s1) as H2.
  destruct (sort.order2_func less d b1 c s1) as [[b2 c2] s2]. cbn [fst snd] in H2.
  pose proof (order2_in d a1 b2 s2) as H3.
  destruct (sort.order2_func less d a1 b2 s2) as [[a3 b3] s3]. cbn [fst snd] in H3.
  cbn [fst]. lia.
Qed.

(** The pivot is an index of the segment. *)
Lemma choosePivot_range (d : list A) (a b : nat) :
  a < b -> a <= (sort.choosePivot_func less d a b).1 < b.
Proof.
  intros Hab. unfold sort.choosePivot_func.
  remember (b - a) as l eqn:El.
  assert (Hq' : 4 * (l / 4) <= l) by (apply Nat.Div0.mul_div_le).
  assert (Hout : forall (js : nat * nat), a <= js.1 < b ->
            a <= (let '(j, swaps) := js in
                  if swaps =? 0 then (j, sort.increasingHint)
                  else if swaps =? sort.maxSwaps then (j, sort.decreasingHint)
                  else (j, sort.unknownHint)).1 < b).
  { intros [j sw] Hj. cbn [fst] in Hj. by destruct (sw =? 0), (sw =? sort.maxSwaps). }
  apply Hout.
  destruct (Nat.leb_spec 8 l) as [H8|H8]; [|cbn [fst]; lia].
  assert (Hq : 2 <= l / 4) by (apply Nat.div_le_lower_bound; lia).
  destruct (Nat.leb_spec sort.shortestNinther l) as [H50|H50].
  - unfold sort.shortestNinther in H50.
    assert (Hq50 : 12 <= l / 4) by (apply Nat.div_le_lower_bound; lia).
    unfold sort.medianAdjacent_func.
    pose proof (median_in d (a + l / 4 * 1 - 1) (a + l / 4 * 1) (a + l / 4 * 1 + 1) 0) as M1.
    destruct (sort.median_func less d (a + l / 4 * 1 - 1) _ _ 0) as [i1 s1].
    pose proof (median_in d (a + l / 4 * 2 - 1) (a + l / 4 * 2) (a + l / 4 * 2 + 1) s1) as M2.
    destruct (sort.median_func less d (a + l / 4 * 2 - 1) _ _ s1) as [j1 s2].
    pose proof (median_in d (a + l / 4 * 3 - 1) (a + l / 4 * 3) (a + l / 4 * 3 + 1) s2) as M3.
    destruct (sort.median_func less d (a + l / 4 * 3 - 1) _ _ s2) as [k1 s3].
    cbn [fst] in M1, M2, M3.
    pose proof (median_in d i1 j1 k1 s3) as M4. cbv zeta in M4. lia.
  - pose proof (median_in d (a + l / 4 * 1) (a + l / 4 * 2) (a + l / 4 * 3) 0) as M4.
    cbv zeta in M4. lia.
Qed.
End SortPivot.

(** ** [sort.Slice]: the partial insertion sort *)

Section SortPartial.
Context {A : Type} `{Inhabited A}.
Variable less : A -> A -> bool.
Variable key : A -> Z.
Variable good : A -> Prop.
Hypothesis less_key : forall x y, good x -> good y -> less x y = (key x <? key y)%Z.
#[local] Open Scope nat_scope.

Lemma skip_sorted_spec (fuel : nat) :
  forall (d : list A) (i b : nat),
    b - i <= fuel -> 1 <= i -> b <= length d -> Forall good d ->
    let i' := sort.skip_sorted less fuel d i b in
    i <= i' /\ (i <= b -> i' <= b)
    /\ (forall k, i <= k < i' -> (key (d !!! (k - 1)%nat) <= key (d !!! k))%Z)
    /\ (i' < b -> (key (d !!! i') < key (d !!! (i' - 1)%nat))%Z).
Proof.
  induction fuel as [|fuel IH]; intros d i b Hf Hi Hb Hg; cbn [sort.skip_sorted].
  - split; [done|]. split; [done|]. split; [intros; lia | intros; lia].
  - destruct (Nat.ltb_spec i b) as [Hib|Hib]; cbn [andb].
    + rewrite (Less_key less key good less_key) by (done || lia).
      destruct (Z.ltb_spec (key (d !!! i)) (key (d !!! (i - 1)%nat))) as [Hlt|Hge]; cbn [negb].
      * split; [done|]. split; [done|]. split; [intros; lia | done].
      * destruct (IH d (S i) b ltac:(lia) ltac:(lia) Hb Hg) as (I1 & I2 & I3 & I4).
        split; [lia|]. split; [intros; apply I2; lia|]. split; [|done].
        intros k Hk. destruct (decide (k = i)) as [->|]; [done | apply I3; lia].
    + split; [done|]. split; [done|]. split; [intros; lia | intros; lia].
Qed.

Lemma sorted_seg_extend (d : list A) (a i i' : nat) :
  a < i -> i <= i' -> sorted_seg key d a i ->
  (forall k, i <= k < i' -> (key (d !!! (k - 1)%nat) <= key (d !!! k))%Z) ->
  sorted_seg key d a i'.
Proof.
  intros Hai Hii Hs Hadj.
  assert (Hn : forall n, sorted_seg key d a (Nat.min i' (i + n))).
  { induction n as [|n IHn].
    - intros p q Hp Hpq Hq. apply Hs; lia.
    - intros p q Hp Hpq Hq.
      destruct (decide (q < Nat.min i' (i + n))) as [Hq'|Hq']; [by apply IHn|].
      destruct (decide (p = q)) as [->|Hne]; [lia|].
      pose proof (IHn p (q - 1) Hp ltac:(lia) ltac:(lia)).
      pose proof (Hadj q ltac:(lia)). lia. }
  specialize (Hn (i' - i)). by replace (Nat.min i' (i + (i' - i))) with i' in Hn by lia.
Qed.

(** In front of a segment whose elements no element before it exceeds,
    the shift to the left stops at the segment, like [insert_loop]. *)
Lemma shift_left_insert (a b : nat) (j : nat) :
  forall d : list A,
    a <= j < b -> b <= length d -> Forall good d -> prefix_le key d a b ->
    sort.shift_left less d j = sort.insert_loop less d a j.
Proof.
  induction j as [|j' IH]; intros d Hj Hb Hg Hp; [done|].
  cbn [sort.shift_left sort.insert_loop].
  rewrite (Less_key less key good less_key) by (done || lia).
  destruct (Nat.ltb_spec a (S j')) as [Ha|Ha]; cbn [andb].
  - destruct (Z.ltb_spec (key (d !!! S j')) (key (d !!! j'))); cbn [negb]; [|done].
    apply IH; [lia | by rewrite Swap_length | by rewrite Swap_perm by lia |].
    apply (swapped_prefix_le key a b d); [|done]. apply swapped_one; lia.
  - assert (a = S j') as -> by lia.
    pose proof (Hp j' (S j') ltac:(lia) ltac:(lia) ltac:(lia)).
    by rewrite (proj2 (Z.ltb_ge _ _)) by done.
Qed.

Lemma shift_right_swapped (lo b : nat) (fuel : nat) :
  forall (d : list A) (j : nat),
    lo < j -> b <= length d ->
    swapped lo b d (sort.shift_right less fuel d j b).
Proof.
  induction fuel as [|fuel IH]; intros d j Hj Hb; [constructor|].
  cbn [sort.shift_right]. destruct (Nat.leb_spec b j) as [Hbj|Hbj]; [constructor|].
  destruct (negb _); [constructor|].
  apply (swapped_step lo b d _ j (j - 1)); [lia | lia | done |].
  apply IH; [lia | by rewrite Swap_length].
Qed.

Lemma partialInsertion_loop_spec (a b : nat) (steps : nat) :
  forall (d : list A) (i : nat),
    a < i -> i <= b -> b <= length d -> Forall good d ->
    prefix_le key d a b -> sorted_seg key d a i ->
    let r := sort.partialInsertion_loop less steps d a b i in
    swapped a b d r.1 /\ (r.2 = true -> sorted_seg key r.1 a b).
Proof.
  induction steps as [|steps IH]; intros d i Hai Hib Hb Hg Hp Hs;
    cbn [sort.partialInsertion_loop].
  - split; [constructor | done].
  - destruct (skip_sorted_spec (b - i) d i b) as (K1 & K2 & K3 & K4);
      [lia | lia | done | done |].
    set (i1 := sort.skip_sorted less (b - i) d i b) in *. clearbody i1.
    specialize (K2 Hib).
    pose proof (sorted_seg_extend d a i i1 Hai K1 Hs K3) as Hs1.
    destruct (Nat.eqb_spec i1 b) as [->|Hne]; [split; [constructor | done]|].
    destruct (b - a <? sort.shortestShifting); [split; [constructor | done]|].
    set (d1 := sort.Swap d i1 (i1 - 1)).
    assert (W1 : swapped a b d d1) by (apply swapped_one; lia).
    assert (L1 : length d1 = length d) by apply Swap_length.
    set (d2 := if 2 <=? i1 - a then sort.shift_left less d1 (i1 - 1) else d1).
    assert (W2 : swapped a i1 d1 d2 /\ sorted_seg key d2 a i1).
    { unfold d2. destruct (Nat.leb_spec 2 (i1 - a)) as [H2|H2].
      - rewrite (shift_left_insert a b); [|lia|lia| |].
        + destruct (insert_loop_spec less key good less_key a (i1 - 1) d1 (i1 - 1))
            as [P1 P2]; [lia | lia | | | | |].
          * by apply (swapped_Forall _ _ _ _ _ W1).
          * intros p q Hp' Hpq Hq. unfold d1. rewrite !Swap_lookup by lia.
            rewrite !decide_False by lia. apply Hs1; lia.
          * intros p q Hp' Hpq Hq. replace q with p by lia. lia.
          * intros p q Hp' Hq. lia.
          * by replace (S (i1 - 1)) with i1 in P1, P2 by lia.
        + by apply (swapped_Forall _ _ _ _ _ W1).
        + by apply (swapped_prefix_le key a b d).
      - split; [constructor|]. intros p q Hp' Hpq Hq. replace q with p by lia. lia. }
    destruct W2 as [W2 Hs2].
    assert (L2 : length d2 = length d) by (by rewrite (swapped_length _ _ _ _ W2)).
    set (d3 := if 2 <=? b - i1 then sort.shift_right less (b - i1) d2 (i1 + 1) b else d2).
    assert (W3 : swapped i1 b d2 d3).
    { unfold d3. destruct (2 <=? b - i1); [|constructor].
      apply shift_right_swapped; lia. }
    assert (W : swapped a b d d3).
    { eapply swapped_trans; [exact W1|]. eapply swapped_trans.
      - apply (swapped_mono a i1 a b); [lia | lia | lia | exact W2].
      - apply (swapped_mono i1 b a b); [lia | lia | lia | exact W3]. }
    destruct (IH d3 i1) as [I1 I2].
    + lia.
    + lia.
    + rewrite (swapped_length _ _ _ _ W). done.
    + by apply (swapped_Forall _ _ _ _ _ W).
    + by apply (swapped_prefix_le key a b d).
    + apply (swapped_sorted_outside key i1 b a i1 d2); [done | lia | done].
    + split; [|done]. eapply swapped_trans; [exact W | exact I1].
Qed.

Lemma partialInsertionSort_spec (d : list A) (a b : nat) :
  a < b -> b <= length d -> Forall good d -> prefix_le key d a b ->
  let r := sort.partialInsertionSort_func less d a b in
  swapped a b d r.1 /\ (r.2 = true -> sorted_seg key r.1 a b).
Proof.
  intros Hab Hb Hg Hp. unfold sort.partialInsertionSort_func.
  apply partialInsertion_loop_spec; try done; try lia.
  intros p q Hp' Hpq Hq. replace q with p by lia. lia.
Qed.
End SortPartial.

(** ** [sort.Slice]: heap sort *)

Section SortHeap.
Context {A : Type} `{Inhabited A}.
Variable less : A -> A -> bool.
Variable key : A -> Z.
Variable good : A -> Prop.
Hypothesis less_key : forall x y, good x -> good y -> less x y = (key x <? key y)%Z.
#[local] Open Scope nat_scope.

(** [siftDown]: all nodes from [lo] on but [root] are in order, and no
    child of [root] exceeds the parent of [root]. *)
Lemma siftDown_loop_spec (first hi lo : nat) (fuel : nat) :
  forall (d : list A) (root : nat),
    hi - root <= fuel -> lo <= root -> first + hi <= length d -> Forall good d ->
    (forall n, lo <= n < hi -> n <> root -> heap_at key d first hi n) ->
    (forall p c, lo <= p -> (root = 2 * p + 1 \/ root = 2 * p + 2) ->
                 (c = 2 * root + 1 \/ c = 2 * root + 2) -> c < hi ->
                 (key (d !!! (first + c)%nat) <= key (d !!! (first + p)%nat))%Z) ->
    swapped first (first + hi) d (sort.siftDown_loop less fuel d root hi first)
    /\ heap_from key (sort.siftDown_loop less fuel d root hi first) first lo hi.
Proof.
  induction fuel as [|fuel IH]; intros d root Hf Hlo Hl Hg H1 H2;
    cbn [sort.siftDown_loop].
  - split; [constructor|]. intros n Hn. apply H1; lia.
  - destruct (Nat.leb_spec hi (2 * root + 1)) as [Hleaf|Hchild].
    { split; [constructor|]. intros n Hn.
      destruct (decide (n = root)) as [->|Hne]; [|by apply H1].
      intros c Hc Hch. lia. }
    set (child := if (2 * root + 1 + 1 <? hi)
                       && sort.Less less d (first + (2 * root + 1)) (first + (2 * root + 1) + 1)
                  then 2 * root + 1 + 1 else 2 * root + 1).
    assert (Hchild' : (child = 2 * root + 1 \/ child = 2 * root + 2) /\ child < hi
              /\ forall c, (c = 2 * root + 1 \/ c = 2 * root + 2) -> c < hi ->
                           (key (d !!! (first + c)%nat) <= key (d !!! (first + child)%nat))%Z).
    { unfold child. destruct (Nat.ltb_spec (2 * root + 1 + 1) hi) as [H2c|H2c]; cbn [andb].
      - rewrite (Less_key less key good less_key) by (done || lia).
        destruct (Z.ltb_spec (key (d !!! (first + (2 * root + 1))%nat))
                    (key (d !!! (first + (2 * root + 1) + 1)%nat))) as [Hlt|Hge].
        + split; [lia|]. split; [lia|]. intros c [->| ->] Hc.
          * replace (first + (2 * root + 1 + 1)) with (first + (2 * root + 1) + 1) by lia. lia.
          * replace (first + (2 * root + 2)) with (first + (2 * root + 1 + 1)) by lia. lia.
        + split; [lia|]. split; [lia|]. intros c [->| ->] Hc; [lia|].
          replace (first + (2 * root + 2)) with (first + (2 * root + 1) + 1) by lia. lia.
      - split; [lia|]. split; [lia|]. intros c [->| ->] Hc; lia. }
    clearbody child. destruct Hchild' as (Hc1 & Hc2 & Hc3).
    rewrite (Less_key less key good less_key) by (done || lia).
    destruct (Z.ltb_spec (key (d !!! (first + root)%nat)) (key (d !!! (first + child)%nat)))
      as [Hlt|Hge]; cbn [negb].
    + destruct (IH (sort.Swap d (first + root) (first + child)) child) as [I1 I2].
      * lia.
      * lia.
      * by rewrite Swap_length.
      * rewrite Swap_perm by lia. done.
      * intros n Hn Hnc c Hc Hch. rewrite !Swap_lookup by lia.
        destruct (decide (n = root)) as [->|Hnr].
        -- pose proof (Hc3 c Hc Hch). swap_cases.
        -- pose proof (H1 n Hn Hnr c Hc Hch) as Hheap.
           destruct (decide (c = root)) as [->|Hcr].
           ++ pose proof (H2 n child ltac:(lia) Hc Hc1 Hc2). swap_cases.
           ++ swap_cases.
      * intros p c Hp Hpc Hc Hch. rewrite !Swap_lookup by lia.
        assert (p = root) as -> by lia.
        pose proof (H1 child ltac:(lia) ltac:(lia) c Hc Hch). swap_cases.
      * split; [|done].
        apply (swapped_step first (first + hi) d _ (first + root) (first + child));
          [lia | lia | done | done].
    + split; [constructor|]. intros n Hn.
      destruct (decide (n = root)) as [->|Hne]; [|by apply H1].
      intros c Hc Hch. pose proof (Hc3 c Hc Hch). lia.
Qed.

Lemma heapify_loop_spec (first hi : nat) (n : nat) :
  forall d : list A,
    n <= hi -> first + hi <= length d -> Forall good d ->
    heap_from key d first n hi ->
    swapped first (first + hi) d (sort.heapify_loop less n d hi first)
    /\ heap_from key (sort.heapify_loop less n d hi first) first 0 hi.
Proof.
  induction n as [|i IH]; intros d Hn Hl Hg Hh; cbn [sort.heapify_loop].
  - split; [constructor | done].
  - unfold sort.siftDown_func.
    destruct (siftDown_loop_spec first hi i hi d i) as [S1 S2]; try done; try lia.
    + intros n Hn' Hne. apply Hh. lia.
    + destruct (IH (sort.siftDown_loop less hi d i hi first)) as [I1 I2].
      * lia.
      * by rewrite (swapped_length _ _ _ _ S1).
      * by apply (swapped_Forall _ _ _ _ _ S1).
      * done.
      * split; [|done]. eapply swapped_trans; [exact S1 | exact I1].
Qed.

(** The root of a heap exceeds none of its nodes. *)
Lemma heap_max (first hi : nat) (d : list A) :
  heap_from key d first 0 hi ->
  forall p, p < hi -> (key (d !!! (first + p)%nat) <= key (d !!! (first + 0)%nat))%Z.
Proof.
  intros Hh p. induction (lt_wf p) as [p _ IHp]. intros Hp.
  destruct p as [|p]; [lia|].
  set (q := p / 2).
  assert (Hq : S p = 2 * q + 1 \/ S p = 2 * q + 2).
  { unfold q. pose proof (Nat.div_mod_eq p 2).
    pose proof (Nat.mod_upper_bound p 2 ltac:(lia)). lia. }
  pose proof (Hh q ltac:(lia) (S p) Hq Hp).
  pose proof (IHp q ltac:(lia) ltac:(lia)). lia.
Qed.

Lemma popheap_loop_spec (first hi : nat) (n : nat) :
  forall d : list A,
    n <= hi -> first + hi <= length d -> Forall good d ->
    heap_from key d first 0 n ->
    sorted_seg key d (first + n) (first + hi) ->
    (forall p q, p < n -> n <= q < hi ->
                 (key (d !!! (first + p)%nat) <= key (d !!! (first + q)%nat))%Z) ->
    swapped first (first + hi) d (sort.popheap_loop less n d first)
    /\ sorted_seg key (sort.popheap_loop less n d first) first (first + hi).
Proof.
  induction n as [|i IH]; intros d Hn Hl Hg Hh Hs Hle; cbn [sort.popheap_loop].
  - split; [constructor|]. by rewrite Nat.add_0_r in Hs.
  - pose proof (heap_max first (S i) d Hh) as Hmax.
    set (d1 := sort.Swap d first (first + i)).
    assert (W1 : swapped first (first + hi) d d1) by (apply swapped_one; lia).
    assert (L1 : length d1 = length d) by apply Swap_length.
    assert (G1 : Forall good d1) by (by apply (swapped_Forall _ _ _ _ _ W1)).
    unfold sort.siftDown_func.
    destruct (siftDown_loop_spec first i 0 i d1 0) as [S1 S2]; try done; try lia.
    { intros n Hn' Hne c Hc Hch. unfold d1. rewrite !Swap_lookup by lia.
      pose proof (Hh n ltac:(lia) c Hc ltac:(lia)). swap_cases. }
    set (d2 := sort.siftDown_loop less i d1 0 i first) in *.
    assert (W2 : swapped first (first + hi) d1 d2).
    { apply (swapped_mono first (first + i)); [lia | lia | lia | done]. }
    assert (E2 : forall q, i <= q -> d2 !!! (first + q)%nat = d1 !!! (first + q)%nat).
    { intros q Hq. apply (swapped_outside _ _ _ _ _ S1). lia. }
    assert (B2 : forall p, p < i ->
              (key (d2 !!! (first + p)%nat) <= key (d !!! (first + 0)%nat))%Z
              /\ forall q, S i <= q < hi ->
                   (key (d2 !!! (first + p)%nat) <= key (d !!! (first + q)%nat))%Z).
    { intros p Hp.
      apply (swapped_seg_forall
               (fun x => (key x <= key (d !!! (first + 0)%nat))%Z
                         /\ forall q, S i <= q < hi -> (key x <= key (d !!! (first + q)%nat))%Z)
               first (first + i) d1 d2 S1); [|lia].
      intros k Hk. replace k with (first + (k - first)) by lia.
      unfold d1. rewrite !Swap_lookup by lia. split.
      - pose proof (Hmax i ltac:(lia)). pose proof (Hmax (k - first) ltac:(lia)).
        rewrite Nat.add_0_r in *. swap_cases.
      - intros q Hq. pose proof (Hle i q ltac:(lia) ltac:(lia)).
        pose proof (Hle (k - first) q ltac:(lia) ltac:(lia)). swap_cases. }
    assert (E1 : d1 !!! (first + i)%nat = d !!! (first + 0)%nat).
    { unfold d1. rewrite Swap_lookup by lia. rewrite Nat.add_0_r.
      destruct (decide (i = 0)) as [->|Hi0]; [by rewrite Nat.add_0_r; case_decide|].
      swap_cases; done. }
    assert (E1' : forall q, S i <= q < hi -> d1 !!! (first + q)%nat = d !!! (first + q)%nat).
    { intros q Hq. unfold d1. rewrite Swap_lookup by lia. swap_cases; done. }
    destruct (IH d2) as [I1 I2].
    + lia.
    + by rewrite (swapped_length _ _ _ _ S1), L1.
    + by apply (swapped_Forall _ _ _ _ _ S1).
    + done.
    + intros p q Hp Hpq Hq.
      replace p with (first + (p - first)) by lia.
      replace q with (first + (q - first)) by lia.
      rewrite !E2 by lia.
      destruct (decide (p = first + i)) as [->|Hpi].
      * replace (first + i - first) with i by lia. rewrite E1.
        destruct (decide (q = first + i)) as [->|Hqi].
        -- replace (first + i - first) with i by lia. rewrite E1. lia.
        -- rewrite E1' by lia. apply Hle; lia.
      * rewrite !E1' by lia. apply Hs; lia.
    + intros p q Hp Hq. destruct (B2 p Hp) as [B21 B22].
      rewrite (E2 q) by lia.
      destruct (decide (q = i)) as [->|Hqi]; [by rewrite E1|].
      rewrite E1' by lia. apply B22. lia.
    + split; [|done].
      eapply swapped_trans; [exact W1|]. eapply swapped_trans; [exact W2 | exact I1].
Qed.

Lemma heapSort_spec (d : list A) (a b : nat) :
  a <= b -> b <= length d -> Forall good d ->
  swapped a b d (sort.heapSort_func less d a b)
  /\ sorted_seg key (sort.heapSort_func less d a b) a b.
Proof.
  intros Hab Hb Hg. unfold sort.heapSort_func.
  set (hi := b - a).
  assert (Hq : 2 * ((hi - 1) / 2) <= hi - 1) by (apply Nat.Div0.mul_div_le).
  assert (Hq' : hi - 1 < 2 * ((hi - 1) / 2) + 2).
  { pose proof (Nat.div_mod_eq (hi - 1) 2).
    pose proof (Nat.mod_upper_bound (hi - 1) 2 ltac:(lia)). lia. }
  destruct (decide (hi = 0)) as [Hz|Hnz].
  - rewrite Hz. cbn. unfold sort.siftDown_func. cbn.
    split; [constructor|]. intros p q Hp Hpq Hq2. unfold hi in Hz. lia.
  - destruct (heapify_loop_spec a hi ((hi - 1) / 2 + 1) d) as [P1 P2].
    + lia.
    + unfold hi. lia.
    + done.
    + intros n Hn c Hc Hch. lia.
    + set (d1 := sort.heapify_loop less ((hi - 1) / 2 + 1) d hi a) in *.
      destruct (popheap_loop_spec a hi hi d1) as [Q1 Q2].
      * lia.
      * rewrite (swapped_length _ _ _ _ P1). unfold hi. lia.
      * by apply (swapped_Forall _ _ _ _ _ P1).
      * done.
      * intros p q Hp Hpq Hq2. lia.
      * intros p q Hp Hq2. lia.
      * replace (a + hi) with b in * by (unfold hi; lia).
        split; [|done]. eapply swapped_trans; [exact P1 | exact Q1].
Qed.
End SortHeap.

(** ** [sort.Slice]: the pattern-defeating quicksort *)

Section SortPdq.
Context {A : Type} `{Inhabited A}.
Variable less : A -> A -> bool.
Variable key : A -> Z.
Variable good : A -> Prop.
Hypothesis less_key : forall x y, good x -> good y -> less x y = (key x <? key y)%Z.
#[local] Open Scope nat_scope.

Lemma swapped_keeps (a b : nat) (d d' : list A) :
  swapped a b d d' -> b <= length d -> Forall good d -> prefix_le key d a b ->
  b <= length d' /\ Forall good d' /\ prefix_le key d' a b.
Proof.
  intros Hs Hb Hg Hp. split; [by rewrite (swapped_length _ _ _ _ Hs)|].
  split; [by apply (swapped_Forall _ _ _ _ _ Hs) | by apply (swapped_prefix_le _ _ _ _ _ Hs)].
Qed.

(** After [partitionEqual] the elements before [mid] all have the key of
    the pivot, so sorting the rest sorts the segment. *)
Lemma pdqsort_equal_tail (a b pivot mid : nat) (d d5 d6 : list A) :
  0 < a -> a < b -> b <= length d -> a <= pivot < b -> Forall good d ->
  prefix_le key d a b ->
  sort.Less less d (a - 1) pivot = false ->
  swapped a b d d5 -> a < mid <= b ->
  (forall k, a <= k < mid -> (key (d5 !!! k) <= key (d !!! pivot))%Z) ->
  (forall k, mid <= k < b -> (key (d !!! pivot) < key (d5 !!! k))%Z) ->
  prefix_le key d5 mid b
  /\ (swapped mid b d5 d6 -> sorted_seg key d6 mid b -> sorted_seg key d6 a b).
Proof.
  intros Ha Hab Hb Hp Hg Hpre Hless S5 Hmid Hle Hgt.
  destruct (swapped_keeps a b d d5 S5 Hb Hg Hpre) as (L5 & G5 & P5).
  rewrite (Less_key less key good less_key) in Hless by (done || lia).
  apply Z.ltb_ge in Hless.
  assert (Hlow : forall k, a <= k < b -> (key (d !!! pivot) <= key (d5 !!! k))%Z).
  { intros k Hk. pose proof (P5 (a - 1) k ltac:(lia) ltac:(lia) ltac:(lia)) as Hk'.
    rewrite (swapped_outside _ _ _ _ (a - 1) S5) in Hk' by lia. lia. }
  split.
  - intros p q Hp' Hq1 Hq2. destruct (decide (p < a)) as [Hpa|Hpa].
    + apply P5; lia.
    + pose proof (Hle p ltac:(lia)). pose proof (Hgt q ltac:(lia)). lia.
  - intros S6 Hs i j Hi Hij Hj.
    destruct (decide (mid <= i)) as [Him|Him]; [apply Hs; lia|].
    rewrite (swapped_outside _ _ _ _ i S6) by lia.
    pose proof (Hle i ltac:(lia)) as Hi'.
    destruct (decide (mid <= j)) as [Hjm|Hjm].
    + assert (key (d !!! pivot) < key (d6 !!! j))%Z; [|lia].
      apply (swapped_seg_forall (fun x => (key (d !!! pivot) < key x)%Z) _ _ _ _ S6);
        [|lia]. intros k Hk. apply Hgt. lia.
    + rewrite (swapped_outside _ _ _ _ j S6) by lia.
      pose proof (Hle j ltac:(lia)). pose proof (Hlow j ltac:(lia)).
      pose proof (Hlow i ltac:(lia)). lia.
Qed.

(** After [partition] the two sides of the pivot are sorted apart, in
    either order. *)
Lemma pdqsort_sides (a b mid : nat) (d5 : list A) :
  a <= mid < b -> b <= length d5 -> prefix_le key d5 a b ->
  (forall k, a <= k < mid -> (key (d5 !!! k) < key (d5 !!! mid))%Z) ->
  (forall k, mid < k < b -> (key (d5 !!! mid) <= key (d5 !!! k))%Z) ->
  prefix_le key d5 a mid /\ prefix_le key d5 (mid + 1) b
  /\ (forall d6, swapped a mid d5 d6 -> prefix_le key d6 (mid + 1) b)
  /\ (forall d6, swapped (mid + 1) b d5 d6 -> prefix_le key d6 a mid)
  /\ forall d6 d7 : list A,
       (swapped a mid d5 d6 /\ sorted_seg key d6 a mid
        /\ swapped (mid + 1) b d6 d7 /\ sorted_seg key d7 (mid + 1) b)
       \/ (swapped (mid + 1) b d5 d6 /\ sorted_seg key d6 (mid + 1) b
           /\ swapped a mid d6 d7 /\ sorted_seg key d7 a mid) ->
       swapped a b d5 d7 /\ sorted_seg key d7 a b.
Proof.
  intros Hmid Hb Hpre Hlt Hge.
  assert (P1 : prefix_le key d5 a mid).
  { intros p q Hp Hq1 Hq2. apply Hpre; lia. }
  assert (P2 : prefix_le key d5 (mid + 1) b).
  { intros p q Hp Hq1 Hq2. pose proof (Hge q ltac:(lia)).
    destruct (decide (p < a)) as [Hpa|Hpa]; [apply Hpre; lia|].
    destruct (decide (p = mid)) as [->|Hpm]; [done|].
    pose proof (Hlt p ltac:(lia)). lia. }
  assert (R2 : forall d6, swapped a mid d5 d6 -> prefix_le key d6 (mid + 1) b).
  { intros d6 S6 p q Hp Hq1 Hq2. rewrite (swapped_outside _ _ _ _ q S6) by lia.
    pose proof (Hge q ltac:(lia)).
    destruct (decide (p < a)) as [Hpa|Hpa].
    { rewrite (swapped_outside _ _ _ _ p S6) by lia. apply Hpre; lia. }
    destruct (decide (p = mid)) as [->|Hpm].
    { by rewrite (swapped_outside _ _ _ _ mid S6) by lia. }
    assert (key (d6 !!! p) < key (d5 !!! mid))%Z; [|lia].
    apply (swapped_seg_forall (fun x => (key x < key (d5 !!! mid))%Z) _ _ _ _ S6);
      [done | lia]. }
  assert (R1 : forall d6, swapped (mid + 1) b d5 d6 -> prefix_le key d6 a mid).
  { intros d6 S6 p q Hp Hq1 Hq2. rewrite !(swapped_outside _ _ _ _ _ S6) by lia.
    apply Hpre; lia. }
  split; [done|]. split; [done|]. split; [done|]. split; [done|].
  intros d6 d7 [(S6 & T6 & S7 & T7)|(S6 & T6 & S7 & T7)].
  - assert (L6 : length d6 = length d5) by apply (swapped_length _ _ _ _ S6).
    assert (W : swapped a b d5 d7).
    { apply (swapped_trans _ _ _ d6).
      - apply (swapped_mono a mid); [lia | lia | lia | done].
      - apply (swapped_mono (mid + 1) b); [lia | lia | lia | done]. }
    assert (M6 : forall k, a <= k < mid -> (key (d6 !!! k) < key (d5 !!! mid))%Z).
    { intros k Hk.
      by apply (swapped_seg_forall (fun x => (key x < key (d5 !!! mid))%Z) _ _ _ _ S6). }
    split; [done|].
    intros i j Hi Hij Hj.
    assert (N7 : forall k, mid < k < b -> (key (d5 !!! mid) <= key (d7 !!! k))%Z).
    { intros k Hk.
      apply (swapped_seg_forall (fun x => (key (d5 !!! mid) <= key x)%Z) _ _ _ _ S7);
        [|lia]. intros k' Hk'. rewrite (swapped_outside _ _ _ _ k' S6) by lia.
      apply Hge. lia. }
    assert (E7 : forall k, k <= mid -> d7 !!! k = d6 !!! k).
    { intros k Hk. apply (swapped_outside _ _ _ _ k S7). lia. }
    assert (Em : d7 !!! mid = d5 !!! mid).
    { rewrite E7 by lia. apply (swapped_outside _ _ _ _ mid S6). lia. }
    destruct (decide (mid < i)) as [Hi'|Hi']; [apply T7; lia|].
    destruct (decide (j < mid)) as [Hj'|Hj']; [rewrite !E7 by lia; apply T6; lia|].
    assert (key (d7 !!! i) <= key (d5 !!! mid))%Z.
    { destruct (decide (i = mid)) as [->|Him]; [by rewrite Em|].
      rewrite E7 by lia. pose proof (M6 i ltac:(lia)). lia. }
    assert (key (d5 !!! mid) <= key (d7 !!! j))%Z; [|lia].
    destruct (decide (j = mid)) as [->|Hjm]; [by rewrite Em|]. apply N7. lia.
  - assert (L6 : length d6 = length d5) by apply (swapped_length _ _ _ _ S6).
    assert (W : swapped a b d5 d7).
    { apply (swapped_trans _ _ _ d6).
      - apply (swapped_mono (mid + 1) b); [lia | lia | lia | done].
      - apply (swapped_mono a mid); [lia | lia | lia | done]. }
    split; [done|].
    intros i j Hi Hij Hj.
    assert (N6 : forall k, mid < k < b -> (key (d5 !!! mid) <= key (d6 !!! k))%Z).
    { intros k Hk.
      apply (swapped_seg_forall (fun x => (key (d5 !!! mid) <= key x)%Z) _ _ _ _ S6);
        [|lia]. intros k' Hk'. apply Hge. lia. }
    assert (M7 : forall k, a <= k < mid -> (key (d7 !!! k) < key (d5 !!! mid))%Z).
    { intros k Hk.
      apply (swapped_seg_forall (fun x => (key x < key (d5 !!! mid))%Z) _ _ _ _ S7);
        [|lia]. intros k' Hk'. rewrite (swapped_outside _ _ _ _ k' S6) by lia.
      apply Hlt. lia. }
    assert (E7 : forall k, mid <= k -> d7 !!! k = d6 !!! k).
    { intros k Hk. apply (swapped_outside _ _ _ _ k S7). lia. }
    assert (Em : d7 !!! mid = d5 !!! mid).
    { rewrite E7 by lia. apply (swapped_outside _ _ _ _ mid S6). lia. }
    destruct (decide (mid < i)) as [Hi'|Hi']; [rewrite !E7 by lia; apply T6; lia|].
    destruct (decide (j < mid)) as [Hj'|Hj']; [apply T7; lia|].
    assert (key (d7 !!! i) <= key (d5 !!! mid))%Z.
    { destruct (decide (i = mid)) as [->|Him]; [by rewrite Em|].
      pose proof (M7 i ltac:(lia)). lia. }
    assert (key (d5 !!! mid) <= key (d7 !!! j))%Z; [|lia].
    destruct (decide (j = mid)) as [->|Hjm]; [by rewrite Em|].
    rewrite E7 by lia. apply N6. lia.
Qed.

(** [pdqsort_func] sorts the segment from [a] to [b - 1] by exchanges
    inside it, when no element before the segment exceeds one of it. *)
Lemma pdqsort_spec (fuel : nat) :
  forall (d : list A) (a b limit : nat) (wasBalanced wasPartitioned : bool),
    b - a < fuel -> a <= b -> b <= length d -> Forall good d -> prefix_le key d a b ->
    swapped a b d (sort.pdqsort_func less fuel d a b limit wasBalanced wasPartitioned)
    /\ sorted_seg key
         (sort.pdqsort_func less fuel d a b limit wasBalanced wasPartitioned) a b.
Proof.
  induction fuel as [|fuel IH]; intros d a b limit wb wp Hf Hab Hb Hg Hpre; [lia|].
  cbn [sort.pdqsort_func]. cbv zeta.
  destruct (Nat.leb_spec (b - a) sort.maxInsertion) as [Hsmall|Hbig].
  { by apply (insertionSort_spec less key good less_key). }
  unfold sort.maxInsertion in Hbig.
  destruct (Nat.eqb_spec limit 0) as [Hlim|Hlim].
  { by apply (heapSort_spec less key good less_key). }
  (* breakPatterns *)
  set (s1 := if negb wb then (sort.breakPatterns_func d a b, limit - 1) else (d, limit)).
  assert (W1 : swapped a b d s1.1).
  { unfold s1. destruct wb; cbn [negb fst]; [constructor|].
    by apply breakPatterns_swapped. }
  clearbody s1. destruct s1 as [d1 limit1]. cbn [fst] in W1.
  destruct (swapped_keeps a b d d1 W1 Hb Hg Hpre) as (L1 & G1 & P1).
  (* choosePivot *)
  pose proof (choosePivot_range less d1 a b ltac:(lia)) as Hpiv.
  destruct (sort.choosePivot_func less d1 a b) as [pivot hint]. cbn [fst] in Hpiv.
  (* reverseRange *)
  set (s3 := if sort.hint_eqb hint sort.decreasingHint
             then (sort.reverseRange_func d1 a b, b - 1 - (pivot - a), sort.increasingHint)
             else (d1, pivot, hint)).
  assert (W3 : swapped a b d1 s3.1.1 /\ a <= s3.1.2 < b).
  { unfold s3. destruct (sort.hint_eqb hint sort.decreasingHint); cbn [fst snd].
    - split; [apply reverseRange_swapped; lia | lia].
    - split; [constructor | done]. }
  clearbody s3. destruct s3 as [[d3 pivot3] hint3]. cbn [fst snd] in W3.
  destruct W3 as [W3 Hpiv3].
  destruct (swapped_keeps a b d1 d3 W3 L1 G1 P1) as (L3 & G3 & P3).
  (* partialInsertionSort *)
  set (s4 := if wb && wp && sort.hint_eqb hint3 sort.increasingHint
             then sort.partialInsertionSort_func less d3 a b else (d3, false)).
  assert (W4 : swapped a b d3 s4.1 /\ (s4.2 = true -> sorted_seg key s4.1 a b)).
  { unfold s4. destruct (wb && wp && sort.hint_eqb hint3 sort.increasingHint).
    - apply (partialInsertionSort_spec less key good less_key); (done || lia).
    - cbn [fst snd]. split; [constructor | done]. }
  clearbody s4. destruct s4 as [d4 done4]. cbn [fst snd] in W4.
  destruct W4 as [W4 T4].
  destruct (swapped_keeps a b d3 d4 W4 L3 G3 P3) as (L4 & G4 & P4).
  assert (W : swapped a b d d4).
  { eapply swapped_trans; [exact W1|]. eapply swapped_trans; [exact W3 | exact W4]. }
  destruct done4; [by split; [|apply T4]|]. clear T4.
  destruct ((0 <? a) && negb (sort.Less less d4 (a - 1) pivot3)) eqn:Heq.
  - (* partitionEqual *)
    apply andb_true_iff in Heq as [Ha Hless].
    apply Nat.ltb_lt in Ha. apply negb_true_iff in Hless.
    pose proof (partitionEqual_spec less key good less_key d4 a b pivot3
                  ltac:(lia) L4 Hpiv3 G4) as Hpe.
    cbv zeta in Hpe.
    destruct (sort.partitionEqual_func less d4 a b pivot3) as [d5 mid].
    cbn [fst snd] in Hpe. destruct Hpe as (W5 & Hmid & Hle & Hgt).
    destruct (swapped_keeps a b d4 d5 W5 L4 G4 P4) as (L5 & G5 & P5).
    destruct (pdqsort_equal_tail a b pivot3 mid d4 d5
                (sort.pdqsort_func less fuel d5 mid b limit1 wb wp))
      as [Q5 Hfin]; try done; try lia.
    destruct (IH d5 mid b limit1 wb wp) as [I1 I2]; try done; try lia.
    split; [|by apply Hfin].
    eapply swapped_trans; [exact W|]. eapply swapped_trans; [exact W5|].
    apply (swapped_mono mid b); [lia | lia | lia | done].
  - (* partition *)
    clear Heq.
    pose proof (partition_spec less key good less_key d4 a b pivot3
                  ltac:(lia) L4 Hpiv3 G4) as Hpa.
    cbv zeta in Hpa.
    destruct (sort.partition_func less d4 a b pivot3) as [[d5 mid] ap].
    cbn [fst snd] in Hpa. destruct Hpa as (W5 & Hmid & Hlt & Hge).
    destruct (swapped_keeps a b d4 d5 W5 L4 G4 P4) as (L5 & G5 & P5).
    destruct (pdqsort_sides a b mid d5 Hmid L5 P5 Hlt Hge) as (Q1 & Q2 & R2 & R1 & Hfin).
    destruct (mid - a <? b - mid).
    + destruct (IH d5 a mid limit1 true true) as [I1 I2]; try done; try lia.
      set (d6 := sort.pdqsort_func less fuel d5 a mid limit1 true true) in *.
      set (wb' := (b - a) / 8 <=? mid - a). clearbody wb'.
      destruct (IH d6 (mid + 1) b limit1 wb' ap) as [J1 J2]; try lia.
      * rewrite (swapped_length _ _ _ _ I1). lia.
      * by apply (swapped_Forall _ _ _ _ _ I1).
      * by apply R2.
      * destruct (Hfin d6 (sort.pdqsort_func less fuel d6 (mid + 1) b limit1 wb' ap))
          as [F1 F2]; [by left|].
        split; [|done]. eapply swapped_trans; [exact W|].
        eapply swapped_trans; [exact W5 | exact F1].
    + destruct (IH d5 (mid + 1) b limit1 true true) as [I1 I2]; try done; try lia.
      set (d6 := sort.pdqsort_func less fuel d5 (mid + 1) b limit1 true true) in *.
      set (wb' := (b - a) / 8 <=? b - mid). clearbody wb'.
      destruct (IH d6 a mid limit1 wb' ap) as [J1 J2]; try lia.
      * rewrite (swapped_length _ _ _ _ I1). lia.
      * by apply (swapped_Forall _ _ _ _ _ I1).
      * by apply R1.
      * destruct (Hfin d6 (sort.pdqsort_func less fuel d6 a mid limit1 wb' ap))
          as [F1 F2]; [by right|].
        split; [|done]. eapply swapped_trans; [exact W|].
        eapply swapped_trans; [exact W5 | exact F1].
Qed.

(** [sort.Slice] returns its argument in ascending order of the keys. *)
Lemma Slice_spec (x : list A) :
  Forall good x ->
  swapped 0 (length x) x (sort.Slice less x)
  /\ sorted_seg key (sort.Slice less x) 0 (length x).
Proof.
  intros Hg. unfold sort.Slice. cbv zeta.
  apply pdqsort_spec; try done; try lia.
  intros p q Hp. lia.
Qed.
End SortPdq.

(** ** [sortProcesses] (main.go, 105-109) *)

Lemma cpu_less_key (x y : ProcessInfo) :
  cpu_known x -> cpu_known y ->
  (CPU y <? CPU x)%float = (cpu_key x <? cpu_key y).
Proof.
  unfold cpu_known, cpu_key. intros Nx Ny. rewrite ltb_val by done.
  destruct (Z.ltb_spec (fval (CPU y)) (fval (CPU x))),
           (Z.ltb_spec (- fval (CPU x)) (- fval (CPU y))); lia.
Qed.

Lemma sortProcesses_spec (pl : ProcessList) :
  Forall cpu_known (Processes pl) ->
  Processes (sortProcesses pl) ≡ₚ Processes pl
  /\ sorted_seg cpu_key (Processes (sortProcesses pl)) 0 (length (Processes pl)).
Proof.
  intros Hg. cbn [sortProcesses Processes].
  destruct (Slice_spec _ cpu_key cpu_known cpu_less_key (Processes pl) Hg) as [S1 S2].
  split; [by apply (swapped_perm _ _ _ _ S1) | done].
Qed.

(** X13.  When no CPU share is NaN, [sortProcesses] returns the same
    processes, each as often as before, and none of them stands after a
    process of a smaller CPU share; the rectangle, the column widths and
    the rows of the table are left as they were. *)
Theorem sortProcesses_descending (pl : ProcessList) :
  Forall cpu_known (Processes pl) ->
  Processes (sortProcesses pl) ≡ₚ Processes pl
  /\ descending (Processes (sortProcesses pl))
  /\ ProcessListRect (sortProcesses pl) = ProcessListRect pl
  /\ ColumnWidths (sortProcesses pl) = ColumnWidths pl
  /\ Rows (sortProcesses pl) = Rows pl.
Proof.
  intros Hg. destruct (sortProcesses_spec pl Hg) as [Hperm Hsort].
  split; [done|]. split; [|done].
  intros i j pi pj Hij Hi Hj.
  assert (Hg' : Forall cpu_known (Processes (sortProcesses pl))) by (by rewrite Hperm).
  pose proof (lookup_lt_Some _ _ _ Hj) as Hlt. rewrite Hperm in Hlt.
  pose proof (Hsort i j ltac:(lia) Hij Hlt) as Hle.
  rewrite (list_lookup_total_correct _ _ _ Hi), (list_lookup_total_correct _ _ _ Hj) in Hle.
  rewrite leb_val.
  - apply Z.leb_le. unfold cpu_key in Hle. lia.
  - exact (proj1 (Forall_lookup _ _) Hg' j pj Hj).
  - exact (proj1 (Forall_lookup _ _) Hg' i pi Hi).
Qed.

(** X14.  Up to 12 processes, when no CPU share is NaN, [sortProcesses]
    keeps the processes of one CPU share in the order in which they were
    collected. *)
Theorem sortProcesses_stable_12 (pl : ProcessList) :
  (length (Processes pl) <= 12)%nat -> Forall cpu_known (Processes pl) ->
  stable_wrt cpu_key (Processes pl) (Processes (sortProcesses pl)).
Proof.
  intros Hlen Hg. cbn [sortProcesses Processes].
  rewrite Slice_small by done.
  by apply (insertionSort_stable _ cpu_key cpu_known cpu_less_key).
Qed.

(** X15.  From 13 processes on [sortProcesses] can change the order of
    processes of one CPU share: of twelve idle processes and a busy one
    collected last, the idle ones are not listed in the order in which
    they were collected. *)
Theorem sortProcesses_unstable_13 :
  exists pl : ProcessList,
    length (Processes pl) = 13%nat
    /\ Forall cpu_known (Processes pl)
    /\ ~ stable_wrt cpu_key (Processes pl) (Processes (sortProcesses pl)).
Proof.
  exists (mkProcessList (Rect 0 0 80 24) [] []
            (((fun n => mkProcessInfo (Z.of_nat n) "idle" 0 0 "idle") <$> seq 0 12)
             ++ [mkProcessInfo 12 "busy" 5 0 "busy"])).
  split; [reflexivity|]. split.
  - cbn [Processes]. apply Forall_forall. intros p Hp.
    apply elem_of_app in Hp as [Hp|Hp].
    + apply list_elem_of_fmap in Hp as (n & -> & _). reflexivity.
    + apply list_elem_of_singleton in Hp as ->. reflexivity.
  - intros Hst. specialize (Hst 0).
    apply (f_equal (fmap PID)) in Hst. vm_compute in Hst. discriminate.
Qed.

Lemma sortProcesses_descending_witness :
  let pl := mkProcessList (Rect 0 36 80 23) [16; 8; 8; 48] []
              [mkProcessInfo 1 "init" 0.5 0.1 "/sbin/init";
               mkProcessInfo 7 "sshd" 0 0.2 "sshd";
               mkProcessInfo 9 "cc1" 97.5 3 "cc1 -O2";
               mkProcessInfo 11 "top" 0.5 0.1 "top"] in
  Processes (sortProcesses pl) ≡ₚ Processes pl
  /\ descending (Processes (sortProcesses pl))
  /\ ProcessListRect (sortProcesses pl) = ProcessListRect pl
  /\ ColumnWidths (sortProcesses pl) = ColumnWidths pl
  /\ Rows (sortProcesses pl) = Rows pl.
Proof.
  intros pl. apply (sortProcesses_descending pl).
  repeat constructor.
Defined.

Lemma sortProcesses_stable_12_witness :
  let pl := mkProcessList (Rect 0 36 80 23) [16; 8; 8; 48] []
              [mkProcessInfo 1 "init" 0.5 0.1 "/sbin/init";
               mkProcessInfo 7 "sshd" 0 0.2 "sshd";
               mkProcessInfo 9 "cc1" 97.5 3 "cc1 -O2";
               mkProcessInfo 11 "top" 0.5 0.1 "top"] in
  stable_wrt cpu_key (Processes pl) (Processes (sortProcesses pl)).
Proof.
  intros pl. apply (sortProcesses_stable_12 pl).
  - cbn. lia.
  - repeat constructor.
Defined.

(** ** The order of the process table (main.go, 105-109) *)

Lemma sorted_descending (r : list ProcessInfo) :
  Forall cpu_known r -> sorted_seg cpu_key r 0 (length r) -> descending r.
Proof.
  intros Hg Hsort i j pi pj Hij Hi Hj.
  pose proof (lookup_lt_Some _ _ _ Hj) as Hlt.
  pose proof (Hsort i j ltac:(lia) Hij Hlt) as Hle.
  rewrite (list_lookup_total_correct _ _ _ Hi), (list_lookup_total_correct _ _ _ Hj) in Hle.
  rewrite leb_val.
  - apply Z.leb_le. unfold cpu_key in Hle. lia.
  - exact (proj1 (Forall_lookup _ _) Hg j pj Hj).
  - exact (proj1 (Forall_lookup _ _) Hg i pi Hi).
Qed.

(** C3, as the code has it.  When no CPU share is a NaN, [sortProcesses]
    returns the collected processes, each as often as before, in
    descending order of the CPU share; up to 12 processes, those of one
    CPU share keep the order in which they were collected. *)
Theorem C3_sort_descending (pl : ProcessList) :
  Forall cpu_known (Processes pl) ->
  Processes (sortProcesses pl) ≡ₚ Processes pl
  /\ descending (Processes (sortProcesses pl))
  /\ ((length (Processes pl) <= 12)%nat ->
      stable_wrt cpu_key (Processes pl) (Processes (sortProcesses pl))).
Proof.
  intros Hg. destruct (sortProcesses_spec pl Hg) as [Hperm Hsort].
  split; [done|]. split.
  - apply sorted_descending; [by rewrite Hperm|].
    by rewrite (Permutation_length Hperm).
  - intros Hlen. cbn [sortProcesses Processes].
    rewrite Slice_small by done.
    by apply (insertionSort_stable _ cpu_key cpu_known cpu_less_key).
Qed.

Lemma C3_sort_descending_witness :
  let pl := mkProcessList (Rect 0 36 80 23) [16; 8; 8; 48] []
              [mkProcessInfo 1 "init" 0.5 0.1 "/sbin/init";
               mkProcessInfo 7 "sshd" 0 0.2 "sshd";
               mkProcessInfo 9 "cc1" 97.5 3 "cc1 -O2";
               mkProcessInfo 11 "top" 0.5 0.1 "top"] in
  Processes (sortProcesses pl) ≡ₚ Processes pl
  /\ descending (Processes (sortProcesses pl))
  /\ ((length (Processes pl) <= 12)%nat ->
      stable_wrt cpu_key (Processes pl) (Processes (sortProcesses pl))).
Proof.
  intros pl. apply (C3_sort_descending pl). repeat constructor.
Defined.

(** C3, as the claim words it, fails: of twelve idle processes and a
    busy one collected last, the idle ones are not listed in the order in
    which they were collected. *)
Lemma C3_counterexample :
  ~ (forall pl : ProcessList,
       Forall cpu_known (Processes pl) ->
       descending (Processes (sortProcesses pl))
       /\ stable_wrt cpu_key (Processes pl) (Processes (sortProcesses pl))).
Proof.
  intros Hclaim.
  destruct (Hclaim (mkProcessList (Rect 0 0 80 24) [] []
              (((fun n => mkProcessInfo (Z.of_nat n) "idle" 0 0 "idle") <$> seq 0 12)
               ++ [mkProcessInfo 12 "busy" 5 0 "busy"]))) as [_ Hst].
  - cbn [Processes]. apply Forall_forall. intros p Hp.
    apply elem_of_app in Hp as [Hp|Hp].
    + apply list_elem_of_fmap in Hp as (n & -> & _). reflexivity.
    + apply list_elem_of_singleton in Hp as ->. reflexivity.
  - specialize (Hst 0).
    apply (f_equal (fmap PID)) in Hst. vm_compute in Hst. discriminate.
Qed.

(** ** The process table on a narrow terminal *)

Lemma commandWidth_lt_3 (dx : Z) :
  0 <= dx <= 6 -> commandWidth_of dx < 3.
Proof.
  intros Hdx.
  assert (Hcases : dx = 0 \/ dx = 1 \/ dx = 2 \/ dx = 3 \/ dx = 4 \/ dx = 5 \/ dx = 6)
    by lia.
  destruct Hcases as [->|[->|[->|[->|[->|[->| ->]]]]]]; by vm_compute.
Qed.

Lemma getProcessInfo_collected (procs : list Process) (p : Process) (info : ProcessInfo) :
  p ∈ procs -> getProcessInfo p = Some info -> info ∈ omap getProcessInfo procs.
Proof. intros Hp Hinfo. apply list_elem_of_omap. by exists p. Qed.

(** X16.  On a table of at most 6 columns [ProcessList.update] panics as
    soon as the command of a collected process is longer than the command
    column: [formatCommand] slices the command at a negative index.  The
    CPU shares are supposed not to be NaN. *)
Theorem ProcessList_update_narrow `{Formatter}
    (process_Processes : Resp (list Process)) (pl : ProcessList)
    (p : Process) (info : ProcessInfo) :
  0 <= Dx (ProcessListRect pl) <= 6 ->
  failed process_Processes = false ->
  Forall cpu_known (omap getProcessInfo (val process_Processes)) ->
  p ∈ val process_Processes -> getProcessInfo p = Some info ->
  strlen (Command info) > commandWidth_of (Dx (ProcessListRect pl)) ->
  ProcessList_update process_Processes pl = panic.
Proof.
  intros Hdx Hf Hg Hp Hinfo Hlong.
  pose proof (commandWidth_lt_3 _ Hdx) as Hw. unfold commandWidth_of in *.
  unfold ProcessList_update, collectProcessInfo.
  cbn [ProcessListRect updateColumnWidths]. rewrite Hf.
  destruct (sortProcesses_spec
              (mkProcessList (ProcessListRect pl) [] []
                 (omap getProcessInfo (val process_Processes))) Hg) as [Hperm _].
  cbn [sortProcesses ProcessListRect Processes ColumnWidths Rows] in *.
  set (w := int_of_float64 _) in *.
  assert (Hnone : mapM (process_row w)
                    (sort.Slice (fun pi pj => (CPU pj <? CPU pi)%float)
                       (omap getProcessInfo (val process_Processes))) = None).
  { apply mapM_None. apply Exists_exists. exists info. split.
    - rewrite Hperm. by apply (getProcessInfo_collected _ p).
    - unfold process_row, formatCommand.
      rewrite decide_True by done. rewrite decide_False by lia. done. }
  by rewrite Hnone.
Qed.

Lemma ProcessList_update_narrow_witness :
  let init := mkProcess 1 (mkResp "init" false) (mkResp 0.5%float false)
                (mkResp 0.1%float false) (mkResp "/sbin/init" false) in
  let resp := mkResp [init] false in
  let pl := createProcessList 0 36 6 23 in
  ProcessList_update (H := integer_formatter) resp pl = panic.
Proof.
  intros init resp pl.
  apply (ProcessList_update_narrow (H := integer_formatter) resp pl init
           (mkProcessInfo 1 "init" 0.5 0.1 "/sbin/init")).
  - by vm_compute.
  - reflexivity.
  - repeat constructor.
  - apply list_elem_of_singleton. reflexivity.
  - reflexivity.
  - by vm_compute.
Defined.

(** ** The layout after a resize (main.go, 316-380) *)

Lemma Rect_ordered (x0 y0 x1 y1 : Z) :
  x0 <= x1 -> y0 <= y1 -> Rect x0 y0 x1 y1 = mkRect x0 y0 x1 y1.
Proof. intros Hx Hy. unfold Rect. f_equal; lia. Qed.

Lemma createCPUGauges_title (cpu_Counts : Resp Z) (width : Z)
    (t : Paragraph) (gs : list CPUGauge) (h : Z) :
  createCPUGauges cpu_Counts width = ok (t, gs, h) -> ParagraphRect t = Rect 0 3 width 4.
Proof.
  unfold createCPUGauges.
  destruct (decide (0 <= _)); [|done]. cbn [mbind option_bind ok].
  destruct (assign _ _ _); [|done]. cbn [mbind option_bind].
  destruct (core_gauges_loop _ _ _ _ _); [|done]. cbn [mbind option_bind ok].
  by intros [= <- _ _].
Qed.

(** X17.  A resize stacks the widgets from the top: header, CPU title,
    gauges down to row [h], network text (4 rows), network graph (9),
    disk text (4), disk graph (9).  On a terminal of at least [h + 27]
    rows the process table takes the rows from there to the footer, which
    is the last row.  On a shorter terminal the corners of the process
    table are put in order the other way round, and the table covers
    cells of the disk graph. *)
Theorem resize_layout (cpu_Counts : Resp Z) (width height : Z) (st : Loop) :
  loop_invariant st -> 0 <= cpuCount_of cpu_Counts -> 0 < width ->
  exists st',
    resize cpu_Counts width height st = ok st'
    /\ let h := 7 + 3 * ((cpuCount_of cpu_Counts + 1) / 2) in
       cpuHeight st' = h
       /\ ParagraphRect (header st') = mkRect 0 0 width 3
       /\ ParagraphRect (cpuTitle st') = mkRect 0 3 width 4
       /\ ParagraphRect (netStats st') = mkRect 0 h width (h + 4)
       /\ PlotRect (netGraph st') = mkRect 0 (h + 4) width (h + 13)
       /\ ParagraphRect (diskStats st') = mkRect 0 (h + 13) width (h + 17)
       /\ PlotRect (diskGraph st') = mkRect 0 (h + 17) width (h + 26)
       /\ (h + 26 <= height - 1 ->
           ProcessListRect (processList st') = mkRect 0 (h + 26) width (height - 1)
           /\ ParagraphRect (footer st') = mkRect 0 (height - 1) width height)
       /\ (height - 1 < h + 26 ->
           ~ disjoint_rects (ProcessListRect (processList st')) (PlotRect (diskGraph st'))).
Proof.
  intros (_ & _ & Htx & _ & Hwr & _) Hc Hw.
  destruct (createCPUGauges_lookup cpu_Counts width Hc) as (t & gs & Hrun & _).
  pose proof (createCPUGauges_title _ _ _ _ _ Hrun) as Ht.
  rewrite Z.quot_div_nonneg, Z.mul_comm in Hrun by lia.
  set (h := 7 + 3 * ((cpuCount_of cpu_Counts + 1) / 2)) in *. clearbody h.
  unfold resize. rewrite Hrun. cbn [mbind option_bind ok].
  rewrite (grow_pair_grown _ _ _ Htx). cbn [mbind option_bind ok].
  rewrite (grow_pair_grown _ _ _ Hwr). cbn [mbind option_bind ok].
  eexists. split; [reflexivity|].
  cbn [cpuHeight header cpuTitle netStats netGraph diskStats diskGraph processList footer
       ParagraphRect PlotRect ProcessListRect].
  rewrite Ht.
  rewrite (Rect_ordered 0 0 width 3), (Rect_ordered 0 3 width 4) by lia.
  rewrite (Rect_ordered 0 h width (h + 4)) by lia. cbn [MaxY].
  rewrite (Rect_ordered 0 (h + 4) width (h + 4 + 9)) by lia. cbn [MaxY].
  rewrite (Rect_ordered 0 (h + 4 + 9) width (h + 4 + 9 + 4)) by lia. cbn [MaxY].
  rewrite (Rect_ordered 0 (h + 4 + 9 + 4) width (h + 4 + 9 + 4 + 9)) by lia. cbn [MaxY].
  replace (h + 4 + 9 + 4 + 9) with (h + 26) by lia.
  replace (h + 4 + 9 + 4) with (h + 17) by lia.
  replace (h + 4 + 9) with (h + 13) by lia.
  do 7 (split; [reflexivity|]). split.
  - intros Htall. by rewrite !Rect_ordered by lia.
  - intros Hshort Hdis. apply (Hdis 0 (h + 25)).
    + unfold in_rect, Rect. cbn [MinX MaxX MinY MaxY]. lia.
    + unfold in_rect. cbn [MinX MaxX MinY MaxY]. lia.
Qed.

Lemma resize_layout_witness :
  let cpu_Counts := mkResp 4 false in
  let st := example_loop [1; 2; 3]%float in
  exists st',
    resize cpu_Counts 120 30 st = ok st'
    /\ let h := 7 + 3 * ((cpuCount_of cpu_Counts + 1) / 2) in
       cpuHeight st' = h
       /\ ParagraphRect (header st') = mkRect 0 0 120 3
       /\ ParagraphRect (cpuTitle st') = mkRect 0 3 120 4
       /\ ParagraphRect (netStats st') = mkRect 0 h 120 (h + 4)
       /\ PlotRect (netGraph st') = mkRect 0 (h + 4) 120 (h + 13)
       /\ ParagraphRect (diskStats st') = mkRect 0 (h + 13) 120 (h + 17)
       /\ PlotRect (diskGraph st') = mkRect 0 (h + 17) 120 (h + 26)
       /\ (h + 26 <= 30 - 1 ->
           ProcessListRect (processList st') = mkRect 0 (h + 26) 120 (30 - 1)
           /\ ParagraphRect (footer st') = mkRect 0 (30 - 1) 120 30)
       /\ (30 - 1 < h + 26 ->
           ~ disjoint_rects (ProcessListRect (processList st')) (PlotRect (diskGraph st'))).
Proof.
  intros cpu_Counts st. apply (resize_layout cpu_Counts 120 30 st).
  - unfold loop_invariant. repeat split; try done; vm_compute; discriminate.
  - by vm_compute.
  - lia.
Defined.
